(** * A shallow embedding of the VRP optimisation engine

  The development follows the Python sources module by module:
  [vrp_instance.py], [solution.py], [algorithms/construction_heuristics.py],
  [algorithms/tabu_search.py], [algorithms/simulated_annealing.py] and
  [vrp_solver.py].

  Conventions.
  - Node identifiers, demands, capacities and time-window bounds are Python
    [int]s: [Z].
  - Distances, costs and times are Python [float]s.  They are modelled as
    rationals ([Q]): every finite float is a rational, comparisons are the
    exact ones, and sums are taken without rounding.  [float('inf')] is the
    [None] of an [option Q].
  - Dictionaries keyed by node are [gmap Z _]; a Python [set] of nodes is a
    [gset Z] together with an iteration order.
  - The process-wide [random] module is an explicit source of draws that is
    threaded through every function that uses it. *)

From Stdlib Require Import ZArith QArith Qround Qpower Lqa Lia Bool String.
From stdpp Require Import base option list gmap sets strings.

Local Open Scope Z_scope.

(** ** Comparisons on rationals, as booleans *)

Definition Qltb (a b : Q) : bool := negb (Qle_bool b a).

(** Python's [max(0, x)]: the first argument unless the second is larger. *)
Definition max0 (x : Q) : Q := if Qltb 0 x then x else 0%Q.

(** [x < bound] where [bound] may still be [float('inf')]. *)
Definition below (x : Q) (bound : option Q) : bool :=
  match bound with
  | None => true
  | Some b => Qltb x b
  end.

(** ** The [random] module

    The generator is a sequence of draws and a position in it.  Each library
    call consumes one draw per choice it makes and maps it onto its range, so
    that every outcome Python can produce is the outcome for some sequence. *)

Module Random.

Record t := mk { draws : nat -> nat; pos : nat }.

Definition next (g : t) : nat * t :=
  (draws g (pos g), mk (draws g) (S (pos g))).

(** [random.randint(a, b)] for [a <= b], the only way the sources call it. *)
Definition randint (a b : nat) (g : t) : nat * t :=
  let '(n, g) := next g in ((a + n mod (b - a + 1))%nat, g).

(** [random.choice(l)] on a non-empty list. *)
Definition choice {A} (l : list A) (g : t) : option A * t :=
  let '(n, g) := next g in (l !! (n mod length l)%nat, g).

(** [random.sample(l, k)] for [k <= len(l)]: [k] elements at distinct
    positions, in the order drawn. *)
Fixpoint sample {A} (k : nat) (l : list A) (g : t) : list A * t :=
  match k with
  | O => ([], g)
  | S k' =>
      let '(n, g1) := next g in
      let i := (n mod length l)%nat in
      match l !! i with
      | None => ([], g1)
      | Some x => let '(r, g2) := sample k' (delete i l) g1 in (x :: r, g2)
      end
  end.

(** [random.random()]: a multiple of [2^-53] in [[0, 1)]. *)
Definition random (g : t) : Q * t :=
  let '(n, g) := next g in
  (Z.of_nat n mod 2 ^ 53 # Pos.pow 2 53, g).

End Random.

(** ** Python list operations on routes *)

(** [l.insert(i, x)] for [i >= 0]: before position [i], at the end when [i]
    is past it. *)
Definition py_insert {A} (i : nat) (x : A) (l : list A) : list A :=
  take i l ++ x :: drop i l.

(** [l[i:j]] for [0 <= i]. *)
Definition slice {A} (i j : nat) (l : list A) : list A :=
  take (j - i) (drop i l).

(** [route[:i] + route[i:j+1][::-1] + route[j+1:]] *)
Definition reverse_segment (i j : nat) (route : list Z) : list Z :=
  take i route ++ reverse (slice i (j + 1) route) ++ drop (j + 1) route.

(** [[(route_idx, pos, customer) ...]] over all routes, depot entries left
    out. *)
Definition all_customers (depot : Z) (routes : list (list Z)) : list (nat * nat * Z) :=
  concat (imap (fun route_idx route =>
                  filter (fun e => e.2 ≠ depot)
                         (imap (fun pos customer => (route_idx, pos, customer)) route))
               routes).

(** [routes[r][p] = v] *)
Definition set_node (r p : nat) (v : Z) (routes : list (list Z)) : list (list Z) :=
  alter (fun route => <[p := v]> route) r routes.

(** [l.remove(x)]: the list without its first [x]; [None] is the
    [ValueError] raised when [x] is not in the list. *)
Fixpoint py_remove (x : Z) (l : list Z) : option (list Z) :=
  match l with
  | [] => None
  | y :: l' => if decide (y = x) then Some l' else (y ::.) <$> py_remove x l'
  end.

(** The position that [l[i]] reads in a list of length [n], for any integer
    [i]: negative indices count from the end; [None] is the [IndexError]. *)
Definition py_resolve (n : nat) (i : Z) : option nat :=
  if decide (0 <= i) then
    if decide (i < Z.of_nat n) then Some (Z.to_nat i) else None
  else
    if decide (- Z.of_nat n <= i) then Some (Z.to_nat (Z.of_nat n + i)) else None.

(** [l.insert(i, x)] for any integer [i]: a negative [i] counts from the end,
    and a position outside the list is brought back to its nearest end. *)
Definition list_insert {A} (i : Z) (x : A) (l : list A) : list A :=
  let n := Z.of_nat (length l) in
  let i := if decide (i < 0) then Z.max 0 (n + i) else Z.min i n in
  py_insert (Z.to_nat i) x l.

(** [l[:k]] for any integer [k]. *)
Definition py_prefix {A} (k : Z) (l : list A) : list A :=
  if decide (k < 0) then take (Z.to_nat (Z.of_nat (length l) + k)) l
  else take (Z.to_nat k) l.

(** ** vrp_instance.py *)

Module VRPInstance.

(** The fields of [VRPInstance] that the optimisation engine reads.  A
    distance matrix is a function from two node identifiers to a float;
    [euclidean] is the fallback [np.sqrt((x1 - x2)**2 + (y1 - y2)**2)] over
    the coordinates of the two nodes. *)
Record t := mk {
  capacity : Z;
  depot : Z;
  demands : gmap Z Z;
  distance_matrix : option (Z -> Z -> Q);
  euclidean : Z -> Z -> Q;
  time_windows : gmap Z (Z * Z);
  service_times : gmap Z Z;
  vehicle_count : Z;
  vehicle_capacities : list Z;
  dynamic_distances : list (Z -> Z -> Q)
}.

(** [get_distance(from_node, to_node, time_slot)] *)
Definition get_distance_at (inst : t) (from_node to_node : Z) (time_slot : nat) : Q :=
  match dynamic_distances inst !! time_slot with
  | Some slot => slot from_node to_node
  | None =>
      match distance_matrix inst with
      | Some matrix => matrix from_node to_node
      | None => euclidean inst from_node to_node
      end
  end.

(** [get_distance(from_node, to_node)], with [time_slot=0]. *)
Definition get_distance (inst : t) (from_node to_node : Z) : Q :=
  get_distance_at inst from_node to_node 0.

Definition is_feasible_time_window (inst : t) (customer : Z) (arrival_time : Q) : bool :=
  match time_windows inst !! customer with
  | None => true
  | Some (early, late) =>
      Qle_bool (inject_Z early) arrival_time && Qle_bool arrival_time (inject_Z late)
  end.

Definition get_waiting_time (inst : t) (customer : Z) (arrival_time : Q) : Q :=
  match time_windows inst !! customer with
  | None => 0%Q
  | Some (early, _) => max0 (inject_Z early - arrival_time)
  end.

(** [self.instance.demands.get(c, 0)] and [service_times.get(c, 0)]. *)
Definition demand (inst : t) (c : Z) : Z := default 0 (demands inst !! c).
Definition service_time (inst : t) (c : Z) : Z := default 0 (service_times inst !! c).

(** [set_fleet(vehicle_count, capacity=None, capacities=None)] *)
Definition set_fleet (inst : t) (vehicle_count : Z) (capacity : option Z)
    (capacities : option (list Z)) : t :=
  match capacity, capacities with
  | Some c, _ =>
      mk c (depot inst) (demands inst) (distance_matrix inst) (euclidean inst)
         (time_windows inst) (service_times inst) vehicle_count
         (replicate (Z.to_nat vehicle_count) c) (dynamic_distances inst)
  | None, Some cs =>
      mk (VRPInstance.capacity inst) (depot inst) (demands inst) (distance_matrix inst)
         (euclidean inst) (time_windows inst) (service_times inst) vehicle_count
         (py_prefix vehicle_count cs) (dynamic_distances inst)
  | None, None =>
      mk (VRPInstance.capacity inst) (depot inst) (demands inst) (distance_matrix inst)
         (euclidean inst) (time_windows inst) (service_times inst) vehicle_count
         (replicate (Z.to_nat vehicle_count) 100) (dynamic_distances inst)
  end.

End VRPInstance.

(** ** solution.py *)

Module Solution.

(** A solution as a value.  [routes] is the contents of the list objects the
    attribute refers to, one value per entry.  It stands for a solution whose
    routes are list objects of their own, no object being the route of two
    entries: this is how the construction heuristics build a solution (each
    route is a list just made) and how [copy] and the moves of the two
    searches leave one.  [Store] below models the objects themselves, shared
    ones included. *)
Record t := mk {
  instance : option VRPInstance.t;
  routes : list (list Z);
  total_cost : Q;
  total_distance : Q;
  total_time : Q;
  feasible : bool;
  violations : list string;
  vehicle_loads : list Z;
  route_distances : list Q;
  route_times : list Q
}.

(** [Solution(instance)] *)
Definition new (inst : option VRPInstance.t) : t :=
  mk inst [] 0 0 0 true [] [] [] [].

Definition set_routes (s : t) (rs : list (list Z)) : t :=
  mk (instance s) rs (total_cost s) (total_distance s) (total_time s)
     (feasible s) (violations s) (vehicle_loads s) (route_distances s) (route_times s).

(** [add_route]: the route is closed at the depot on both sides, then
    appended.  [inst] is [self.instance], which the construction heuristics
    set when they create the solution. *)
Definition add_route (inst : VRPInstance.t) (s : t) (route : list Z) : t :=
  let d := VRPInstance.depot inst in
  let route1 :=
    match route with
    | x :: _ => if decide (x = d) then route else d :: route
    | [] => route
    end in
  let route2 :=
    match last route1 with
    | Some y => if decide (y = d) then route1 else route1 ++ [d]
    | None => route1
    end in
  set_routes s (routes s ++ [route2]).

(** The accumulators of the loop of [_calculate_route_metrics]. *)
Record acc := mk_acc { a_distance : Q; a_time : Q; a_load : Z }.

(** One turn of [for i in range(len(route) - 1)]. *)
Definition metrics_step (inst : VRPInstance.t) (route : list Z) (a : acc) (i : nat) : acc :=
  let from_node := nth i route 0 in
  let to_node := nth (S i) route 0 in
  let travel_distance := VRPInstance.get_distance inst from_node to_node in
  let travel_time := travel_distance in
  let distance := (a_distance a + travel_distance)%Q in
  let current_time := (a_time a + travel_time)%Q in
  if decide (to_node = VRPInstance.depot inst) then
    mk_acc distance current_time (a_load a)
  else
    let waiting_time := VRPInstance.get_waiting_time inst to_node current_time in
    let current_time := (current_time + waiting_time)%Q in
    let current_time := (current_time + inject_Z (VRPInstance.service_time inst to_node))%Q in
    mk_acc distance current_time (a_load a + VRPInstance.demand inst to_node).

(** Returns [(cost, distance, time, load)]. *)
Definition _calculate_route_metrics (inst : VRPInstance.t) (route : list Z)
  : Q * Q * Q * Z :=
  if decide (length route < 2)%nat then (0%Q, 0%Q, 0%Q, 0)
  else
    let a := fold_left (metrics_step inst route)
                       (seq 0 (length route - 1)) (mk_acc 0 0 0) in
    (a_distance a, a_distance a, a_time a, a_load a).

(** The totals and per-route lists built by the loop of [calculate_cost]. *)
Record totals := mk_totals {
  t_cost : Q; t_distance : Q; t_time : Q;
  t_route_distances : list Q; t_route_times : list Q; t_vehicle_loads : list Z
}.

Definition cost_step (inst : VRPInstance.t) (tt : totals) (route : list Z) : totals :=
  let '(route_cost, route_distance, route_time, route_load) :=
    _calculate_route_metrics inst route in
  mk_totals (t_cost tt + route_cost)%Q (t_distance tt + route_distance)%Q
            (t_time tt + route_time)%Q
            (t_route_distances tt ++ [route_distance])
            (t_route_times tt ++ [route_time])
            (t_vehicle_loads tt ++ [route_load]).

(** [calculate_cost] returns the cost and leaves the refreshed fields in the
    solution; without an instance it returns [0.0] and touches nothing. *)
Definition calculate_cost (s : t) : Q * t :=
  match instance s with
  | None => (0%Q, s)
  | Some inst =>
      let tt := fold_left (cost_step inst) (routes s) (mk_totals 0 0 0 [] [] []) in
      (t_cost tt,
       mk (instance s) (routes s) (t_cost tt) (t_distance tt) (t_time tt)
          (feasible s) (violations s)
          (t_vehicle_loads tt) (t_route_distances tt) (t_route_times tt))
  end.

(** [copy]: the fields are copied and the routes go through
    [copy.deepcopy].  On routes that are list objects of their own the copy
    holds the same routes in new objects ([StoreFacts.copy_holds]), so that
    as a value the copy is the solution.  [Store.copy] is the copy on the
    objects, with the sharing that [deepcopy] keeps. *)
Definition copy (s : t) : t := s.

(** The sum the specification speaks of: [distance(route[i], route[i+1])]
    over every consecutive pair of a route, and over all routes. *)
Fixpoint consecutive_sum (d : Z -> Z -> Q) (route : list Z) : Q :=
  match route with
  | a :: (b :: _) as rest => (d a b + consecutive_sum d rest)%Q
  | _ => 0%Q
  end.

Fixpoint spec_cost (d : Z -> Z -> Q) (rs : list (list Z)) : Q :=
  match rs with
  | [] => 0%Q
  | r :: rs' => (consecutive_sum d r + spec_cost d rs')%Q
  end.

(** The cost of the solution a search starts from, as both drivers compute it
    on entry: [current_solution = initial_solution.copy();
    current_solution.calculate_cost()]. *)
Definition start_cost (initial_solution : t) : Q :=
  total_cost (calculate_cost (copy initial_solution)).2.

(** *** [is_feasible] *)

(** What the messages appended to [self.violations] report, with the values
    their text is formatted from. *)
Inductive violation :=
| LoadExceedsCapacity (route : nat) (load capacity : Z)
| TimeWindowViolation (route : nat) (customer : Z)
| ServedMultipleTimes (customer : Z)
| UnservedCustomers (unserved : gset Z).

(** The two variables of [is_feasible]: the list [self.violations] and the
    flag [feasible]. *)
Record report := mk_report { r_violations : list violation; r_feasible : bool }.

(** [self.violations.append(...); feasible = False] *)
Definition flag (v : violation) (r : report) : report :=
  mk_report (r_violations r ++ [v]) false.

(** [sum(demands.get(customer, 0) for customer in route if customer != depot)] *)
Definition route_load (inst : VRPInstance.t) (route : list Z) : Z :=
  fold_left Z.add
    (map (VRPInstance.demand inst) (filter (fun c => c ≠ VRPInstance.depot inst) route)) 0.

(** [vehicle_capacities[i] if i < len(vehicle_capacities) else capacity] *)
Definition vehicle_capacity (inst : VRPInstance.t) (i : nat) : Z :=
  match VRPInstance.vehicle_capacities inst !! i with
  | Some c => c
  | None => VRPInstance.capacity inst
  end.

(** The body of the first loop, over [enumerate(self.routes)]. *)
Definition capacity_step (inst : VRPInstance.t) (r : report) (ir : nat * list Z) : report :=
  let load := route_load inst ir.2 in
  let cap := vehicle_capacity inst ir.1 in
  if decide (load > cap) then flag (LoadExceedsCapacity ir.1 load cap) r else r.

(** One turn of [for j in range(len(route) - 1)] of the second loop, on the
    clock of the route and the report. *)
Definition window_step (inst : VRPInstance.t) (i : nat) (route : list Z)
    (st : Q * report) (j : nat) : Q * report :=
  let from_node := nth j route 0 in
  let to_node := nth (S j) route 0 in
  let travel_time := VRPInstance.get_distance inst from_node to_node in
  let current_time := (st.1 + travel_time)%Q in
  if decide (to_node = VRPInstance.depot inst) then (current_time, st.2)
  else
    let r := if VRPInstance.is_feasible_time_window inst to_node current_time
             then st.2 else flag (TimeWindowViolation i to_node) st.2 in
    let current_time :=
      (current_time + VRPInstance.get_waiting_time inst to_node current_time)%Q in
    let current_time :=
      (current_time + inject_Z (VRPInstance.service_time inst to_node))%Q in
    (current_time, r).

Definition window_route (inst : VRPInstance.t) (r : report) (ir : nat * list Z) : report :=
  (fold_left (window_step inst ir.1 ir.2) (seq 0 (length ir.2 - 1)) (0%Q, r)).2.

(** The body of [for customer in route] of the third loop, on the set
    [served_customers] and the report. *)
Definition served_step (inst : VRPInstance.t) (st : gset Z * report) (customer : Z)
  : gset Z * report :=
  if decide (customer = VRPInstance.depot inst) then st
  else
    (st.1 ∪ {[customer]},
     if decide (customer ∈ st.1) then flag (ServedMultipleTimes customer) st.2 else st.2).

(** The three loops and the final test, on the routes of the solution. *)
Definition check (inst : VRPInstance.t) (routes : list (list Z)) : report :=
  let indexed := imap (fun i route => (i, route)) routes in
  let r := fold_left (capacity_step inst) indexed (mk_report [] true) in
  let r := fold_left (window_route inst) indexed r in
  let '(served_customers, r) :=
    fold_left (fun st route => fold_left (served_step inst) route st) routes (∅, r) in
  let all_customers := dom (VRPInstance.demands inst) ∖ {[VRPInstance.depot inst]} in
  let unserved := all_customers ∖ served_customers in
  if decide (unserved = ∅) then r else flag (UnservedCustomers unserved) r.

Section Messages.

(** The text of each message, which the f-strings of [is_feasible] build. *)
Variable message : violation -> string.

(** [is_feasible] returns the flag and leaves it, with the messages, in the
    solution.  [None] is the [AttributeError] raised on a solution that has
    no instance. *)
Definition is_feasible (s : t) : option (bool * t) :=
  match instance s with
  | None => None
  | Some inst =>
      let r := check inst (routes s) in
      Some (r_feasible r,
            mk (instance s) (routes s) (total_cost s) (total_distance s) (total_time s)
               (r_feasible r) (map message (r_violations r))
               (vehicle_loads s) (route_distances s) (route_times s))
  end.

End Messages.

(** *** Editing a solution *)

(** [get_customer_route]: the index of the first route that holds the
    customer. *)
Definition get_customer_route (s : t) (customer : Z) : option nat :=
  fst <$> list_find (fun route => customer ∈ route) (routes s).

(** [remove_customer]; [None] would be the [ValueError] of [list.remove]. *)
Definition remove_customer (s : t) (customer : Z) : option (bool * t) :=
  match get_customer_route s customer with
  | Some route_idx =>
      route ← routes s !! route_idx;
      route ← py_remove customer route;
      Some (true, set_routes s (<[route_idx := route]> (routes s)))
  | None => Some (false, s)
  end.

(** [insert_customer(customer, route_idx, position)]; [None] is the
    [IndexError] of [self.routes[route_idx]]. *)
Definition insert_customer (s : t) (customer route_idx position : Z) : option t :=
  if decide (route_idx < Z.of_nat (length (routes s))) then
    r ← py_resolve (length (routes s)) route_idx;
    route ← routes s !! r;
    let position :=
      if decide (position = 0) then 1
      else if decide (position >= Z.of_nat (length route))
           then Z.of_nat (length route) - 1
           else position in
    Some (set_routes s (<[r := list_insert position customer route]> (routes s)))
  else Some s.

End Solution.

(** ** algorithms/construction_heuristics.py: GreedyConstruction *)

Module GreedyConstruction.

Section Greedy.

(** The order in which Python iterates over a [set]: some enumeration of its
    elements, fixed by the interpreter.  Every function below takes it as a
    parameter; the properties hold for every such order. *)
Variable set_iter : gset Z -> list Z.
Variable inst : VRPInstance.t.

(** The body of [for customer in unvisited] in [_build_route]; the pair is
    [(best_customer, best_distance)]. *)
Definition scan_step (current_node : Z) (current_load : Z) (current_time : Q)
    (vehicle_capacity : Z) (best : option Z * option Q) (customer : Z)
  : option Z * option Q :=
  let demand := VRPInstance.demand inst customer in
  if decide (current_load + demand > vehicle_capacity) then best
  else
    let travel_time := VRPInstance.get_distance inst current_node customer in
    let arrival_time := (current_time + travel_time)%Q in
    let skipped :=
      if negb (VRPInstance.is_feasible_time_window inst customer arrival_time) then
        let waiting_time := VRPInstance.get_waiting_time inst customer arrival_time in
        Qltb 100 waiting_time
      else false in
    if skipped then best
    else
      let distance := VRPInstance.get_distance inst current_node customer in
      if below distance best.2 then (Some customer, Some distance) else best.

(** The local variables of [_build_route], with the caller's [unvisited] set,
    which the function mutates. *)
Record bstate := mk_bstate {
  b_route : list Z;
  b_node : Z;
  b_load : Z;
  b_time : Q;
  b_unvisited : gset Z
}.

(** [while unvisited: ...]; every turn removes one customer or leaves the
    loop, so [fuel] above the size of [unvisited] is never used up. *)
Fixpoint build_loop (vehicle_capacity : Z) (fuel : nat) (st : bstate) : option bstate :=
  match fuel with
  | O => None
  | S fuel' =>
      if decide (b_unvisited st = ∅) then Some st
      else
        let best :=
          fold_left (scan_step (b_node st) (b_load st) (b_time st) vehicle_capacity)
                    (set_iter (b_unvisited st)) (None, None) in
        match best.1 with
        | None => Some st
        | Some best_customer =>
            let route := b_route st ++ [best_customer] in
            let current_load := b_load st + VRPInstance.demand inst best_customer in
            let travel_time :=
              VRPInstance.get_distance inst (b_node st) best_customer in
            let current_time := (b_time st + travel_time)%Q in
            let current_time :=
              (current_time
               + VRPInstance.get_waiting_time inst best_customer current_time)%Q in
            let current_time :=
              (current_time
               + inject_Z (VRPInstance.service_time inst best_customer))%Q in
            build_loop vehicle_capacity fuel'
              (mk_bstate route best_customer current_load current_time
                         (b_unvisited st ∖ {[best_customer]}))
        end
  end.

(** [_build_route(unvisited, vehicle_id)]: the route and the set as the call
    leaves it. *)
Definition _build_route (unvisited : gset Z) (vehicle_id : nat)
  : option (list Z * gset Z) :=
  let depot := VRPInstance.depot inst in
  let vehicle_capacity :=
    match VRPInstance.vehicle_capacities inst !! vehicle_id with
    | Some c => c
    | None => VRPInstance.capacity inst
    end in
  st ← build_loop vehicle_capacity (S (size unvisited))
                  (mk_bstate [depot] depot 0 0%Q unvisited);
  let route := if decide (1 < length (b_route st))%nat
               then b_route st ++ [depot] else b_route st in
  Some (if decide (2 < length route)%nat then route else [], b_unvisited st).

(** [for customer in route: if customer in unvisited: unvisited.remove(customer)] *)
Definition remove_visited (unvisited : gset Z) (route : list Z) : gset Z :=
  unvisited ∖ list_to_set route.

(** First loop of [construct]: [remaining] is [vehicle_count - vehicle_id]. *)
Fixpoint vehicle_loop (remaining : nat) (vehicle_id : nat)
    (solution : Solution.t) (unvisited : gset Z) : option (Solution.t * gset Z) :=
  match remaining with
  | O => Some (solution, unvisited)
  | S remaining' =>
      if decide (unvisited = ∅) then Some (solution, unvisited)
      else
        '(route, unvisited) ← _build_route unvisited vehicle_id;
        match route with
        | [] => vehicle_loop remaining' (S vehicle_id) solution unvisited
        | _ => vehicle_loop remaining' (S vehicle_id)
                 (Solution.add_route inst solution route)
                 (remove_visited unvisited route)
        end
  end.

(** Second loop of [construct]: [while unvisited], with extra vehicles.  A turn
    serves at least one customer. *)
Fixpoint extra_loop (fuel : nat) (solution : Solution.t) (unvisited : gset Z)
  : option Solution.t :=
  if decide (unvisited = ∅) then Some solution
  else
    match fuel with
    | O => None
    | S fuel' =>
        '(route, unvisited) ← _build_route unvisited (length (Solution.routes solution));
        match route with
        | [] =>
            let remaining := set_iter unvisited in
            match remaining with
            | [] => None
            | c :: _ =>
                extra_loop fuel'
                  (Solution.add_route inst solution
                     ([VRPInstance.depot inst] ++ take 1 remaining ++ [VRPInstance.depot inst]))
                  (unvisited ∖ {[c]})
            end
        | _ =>
            extra_loop fuel' (Solution.add_route inst solution route)
                       (remove_visited unvisited route)
        end
    end.

Definition construct : option Solution.t :=
  let solution := Solution.new (Some inst) in
  let unvisited := dom (VRPInstance.demands inst) ∖ {[VRPInstance.depot inst]} in
  '(solution, unvisited) ←
     vehicle_loop (Z.to_nat (VRPInstance.vehicle_count inst)) 0 solution unvisited;
  solution ← extra_loop (size unvisited) solution unvisited;
  Some (Solution.calculate_cost solution).2.

End Greedy.

(** The customers served by a list of routes: every node that is not the
    depot, in route order. *)
Definition served (depot : Z) (routes : list (list Z)) : list Z :=
  concat (map (filter (fun c => c ≠ depot)) routes).

End GreedyConstruction.

(** ** algorithms/tabu_search.py *)

Module TabuSearch.

(** The [move_info] dictionaries, one constructor per value of ['type']:
    ['swap'], ['relocate'] and ['2opt'], with the keys each one carries. *)
Inductive move_info :=
| Swap (customer1 customer2 : Z) (route1 route2 : nat)
| Relocate (customer : Z) (from_route to_route from_pos to_pos : nat)
| TwoOpt (route i j : nat).

(** The [tabu_data] dictionaries built by [_update_tabu_list].  The type tag
    stored next to each of them is the constructor. *)
Inductive tabu_data :=
| SwapData (customer1 customer2 : Z)
| RelocateData (customer : Z) (from_route to_route : nat)
| TwoOptData (route i j : nat).

(** An element of [self.tabu_list]: the data and the iteration that recorded
    it. *)
Definition tabu_entry : Type := tabu_data * nat.

Record stats := mk_stats {
  iterations : nat;
  best_cost_history : list Q;
  current_cost_history : list Q;
  tabu_violations : nat;
  aspiration_acceptances : nat
}.

Definition neighbor : Type := Solution.t * move_info.

Section Tabu.

Variable instance : VRPInstance.t.
Variable tabu_tenure : Z.
Variable max_iterations : Z.
Variable max_no_improvement : Z.

(** The test made on one entry of the tabu list by the loop of
    [_is_tabu_move]. *)
Definition entry_hits (move : move_info) (e : tabu_data) : bool :=
  match move, e with
  | Swap customer1 customer2 _ _, SwapData t1 t2 =>
      (bool_decide (t1 = customer1) && bool_decide (t2 = customer2))
      || (bool_decide (t1 = customer2) && bool_decide (t2 = customer1))
  | Relocate customer from_route to_route _ _, RelocateData tc tfrom tto =>
      bool_decide (tc = customer) && bool_decide (tfrom = to_route)
      && bool_decide (tto = from_route)
  | _, _ => false
  end.

Definition _is_tabu_move (tabu_list : list tabu_entry) (move : move_info) : bool :=
  existsb (fun e => entry_hits move e.1) tabu_list.

(** The reverse move stored by [_update_tabu_list]. *)
Definition reverse_move (move : move_info) : tabu_data :=
  match move with
  | Swap customer1 customer2 _ _ => SwapData customer2 customer1
  | Relocate customer from_route to_route _ _ => RelocateData customer to_route from_route
  | TwoOpt route i j => TwoOptData route i j
  end.

Definition _update_tabu_list (tabu_list : list tabu_entry) (move : move_info)
    (iteration : nat) : list tabu_entry :=
  filter (fun e => Z.of_nat iteration - Z.of_nat e.2 < tabu_tenure)
         (tabu_list ++ [(reverse_move move, iteration)]).

(** The running best of [_select_best_move] with the two counters it
    updates. *)
Record selection := mk_selection {
  best_neighbor : option neighbor;
  best_cost : option Q;
  sel_stats : stats
}.

Definition count_aspiration (st : stats) : stats :=
  mk_stats (iterations st) (best_cost_history st) (current_cost_history st)
           (tabu_violations st) (S (aspiration_acceptances st)).

Definition count_violation (st : stats) : stats :=
  mk_stats (iterations st) (best_cost_history st) (current_cost_history st)
           (S (tabu_violations st)) (aspiration_acceptances st).

(** The condition under which [_select_best_move] considers a neighbor. *)
Definition eligible (tabu_list : list tabu_entry) (best_known_cost : Q) (nb : neighbor) : bool :=
  let is_tabu := _is_tabu_move tabu_list nb.2 in
  let aspiration := Qltb (Solution.total_cost nb.1) best_known_cost in
  negb is_tabu || aspiration.

Definition select_step (tabu_list : list tabu_entry) (best_known_cost : Q)
    (sel : selection) (nb : neighbor) : selection :=
  let is_tabu := _is_tabu_move tabu_list nb.2 in
  let aspiration := Qltb (Solution.total_cost nb.1) best_known_cost in
  if eligible tabu_list best_known_cost nb then
    if below (Solution.total_cost nb.1) (best_cost sel) then
      mk_selection (Some nb) (Some (Solution.total_cost nb.1))
        (if aspiration && is_tabu then count_aspiration (sel_stats sel) else sel_stats sel)
    else sel
  else mk_selection (best_neighbor sel) (best_cost sel) (count_violation (sel_stats sel)).

Definition _select_best_move (tabu_list : list tabu_entry) (st : stats)
    (neighbors : list neighbor) (best_known_cost : Q) : option neighbor * stats :=
  let sel := fold_left (select_step tabu_list best_known_cost) neighbors
                       (mk_selection None None st) in
  (best_neighbor sel, sel_stats sel).

(** [[(i, j) for i in range(n) for j in range(i+1, n)]] *)
Definition index_pairs (n : nat) : list (nat * nat) :=
  concat (map (fun i => map (fun j => (i, j)) (seq (S i) (n - S i))) (seq 0 n)).

Definition swap_move (solution : Solution.t) (customers : list (nat * nat * Z))
    (ij : nat * nat) : option neighbor :=
  '(route1_idx, pos1, cust1) ← customers !! ij.1;
  '(route2_idx, pos2, cust2) ← customers !! ij.2;
  let routes := set_node route1_idx pos1 cust2 (Solution.routes solution) in
  let routes := set_node route2_idx pos2 cust1 routes in
  let nb := (Solution.calculate_cost (Solution.set_routes (Solution.copy solution) routes)).2 in
  Some (nb, Swap cust1 cust2 route1_idx route2_idx).

Definition _generate_swap_moves (solution : Solution.t) (g : Random.t)
  : list neighbor * Random.t :=
  let customers := all_customers (VRPInstance.depot instance) (Solution.routes solution) in
  let n := length customers in
  let max_swaps := (50 `min` (n * (n - 1) / 2))%nat in
  let '(swap_pairs, g) :=
    Random.sample (max_swaps `min` (n * (n - 1) / 2))%nat (index_pairs n) g in
  (omap (swap_move solution customers) swap_pairs, g).

(** The innermost body of [_generate_relocate_moves]. *)
Definition relocate_move (solution : Solution.t) (route_idx pos : nat) (customer : Z)
    (target_route_idx target_pos : nat) : neighbor :=
  let routes := alter (delete pos) route_idx (Solution.routes solution) in
  let target_pos :=
    if bool_decide (target_route_idx = route_idx) && bool_decide (pos < target_pos)%nat
    then (target_pos - 1)%nat else target_pos in
  let routes := alter (py_insert target_pos customer) target_route_idx routes in
  ((Solution.calculate_cost (Solution.set_routes (Solution.copy solution) routes)).2,
   Relocate customer route_idx target_route_idx pos target_pos).

(** The loops of [_generate_relocate_moves].  [move_count] is the length of
    the list of moves; once it has reached [max_relocates] every [break] of
    the source is taken and no later turn adds a move, which is how each loop
    below treats that case. *)
Definition max_relocates : nat := 30.

Definition relocate_positions (solution : Solution.t) (route_idx pos : nat) (customer : Z)
    (target_route_idx : nat) (moves : list neighbor) : list neighbor :=
  fold_left (fun moves target_pos =>
               if decide (max_relocates <= length moves)%nat then moves
               else moves ++ [relocate_move solution route_idx pos customer
                                            target_route_idx target_pos])
            (seq 1 (length (Solution.routes solution !!! target_route_idx) - 1))
            moves.

Definition relocate_targets (solution : Solution.t) (route_idx pos : nat) (customer : Z)
    (moves : list neighbor) : list neighbor :=
  fold_left (fun moves target_route_idx =>
               if decide (max_relocates <= length moves)%nat then moves
               else relocate_positions solution route_idx pos customer target_route_idx moves)
            (seq 0 (length (Solution.routes solution)))
            moves.

Definition relocate_route (solution : Solution.t) (route_idx : nat) (route : list Z)
    (moves : list neighbor) : list neighbor :=
  fold_left (fun moves pc =>
               if decide (pc.2 = VRPInstance.depot instance) then moves
               else relocate_targets solution route_idx pc.1 pc.2 moves)
            (imap (fun pos customer => (pos, customer)) route)
            moves.

Definition _generate_relocate_moves (solution : Solution.t) : list neighbor :=
  fold_left (fun moves ir =>
               if decide (max_relocates <= length moves)%nat then moves
               else relocate_route solution ir.1 ir.2 moves)
            (imap (fun route_idx route => (route_idx, route)) (Solution.routes solution))
            [].

Definition max_2opt : nat := 20.

(** [for _ in range(min(5, len(route) - 3))], with its draws. *)
Fixpoint two_opt_tries (solution : Solution.t) (route_idx : nat) (route : list Z)
    (tries : nat) (moves : list neighbor) (g : Random.t) : list neighbor * Random.t :=
  match tries with
  | O => (moves, g)
  | S tries' =>
      if decide (max_2opt <= length moves)%nat then (moves, g)
      else
        let '(i, g) := Random.randint 1 (length route - 3) g in
        let '(j, g) := Random.randint (i + 1) (length route - 2) g in
        let routes := <[route_idx := reverse_segment i j route]> (Solution.routes solution) in
        let nb := (Solution.calculate_cost
                     (Solution.set_routes (Solution.copy solution) routes)).2 in
        two_opt_tries solution route_idx route tries'
                      (moves ++ [(nb, TwoOpt route_idx i j)]) g
  end.

Definition _generate_2opt_moves (solution : Solution.t) (g : Random.t)
  : list neighbor * Random.t :=
  fold_left (fun '(moves, g) ir =>
               let route := ir.2 in
               if decide ((length route < 4)%nat \/ (max_2opt <= length moves)%nat)
               then (moves, g)
               else two_opt_tries solution ir.1 route (5 `min` (length route - 3))%nat moves g)
            (imap (fun route_idx route => (route_idx, route)) (Solution.routes solution))
            ([], g).

(** [_generate_neighborhood] on values: every neighbor is built on a copy of
    [solution] that stands alone.  [Store.swap_move], [Store.relocate_move]
    and [Store.two_opt_move] are the bodies of the three loops on the
    objects; on routes that are list objects of their own they give the
    neighbor the routes computed here and leave those of [solution] as they
    are ([StoreFacts.swap_move_refines] and the two lemmas after it). *)
Definition _generate_neighborhood (solution : Solution.t) (g : Random.t)
  : list neighbor * Random.t :=
  let '(swaps, g) := _generate_swap_moves solution g in
  let relocates := _generate_relocate_moves solution in
  let '(two_opts, g) := _generate_2opt_moves solution g in
  (swaps ++ relocates ++ two_opts, g).

(** The variables of the loop of [solve]. *)
Record state := mk_state {
  current_solution : Solution.t;
  best_solution : Solution.t;
  tabu_list : list tabu_entry;
  iteration : nat;
  no_improvement_count : Z;
  run_stats : stats;
  rng : Random.t
}.

(** One turn of the [while] loop of [solve]; [None] when the loop is left by
    a [break]. *)
Definition solve_turn (st : state) : option state :=
  let '(neighbors, g) := _generate_neighborhood (current_solution st) (rng st) in
  match neighbors with
  | [] => None
  | _ =>
      let '(chosen, stats1) :=
        _select_best_move (tabu_list st) (run_stats st) neighbors
                          (Solution.total_cost (best_solution st)) in
      match chosen with
      | None => None
      | Some (best_neighbor, move) =>
          let current := (Solution.calculate_cost best_neighbor).2 in
          let improved :=
            Qltb (Solution.total_cost current) (Solution.total_cost (best_solution st)) in
          let best := if improved then Solution.copy current else best_solution st in
          let no_improvement := if improved then 0 else no_improvement_count st + 1 in
          let tabu := _update_tabu_list (tabu_list st) move (iteration st) in
          let stats2 :=
            mk_stats (iterations stats1)
                     (best_cost_history stats1 ++ [Solution.total_cost best])
                     (current_cost_history stats1 ++ [Solution.total_cost current])
                     (tabu_violations stats1) (aspiration_acceptances stats1) in
          Some (mk_state current best tabu (S (iteration st)) no_improvement stats2 g)
      end
  end.

(** [while iteration < max_iterations and no_improvement_count <
    max_no_improvement]; [remaining] is [max_iterations - iteration]. *)
Fixpoint solve_loop (remaining : nat) (st : state) : state :=
  match remaining with
  | O => st
  | S remaining' =>
      if decide (no_improvement_count st < max_no_improvement) then
        match solve_turn st with
        | None => st
        | Some st' => solve_loop remaining' st'
        end
      else st
  end.

Definition initial_state (initial_solution : Solution.t) (tabu : list tabu_entry)
    (st : stats) (g : Random.t) : state :=
  let current := (Solution.calculate_cost (Solution.copy initial_solution)).2 in
  mk_state current (Solution.copy current) tabu 0 0 st g.

(** [self.stats] and [self.tabu_list] as [__init__] leaves them. *)
Definition new_stats : stats := mk_stats 0 [] [] 0 0.

(** [solve], run on an object whose tabu list and statistics are [tabu] and
    [st0]: the best solution, with the tabu list, statistics and generator as
    the run leaves them. *)
Definition solve (tabu : list tabu_entry) (st0 : stats)
    (initial_solution : Solution.t) (g : Random.t) : Solution.t * state :=
  let st := solve_loop (Z.to_nat max_iterations)
                       (initial_state initial_solution tabu st0 g) in
  let st := mk_state (current_solution st) (best_solution st) (tabu_list st) (iteration st)
                     (no_improvement_count st)
                     (mk_stats (iteration st) (best_cost_history (run_stats st))
                               (current_cost_history (run_stats st))
                               (tabu_violations (run_stats st))
                               (aspiration_acceptances (run_stats st)))
                     (rng st) in
  (best_solution st, st).

End Tabu.

(** The membership test as the specification words it: a swap matches an
    entry that swaps the same unordered pair of customers; a relocate matches
    an entry that moves the same customer between the same two routes in the
    same direction as the entry, which was stored already reversed. *)
Definition spec_matches (move : move_info) (e : tabu_data) : Prop :=
  match move, e with
  | Swap customer1 customer2 _ _, SwapData t1 t2 =>
      (t1 = customer1 /\ t2 = customer2) \/ (t1 = customer2 /\ t2 = customer1)
  | Relocate customer from_route to_route _ _, RelocateData tc tfrom tto =>
      tc = customer /\ tfrom = from_route /\ tto = to_route
  | _, _ => False
  end.

End TabuSearch.

(** ** What a call can come to *)

Inductive exn :=
| UnknownAlgorithm (name : string)   (* [ValueError(f"Unknown algorithm: ...")] *)
| ListRemove                         (* [ValueError] of [list.remove] *)
| LookupError                        (* [KeyError], [IndexError] *)
| FloatError.                        (* [ZeroDivisionError], [OverflowError] *)

Inductive outcome (A : Type) :=
| Returned (a : A)
| Raised (e : exn)
| OutOfFuel.
Arguments Returned {A} a.
Arguments Raised {A} e.
Arguments OutOfFuel {A}.

(** ** algorithms/simulated_annealing.py

    The operators are given here on route values, every solution holding its
    own routes; [Store], further down, gives them on the list objects and
    shows that a neighbor shares no object with the solution it is made
    from. *)

Module SimulatedAnnealing.

Inductive operator := swap | relocate | two_opt | cross_exchange.

(** [random.choices(operators, weights=[0.3, 0.3, 0.2, 0.2])[0]] *)
Definition choose_operator (g : Random.t) : operator * Random.t :=
  let '(n, g) := Random.next g in
  let k := (n mod 10)%nat in
  (if decide (k < 3)%nat then swap
   else if decide (k < 6)%nat then relocate
   else if decide (k < 8)%nat then two_opt
   else cross_exchange, g).

Record stats := mk_stats {
  iterations : nat;
  accepted_moves : nat;
  improving_moves : nat;
  temperature_reductions : nat;
  best_cost_history : list Q;
  current_cost_history : list Q;
  final_temperature : option Q
}.

Definition new_stats : stats := mk_stats 0 0 0 0 [] [] None.

(** The variables of [solve].  [evaluated] is not a variable of the source: it
    logs the cost of every neighbor the run evaluates, in order, so that
    properties of the run can speak of them. *)
Record state := mk_state {
  current_solution : Solution.t;
  best_solution : Solution.t;
  temperature : Q;
  iteration : nat;
  run_stats : stats;
  rng : Random.t;
  evaluated : list Q
}.

Section Annealing.

Variable instance : VRPInstance.t.
Variable initial_temp : Q.
Variable final_temp : Q.
Variable cooling_rate : Q.
Variable max_iterations : Z.
Variable max_iterations_per_temp : Z.

(** The float test [u < math.exp(-delta / temperature)] of the acceptance
    rule, for [u], [delta] and [temperature] in this order; [None] when its
    evaluation raises. *)
Variable metropolis : Q -> Q -> Q -> option bool.

Abbreviation depot := (VRPInstance.depot instance).

Definition _swap_customers (routes : list (list Z)) (g : Random.t)
  : list (list Z) * Random.t :=
  if decide (length routes < 1)%nat then (routes, g)
  else
    let customers := all_customers depot routes in
    if decide (length customers < 2)%nat then (routes, g)
    else
      let '(picked, g) := Random.sample 2 customers g in
      match picked with
      | [(route1_idx, pos1, cust1); (route2_idx, pos2, cust2)] =>
          (set_node route2_idx pos2 cust1 (set_node route1_idx pos1 cust2 routes), g)
      | _ => (routes, g)
      end.

Definition _relocate_customer (routes : list (list Z)) (g : Random.t)
  : list (list Z) * Random.t :=
  if decide (length routes < 1)%nat then (routes, g)
  else
    let '(source_route_idx, g) := Random.randint 0 (length routes - 1) g in
    let source_route := routes !!! source_route_idx in
    let customer_positions :=
      (imap (fun i c => (i, c)) source_route) ≫=
        (fun ic => if decide (ic.2 = depot) then [] else [ic.1]) in
    match customer_positions with
    | [] => (routes, g)
    | _ =>
        let '(chosen, g) := Random.choice customer_positions g in
        let source_pos := default 0%nat chosen in
        let customer := source_route !!! source_pos in
        let routes := alter (delete source_pos) source_route_idx routes in
        let '(target_route_idx, g) := Random.randint 0 (length routes - 1) g in
        let target_route := routes !!! target_route_idx in
        let '(target_pos, g) :=
          if decide (length target_route <= 2)%nat then (1%nat, g)
          else Random.randint 1 (length target_route - 1) g in
        (alter (py_insert target_pos customer) target_route_idx routes, g)
    end.

Definition _two_opt (routes : list (list Z)) (g : Random.t)
  : list (list Z) * Random.t :=
  match routes with
  | [] => (routes, g)
  | _ =>
      let '(route_idx, g) := Random.randint 0 (length routes - 1) g in
      let route := routes !!! route_idx in
      if decide (length route < 4)%nat then (routes, g)
      else
        let '(i, g) := Random.randint 1 (length route - 3) g in
        let '(j, g) := Random.randint (i + 1) (length route - 2) g in
        (<[route_idx := reverse_segment i j route]> routes, g)
  end.

Definition _cross_exchange (routes : list (list Z)) (g : Random.t)
  : list (list Z) * Random.t :=
  if decide (length routes < 2)%nat then (routes, g)
  else
    let '(picked, g) := Random.sample 2 (seq 0 (length routes)) g in
    match picked with
    | [route1_idx; route2_idx] =>
        let route1 := routes !!! route1_idx in
        let route2 := routes !!! route2_idx in
        if decide ((length route1 <= 2)%nat \/ (length route2 <= 2)%nat) then (routes, g)
        else
          let '(start1, g) := Random.randint 1 (length route1 - 2) g in
          let '(end1, g) := Random.randint start1 (length route1 - 2) g in
          let segment1 := slice start1 (end1 + 1) route1 in
          let '(start2, g) := Random.randint 1 (length route2 - 2) g in
          let '(end2, g) := Random.randint start2 (length route2 - 2) g in
          let segment2 := slice start2 (end2 + 1) route2 in
          let new_route1 := take start1 route1 ++ segment2 ++ drop (end1 + 1) route1 in
          let new_route2 := take start2 route2 ++ segment1 ++ drop (end2 + 1) route2 in
          (<[route2_idx := new_route2]> (<[route1_idx := new_route1]> routes), g)
    | _ => (routes, g)
    end.

Definition apply_operator (op : operator) (routes : list (list Z)) (g : Random.t)
  : list (list Z) * Random.t :=
  match op with
  | swap => _swap_customers routes g
  | relocate => _relocate_customer routes g
  | two_opt => _two_opt routes g
  | cross_exchange => _cross_exchange routes g
  end.

(** [_generate_neighbor] on values: the operator works on the copy, which
    stands alone.  [Store._generate_neighbor] is the method on the objects;
    the two agree on routes that are list objects of their own
    ([StoreFacts.generate_neighbor_refines]). *)
Definition _generate_neighbor (solution : Solution.t) (g : Random.t)
  : Solution.t * Random.t :=
  let neighbor := Solution.copy solution in
  let '(op, g) := choose_operator g in
  let '(routes, g) := apply_operator op (Solution.routes neighbor) g in
  (Solution.set_routes neighbor routes, g).

Definition bump_accepted (improving : bool) (st : stats) : stats :=
  mk_stats (iterations st) (S (accepted_moves st))
           (if improving then S (improving_moves st) else improving_moves st)
           (temperature_reductions st) (best_cost_history st)
           (current_cost_history st) (final_temperature st).

Definition record_costs (current best : Q) (st : stats) : stats :=
  mk_stats (iterations st) (accepted_moves st) (improving_moves st)
           (temperature_reductions st) (best_cost_history st ++ [best])
           (current_cost_history st ++ [current]) (final_temperature st).

(** The body of the inner [for] loop, up to and including [iteration += 1]. *)
Definition inner_turn (st : state) : outcome state :=
  let '(neighbor, g) := _generate_neighbor (current_solution st) (rng st) in
  let neighbor := (Solution.calculate_cost neighbor).2 in
  let delta :=
    (Solution.total_cost neighbor - Solution.total_cost (current_solution st))%Q in
  let improving := Qltb delta 0 in
  let decision :=
    if improving then Some (true, g)
    else
      let '(u, g) := Random.random g in
      (fun b => (b, g)) <$> metropolis u delta (temperature st) in
  match decision with
  | None => Raised FloatError
  | Some (accept, g) =>
      let current := if accept then neighbor else current_solution st in
      let best :=
        if accept && improving
           && Qltb (Solution.total_cost neighbor) (Solution.total_cost (best_solution st))
        then Solution.copy neighbor else best_solution st in
      let stats1 := if accept then bump_accepted improving (run_stats st) else run_stats st in
      let stats2 :=
        record_costs (Solution.total_cost current) (Solution.total_cost best) stats1 in
      Returned (mk_state current best (temperature st) (S (iteration st)) stats2 g
                         (evaluated st ++ [Solution.total_cost neighbor]))
  end.

(** [for _ in range(max_iterations_per_temp)], left early once [iteration]
    has reached [max_iterations]. *)
Fixpoint inner_loop (turns : nat) (st : state) : outcome state :=
  match turns with
  | O => Returned st
  | S turns' =>
      match inner_turn st with
      | Returned st' =>
          if decide (max_iterations <= Z.of_nat (iteration st')) then Returned st'
          else inner_loop turns' st'
      | failed => failed
      end
  end.

Definition cool_down (st : state) : state :=
  let s := run_stats st in
  mk_state (current_solution st) (best_solution st)
           (temperature st * cooling_rate)%Q (iteration st)
           (mk_stats (iterations s) (accepted_moves s) (improving_moves s)
                     (S (temperature_reductions s)) (best_cost_history s)
                     (current_cost_history s) (final_temperature s))
           (rng st) (evaluated st).

(** [while temperature > self.final_temp and iteration < self.max_iterations].
    With no inner turn per temperature the loop ends only through cooling;
    [fuel] bounds the number of temperatures visited. *)
Fixpoint outer_loop (fuel : nat) (st : state) : outcome state :=
  if Qltb final_temp (temperature st)
     && bool_decide (Z.of_nat (iteration st) < max_iterations)
  then
    match fuel with
    | O => OutOfFuel
    | S fuel' =>
        match inner_loop (Z.to_nat max_iterations_per_temp) st with
        | Returned st' => outer_loop fuel' (cool_down st')
        | failed => failed
        end
    end
  else Returned st.

Definition initial_state (st0 : stats) (initial_solution : Solution.t) (g : Random.t)
  : state :=
  let current := (Solution.calculate_cost (Solution.copy initial_solution)).2 in
  mk_state current (Solution.copy current) initial_temp 0 st0 g [].

(** [solve], run on an object whose statistics are [st0]: the best solution
    and the state the run ends in. *)
Definition solve (fuel : nat) (st0 : stats) (initial_solution : Solution.t) (g : Random.t)
  : outcome (Solution.t * state) :=
  match outer_loop fuel (initial_state st0 initial_solution g) with
  | Returned st =>
      let s := run_stats st in
      let st :=
        mk_state (current_solution st) (best_solution st) (temperature st) (iteration st)
                 (mk_stats (iteration st) (accepted_moves s) (improving_moves s)
                           (temperature_reductions s) (best_cost_history s)
                           (current_cost_history s) (Some (temperature st)))
                 (rng st) (evaluated st) in
      Returned (best_solution st, st)
  | Raised e => Raised e
  | OutOfFuel => OutOfFuel
  end.

End Annealing.

(** The least of [x] and the elements of [l]. *)
Definition min_cost (x : Q) (l : list Q) : Q :=
  fold_left (fun m c => if Qltb c m then c else m) l x.

End SimulatedAnnealing.

(** ** algorithms/construction_heuristics.py: SavingsAlgorithm *)

Module SavingsAlgorithm.

(** [l.remove(x)]: the list without the first [x]; [None] is the
    [ValueError] raised when there is none. *)
Fixpoint list_remove_first (x : Z) (l : list Z) : option (list Z) :=
  match l with
  | [] => None
  | y :: l' => if decide (y = x) then Some l' else (y ::.) <$> list_remove_first x l'
  end.

(** [sorted(items, key=lambda x: x[1], reverse=True)]: descending and
    stable. *)
Fixpoint insert_descending (x : Z * Z * Q) (l : list (Z * Z * Q)) : list (Z * Z * Q) :=
  match l with
  | [] => [x]
  | y :: l' => if Qltb y.2 x.2 then x :: l else y :: insert_descending x l'
  end.

Definition sorted_descending (l : list (Z * Z * Q)) : list (Z * Z * Q) :=
  fold_left (fun acc x => insert_descending x acc) l [].

(** The two dictionaries of [construct]: [routes] from customer to route
    identifier, and [route_lists] from route identifier to customers, whose
    order of insertion decides the order of the routes of the solution. *)
Record tables := mk_tables {
  routes : gmap Z nat;
  route_lists : list (nat * list Z)
}.

Definition lists_get (route_id : nat) (rl : list (nat * list Z)) : option (list Z) :=
  snd <$> (snd <$> list_find (fun e => e.1 = route_id) rl).

Definition lists_set (route_id : nat) (route : list Z) (rl : list (nat * list Z))
  : list (nat * list Z) :=
  map (fun e => if decide (e.1 = route_id) then (route_id, route) else e) rl.

Definition lists_del (route_id : nat) (rl : list (nat * list Z)) : list (nat * list Z) :=
  filter (fun e => e.1 ≠ route_id) rl.

Section Savings.

(** The order in which Python lists the keys of the [demands] dictionary
    (their order of insertion), each key once. *)
Variable dict_keys : gmap Z Z -> list Z.
Variable inst : VRPInstance.t.

Abbreviation depot := (VRPInstance.depot inst).

(** [customers = list(self.instance.demands.keys());
    customers.remove(self.instance.depot)] *)
Definition customers : option (list Z) :=
  list_remove_first depot (dict_keys (VRPInstance.demands inst)).

Definition saving (customer_i customer_j : Z) : Q :=
  (VRPInstance.get_distance inst depot customer_i
   + VRPInstance.get_distance inst depot customer_j
   - VRPInstance.get_distance inst customer_i customer_j)%Q.

Definition _calculate_savings : option (list (Z * Z * Q)) :=
  cs ← customers;
  Some (concat (imap (fun i customer_i =>
                        map (fun customer_j =>
                               (customer_i, customer_j, saving customer_i customer_j))
                            (drop (S i) cs))
                     cs)).

Definition load (route : list Z) : Z :=
  foldr Z.add 0 (map (VRPInstance.demand inst) route).

(** [None] is the [IndexError] of [route[0]] on an empty list. *)
Definition _can_merge_routes (route1 route2 : list Z) (customer_i customer_j : Z)
  : option bool :=
  if decide (load route1 + load route2 > VRPInstance.capacity inst) then Some false
  else
    first1 ← head route1; last1 ← last route1;
    if bool_decide (customer_i ≠ first1) && bool_decide (customer_i ≠ last1)
    then Some false
    else
      first2 ← head route2; last2 ← last route2;
      Some (negb (bool_decide (customer_j ≠ first2) && bool_decide (customer_j ≠ last2))).

Definition _merge_routes (route1 route2 : list Z) (customer_i customer_j : Z)
  : option (list Z) :=
  first1 ← head route1; first2 ← head route2;
  if bool_decide (customer_i = first1) && bool_decide (customer_j = first2)
  then Some (reverse route1 ++ route2)
  else
    last2 ← last route2;
    if bool_decide (customer_i = first1) && bool_decide (customer_j = last2)
    then Some (route2 ++ reverse route1)
    else
      last1 ← last route1;
      if bool_decide (customer_i = last1) && bool_decide (customer_j = first2)
      then Some (route1 ++ route2)
      else if bool_decide (customer_i = last1) && bool_decide (customer_j = last2)
      then Some (route1 ++ reverse route2)
      else Some (route1 ++ route2).

(** [for (i, j), saving in sorted_savings], left at the first saving that is
    not positive; [None] is a [KeyError] or an [IndexError]. *)
Fixpoint merge_loop (sorted_savings : list (Z * Z * Q)) (t : tables) : option tables :=
  match sorted_savings with
  | [] => Some t
  | (i, j, saving) :: rest =>
      if Qle_bool saving 0 then Some t
      else
        route_i ← routes t !! i;
        route_j ← routes t !! j;
        if decide (route_i = route_j) then merge_loop rest t
        else
          list_i ← lists_get route_i (route_lists t);
          list_j ← lists_get route_j (route_lists t);
          match _can_merge_routes list_i list_j i j with
          | None => None
          | Some true =>
              new_route ← _merge_routes list_i list_j i j;
              let rl := lists_set route_i new_route (route_lists t) in
              let rs := foldl (fun rs customer => <[customer := route_i]> rs)
                              (routes t) list_j in
              merge_loop rest (mk_tables rs (lists_del route_j rl))
          | Some false => merge_loop rest t
          end
  end.

Definition construct : outcome Solution.t :=
  match _calculate_savings, customers with
  | Some savings, Some cs =>
      let t0 := mk_tables (list_to_map (imap (fun i customer => (customer, i)) cs))
                          (imap (fun i customer => (i, [customer])) cs) in
      match merge_loop (sorted_descending savings) t0 with
      | Some t =>
          let solution :=
            foldl (fun solution e =>
                     match e.2 with
                     | [] => solution
                     | route_customers =>
                         Solution.add_route inst solution
                           ([depot] ++ route_customers ++ [depot])
                     end)
                  (Solution.new (Some inst)) (route_lists t) in
          Returned (Solution.calculate_cost solution).2
      | None => Raised LookupError
      end
  | _, _ => Raised ListRemove
  end.

End Savings.

End SavingsAlgorithm.

(** ** vrp_solver.py *)

Module VRPSolver.

(** The keyword arguments that [solve] reads. *)
Record kwargs := mk_kwargs {
  construction : option string;
  initial_temp : option Q;
  final_temp : option Q;
  cooling_rate : option Q;
  max_iterations : option Z;
  max_iterations_per_temp : option Z;
  tabu_tenure : option Z;
  max_no_improvement : option Z
}.

Definition no_kwargs : kwargs := mk_kwargs None None None None None None None None.

(** What [solve] has run, in order: a construction heuristic or a
    metaheuristic, by name.  The source keeps no such log; it is here so that
    properties can say what ran before an error. *)
Inductive event :=
| Construction (method : string)
| Search (algorithm : string).

Section Solver.

Variable set_iter : gset Z -> list Z.
Variable dict_keys : gmap Z Z -> list Z.

(** The float test of the annealing acceptance rule and the bound on the
    number of temperatures, as in [SimulatedAnnealing.solve]. *)
Variable metropolis : Q -> Q -> Q -> option bool.
Variable fuel : nat.

Variable instance : VRPInstance.t.

Definition greedy_construct : outcome Solution.t :=
  match GreedyConstruction.construct set_iter instance with
  | Some s => Returned s
  | None => OutOfFuel
  end.

Definition _create_initial_solution (method : string) : list event * outcome Solution.t :=
  if decide (method = "greedy"%string) then ([Construction "greedy"], greedy_construct)
  else if decide (method = "savings"%string)
  then ([Construction "savings"], SavingsAlgorithm.construct dict_keys instance)
  else ([Construction "greedy"], greedy_construct).

Definition _solve_simulated_annealing (initial_solution : Solution.t) (kw : kwargs)
    (g : Random.t) : outcome Solution.t :=
  match SimulatedAnnealing.solve instance
          (default 1000%Q (initial_temp kw)) (default 1%Q (final_temp kw))
          (default (95 # 100)%Q (cooling_rate kw))
          (default 10000 (max_iterations kw))
          (default 100 (max_iterations_per_temp kw))
          metropolis fuel SimulatedAnnealing.new_stats initial_solution g with
  | Returned (solution, _) => Returned solution
  | Raised e => Raised e
  | OutOfFuel => OutOfFuel
  end.

Definition _solve_tabu_search (initial_solution : Solution.t) (kw : kwargs)
    (g : Random.t) : outcome Solution.t :=
  Returned (TabuSearch.solve instance
              (default 20 (tabu_tenure kw)) (default 1000 (max_iterations kw))
              (default 200 (max_no_improvement kw))
              [] TabuSearch.new_stats initial_solution g).1.

Definition recomputed (r : outcome Solution.t) : outcome Solution.t :=
  match r with
  | Returned s => Returned (Solution.calculate_cost s).2
  | failed => failed
  end.

Definition _solve_greedy : outcome Solution.t := recomputed greedy_construct.

Definition _solve_savings : outcome Solution.t :=
  recomputed (SavingsAlgorithm.construct dict_keys instance).

(** [solve(algorithm, **kwargs)] *)
Definition solve (algorithm : string) (kw : kwargs) (g : Random.t)
  : list event * outcome Solution.t :=
  if decide (algorithm = "simulated_annealing"%string
             \/ algorithm = "tabu_search"%string) then
    let '(log, initial) :=
      _create_initial_solution (default "greedy"%string (construction kw)) in
    match initial with
    | Returned initial_solution =>
        if decide (algorithm = "simulated_annealing"%string)
        then (log ++ [Search algorithm],
              _solve_simulated_annealing initial_solution kw g)
        else (log ++ [Search algorithm], _solve_tabu_search initial_solution kw g)
    | failed => (log, failed)
    end
  else if decide (algorithm = "greedy"%string)
  then ([Construction "greedy"], _solve_greedy)
  else if decide (algorithm = "savings"%string)
  then ([Construction "savings"], _solve_savings)
  else ([], Raised (UnknownAlgorithm algorithm)).

End Solver.

(** The four names that [solve] knows. *)
Definition known (algorithm : string) : Prop :=
  algorithm = "simulated_annealing"%string \/ algorithm = "tabu_search"%string
  \/ algorithm = "greedy"%string \/ algorithm = "savings"%string.

(** A degenerate instance: no vehicle, or no capacity (neither the fleet-wide
    capacity nor any capacity of the per-vehicle list). *)
Definition degenerate (inst : VRPInstance.t) : Prop :=
  VRPInstance.vehicle_count inst = 0
  \/ (VRPInstance.capacity inst = 0
      /\ Forall (fun c => c = 0) (VRPInstance.vehicle_capacities inst)).

(** The claim that [solve] fails fast on degenerate instances, as a
    statement about the function: whatever the algorithm asked for, nothing is
    run and an error is raised. *)
Definition fails_fast_on_degenerate : Prop :=
  forall set_iter dict_keys metropolis fuel inst algorithm kw g,
    degenerate inst ->
    exists e, solve set_iter dict_keys metropolis fuel inst algorithm kw g = ([], Raised e).

End VRPSolver.

(** ** constraints/capacity.py *)

Module CapacityConstraint.

(** The values a message of [get_violations] is formatted from. *)
Record violation := mk_violation { v_route : nat; v_load : Z; v_capacity : Z }.

Section Capacity.

Variable instance : VRPInstance.t.

Definition _calculate_route_load (route : list Z) : Z :=
  fold_left Z.add
    (map (VRPInstance.demand instance)
         (filter (fun customer => customer ≠ VRPInstance.depot instance) route)) 0.

Definition _get_vehicle_capacity (vehicle_idx : nat) : Z :=
  match VRPInstance.vehicle_capacities instance !! vehicle_idx with
  | Some c => c
  | None => VRPInstance.capacity instance
  end.

Definition get_violations (solution : Solution.t) : list violation :=
  fold_left (fun violations ir =>
               let route_load := _calculate_route_load ir.2 in
               let vehicle_capacity := _get_vehicle_capacity ir.1 in
               if decide (route_load > vehicle_capacity)
               then violations ++ [mk_violation ir.1 route_load vehicle_capacity]
               else violations)
            (imap (fun route_idx route => (route_idx, route)) (Solution.routes solution))
            [].

Definition is_feasible (solution : Solution.t) : bool :=
  bool_decide (length (get_violations solution) = 0%nat).

(** [calculate_load_penalty] adds integers to a float.  The rational sum
    below is that float as long as the total is at most 2^53: every partial
    sum is then an integer that a float holds exactly.  Past that bound the
    float sum is rounded and the two may differ. *)
Definition calculate_load_penalty (solution : Solution.t) : Q :=
  fold_left (fun total_penalty ir =>
               let route_load := _calculate_route_load ir.2 in
               let vehicle_capacity := _get_vehicle_capacity ir.1 in
               if decide (route_load > vehicle_capacity)
               then (total_penalty + inject_Z ((route_load - vehicle_capacity) * 1000))%Q
               else total_penalty)
            (imap (fun route_idx route => (route_idx, route)) (Solution.routes solution))
            0%Q.

End Capacity.

End CapacityConstraint.

(** ** constraints/time_windows.py *)

Module TimeWindowConstraint.

Record t := mk {
  instance : VRPInstance.t;
  allow_waiting : bool;
  max_waiting_time : Q
}.

(** [TimeWindowConstraint(instance)], with the default settings. *)
Definition new (inst : VRPInstance.t) : t := mk inst true 60.

(** What a message of [get_violations] reports. *)
Inductive violation :=
| LateArrival (route : nat) (customer : Z) (arrival : Q) (deadline : Z)
| EarlyArrival (route : nat) (customer : Z) (arrival : Q) (opens : Z)
| ExcessiveWaiting (route : nat) (customer : Z) (waiting : Q).

(** The window of [to_node] when the test [to_node != depot and to_node in
    time_windows] holds. *)
Definition window (c : t) (to_node : Z) : option (Z * Z) :=
  if decide (to_node = VRPInstance.depot (instance c)) then None
  else VRPInstance.time_windows (instance c) !! to_node.

(** One turn of [for i in range(len(route) - 1)] in [get_violations], on the
    clock of the route and the list of violations. *)
Definition violations_step (c : t) (route_idx : nat) (route : list Z)
    (st : Q * list violation) (i : nat) : Q * list violation :=
  let from_node := nth i route 0 in
  let to_node := nth (S i) route 0 in
  let travel_time := VRPInstance.get_distance (instance c) from_node to_node in
  let current_time := (st.1 + travel_time)%Q in
  match window c to_node with
  | Some (early, late) =>
      let '(current_time, violations) :=
        if Qltb (inject_Z late) current_time then
          (current_time, st.2 ++ [LateArrival route_idx to_node current_time late])
        else if Qltb current_time (inject_Z early) then
          let waiting_time := (inject_Z early - current_time)%Q in
          if negb (allow_waiting c) then
            (current_time, st.2 ++ [EarlyArrival route_idx to_node current_time early])
          else if Qltb (max_waiting_time c) waiting_time then
            (current_time, st.2 ++ [ExcessiveWaiting route_idx to_node waiting_time])
          else (inject_Z early, st.2)
        else (current_time, st.2) in
      let service_time := VRPInstance.service_time (instance c) to_node in
      ((current_time + inject_Z service_time)%Q, violations)
  | None => (current_time, st.2)
  end.

Definition get_violations (c : t) (solution : Solution.t) : list violation :=
  fold_left (fun violations ir =>
               (fold_left (violations_step c ir.1 ir.2) (seq 0 (length ir.2 - 1))
                          (0%Q, violations)).2)
            (imap (fun route_idx route => (route_idx, route)) (Solution.routes solution))
            [].

Definition is_feasible (c : t) (solution : Solution.t) : bool :=
  bool_decide (length (get_violations c solution) = 0%nat).

(** One turn of the loop of [_calculate_route_time_cost], on [current_time]
    and [time_cost]. *)
Definition time_cost_step (c : t) (route : list Z) (st : Q * Q) (i : nat) : Q * Q :=
  let from_node := nth i route 0 in
  let to_node := nth (S i) route 0 in
  let travel_time := VRPInstance.get_distance (instance c) from_node to_node in
  let current_time := (st.1 + travel_time)%Q in
  let time_cost := (st.2 + travel_time)%Q in
  match window c to_node with
  | Some (early, late) =>
      let '(current_time, time_cost) :=
        if Qltb current_time (inject_Z early) then
          let waiting_time := (inject_Z early - current_time)%Q in
          if allow_waiting c && Qle_bool waiting_time (max_waiting_time c) then
            (inject_Z early, (time_cost + waiting_time * (1 # 2))%Q)
          else (current_time, (time_cost + waiting_time * 2)%Q)
        else if Qltb (inject_Z late) current_time then
          let lateness := (current_time - inject_Z late)%Q in
          (current_time, (time_cost + lateness * 10)%Q)
        else (current_time, time_cost) in
      let service_time := inject_Z (VRPInstance.service_time (instance c) to_node) in
      ((current_time + service_time)%Q, (time_cost + service_time)%Q)
  | None => (current_time, time_cost)
  end.

Definition _calculate_route_time_cost (c : t) (route : list Z) : Q :=
  if decide (length route < 2)%nat then 0%Q
  else (fold_left (time_cost_step c route) (seq 0 (length route - 1)) (0%Q, 0%Q)).2.

Definition calculate_time_cost (c : t) (solution : Solution.t) : Q :=
  fold_left (fun total_cost route => (total_cost + _calculate_route_time_cost c route)%Q)
            (Solution.routes solution) 0%Q.

(** The entries of the schedule of [get_route_time_info], and what its
    messages report. *)
Record node_info := mk_node_info {
  node : Z;
  arrival_time : Q;
  ni_waiting_time : Q;
  service_start : Q;
  ni_service_time : Z;
  departure_time : Q
}.

Inductive timing_violation :=
| EarlyArrivalAt (customer : Z)
| ExcessiveWaitingAt (customer : Z)
| LateArrivalAt (customer : Z).

(** The dictionary returned by [get_route_time_info]; the key ['schedule'] is
    absent for a route of fewer than two nodes. *)
Record time_info := mk_time_info {
  total_time : Q;
  waiting_time : Q;
  service_time : Q;
  violations : list timing_violation;
  schedule : option (list node_info)
}.

(** The variables of the loop of [get_route_time_info]. *)
Record timing := mk_timing {
  t_current_time : Q;
  t_total_waiting : Q;
  t_total_service : Q;
  t_violations : list timing_violation;
  t_schedule : list node_info
}.

Definition timing_step (c : t) (route : list Z) (st : timing) (i : nat) : timing :=
  let from_node := nth i route 0 in
  let to_node := nth (S i) route 0 in
  let travel_time := VRPInstance.get_distance (instance c) from_node to_node in
  let arrival := (t_current_time st + travel_time)%Q in
  match window c to_node with
  | Some (early, late) =>
      let '(waiting, start, total_waiting, violations) :=
        if Qltb arrival (inject_Z early) then
          let waiting_time := (inject_Z early - arrival)%Q in
          (waiting_time, inject_Z early, (t_total_waiting st + waiting_time)%Q,
           if negb (allow_waiting c) then t_violations st ++ [EarlyArrivalAt to_node]
           else if Qltb (max_waiting_time c) waiting_time
                then t_violations st ++ [ExcessiveWaitingAt to_node]
                else t_violations st)
        else if Qltb (inject_Z late) arrival then
          (0%Q, arrival, t_total_waiting st, t_violations st ++ [LateArrivalAt to_node])
        else (0%Q, arrival, t_total_waiting st, t_violations st) in
      let service := VRPInstance.service_time (instance c) to_node in
      let departure := (start + inject_Z service)%Q in
      mk_timing departure total_waiting (t_total_service st + inject_Z service)%Q violations
                (t_schedule st
                 ++ [mk_node_info to_node arrival waiting start service departure])
  | None =>
      mk_timing arrival (t_total_waiting st) (t_total_service st) (t_violations st)
                (t_schedule st ++ [mk_node_info to_node arrival 0 arrival 0 arrival])
  end.

Definition get_route_time_info (c : t) (route : list Z) : time_info :=
  if decide (length route < 2)%nat then mk_time_info 0 0 0 [] None
  else
    let st := fold_left (timing_step c route) (seq 0 (length route - 1))
                        (mk_timing 0 0 0 [] []) in
    mk_time_info (t_current_time st) (t_total_waiting st) (t_total_service st)
                 (t_violations st) (Some (t_schedule st)).

End TimeWindowConstraint.

(** ** constraints/fleet.py *)

Module FleetConstraint.

Record t := mk {
  instance : VRPInstance.t;
  vehicle_types : gmap Z string;
  type_capacities : gmap string Z;
  compatibility_matrix : gmap Z (gset string)
}.

(** [FleetConstraint(instance)] *)
Definition new (inst : VRPInstance.t) : t := mk inst ∅ ∅ ∅.

Definition set_vehicle_type (c : t) (vehicle_id : Z) (vehicle_type : string) (capacity : Z)
  : t :=
  mk (instance c) (<[vehicle_id := vehicle_type]> (vehicle_types c))
     (<[vehicle_type := capacity]> (type_capacities c)) (compatibility_matrix c).

Definition set_customer_compatibility (c : t) (customer_id : Z) (allowed_types : gset string)
  : t :=
  mk (instance c) (vehicle_types c) (type_capacities c)
     (<[customer_id := allowed_types]> (compatibility_matrix c)).

(** What a message of [get_violations] reports. *)
Inductive violation :=
| CannotBeServed (route : nat) (customer : Z) (vehicle_type : string)
| LoadExceeds (route : nat) (load : Z) (vehicle_type : string) (capacity : Z).

(** The body of [for customer in route]. *)
Definition compatibility_step (c : t) (route_idx : nat) (vehicle_type : string)
    (violations : list violation) (customer : Z) : list violation :=
  if decide (customer = VRPInstance.depot (instance c)) then violations
  else
    match compatibility_matrix c !! customer with
    | Some allowed_types =>
        if bool_decide (allowed_types ≠ ∅) && bool_decide (vehicle_type ∉ allowed_types)
        then violations ++ [CannotBeServed route_idx customer vehicle_type]
        else violations
    | None => violations
    end.

(** The body of [for route_idx, route in enumerate(solution.routes)]. *)
Definition route_step (c : t) (violations : list violation) (ir : nat * list Z)
  : list violation :=
  match vehicle_types c !! Z.of_nat ir.1 with
  | None => violations
  | Some vehicle_type =>
      let violations := fold_left (compatibility_step c ir.1 vehicle_type) ir.2 violations in
      let route_load :=
        fold_left Z.add
          (map (VRPInstance.demand (instance c))
               (filter (fun customer => customer ≠ VRPInstance.depot (instance c)) ir.2)) 0 in
      let vehicle_capacity :=
        default (VRPInstance.capacity (instance c)) (type_capacities c !! vehicle_type) in
      if decide (route_load > vehicle_capacity)
      then violations ++ [LoadExceeds ir.1 route_load vehicle_type vehicle_capacity]
      else violations
  end.

Definition get_violations (c : t) (solution : Solution.t) : list violation :=
  fold_left (route_step c)
            (imap (fun route_idx route => (route_idx, route)) (Solution.routes solution)) [].

Definition is_feasible (c : t) (solution : Solution.t) : bool :=
  bool_decide (length (get_violations c solution) = 0%nat).

Definition get_compatible_vehicles (c : t) (customer : Z) : gset Z :=
  let allowed_types :=
    default (dom (type_capacities c)) (compatibility_matrix c !! customer) in
  map_fold (fun vehicle_id vehicle_type compatible_vehicles =>
              if decide (vehicle_type ∈ allowed_types)
              then compatible_vehicles ∪ {[vehicle_id]} else compatible_vehicles)
           ∅ (vehicle_types c).

(** [{'small': 100, 'medium': 150, 'large': 200}.get(vehicle_type, 150)] *)
Definition type_fixed_cost (vehicle_type : string) : Z :=
  if decide (vehicle_type = "small"%string) then 100
  else if decide (vehicle_type = "medium"%string) then 150
  else if decide (vehicle_type = "large"%string) then 200
  else 150.

(** The set [used_vehicles] of [calculate_fleet_cost]. *)
Definition used_vehicles (solution : Solution.t) : gset nat :=
  fold_left (fun used ir => if decide (2 < length ir.2)%nat then used ∪ {[ir.1]} else used)
            (imap (fun route_idx route => (route_idx, route)) (Solution.routes solution))
            ∅.

Definition calculate_fleet_cost (c : t) (solution : Solution.t) : Q :=
  set_fold (fun vehicle_id total_cost =>
              let vehicle_type :=
                default "medium"%string (vehicle_types c !! Z.of_nat vehicle_id) in
              (total_cost + inject_Z (type_fixed_cost vehicle_type))%Q)
           0%Q (used_vehicles solution).

End FleetConstraint.

(** ** constraints/dynamic_traffic.py *)

Module DynamicTrafficConstraint.

Record t := mk {
  instance : VRPInstance.t;
  time_horizon : Z;
  time_slots : list Z;
  traffic_matrices : gmap Z (Z -> Z -> Q);
  traffic_factors : gmap Z Q
}.

(** The table [base_factors] of [_initialize_traffic_patterns]. *)
Definition base_factors : gmap Z Q :=
  list_to_map
    [(0%Z, (8 # 10)%Q); (1%Z, (8 # 10)%Q); (2%Z, (8 # 10)%Q); (3%Z, (8 # 10)%Q); (4%Z, (8 # 10)%Q); (5%Z, (9 # 10)%Q);
     (6%Z, 1%Q); (7%Z, (14 # 10)%Q); (8%Z, (16 # 10)%Q); (9%Z, (13 # 10)%Q);
     (10%Z, (11 # 10)%Q); (11%Z, 1%Q);
     (12%Z, (12 # 10)%Q); (13%Z, (11 # 10)%Q);
     (14%Z, 1%Q); (15%Z, 1%Q); (16%Z, (11 # 10)%Q);
     (17%Z, (15 # 10)%Q); (18%Z, (17 # 10)%Q); (19%Z, (14 # 10)%Q);
     (20%Z, (12 # 10)%Q); (21%Z, 1%Q); (22%Z, (9 # 10)%Q); (23%Z, (8 # 10)%Q)].

(** [list(range(n))] *)
Definition range (n : Z) : list Z := map Z.of_nat (seq 0 (Z.to_nat n)).

(** [DynamicTrafficConstraint(instance, time_horizon)], which runs
    [_initialize_traffic_patterns]. *)
Definition new (inst : VRPInstance.t) (time_horizon : Z) : t :=
  let time_slots := range time_horizon in
  let traffic_matrices :=
    match VRPInstance.distance_matrix inst with
    | Some matrix =>
        fold_left (fun matrices hour =>
                     let factor := default 1%Q (base_factors !! hour) in
                     <[hour := fun a b => (matrix a b * factor)%Q]> matrices)
                  time_slots ∅
    | None => ∅
    end in
  mk inst time_horizon time_slots traffic_matrices base_factors.

(** [int(x)] on a float: the integer part, rounded towards zero. *)
Definition int_of (x : Q) : Z :=
  if Qle_bool 0 x then Qfloor x else Qceiling x.

(** [get_travel_time]; [None] is the [ZeroDivisionError] of [% 0]. *)
Definition get_travel_time (c : t) (from_node to_node : Z) (departure_time : Q) : option Q :=
  if decide (time_horizon c = 0) then None
  else
    let hour := int_of departure_time `mod` time_horizon c in
    match traffic_matrices c !! hour with
    | Some matrix => Some (matrix from_node to_node)
    | None => Some (VRPInstance.get_distance (instance c) from_node to_node)
    end.

End DynamicTrafficConstraint.

(** ** utils/vrplib_adapter.py *)

Module VRPLibAdapter.

(** [calculate_gap(solution_cost, optimal_cost)] *)
Definition calculate_gap (solution_cost : Q) (optimal_cost : option Q) : option Q :=
  match optimal_cost with
  | None => None
  | Some optimal_cost =>
      if Qle_bool optimal_cost 0 then None
      else Some ((solution_cost - optimal_cost) / optimal_cost * 100)%Q
  end.

End VRPLibAdapter.

(** ** Route lists as Python objects

    The value model above gives every solution its own routes.  In Python a
    solution holds a reference to a list object whose items are references to
    further list objects, and the neighborhood operators of
    [simulated_annealing.py] mutate those objects in place.  This part models
    the objects, so that what a mutation can reach is a matter of proof. *)

Module Store.

Abbreviation loc := nat.

(** A list object: a route (a list of node identifiers) or a list of routes
    (a list of references). *)
Inductive obj :=
| Ints (items : list Z)
| Refs (items : list loc).

(** The object at address [l] is the [l]-th one allocated. *)
Abbreviation heap := (list obj).

(** Computations over the heap and the random generator; [None] is a raised
    exception. *)
Definition M (A : Type) : Type := heap * Random.t -> option (A * (heap * Random.t)).

#[global] Instance M_ret : MRet M := fun A a s => Some (a, s).

#[global] Instance M_bind : MBind M := fun A B f m s =>
  match m s with
  | Some (a, s') => f a s'
  | None => None
  end.

Definition raise {A} : M A := fun _ => None.

Definition alloc (o : obj) : M loc :=
  fun s => Some (length s.1, (s.1 ++ [o], s.2)).

Definition load_ints (l : loc) : M (list Z) :=
  fun s => match s.1 !! l with
           | Some (Ints items) => Some (items, s)
           | _ => None
           end.

Definition load_refs (l : loc) : M (list loc) :=
  fun s => match s.1 !! l with
           | Some (Refs items) => Some (items, s)
           | _ => None
           end.

Definition store (l : loc) (o : obj) : M unit :=
  fun s => if decide (l < length s.1)%nat
           then Some (tt, (<[l := o]> s.1, s.2)) else None.

(** A call into the [random] module. *)
Definition draw {A} (f : Random.t -> A * Random.t) : M A :=
  fun s => let '(a, g) := f s.2 in Some (a, (s.1, g)).

(** [len(routes)], for the list of routes at [rs]. *)
Definition len_routes (rs : loc) : M nat :=
  refs ← load_refs rs; mret (length refs).

(** [routes[idx]], the reference; [IndexError] out of range. *)
Definition route_ref (rs : loc) (idx : nat) : M loc :=
  refs ← load_refs rs;
  match refs !! idx with
  | Some l => mret l
  | None => raise
  end.

(** The items of [routes[idx]] as they are now. *)
Definition get_route (rs : loc) (idx : nat) : M (list Z) :=
  l ← route_ref rs idx; load_ints l.

Fixpoint load_all (refs : list loc) : M (list (list Z)) :=
  match refs with
  | [] => mret []
  | l :: refs' => items ← load_ints l; rest ← load_all refs'; mret (items :: rest)
  end.

(** The items of every route, as [for route in routes] sees them. *)
Definition snapshot (rs : loc) : M (list (list Z)) :=
  refs ← load_refs rs; load_all refs.

(** [routes[r][p] = v] *)
Definition set_item (rs : loc) (r p : nat) (v : Z) : M unit :=
  l ← route_ref rs r;
  items ← load_ints l;
  if decide (p < length items)%nat then store l (Ints (<[p := v]> items)) else raise.

(** [routes[r].pop(p)] *)
Definition pop (rs : loc) (r p : nat) : M unit :=
  l ← route_ref rs r;
  items ← load_ints l;
  if decide (p < length items)%nat then store l (Ints (delete p items)) else raise.

(** [routes[r].insert(p, v)] *)
Definition insert (rs : loc) (r p : nat) (v : Z) : M unit :=
  l ← route_ref rs r;
  items ← load_ints l;
  store l (Ints (py_insert p v items)).

(** [routes[r] = items], where [items] is a list just built. *)
Definition assign (rs : loc) (r : nat) (items : list Z) : M unit :=
  l ← alloc (Ints items);
  refs ← load_refs rs;
  if decide (r < length refs)%nat then store rs (Refs (<[r := l]> refs)) else raise.

(** [routes[r].remove(v)]: the first item equal to [v] is taken out of the
    route object; [ValueError] when the route does not hold [v]. *)
Definition remove (rs : loc) (r : nat) (v : Z) : M unit :=
  l ← route_ref rs r;
  items ← load_ints l;
  match py_remove v items with
  | Some items' => store l (Ints items')
  | None => raise
  end.

(** [copy.deepcopy(routes)]: a new list of routes holding a new copy of every
    route; a route object met twice is copied once ([memo]). *)
Fixpoint copy_items (refs : list loc) (memo : list (loc * loc)) : M (list loc) :=
  match refs with
  | [] => mret []
  | l :: refs' =>
      match list_find (fun e => e.1 = l) memo with
      | Some (_, (_, l')) => rest ← copy_items refs' memo; mret (l' :: rest)
      | None =>
          items ← load_ints l;
          l' ← alloc (Ints items);
          rest ← copy_items refs' ((l, l') :: memo);
          mret (l' :: rest)
      end
  end.

Definition deepcopy (rs : loc) : M loc :=
  refs ← load_refs rs;
  copies ← copy_items refs [];
  alloc (Refs copies).

(** A [Solution] object: the reference held in [routes] and the other
    fields, which hold numbers and lists of numbers or strings. *)
Record solution := mk_solution {
  instance : option VRPInstance.t;
  routes : loc;
  total_cost : Q;
  total_distance : Q;
  total_time : Q;
  feasible : bool;
  violations : list string;
  vehicle_loads : list Z;
  route_distances : list Q;
  route_times : list Q
}.

(** [Solution.copy] *)
Definition copy (s : solution) : M solution :=
  rs ← deepcopy (routes s);
  mret (mk_solution (instance s) rs (total_cost s) (total_distance s) (total_time s)
                    (feasible s) (violations s) (vehicle_loads s)
                    (route_distances s) (route_times s)).

Section Operators.

Variable depot : Z.

Definition _swap_customers (s : solution) : M unit :=
  n ← len_routes (routes s);
  if decide (n < 1)%nat then mret tt
  else
    rts ← snapshot (routes s);
    let customers := all_customers depot rts in
    if decide (length customers < 2)%nat then mret tt
    else
      picked ← draw (Random.sample 2 customers);
      match picked with
      | [(route1_idx, pos1, cust1); (route2_idx, pos2, cust2)] =>
          set_item (routes s) route1_idx pos1 cust2;;
          set_item (routes s) route2_idx pos2 cust1
      | _ => mret tt
      end.

Definition _relocate_customer (s : solution) : M unit :=
  n ← len_routes (routes s);
  if decide (n < 1)%nat then mret tt
  else
    source_route_idx ← draw (Random.randint 0 (n - 1));
    source_route ← get_route (routes s) source_route_idx;
    let customer_positions :=
      (imap (fun i c => (i, c)) source_route) ≫=
        (fun ic => if decide (ic.2 = depot) then [] else [ic.1]) in
    match customer_positions with
    | [] => mret tt
    | _ =>
        chosen ← draw (Random.choice customer_positions);
        let source_pos := default 0%nat chosen in
        let customer := source_route !!! source_pos in
        pop (routes s) source_route_idx source_pos;;
        n ← len_routes (routes s);
        target_route_idx ← draw (Random.randint 0 (n - 1));
        target_route ← get_route (routes s) target_route_idx;
        target_pos ←
          (if decide (length target_route <= 2)%nat then mret 1%nat
           else draw (Random.randint 1 (length target_route - 1)));
        insert (routes s) target_route_idx target_pos customer
    end.

Definition _two_opt (s : solution) : M unit :=
  n ← len_routes (routes s);
  if decide (n = 0)%nat then mret tt
  else
    route_idx ← draw (Random.randint 0 (n - 1));
    route ← get_route (routes s) route_idx;
    if decide (length route < 4)%nat then mret tt
    else
      i ← draw (Random.randint 1 (length route - 3));
      j ← draw (Random.randint (i + 1) (length route - 2));
      assign (routes s) route_idx (reverse_segment i j route).

Definition _cross_exchange (s : solution) : M unit :=
  n ← len_routes (routes s);
  if decide (n < 2)%nat then mret tt
  else
    picked ← draw (Random.sample 2 (seq 0 n));
    match picked with
    | [route1_idx; route2_idx] =>
        route1 ← get_route (routes s) route1_idx;
        route2 ← get_route (routes s) route2_idx;
        if decide ((length route1 <= 2)%nat \/ (length route2 <= 2)%nat) then mret tt
        else
          start1 ← draw (Random.randint 1 (length route1 - 2));
          end1 ← draw (Random.randint start1 (length route1 - 2));
          let segment1 := slice start1 (end1 + 1) route1 in
          start2 ← draw (Random.randint 1 (length route2 - 2));
          end2 ← draw (Random.randint start2 (length route2 - 2));
          let segment2 := slice start2 (end2 + 1) route2 in
          let new_route1 := take start1 route1 ++ segment2 ++ drop (end1 + 1) route1 in
          let new_route2 := take start2 route2 ++ segment1 ++ drop (end2 + 1) route2 in
          assign (routes s) route1_idx new_route1;;
          assign (routes s) route2_idx new_route2
    | _ => mret tt
    end.

Definition _generate_neighbor (s : solution) : M solution :=
  neighbor ← copy s;
  operator ← draw SimulatedAnnealing.choose_operator;
  match operator with
  | SimulatedAnnealing.swap => _swap_customers neighbor
  | SimulatedAnnealing.relocate => _relocate_customer neighbor
  | SimulatedAnnealing.two_opt => _two_opt neighbor
  | SimulatedAnnealing.cross_exchange => _cross_exchange neighbor
  end;;
  mret neighbor.

End Operators.

(** [Solution.get_customer_route] and [Solution.remove_customer] on the
    objects: the route found is changed in place. *)
Definition get_customer_route (s : solution) (customer : Z) : M (option nat) :=
  rts ← snapshot (routes s);
  mret (fst <$> list_find (fun route => customer ∈ route) rts).

Definition remove_customer (s : solution) (customer : Z) : M bool :=
  route_idx ← get_customer_route s customer;
  match route_idx with
  | Some route_idx => remove (routes s) route_idx customer;; mret true
  | None => mret false
  end.

(** The bodies of the loops of [tabu_search.py] that build one neighbor, up
    to the call of [calculate_cost]: a copy of the solution, changed in
    place. *)
Definition swap_move (s : solution) (route1_idx pos1 : nat) (cust1 : Z)
    (route2_idx pos2 : nat) (cust2 : Z) : M solution :=
  neighbor ← copy s;
  set_item (routes neighbor) route1_idx pos1 cust2;;
  set_item (routes neighbor) route2_idx pos2 cust1;;
  mret neighbor.

Definition relocate_move (s : solution) (route_idx pos : nat) (customer : Z)
    (target_route_idx target_pos : nat) : M solution :=
  neighbor ← copy s;
  pop (routes neighbor) route_idx pos;;
  let target_pos :=
    if bool_decide (target_route_idx = route_idx) && bool_decide (pos < target_pos)%nat
    then (target_pos - 1)%nat else target_pos in
  insert (routes neighbor) target_route_idx target_pos customer;;
  mret neighbor.

Definition two_opt_move (s : solution) (route_idx i j : nat) (route : list Z)
  : M solution :=
  neighbor ← copy s;
  assign (routes neighbor) route_idx (reverse_segment i j route);;
  mret neighbor.

(** The routes reachable from the list of routes at [rs], as values. *)
Definition read_routes (h : heap) (rs : loc) : option (list (list Z)) :=
  match h !! rs with
  | Some (Refs refs) =>
      mapM (fun l => match h !! l with Some (Ints items) => Some items | _ => None end) refs
  | _ => None
  end.

(** The addresses of the objects that make up the routes at [rs]. *)
Definition footprint (h : heap) (rs : loc) : list loc :=
  match h !! rs with
  | Some (Refs refs) => rs :: refs
  | _ => [rs]
  end.

(** The list at [rs] holds the routes [rts], each in a list object of its
    own: no list object is the route of two entries.  This is the shape in
    which the construction heuristics hand over a solution, and the one on
    which the value model of [Solution] above is the model of the code. *)
Definition holds (h : heap) (rs : loc) (rts : list (list Z)) : Prop :=
  exists refs, h !! rs = Some (Refs refs) /\ NoDup refs
               /\ Forall2 (fun l items => h !! l = Some (Ints items)) refs rts.

End Store.

(** ** Small instances used to run the definitions *)

Module Examples.

(** Nodes on a line: the distance between [a] and [b] is [|a - b|]. *)
Definition line_distance (a b : Z) : Q := inject_Z (Z.abs (a - b)).

(** Depot 0, customers 1 and 2, two vehicles of capacity 20. *)
Definition inst3 : VRPInstance.t :=
  VRPInstance.mk 20 0 {[ 0 := 0; 1 := 10; 2 := 15 ]} (Some line_distance) line_distance
    ∅ ∅ 2 [20; 20] [].

Definition sol3 : Solution.t :=
  Solution.mk (Some inst3) [[0; 1; 0]; [0; 2; 0]] 0 0 0 true [] [] [] [].

(** The same customers with no vehicle and no capacity at all. *)
Definition inst_degenerate : VRPInstance.t :=
  VRPInstance.mk 0 0 {[ 0 := 0; 1 := 10; 2 := 15 ]} (Some line_distance) line_distance
    ∅ ∅ 0 [] [].

(** Depot 0 and one customer, node 10, whose window [0, 5] closes before a
    vehicle leaving the depot at time 0 can reach it. *)
Definition inst_late : VRPInstance.t :=
  VRPInstance.mk 10 0 {[ 0 := 0; 10 := 1 ]} (Some line_distance) line_distance
    {[ 10 := (0, 5) ]} ∅ 1 [10] [].

(** One route through both customers, and a generator whose [n]-th draw is
    [n]. *)
Definition sol4 : Solution.t :=
  Solution.mk (Some inst3) [[0; 1; 2; 0]] 4 4 4 true [] [25] [4%Q] [4%Q].

Definition counting : Random.t := Random.mk (fun n => n) 0.

(** A tabu list that holds one entry of each kind. *)
Definition tabu3 : list TabuSearch.tabu_entry :=
  [(TabuSearch.SwapData 1 2, 0%nat); (TabuSearch.RelocateData 1 1 0, 1%nat);
   (TabuSearch.TwoOptData 0 1 2, 2%nat)].

(** Depot 0 and customers 1, 2 and 3 on a line, each on a route of its own. *)
Definition inst_line3 : VRPInstance.t :=
  VRPInstance.mk 20 0 {[ 0 := 0; 1 := 5; 2 := 5; 3 := 5 ]} (Some line_distance)
    line_distance ∅ ∅ 3 [20; 20; 20] [].

Definition sol_line3 : Solution.t :=
  Solution.mk (Some inst_line3) [[0; 1; 0]; [0; 2; 0]; [0; 3; 0]] 0 0 0 true [] [] [] [].

(** The state of a tabu search on [sol_line3], tenure 20, after [n] turns. *)
Definition tabu_after (n : nat) : TabuSearch.state :=
  TabuSearch.solve_loop inst_line3 20 200 n
    (TabuSearch.initial_state sol_line3 [] TabuSearch.new_stats counting).

(** The acceptance test of a short annealing schedule: a worse neighbor is
    accepted when the draw is below one half. *)
Definition coin (u delta temperature : Q) : option bool := Some (Qltb u (1 # 2)).

(** A heap that holds a list of two routes, and the solution object whose
    [routes] is that list. *)
Definition heap3 : Store.heap :=
  [Store.Refs [1; 2]%nat; Store.Ints [0; 1; 0]; Store.Ints [0; 2; 3; 0]].

Definition stored3 : Store.solution :=
  Store.mk_solution (Some inst_line3) 0%nat 0 0 0 true [] [] [] [].

(** The routes of [sol_line3] as three list objects of their own, and the
    solution object that holds them. *)
Definition heap_line3 : Store.heap :=
  [Store.Refs [1; 2; 3]%nat; Store.Ints [0; 1; 0]; Store.Ints [0; 2; 0];
   Store.Ints [0; 3; 0]].

Definition stored_line3 : Store.solution :=
  Store.mk_solution (Some inst_line3) 0%nat 0 0 0 true [] [] [] [].

(** The routes of [sol3] as two list objects of their own. *)
Definition heap_sol3 : Store.heap :=
  [Store.Refs [1; 2]%nat; Store.Ints [0; 1; 0]; Store.Ints [0; 2; 0]].

Definition stored_sol3 : Store.solution :=
  Store.mk_solution (Some inst3) 0%nat 0 0 0 true [] [] [] [].

End Examples.

(** * Properties *)

(** ** Rational comparisons *)

Lemma Qltb_lt a b : Qltb a b = true <-> (a < b)%Q.
Proof.
unfold Qltb. rewrite negb_true_iff. split.
- intros H. apply Qnot_le_lt. intros Hle. apply Qle_bool_iff in Hle. congruence.
- intros H. destruct (Qle_bool b a) eqn:E; [|done].
  apply Qle_bool_iff in E. exfalso. apply (Qlt_not_le _ _ H E).
Qed.

Lemma Qltb_ge a b : Qltb a b = false <-> (b <= a)%Q.
Proof.
unfold Qltb. rewrite negb_false_iff. apply Qle_bool_iff.
Qed.

Lemma max0_nonneg x : (0 <= max0 x)%Q.
Proof.
unfold max0. destruct (Qltb 0 x) eqn:E.
- apply Qltb_lt in E. by apply Qlt_le_weak.
- apply Qle_refl.
Qed.

(** ** Cost of a solution *)

Module SolutionFacts.
Import Solution.

Section Metrics.
Variable inst : VRPInstance.t.
Abbreviation dist := (VRPInstance.get_distance inst).

Lemma metrics_step_shift x route a i :
  metrics_step inst (x :: route) a (S i) = metrics_step inst route a i.
Proof. reflexivity. Qed.

Lemma fold_metrics_shift x route n : forall k a,
  fold_left (metrics_step inst (x :: route)) (seq (S k) n) a
  = fold_left (metrics_step inst route) (seq k n) a.
Proof.
induction n as [|n IH]; intros k a; [reflexivity|].
simpl seq. simpl fold_left. rewrite metrics_step_shift. apply IH.
Qed.

Lemma metrics_step_distance route a i :
  a_distance (metrics_step inst route a i)
  = (a_distance a + dist (nth i route 0%Z) (nth (S i) route 0%Z))%Q.
Proof.
unfold metrics_step. by case_decide.
Qed.

(** The distance accumulated by the indexed loop is the sum over the
    consecutive pairs of the route. *)
Lemma fold_metrics_distance route : forall a,
  (a_distance (fold_left (metrics_step inst route) (seq 0 (length route - 1)) a)
   == a_distance a + consecutive_sum dist route)%Q.
Proof.
induction route as [|x route IH]; intros a.
- simpl. ring.
- destruct route as [|y route].
  + simpl. ring.
  + replace (length (x :: y :: route) - 1)%nat with (S (length (y :: route) - 1))
      by (simpl; lia).
    simpl seq. simpl fold_left. rewrite fold_metrics_shift, IH.
    rewrite metrics_step_distance. simpl. ring.
Qed.

Lemma route_metrics_cost route :
  ((_calculate_route_metrics inst route).1.1.1 == consecutive_sum dist route)%Q.
Proof.
unfold _calculate_route_metrics. case_decide as Hlen.
- destruct route as [|x [|y route]]; simpl in *; try reflexivity; lia.
- simpl. rewrite fold_metrics_distance. simpl. ring.
Qed.

Lemma fold_cost_step rs : forall tt,
  (t_cost (fold_left (cost_step inst) rs tt) == t_cost tt + spec_cost dist rs)%Q.
Proof.
induction rs as [|r rs IH]; intros tt; simpl.
- ring.
- rewrite IH. unfold cost_step.
  pose proof (route_metrics_cost r) as Hr.
  destruct (_calculate_route_metrics inst r) as [[[c d] t] l]. simpl in *.
  rewrite Hr. ring.
Qed.

End Metrics.

(** C5. With an instance attached, [calculate_cost] returns (and stores in
    [total_cost]) the sum, over all routes, of the distances between
    consecutive nodes; a second call with no mutation in between returns the
    same value and leaves the solution as the first call left it. *)
Theorem calculate_cost_is_sum_and_idempotent (s : Solution.t) (inst : VRPInstance.t) :
  instance s = Some inst ->
  ((calculate_cost s).1 == spec_cost (VRPInstance.get_distance inst) (routes s))%Q
  /\ total_cost (calculate_cost s).2 = (calculate_cost s).1
  /\ routes (calculate_cost s).2 = routes s
  /\ calculate_cost (calculate_cost s).2 = calculate_cost s.
Proof.
intros Hinst. destruct s as [i rs c d t f v l rd rt]. simpl in Hinst. subst i.
unfold calculate_cost. simpl. repeat split.
rewrite fold_cost_step. simpl. ring.
Qed.

Lemma calculate_cost_is_sum_and_idempotent_witness :
  ((calculate_cost Examples.sol3).1
   == spec_cost (VRPInstance.get_distance Examples.inst3) (routes Examples.sol3))%Q
  /\ total_cost (calculate_cost Examples.sol3).2 = (calculate_cost Examples.sol3).1
  /\ routes (calculate_cost Examples.sol3).2 = routes Examples.sol3
  /\ calculate_cost (calculate_cost Examples.sol3).2 = calculate_cost Examples.sol3.
Proof.
apply (calculate_cost_is_sum_and_idempotent Examples.sol3 Examples.inst3). reflexivity.
Defined.

End SolutionFacts.

(** ** Greedy construction *)

Module GreedyFacts.
Import GreedyConstruction.

Lemma elements_remove (U : gset Z) (c : Z) :
  c ∈ U -> c :: elements (U ∖ {[c]}) ≡ₚ elements U.
Proof.
intros Hc. rewrite <- elements_union_singleton; [|set_solver].
by rewrite <- union_difference_singleton_L.
Qed.

Lemma size_remove (U : gset Z) (c : Z) :
  c ∈ U -> (size (U ∖ {[c]}) < size U)%nat.
Proof.
intros Hc. rewrite size_difference; [|set_solver]. rewrite size_singleton.
assert (size U ≠ 0%nat); [|lia].
intros H0. apply size_empty_iff in H0. set_solver.
Qed.

Section Facts.
Variable set_iter : gset Z -> list Z.
Hypothesis set_iter_elem : forall (X : gset Z) (x : Z), x ∈ set_iter X <-> x ∈ X.
Variable inst : VRPInstance.t.
Abbreviation depot := (VRPInstance.depot inst).

(** A customer chosen by the scan is one of the scanned ones. *)
Lemma scan_chosen node load time cap l : forall best c,
  (fold_left (scan_step inst node load time cap) l best).1 = Some c ->
  best.1 = Some c \/ c ∈ l.
Proof.
induction l as [|x l IH]; intros best c H; simpl in H; [by left|].
apply IH in H as [H|H]; [|right; by constructor].
unfold scan_step in H.
repeat case_match; simpl in H; auto; inversion H; subst; right; constructor.
Qed.

Lemma build_loop_spec cap fuel : forall st st',
  build_loop set_iter inst cap fuel st = Some st' ->
  exists cs, b_route st' = b_route st ++ cs
             /\ cs ++ elements (b_unvisited st') ≡ₚ elements (b_unvisited st).
Proof.
induction fuel as [|fuel IH]; intros st st' H; simpl in H; [done|].
case_decide as Hempty.
{ inversion H; subst. exists []. by rewrite app_nil_r. }
destruct (fold_left _ _ _).1 as [c|] eqn:Hbest.
2:{ inversion H; subst. exists []. by rewrite app_nil_r. }
apply scan_chosen in Hbest as [Hbest|Hbest]; [done|].
apply set_iter_elem in Hbest.
apply IH in H as (cs & Hroute & Hperm). simpl in *.
exists (c :: cs). split.
- by rewrite Hroute, <- app_assoc.
- simpl. rewrite Hperm. by apply elements_remove.
Qed.

Lemma build_loop_total cap fuel : forall st,
  (size (b_unvisited st) < fuel)%nat ->
  is_Some (build_loop set_iter inst cap fuel st).
Proof.
induction fuel as [|fuel IH]; intros st Hsize; [lia|]. simpl.
case_decide as Hempty; [done|].
destruct (fold_left _ _ _).1 as [c|] eqn:Hbest; [|done].
apply scan_chosen in Hbest as [Hbest|Hbest]; [done|].
apply set_iter_elem in Hbest.
apply IH. simpl. pose proof (size_remove _ _ Hbest). lia.
Qed.

(** What a call of [_build_route] returns: no route and the set untouched, or
    a depot-to-depot route through customers taken out of the set. *)
Lemma build_route_spec (U : gset Z) (vehicle_id : nat) :
  exists route U', _build_route set_iter inst U vehicle_id = Some (route, U')
    /\ ((route = [] /\ U' = U)
        \/ exists c cs, route = depot :: (c :: cs) ++ [depot]
                        /\ (c :: cs) ++ elements U' ≡ₚ elements U).
Proof.
unfold _build_route.
match goal with |- context [build_loop _ _ ?cap ?f ?st] =>
  destruct (build_loop_total cap f st) as [st' Hst]; [simpl; lia|];
  pose proof (build_loop_spec cap f st st' Hst) as (cs & Hroute & Hperm)
end.
rewrite Hst. cbn [b_route b_unvisited] in Hroute, Hperm.
simpl. eexists _, _. split; [reflexivity|].
rewrite Hroute. destruct cs as [|c cs]; simpl.
- left. split; [done|].
  simpl in Hperm. apply set_eq. intros x.
  rewrite <- !elem_of_elements. by rewrite Hperm.
- right. exists c, cs. split; [|done].
  repeat case_decide; try done; exfalso;
    match goal with H : ¬ _ |- _ => apply H end;
    simpl; rewrite ?length_app; simpl; lia.
Qed.

Lemma add_route_closed (s : Solution.t) (cs : list Z) :
  Solution.routes (Solution.add_route inst s (depot :: cs ++ [depot]))
  = Solution.routes s ++ [depot :: cs ++ [depot]].
Proof.
unfold Solution.add_route. simpl. rewrite decide_True by done.
replace (depot :: cs ++ [depot]) with ((depot :: cs) ++ [depot]) by done.
rewrite last_snoc. by rewrite decide_True.
Qed.

Lemma served_app d rs1 rs2 : served d (rs1 ++ rs2) = served d rs1 ++ served d rs2.
Proof. unfold served. by rewrite map_app, concat_app. Qed.

Lemma served_closed (cs : list Z) :
  depot ∉ cs -> served depot [depot :: cs ++ [depot]] = cs.
Proof.
intros Hd. unfold served. simpl. rewrite app_nil_r.
rewrite filter_cons_False by (intros H; by apply H).
rewrite filter_app. rewrite filter_cons_False by (intros H; by apply H).
rewrite filter_nil, app_nil_r.
induction cs as [|x cs IH]; [done|].
apply not_elem_of_cons in Hd as [Hx Hcs].
rewrite filter_cons_True by done. by rewrite IH.
Qed.

(** The loop invariant of [construct]: the customers served so far together
    with the unvisited ones are the customers of the instance, each once. *)
Definition covers (U0 : gset Z) (s : Solution.t) (U : gset Z) : Prop :=
  (depot ∉ U) /\ (served depot (Solution.routes s) ++ elements U ≡ₚ elements U0).

(** Serving the route that [_build_route] returned keeps the invariant. *)
Lemma covers_route U0 s U U' c cs :
  covers U0 s U ->
  (c :: cs) ++ elements U' ≡ₚ elements U ->
  covers U0 (Solution.add_route inst s (depot :: (c :: cs) ++ [depot]))
            (remove_visited U' (depot :: (c :: cs) ++ [depot]))
  /\ (size (remove_visited U' (depot :: (c :: cs) ++ [depot])) < size U)%nat.
Proof.
intros [Hd Hcov] Hperm.
assert (Hsub : forall x, x ∈ U' -> x ∈ U).
{ intros x Hx. rewrite <- elem_of_elements, <- Hperm.
  apply elem_of_app. right. by apply elem_of_elements. }
assert (Hin : forall x, x ∈ c :: cs -> x ∈ U).
{ intros x Hx. rewrite <- elem_of_elements, <- Hperm.
  apply elem_of_app. by left. }
assert (Hnd : NoDup ((c :: cs) ++ elements U')).
{ rewrite Hperm. apply NoDup_elements. }
apply NoDup_app in Hnd as (_ & Hdisj & _).
assert (Hrm : remove_visited U' (depot :: (c :: cs) ++ [depot]) = U').
{ unfold remove_visited. apply set_eq. intros x.
  rewrite elem_of_difference, elem_of_list_to_set. split; [tauto|].
  intros Hx. split; [done|]. intros Hr.
  apply elem_of_cons in Hr as [->|Hr]; [by apply Hd, Hsub|].
  apply elem_of_app in Hr as [Hr|Hr].
  - apply (Hdisj x Hr). by apply elem_of_elements.
  - apply list_elem_of_singleton in Hr as ->. by apply Hd, Hsub. }
rewrite Hrm. split; [split|].
- intros H. by apply Hd, Hsub.
- rewrite add_route_closed, served_app, served_closed.
  + rewrite <- app_assoc, Hperm. done.
  + intros H. by apply Hd, Hin.
- assert (Hlen : length ((c :: cs) ++ elements U') = length (elements U))
    by (by rewrite Hperm).
  rewrite length_app in Hlen. simpl in Hlen. unfold size, set_size. simpl. lia.
Qed.

Lemma vehicle_loop_covers U0 remaining : forall vehicle_id s U,
  covers U0 s U ->
  exists s' U', vehicle_loop set_iter inst remaining vehicle_id s U = Some (s', U')
                /\ covers U0 s' U'.
Proof.
induction remaining as [|n IH]; intros vid s U Hcov; simpl; [eauto|].
case_decide as Hempty; [eauto|].
destruct (build_route_spec U vid) as (route & U' & Hbr & Hcase).
rewrite Hbr. simpl.
destruct Hcase as [[-> ->]|(c & cs & -> & Hperm)].
- by apply IH.
- apply IH. by eapply covers_route.
Qed.

Lemma extra_loop_covers U0 fuel : forall s U,
  covers U0 s U -> (size U <= fuel)%nat ->
  exists s', extra_loop set_iter inst fuel s U = Some s'
             /\ served depot (Solution.routes s') ≡ₚ elements U0.
Proof.
induction fuel as [|n IH]; intros s U Hcov Hsize.
- assert (U = ∅) as -> by (apply leibniz_equiv, size_empty_iff; lia).
  simpl. exists s. split; [done|].
  destruct Hcov as [_ Hcov]. by rewrite elements_empty, app_nil_r in Hcov.
- simpl. case_decide as Hempty.
  { subst U. exists s. split; [done|].
    destruct Hcov as [_ Hcov]. by rewrite elements_empty, app_nil_r in Hcov. }
  destruct (build_route_spec U (length (Solution.routes s)))
    as (route & U' & Hbr & Hcase).
  rewrite Hbr. simpl.
  destruct Hcase as [[-> ->]|(c & cs & -> & Hperm)].
  + destruct (set_iter U) as [|c l] eqn:Hiter.
    { exfalso. apply Hempty. apply set_eq. intros x.
      rewrite <- set_iter_elem, Hiter. set_solver. }
    assert (Hc : c ∈ U) by (apply set_iter_elem; rewrite Hiter; constructor).
    destruct Hcov as [Hd Hcov]. simpl.
    apply IH.
    * split; [set_solver|].
      change [depot; c; depot] with (depot :: [c] ++ [depot]).
      rewrite add_route_closed, served_app, served_closed.
      -- rewrite <- app_assoc. simpl. by rewrite elements_remove.
      -- intros H. apply list_elem_of_singleton in H. congruence.
    * pose proof (size_remove _ _ Hc). lia.
  + destruct (covers_route _ _ _ _ _ _ Hcov Hperm) as [Hcov' Hlt].
    apply IH; [done|lia].
Qed.

Lemma calculate_cost_routes (s : Solution.t) :
  Solution.routes (Solution.calculate_cost s).2 = Solution.routes s.
Proof. unfold Solution.calculate_cost. by destruct (Solution.instance s). Qed.

Lemma construct_covers :
  exists s, construct set_iter inst = Some s
    /\ served depot (Solution.routes s)
       ≡ₚ elements (dom (VRPInstance.demands inst) ∖ {[depot]}).
Proof.
unfold construct.
set (U0 := dom (VRPInstance.demands inst) ∖ {[depot]}).
assert (Hcov : covers U0 (Solution.new (Some inst)) U0).
{ split; [set_solver|]. done. }
destruct (vehicle_loop_covers U0 (Z.to_nat (VRPInstance.vehicle_count inst)) 0%nat _ _ Hcov)
  as (s1 & U1 & H1 & Hcov1).
rewrite H1. simpl.
destruct (extra_loop_covers U0 (size U1) s1 U1 Hcov1) as (s2 & H2 & Hserved); [lia|].
rewrite H2. simpl. eexists. split; [reflexivity|].
by rewrite calculate_cost_routes.
Qed.

(** What the scan of [_build_route] does check before it keeps a customer:
    the load fits the vehicle, and the arrival is inside the window or the
    wait computed by [get_waiting_time] is at most 100. *)
Lemma scan_chosen_checked node load time cap l : forall best c,
  (fold_left (scan_step inst node load time cap) l best).1 = Some c ->
  best.1 = Some c
  \/ (load + VRPInstance.demand inst c <= cap
      /\ (VRPInstance.is_feasible_time_window inst c
            (time + VRPInstance.get_distance inst node c) = true
          \/ (VRPInstance.get_waiting_time inst c
                (time + VRPInstance.get_distance inst node c) <= 100)%Q)).
Proof.
induction l as [|x l IH]; intros best c H; simpl in H; [by left|].
apply IH in H as [H|H]; [|by right].
unfold scan_step in H.
destruct (decide (load + VRPInstance.demand inst x > cap)) as [|Hcap]; [by left|].
destruct (VRPInstance.is_feasible_time_window inst x _) eqn:Hfeas; simpl in H.
- destruct (below _ _); [|by left]. inversion H; subst.
  right. split; [lia|by left].
- destruct (Qltb 100 _) eqn:Hwait; [by left|].
  destruct (below _ _); [|by left]. inversion H; subst.
  right. split; [lia|]. right. by apply Qltb_ge.
Qed.

End Facts.

(** C6. Whatever the iteration order of the set and whatever the fleet,
    [construct] returns a solution in which the customers of the instance
    (the keys of [demands] other than the depot) are served exactly once
    each: the non-depot nodes of all routes, read in order, are a
    duplicate-free enumeration of the customers.  This covers the runs in
    which the vehicle count is used up and extra or forced routes are made. *)
Theorem construct_serves_each_customer_once
    (set_iter : gset Z -> list Z) (inst : VRPInstance.t) :
  (forall (X : gset Z) (x : Z), x ∈ set_iter X <-> x ∈ X) ->
  VRPInstance.demands inst !! VRPInstance.depot inst = Some 0 ->
  exists s, construct set_iter inst = Some s
    /\ served (VRPInstance.depot inst) (Solution.routes s)
       ≡ₚ elements (dom (VRPInstance.demands inst) ∖ {[VRPInstance.depot inst]})
    /\ NoDup (served (VRPInstance.depot inst) (Solution.routes s)).
Proof.
intros Hiter _.
destruct (construct_covers set_iter Hiter inst) as (s & Hs & Hperm).
exists s. split; [done|]. split; [done|].
rewrite Hperm. apply NoDup_elements.
Qed.

Lemma construct_serves_each_customer_once_witness :
  exists s, construct elements Examples.inst_degenerate = Some s
    /\ served 0 (Solution.routes s) ≡ₚ elements ({[0; 1; 2]} ∖ {[0]} : gset Z)
    /\ NoDup (served 0 (Solution.routes s)).
Proof.
apply (construct_serves_each_customer_once elements Examples.inst_degenerate).
- intros X x. apply elem_of_elements.
- reflexivity.
Defined.

(** The forced routes of the degenerate instance. *)
Example construct_degenerate_routes :
  Solution.routes <$> construct elements Examples.inst_degenerate
  = Some [[0; 2; 0]; [0; 1; 0]].
Proof. vm_compute. reflexivity. Qed.

(** C3 (the code departs from it). A vehicle leaves the depot at time 0; node
    10 is reached at time 10, after its window [0, 5] has closed.  The arrival
    is not feasible, the waiting time is 0, and [_build_route] appends the
    customer all the same. *)
Theorem build_route_appends_late_customer :
  let arrival := (0 + VRPInstance.get_distance Examples.inst_late 0 10)%Q in
  VRPInstance.is_feasible_time_window Examples.inst_late 10 arrival = false
  /\ (inject_Z 5 < arrival)%Q
  /\ VRPInstance.get_waiting_time Examples.inst_late 10 arrival = 0%Q
  /\ _build_route elements Examples.inst_late {[10]} 0 = Some ([0; 10; 0], ∅).
Proof. vm_compute. repeat split. Qed.

End GreedyFacts.

(** ** Tabu search *)

Module TabuFacts.
Import TabuSearch.

Lemma is_tabu_iff (tl : list tabu_entry) (move : move_info) :
  _is_tabu_move tl move = true <-> exists e, e ∈ tl /\ entry_hits move e.1 = true.
Proof.
unfold _is_tabu_move. rewrite existsb_exists. split.
- intros (e & Hin & Hhit). exists e. split; [by apply list_elem_of_In|done].
- intros (e & Hin & Hhit). exists e. split; [by apply list_elem_of_In|done].
Qed.

(** The test the code makes on a relocate: some entry holds the same customer
    with the two routes exchanged. *)
Lemma is_tabu_relocate (tl : list tabu_entry) c from_route to_route p q :
  _is_tabu_move tl (Relocate c from_route to_route p q) = true
  <-> exists it, (RelocateData c to_route from_route, it) ∈ tl.
Proof.
rewrite is_tabu_iff. split.
- intros ([[t1 t2|tc tf tt|r i j] it] & Hin & Hhit); simpl in Hhit; try done.
  apply andb_true_iff in Hhit as [Hhit H3].
  apply andb_true_iff in Hhit as [H1 H2].
  apply bool_decide_eq_true in H1, H2, H3. subst. by exists it.
- intros (it & Hin). exists (RelocateData c to_route from_route, it).
  split; [done|]. simpl. by rewrite !bool_decide_eq_true_2.
Qed.

(** On swaps the test of the code is the test of the specification; on
    relocates it is that test with the two routes of the entry exchanged. *)
Lemma entry_hits_swap c1 c2 r1 r2 t1 t2 :
  entry_hits (Swap c1 c2 r1 r2) (SwapData t1 t2) = true
  <-> spec_matches (Swap c1 c2 r1 r2) (SwapData t1 t2).
Proof.
simpl. rewrite orb_true_iff, !andb_true_iff, !bool_decide_eq_true. tauto.
Qed.

Lemma entry_hits_relocate c a b p q tc ta tb :
  entry_hits (Relocate c a b p q) (RelocateData tc ta tb) = true
  <-> spec_matches (Relocate c a b p q) (RelocateData tc tb ta).
Proof.
simpl. rewrite !andb_true_iff, !bool_decide_eq_true. tauto.
Qed.

(** An entry is kept by the update that records it when the tenure is
    positive. *)
Lemma update_records (tenure : Z) (tl : list tabu_entry) (move : move_info) (it : nat) :
  0 < tenure -> (reverse_move move, it) ∈ _update_tabu_list tenure tl move it.
Proof.
intros Htenure. unfold _update_tabu_list.
apply list_elem_of_filter. split; [simpl; lia|].
apply elem_of_app. right. constructor.
Qed.

(** C2 (the code departs from it). Customer 5 has been moved from route 0 to
    route 1 at iteration 0; the entry stored is the reverse move, from route 1
    to route 0.  The later move of customer 5 from route 1 back to route 0,
    which is the stored entry, is not classified as tabu; moving it from route
    0 to route 1 once more is. *)
Theorem reverse_relocate_is_not_tabu :
  let tl := _update_tabu_list 20 [] (Relocate 5 0 1 1 1) 0 in
  tl = [(RelocateData 5 1 0, 0%nat)]
  /\ spec_matches (Relocate 5 1 0 1 1) (RelocateData 5 1 0)
  /\ _is_tabu_move tl (Relocate 5 1 0 1 1) = false
  /\ _is_tabu_move tl (Relocate 5 0 1 1 1) = true.
Proof. simpl. repeat split. Qed.

(** The same for every customer and every pair of distinct routes. *)
Lemma reverse_relocate_never_hits (tenure : Z) c (a b : nat) p q p' q' it :
  a ≠ b ->
  _is_tabu_move (_update_tabu_list tenure [] (Relocate c a b p q) it)
                (Relocate c b a p' q') = false.
Proof.
intros Hab. apply not_true_is_false. rewrite is_tabu_relocate.
intros (it' & Hin). unfold _update_tabu_list in Hin.
apply list_elem_of_filter in Hin as [_ Hin]. simpl in Hin.
apply list_elem_of_singleton in Hin. congruence.
Qed.

Lemma two_opt_hits_nothing route i j (e : tabu_data) :
  entry_hits (TwoOpt route i j) e = false.
Proof. by destruct e. Qed.

Lemma two_opt_not_tabu (tl : list tabu_entry) route i j :
  _is_tabu_move tl (TwoOpt route i j) = false.
Proof.
unfold _is_tabu_move. induction tl as [|e tl IH]; [done|].
cbn [existsb]. by rewrite two_opt_hits_nothing.
Qed.

(** Every move made by [_generate_2opt_moves] is a 2-opt move. *)
Definition is_two_opt (nb : neighbor) : Prop :=
  exists route i j, nb.2 = TwoOpt route i j.

Opaque Random.randint Random.sample Random.next Solution.calculate_cost.

Lemma two_opt_tries_kind solution route_idx route tries : forall moves g,
  Forall is_two_opt moves ->
  Forall is_two_opt (two_opt_tries solution route_idx route tries moves g).1.
Proof.
induction tries as [|n IH]; intros moves g Hall; simpl; [done|].
case_decide; [done|].
destruct (Random.randint 1 _ g) as [i g1].
destruct (Random.randint (i + 1) _ g1) as [j g2].
apply IH. apply Forall_app. split; [done|].
constructor; [|constructor]. by exists route_idx, i, j.
Qed.

Lemma generate_2opt_kind solution g :
  Forall is_two_opt (_generate_2opt_moves solution g).1.
Proof.
unfold _generate_2opt_moves.
generalize (imap (fun route_idx route => (route_idx, route)) (Solution.routes solution)).
intros l.
assert (Hgen : forall (acc : list neighbor * Random.t),
  Forall is_two_opt acc.1 ->
  Forall is_two_opt
    (fold_left (fun '(moves, g) (ir : nat * list Z) =>
       let route := ir.2 in
       if decide ((length route < 4)%nat \/ (max_2opt <= length moves)%nat)
       then (moves, g)
       else two_opt_tries solution ir.1 route (5 `min` (length route - 3))%nat moves g)
       l acc).1).
{ induction l as [|ir l IH]; intros [moves g'] Hall; simpl; [done|].
  apply IH. case_decide; [done|]. by apply two_opt_tries_kind. }
by apply Hgen.
Qed.

(** C10. A 2-opt move is never classified as tabu, whatever the tabu list
    holds (2-opt entries included); hence every move that
    [_generate_2opt_moves] produces passes the eligibility test of
    [_select_best_move], whatever the best known cost. *)
Theorem two_opt_moves_are_never_tabu
    (tl : list tabu_entry) (solution : Solution.t) (g : Random.t)
    (best_known_cost : Q) (nb : neighbor) :
  (forall route i j, _is_tabu_move tl (TwoOpt route i j) = false)
  /\ (nb ∈ (_generate_2opt_moves solution g).1 ->
      _is_tabu_move tl nb.2 = false /\ eligible tl best_known_cost nb = true).
Proof.
split; [intros; apply two_opt_not_tabu|].
intros Hin.
pose proof (generate_2opt_kind solution g) as Hall.
rewrite Forall_forall in Hall. destruct (Hall nb Hin) as (route & i & j & Hmove).
unfold eligible. rewrite Hmove, two_opt_not_tabu. done.
Qed.

Transparent Random.randint Random.sample Random.next Solution.calculate_cost.

Lemma two_opt_moves_are_never_tabu_witness :
  let nb : neighbor :=
    ((Solution.calculate_cost (Solution.set_routes Examples.sol4 [[0; 2; 1; 0]])).2,
     TwoOpt 0 1 2) in
  (forall route i j, _is_tabu_move Examples.tabu3 (TwoOpt route i j) = false)
  /\ _is_tabu_move Examples.tabu3 nb.2 = false
  /\ eligible Examples.tabu3 0 nb = true.
Proof.
intros nb.
destruct (two_opt_moves_are_never_tabu Examples.tabu3 Examples.sol4 Examples.counting 0 nb)
  as [Hall Hnb].
split; [exact Hall|]. apply Hnb.
apply list_elem_of_lookup. exists 0%nat. vm_compute. reflexivity.
Defined.

(** *** Selection *)

Section Selection.
Variable tl : list tabu_entry.
Variable best_known_cost : Q.

Abbreviation cost nb := (Solution.total_cost (fst nb)).

(** What the running best of [_select_best_move] is with respect to the
    neighbors looked at so far. *)
Definition best_so_far (seen : list neighbor) (sel : selection) : Prop :=
  match best_neighbor sel with
  | Some nb =>
      best_cost sel = Some (cost nb)
      /\ nb ∈ seen
      /\ eligible tl best_known_cost nb = true
      /\ forall nb', nb' ∈ seen -> eligible tl best_known_cost nb' = true ->
                     (cost nb <= cost nb')%Q
  | None =>
      best_cost sel = None
      /\ forall nb', nb' ∈ seen -> eligible tl best_known_cost nb' = false
  end.

Lemma select_step_best seen sel nb :
  best_so_far seen sel ->
  best_so_far (seen ++ [nb]) (select_step tl best_known_cost sel nb).
Proof.
unfold best_so_far, select_step. intros Hinv.
destruct (eligible tl best_known_cost nb) eqn:Helig.
- destruct (best_neighbor sel) as [old|] eqn:Hold.
  + destruct Hinv as (Hcost & Hin & Hel & Hmin). rewrite Hcost. simpl.
    destruct (Qltb (cost nb) (cost old)) eqn:Hlt; simpl.
    * apply Qltb_lt in Hlt. repeat split; [set_solver|done|].
      intros nb' Hnb' Hel'. apply elem_of_app in Hnb' as [Hnb'|Hnb'].
      -- apply Qle_trans with (cost old); [by apply Qlt_le_weak|by apply Hmin].
      -- apply list_elem_of_singleton in Hnb' as ->. apply Qle_refl.
    * apply Qltb_ge in Hlt. rewrite Hold. repeat split; [done|set_solver|done|].
      intros nb' Hnb' Hel'. apply elem_of_app in Hnb' as [Hnb'|Hnb'].
      -- by apply Hmin.
      -- by apply list_elem_of_singleton in Hnb' as ->.
  + destruct Hinv as (Hcost & Hnone). rewrite Hcost. simpl.
    repeat split; [set_solver|done|].
    intros nb' Hnb' Hel'. apply elem_of_app in Hnb' as [Hnb'|Hnb'].
    -- apply Hnone in Hnb'. congruence.
    -- apply list_elem_of_singleton in Hnb' as ->. apply Qle_refl.
- simpl. destruct (best_neighbor sel) as [old|].
  + destruct Hinv as (Hcost & Hin & Hel & Hmin). repeat split; [done|set_solver|done|].
    intros nb' Hnb' Hel'. apply elem_of_app in Hnb' as [Hnb'|Hnb'].
    -- by apply Hmin.
    -- apply list_elem_of_singleton in Hnb' as ->. congruence.
  + destruct Hinv as (Hcost & Hnone). split; [done|].
    intros nb' Hnb'. apply elem_of_app in Hnb' as [Hnb'|Hnb'].
    -- by apply Hnone.
    -- by apply list_elem_of_singleton in Hnb' as ->.
Qed.

Lemma select_fold_best l : forall seen sel,
  best_so_far seen sel ->
  best_so_far (seen ++ l) (fold_left (select_step tl best_known_cost) l sel).
Proof.
induction l as [|nb l IH]; intros seen sel Hinv; simpl.
- by rewrite app_nil_r.
- replace (seen ++ nb :: l) with ((seen ++ [nb]) ++ l) by (by rewrite <- app_assoc).
  apply IH. by apply select_step_best.
Qed.

(** With respect to the test that the code makes, [_select_best_move] is
    right: the neighbor it returns is not tabu for [_is_tabu_move] or is
    below the best known cost, and no neighbor that passes the same test is
    cheaper; it returns nothing only when no neighbor passes. *)
Lemma select_best_move_spec (st : stats) (neighbors : list neighbor) :
  match (_select_best_move tl st neighbors best_known_cost).1 with
  | Some nb =>
      nb ∈ neighbors
      /\ (_is_tabu_move tl nb.2 = false \/ (cost nb < best_known_cost)%Q)
      /\ forall nb', nb' ∈ neighbors -> eligible tl best_known_cost nb' = true ->
                     (cost nb <= cost nb')%Q
  | None => forall nb', nb' ∈ neighbors -> eligible tl best_known_cost nb' = false
  end.
Proof.
unfold _select_best_move. simpl.
pose proof (select_fold_best neighbors [] (mk_selection None None st)) as Hinv.
simpl in Hinv. unfold best_so_far in Hinv at 2.
destruct (best_neighbor _) as [nb|].
- destruct Hinv as (_ & Hin & Hel & Hmin); [split; [done|]; intros ? H; inversion H|].
  split; [done|]. split; [|done].
  unfold eligible in Hel. apply orb_true_iff in Hel as [Hel|Hel].
  + left. by apply negb_true_iff.
  + right. by apply Qltb_lt.
- destruct Hinv as (_ & Hnone); [split; [done|]; intros ? H; inversion H|]. done.
Qed.

End Selection.

(** A direct call of [_select_best_move] on a relocate that is in the tabu
    list.  Customer 1 has been moved from route 0 to route 1 at iteration 0
    and the reverse move was stored.  At iteration 1, still inside the tenure
    of 20, the neighborhood holds the move of customer 1 from route 1 back to
    route 0, of cost 6, while the best known cost is 4.  The move is the
    stored entry and does not improve the best known cost, and
    [_select_best_move] returns it.  [SearchFacts] has the same inside a run
    of [solve]. *)
Example select_best_move_returns_stored_relocate :
  let tl := _update_tabu_list 20 [] (Relocate 1 0 1 1 2) 0 in
  let nb : neighbor := ((Solution.calculate_cost Examples.sol3).2, Relocate 1 1 0 2 1) in
  tl = [(RelocateData 1 1 0, 0%nat)]
  /\ spec_matches nb.2 (RelocateData 1 1 0)
  /\ 1 - 0 < 20
  /\ Solution.total_cost nb.1 = 6%Q
  /\ Qltb (Solution.total_cost nb.1) 4 = false
  /\ (_select_best_move tl new_stats [nb] 4).1 = Some nb.
Proof. vm_compute. repeat split. Qed.

End TabuFacts.

(** ** The two search drivers *)

Module SearchFacts.

Lemma min_cost_snoc x l c :
  SimulatedAnnealing.min_cost x (l ++ [c])
  = if Qltb c (SimulatedAnnealing.min_cost x l) then c else SimulatedAnnealing.min_cost x l.
Proof. unfold SimulatedAnnealing.min_cost. by rewrite fold_left_app. Qed.

Lemma min_cost_least l : forall x,
  SimulatedAnnealing.min_cost x l ∈ x :: l
  /\ forall c, c ∈ x :: l -> (SimulatedAnnealing.min_cost x l <= c)%Q.
Proof.
induction l as [|y l IH] using rev_ind; intros x.
- simpl. split; [constructor|].
  intros c Hc. apply list_elem_of_singleton in Hc as ->. apply Qle_refl.
- rewrite min_cost_snoc. destruct (IH x) as [Hin Hle].
  destruct (Qltb y _) eqn:Hlt.
  + apply Qltb_lt in Hlt. split; [set_solver|].
    intros c Hc. change (x :: l ++ [y]) with ((x :: l) ++ [y]) in Hc.
    apply elem_of_app in Hc as [Hc|Hc].
    * apply Qle_trans with (SimulatedAnnealing.min_cost x l);
        [by apply Qlt_le_weak|by apply Hle].
    * apply list_elem_of_singleton in Hc as ->. apply Qle_refl.
  + apply Qltb_ge in Hlt. split; [set_solver|].
    intros c Hc. change (x :: l ++ [y]) with ((x :: l) ++ [y]) in Hc.
    apply elem_of_app in Hc as [Hc|Hc]; [by apply Hle|].
    by apply list_elem_of_singleton in Hc as ->.
Qed.

Section Annealing.
Import SimulatedAnnealing.

Variable instance : VRPInstance.t.
Variables initial_temp final_temp cooling_rate : Q.
Variables max_iterations max_iterations_per_temp : Z.
Variable metropolis : Q -> Q -> Q -> option bool.
Variable c0 : Q.

Abbreviation turn := (inner_turn instance metropolis).
Abbreviation inner := (inner_loop instance max_iterations metropolis).
Abbreviation outer :=
  (outer_loop instance final_temp cooling_rate max_iterations max_iterations_per_temp
              metropolis).

(** The invariant of the run: the best solution is no dearer than the current
    one, and its cost is the least of the starting cost and of the costs of
    the neighbors evaluated so far. *)
Definition tracks (st : state) : Prop :=
  (Solution.total_cost (best_solution st) <= Solution.total_cost (current_solution st))%Q
  /\ Solution.total_cost (best_solution st) = min_cost c0 (evaluated st).

Lemma inner_turn_tracks st st' :
  tracks st -> turn st = Returned st' ->
  tracks st' /\ iteration st' = S (iteration st).
Proof.
unfold tracks, inner_turn. intros [Hle Hmin] Hturn.
destruct (_generate_neighbor instance (current_solution st) (rng st)) as [nb g].
set (n := (Solution.calculate_cost nb).2) in *.
destruct (Qltb (Solution.total_cost n - Solution.total_cost (current_solution st)) 0)
  eqn:Himp.
- apply Qltb_lt in Himp. simpl in Hturn. inversion Hturn; subst; clear Hturn. simpl.
  split; [|done]. rewrite min_cost_snoc, <- Hmin.
  destruct (Qltb (Solution.total_cost n) (Solution.total_cost (best_solution st)))
    eqn:Hbest; unfold Solution.copy.
  + split; [apply Qle_refl|done].
  + apply Qltb_ge in Hbest. done.
- apply Qltb_ge in Himp.
  destruct (Random.random g) as [u g'].
  destruct (metropolis u _ (temperature st)) as [accept|]; simpl in Hturn; [|done].
  inversion Hturn; subst; clear Hturn. simpl. split; [|done].
  rewrite andb_false_r. simpl. rewrite min_cost_snoc, <- Hmin.
  assert (Hn : (Solution.total_cost (best_solution st) <= Solution.total_cost n)%Q) by lra.
  assert (Hnot : Qltb (Solution.total_cost n) (Solution.total_cost (best_solution st)) = false)
    by (by apply Qltb_ge).
  rewrite Hnot. split; [|done]. by destruct accept.
Qed.

Lemma inner_loop_tracks turns : forall st st',
  tracks st -> inner turns st = Returned st' ->
  tracks st' /\ (iteration st <= iteration st')%nat
  /\ (turns ≠ 0%nat -> iteration st < iteration st')%nat.
Proof.
induction turns as [|k IH]; intros st st' Htr Hloop; simpl in Hloop.
- inversion Hloop; subst. done.
- destruct (turn st) as [st1| |] eqn:Hturn; try done.
  destruct (inner_turn_tracks _ _ Htr Hturn) as [Htr1 Hit1].
  case_decide.
  + inversion Hloop; subst. split; [done|]. lia.
  + destruct (IH _ _ Htr1 Hloop) as (Htr' & Hit' & _). split; [done|]. lia.
Qed.

Lemma inner_loop_fuel turns : forall st, inner turns st ≠ OutOfFuel.
Proof.
induction turns as [|k IH]; intros st; simpl; [done|].
destruct (turn st) as [st1| |] eqn:Hturn; [by case_decide|done|].
unfold inner_turn in Hturn.
destruct (_generate_neighbor _ _ _) as [nb g].
by destruct (if Qltb _ 0 then _ else _) as [[? ?]|].
Qed.

Lemma cool_down_tracks st : tracks st -> tracks (cool_down cooling_rate st).
Proof. done. Qed.

Lemma outer_loop_tracks fuel : forall st st',
  tracks st -> outer fuel st = Returned st' -> tracks st'.
Proof.
induction fuel as [|f IH]; intros st st' Htr Hloop; simpl in Hloop.
- destruct (_ && _); [done|]. by inversion Hloop; subst.
- destruct (_ && _); [|by inversion Hloop; subst].
  destruct (inner _ st) as [st1| |] eqn:Hinner; try done.
  destruct (inner_loop_tracks _ _ _ Htr Hinner) as (Htr1 & _).
  eapply IH; [|done]. by apply cool_down_tracks.
Qed.

(** With at least one turn per temperature, every temperature visited
    completes a turn, so [max_iterations] temperatures at most are visited. *)
Lemma outer_loop_fuel fuel : forall st,
  tracks st -> 1 <= max_iterations_per_temp ->
  max_iterations - Z.of_nat (iteration st) < Z.of_nat fuel ->
  outer fuel st ≠ OutOfFuel.
Proof.
induction fuel as [|f IH]; intros st Htr Hper Hfuel; simpl.
- destruct (Qltb _ _); simpl; [|done]. case_bool_decide; [lia|done].
- destruct (_ && _); [|done].
  destruct (inner _ st) as [st1| |] eqn:Hinner; [|done|by apply inner_loop_fuel in Hinner].
  destruct (inner_loop_tracks _ _ _ Htr Hinner) as (Htr1 & _ & Hit).
  apply IH; [by apply cool_down_tracks|done|]. simpl.
  assert (Z.to_nat max_iterations_per_temp ≠ 0%nat) by lia.
  specialize (Hit ltac:(done)). lia.
Qed.

End Annealing.

(** What the invariant gives at the end of a run. *)
Lemma solve_tracks
    (instance : VRPInstance.t) (initial_temp final_temp cooling_rate : Q)
    (max_iterations max_iterations_per_temp : Z)
    (metropolis : Q -> Q -> Q -> option bool)
    (fuel : nat) (st0 : SimulatedAnnealing.stats)
    (initial_solution : Solution.t) (g : Random.t) best st :
  SimulatedAnnealing.solve instance initial_temp final_temp cooling_rate
    max_iterations max_iterations_per_temp metropolis fuel st0 initial_solution g
  = Returned (best, st) ->
  Solution.total_cost best
  = SimulatedAnnealing.min_cost (Solution.start_cost initial_solution)
                                (SimulatedAnnealing.evaluated st).
Proof.
unfold SimulatedAnnealing.solve. intros Hrun.
destruct (SimulatedAnnealing.outer_loop _ _ _ _ _ _ _ _) as [st2| |] eqn:Hloop; try done.
apply outer_loop_tracks with (c0 := Solution.start_cost initial_solution) in Hloop.
- inversion Hrun; subst; clear Hrun. simpl. by destruct Hloop.
- split; [apply Qle_refl|done].
Qed.

(** *** The candidates of a run *)

Lemma power_step (q : Q) (k : nat) : (q ^ Z.of_nat (S k) == q ^ Z.of_nat k * q)%Q.
Proof.
rewrite Nat2Z.inj_succ. unfold Z.succ. rewrite Qpower_plus' by lia.
simpl. reflexivity.
Qed.

Section Trace.
Import SimulatedAnnealing.

Variable instance : VRPInstance.t.
Variables initial_temp final_temp cooling_rate : Q.
Variables max_iterations max_iterations_per_temp : Z.
Variable metropolis : Q -> Q -> Q -> option bool.

(** The candidates that a run evaluates from the current solution [current]
    with the generator [g], in order, and the current solution and the
    generator it is left with.  Each candidate is the neighbor that
    [_generate_neighbor] draws from the current solution, with its cost
    computed by [calculate_cost]; the run goes on from the candidate when it
    is accepted and from the same current solution when it is not, after one
    more draw when the acceptance test needed one. *)
Inductive evaluates
  : Solution.t -> Random.t -> list Solution.t -> Solution.t -> Random.t -> Prop :=
| evaluates_nil current g : evaluates current g [] current g
| evaluates_cons current g neighbor g1 next g2 rest final gf :
    neighbor = (Solution.calculate_cost (_generate_neighbor instance current g).1).2 ->
    g1 = (_generate_neighbor instance current g).2 ->
    next = neighbor \/ next = current ->
    g2 = g1 \/ g2 = (Random.random g1).2 ->
    evaluates next g2 rest final gf ->
    evaluates current g (neighbor :: rest) final gf.

Lemma evaluates_snoc s0 g0 l current g neighbor g1 next g2 :
  evaluates s0 g0 l current g ->
  neighbor = (Solution.calculate_cost (_generate_neighbor instance current g).1).2 ->
  g1 = (_generate_neighbor instance current g).2 ->
  next = neighbor \/ next = current ->
  g2 = g1 \/ g2 = (Random.random g1).2 ->
  evaluates s0 g0 (l ++ [neighbor]) next g2.
Proof.
intros Hev Hnb Hg1 Hnext Hg2.
induction Hev as [cur g|cur g nb' g1' nx g2' rest fin gf Hnb' Hg1' Hnx Hg2' Hrest IH].
- simpl. eapply evaluates_cons; try done. constructor.
- simpl. eapply evaluates_cons; try done. by apply IH.
Qed.

(** What a run keeps true of its state with respect to the solution [s0] and
    the generator [g0] it started from. *)
Definition traced (s0 : Solution.t) (g0 : Random.t) (st : state) : Prop :=
  exists neighbors,
    evaluates s0 g0 neighbors (current_solution st) (rng st)
    /\ evaluated st = map Solution.total_cost neighbors
    /\ length neighbors = iteration st
    /\ best_solution st ∈ s0 :: neighbors.

Lemma inner_turn_traced s0 g0 st st' :
  traced s0 g0 st -> inner_turn instance metropolis st = Returned st' ->
  traced s0 g0 st'
  /\ iteration st' = S (iteration st)
  /\ temperature st' = temperature st
  /\ temperature_reductions (run_stats st') = temperature_reductions (run_stats st).
Proof.
intros (l & Hev & Hlog & Hlen & Hbest) Hturn. unfold inner_turn in Hturn.
destruct (_generate_neighbor instance (current_solution st) (rng st)) as [nb g1] eqn:Hgen.
set (n := (Solution.calculate_cost nb).2) in *.
assert (Hn : n = (Solution.calculate_cost
                    (_generate_neighbor instance (current_solution st) (rng st)).1).2)
  by (by rewrite Hgen).
assert (Hg1 : g1 = (_generate_neighbor instance (current_solution st) (rng st)).2)
  by (by rewrite Hgen).
destruct (Qltb (Solution.total_cost n - Solution.total_cost (current_solution st)) 0)
  eqn:Himp.
- simpl in Hturn. inversion Hturn; subst st'; clear Hturn. simpl.
  split; [|done]. exists (l ++ [n]). split; [|split; [|split]].
  + eapply evaluates_snoc; try done; by left.
  + by rewrite Hlog, map_app.
  + rewrite length_app. simpl. lia.
  + cbn [best_solution]. unfold Solution.copy.
    destruct (Qltb (Solution.total_cost n) _); set_solver.
- destruct (Random.random g1) as [u g2] eqn:Hrand.
  destruct (metropolis u _ (temperature st)) as [accept|]; simpl in Hturn; [|done].
  inversion Hturn; subst st'; clear Hturn. simpl.
  split; [|by destruct accept]. exists (l ++ [n]). split; [|split; [|split]].
  + eapply evaluates_snoc; try done.
    * destruct accept; [by left|by right].
    * right. by rewrite Hrand.
  + by rewrite Hlog, map_app.
  + rewrite length_app. simpl. lia.
  + cbn [best_solution]. rewrite andb_false_r. set_solver.
Qed.

Lemma inner_loop_traced s0 g0 turns : forall st st',
  traced s0 g0 st -> Z.of_nat (iteration st) < max_iterations ->
  inner_loop instance max_iterations metropolis turns st = Returned st' ->
  traced s0 g0 st'
  /\ Z.of_nat (iteration st')
     = Z.min max_iterations (Z.of_nat (iteration st) + Z.of_nat turns)
  /\ temperature st' = temperature st
  /\ temperature_reductions (run_stats st') = temperature_reductions (run_stats st).
Proof.
induction turns as [|k IH]; intros st st' Htr Hit Hloop; simpl in Hloop.
- inversion Hloop; subst. split; [done|]. split; [lia|done].
- destruct (inner_turn instance metropolis st) as [st1| |] eqn:Hturn; try done.
  destruct (inner_turn_traced _ _ _ _ Htr Hturn) as (Htr1 & Hit1 & Ht1 & Hr1).
  case_decide as Hmax.
  + inversion Hloop; subst. split; [done|]. split; [lia|done].
  + destruct (IH _ _ Htr1 ltac:(lia) Hloop) as (Htr' & Hit' & Ht' & Hr').
    split; [done|]. split; [lia|]. split; congruence.
Qed.

(** Where the schedule stands after [k] temperatures, for statistics that
    counted [r0] temperature reductions before the run: each temperature was
    above [final_temp] and was entered with iterations left, each one but the
    last evaluated [max_iterations_per_temp] candidates, and the last one
    stopped at [max_iterations]. *)
Definition scheduled (r0 k : nat) (st : state) : Prop :=
  Z.of_nat (iteration st)
  = Z.min (Z.max 0 max_iterations) (Z.max 0 max_iterations_per_temp * Z.of_nat k)
  /\ (temperature st == initial_temp * cooling_rate ^ Z.of_nat k)%Q
  /\ temperature_reductions (run_stats st) = (r0 + k)%nat
  /\ forall j, (j < k)%nat ->
       (final_temp < initial_temp * cooling_rate ^ Z.of_nat j)%Q
       /\ Z.max 0 max_iterations_per_temp * Z.of_nat j < max_iterations.

Lemma outer_loop_traced s0 g0 r0 fuel : forall st st' k,
  traced s0 g0 st -> scheduled r0 k st ->
  outer_loop instance final_temp cooling_rate max_iterations max_iterations_per_temp
             metropolis fuel st = Returned st' ->
  traced s0 g0 st'
  /\ exists k', scheduled r0 k' st'
       /\ ((temperature st' <= final_temp)%Q
           \/ max_iterations <= Z.of_nat (iteration st')).
Proof.
assert (Hstop : forall st,
  Qltb final_temp (temperature st)
  && bool_decide (Z.of_nat (iteration st) < max_iterations) = false ->
  (temperature st <= final_temp)%Q \/ max_iterations <= Z.of_nat (iteration st)).
{ intros st Hc. apply andb_false_iff in Hc as [Hc|Hc].
  - left. by apply Qltb_ge.
  - right. apply bool_decide_eq_false in Hc. lia. }
induction fuel as [|f IH]; intros st st' k Htr Hs Hloop; simpl in Hloop.
- destruct (_ && _) eqn:Hc; [done|]. inversion Hloop; subst. eauto.
- destruct (_ && _) eqn:Hc; [|inversion Hloop; subst; eauto].
  apply andb_true_iff in Hc as [Htemp Hit].
  apply Qltb_lt in Htemp. apply bool_decide_eq_true in Hit.
  destruct (inner_loop instance max_iterations metropolis _ st) as [st1| |] eqn:Hinner;
    try done.
  destruct (inner_loop_traced _ _ _ _ _ Htr Hit Hinner) as (Htr1 & Hit1 & Ht1 & Hr1).
  destruct Hs as (Hcount & HT & Hred & Hentered).
  apply (IH (cool_down cooling_rate st1) st' (S k)); [done| |done].
  split; [|split; [|split]].
  + simpl. rewrite Hit1, Nat2Z.inj_succ. lia.
  + unfold cool_down. cbn [temperature]. rewrite Ht1, power_step, HT. ring.
  + simpl. rewrite Hr1, Hred. lia.
  + intros j Hj. destruct (decide (j = k)) as [->|Hne].
    * split; [by rewrite <- HT|lia].
    * apply Hentered. lia.
Qed.

Lemma initial_state_traced (st0 : stats) (initial_solution : Solution.t) (g : Random.t) :
  let start := (Solution.calculate_cost (Solution.copy initial_solution)).2 in
  traced start g (initial_state initial_temp st0 initial_solution g)
  /\ scheduled (temperature_reductions st0) 0
               (initial_state initial_temp st0 initial_solution g).
Proof.
intros start. split.
- exists []. simpl. split; [constructor|]. split; [done|]. split; [done|].
  unfold Solution.copy. constructor.
- split; [|split; [|split]]; simpl.
  + lia.
  + ring.
  + lia.
  + intros j Hj. lia.
Qed.

End Trace.

(** C1. Whatever the parameters, the draws and the acceptance test, when
    [SimulatedAnnealing.solve] returns, the cost of the solution it returns is
    the least of the cost of the initial solution and of the costs of all the
    candidates the run evaluated, accepted or not: it is one of these costs
    and none of them is below it, and the solution returned is the initial
    solution or one of the candidates.

    The candidates are those of the loop that ran.  There is one for each
    iteration counted.  The run went through [k] temperatures, each above
    [final_temp] and entered with iterations left; it evaluated
    [max_iterations_per_temp] candidates at each of them until
    [max_iterations] was reached; it stopped at a temperature that is not
    above [final_temp] or with [max_iterations] iterations done.  On an
    initial solution whose routes are list objects of their own, where the
    operators on route values are those of the code, each candidate is the
    neighbor that [_generate_neighbor] draws from the solution current at
    that time, costed by [calculate_cost].

    With at least one turn per temperature the run does return or raise
    within [max_iterations + 1] temperatures. *)
Theorem annealing_returns_least_cost_evaluated
    (instance : VRPInstance.t) (initial_temp final_temp cooling_rate : Q)
    (max_iterations max_iterations_per_temp : Z)
    (metropolis : Q -> Q -> Q -> option bool)
    (fuel : nat) (st0 : SimulatedAnnealing.stats)
    (initial_solution : Solution.t) (g : Random.t) :
  (forall best st,
     SimulatedAnnealing.solve instance initial_temp final_temp cooling_rate
       max_iterations max_iterations_per_temp metropolis fuel st0 initial_solution g
     = Returned (best, st) ->
     exists (neighbors : list Solution.t) (k : nat),
       (forall (h : Store.heap) (s : Store.solution),
          Store.holds h (Store.routes s) (Solution.routes initial_solution) ->
          evaluates instance
            (Solution.calculate_cost (Solution.copy initial_solution)).2 g neighbors
            (SimulatedAnnealing.current_solution st) (SimulatedAnnealing.rng st))
       /\ SimulatedAnnealing.evaluated st = map Solution.total_cost neighbors
       /\ length neighbors = SimulatedAnnealing.iteration st
       /\ best ∈ (Solution.calculate_cost (Solution.copy initial_solution)).2 :: neighbors
       /\ SimulatedAnnealing.temperature_reductions (SimulatedAnnealing.run_stats st)
          = (SimulatedAnnealing.temperature_reductions st0 + k)%nat
       /\ Z.of_nat (SimulatedAnnealing.iteration st)
          = Z.min (Z.max 0 max_iterations)
                  (Z.max 0 max_iterations_per_temp * Z.of_nat k)
       /\ (SimulatedAnnealing.temperature st
           == initial_temp * cooling_rate ^ Z.of_nat k)%Q
       /\ (forall j, (j < k)%nat ->
             (final_temp < initial_temp * cooling_rate ^ Z.of_nat j)%Q
             /\ Z.max 0 max_iterations_per_temp * Z.of_nat j < max_iterations)
       /\ ((SimulatedAnnealing.temperature st <= final_temp)%Q
           \/ max_iterations <= Z.of_nat (SimulatedAnnealing.iteration st))
       /\ Solution.total_cost best
          = SimulatedAnnealing.min_cost (Solution.start_cost initial_solution)
                                        (SimulatedAnnealing.evaluated st)
       /\ Solution.total_cost best
          ∈ Solution.start_cost initial_solution :: SimulatedAnnealing.evaluated st
       /\ forall c, c ∈ Solution.start_cost initial_solution
                        :: SimulatedAnnealing.evaluated st ->
                    (Solution.total_cost best <= c)%Q)
  /\ (1 <= max_iterations_per_temp -> max_iterations < Z.of_nat fuel ->
      SimulatedAnnealing.solve instance initial_temp final_temp cooling_rate
        max_iterations max_iterations_per_temp metropolis fuel st0 initial_solution g
      ≠ OutOfFuel).
Proof.
split.
- intros best st Hrun. pose proof (solve_tracks _ _ _ _ _ _ _ _ _ _ _ _ _ Hrun) as Hmin.
  unfold SimulatedAnnealing.solve in Hrun.
  destruct (SimulatedAnnealing.outer_loop _ _ _ _ _ _ _ _) as [st2| |] eqn:Hloop; try done.
  destruct (initial_state_traced instance initial_temp final_temp cooling_rate
              max_iterations max_iterations_per_temp st0 initial_solution g)
    as [Htr Hs].
  destruct (outer_loop_traced instance initial_temp final_temp cooling_rate
              max_iterations max_iterations_per_temp metropolis _ _ _ fuel _ _ _
              Htr Hs Hloop)
    as ((neighbors & Hev & Hlog & Hlen & Hbest) & k & (Hcount & HT & Hred & Hentered) & Hstop).
  inversion Hrun; subst best st; clear Hrun. cbn [SimulatedAnnealing.evaluated
    SimulatedAnnealing.iteration SimulatedAnnealing.temperature
    SimulatedAnnealing.current_solution SimulatedAnnealing.rng
    SimulatedAnnealing.best_solution SimulatedAnnealing.run_stats
    SimulatedAnnealing.temperature_reductions] in *.
  exists neighbors, k. repeat (split; [done|]).
  rewrite Hmin. apply min_cost_least.
- unfold SimulatedAnnealing.solve. intros Hper Hfuel Hrun.
  destruct (SimulatedAnnealing.outer_loop _ _ _ _ _ _ _ _) as [st2| |] eqn:Hloop; try done.
  revert Hloop. apply outer_loop_fuel with (c0 := Solution.start_cost initial_solution); [|done|].
  + split; [apply Qle_refl|done].
  + simpl. lia.
Qed.

(** Two temperatures, three turns at most, on the route through both
    customers. *)
Abbreviation anneal_sol4 :=
  (SimulatedAnnealing.solve Examples.inst3 4 1 (1 # 2) 3 2 Examples.coin 4
     SimulatedAnnealing.new_stats Examples.sol4 Examples.counting).

Lemma annealing_returns_least_cost_evaluated_witness :
  exists best st neighbors,
    anneal_sol4 = Returned (best, st)
    /\ evaluates Examples.inst3
         (Solution.calculate_cost (Solution.copy Examples.sol4)).2 Examples.counting
         neighbors (SimulatedAnnealing.current_solution st) (SimulatedAnnealing.rng st)
    /\ SimulatedAnnealing.evaluated st = map Solution.total_cost neighbors
    /\ length neighbors = SimulatedAnnealing.iteration st
    /\ best ∈ (Solution.calculate_cost (Solution.copy Examples.sol4)).2 :: neighbors
    /\ Solution.total_cost best
       = SimulatedAnnealing.min_cost (Solution.start_cost Examples.sol4)
                                     (SimulatedAnnealing.evaluated st)
    /\ anneal_sol4 ≠ OutOfFuel.
Proof.
pose proof (annealing_returns_least_cost_evaluated Examples.inst3 4 1 (1 # 2) 3 2
              Examples.coin 4 SimulatedAnnealing.new_stats
              Examples.sol4 Examples.counting) as Hthm.
destruct Hthm as [Hmin Hfuel].
destruct (anneal_sol4) as [[best st]| |] eqn:Hrun.
- destruct (Hmin best st eq_refl)
    as (neighbors & k & Hev & Hlog & Hlen & Hbest & _ & _ & _ & _ & _ & Hcost & _).
  exists best, st, neighbors. split; [reflexivity|].
  split; [apply (Hev [Store.Refs [1%nat]; Store.Ints [0; 1; 2; 0]]
                     (Store.mk_solution (Some Examples.inst3) 0%nat 4 4 4 true []
                                        [25] [4%Q] [4%Q]))|].
  + exists [1%nat]. split; [reflexivity|]. split; [apply NoDup_singleton|].
    repeat constructor.
  + split; [exact Hlog|]. split; [exact Hlen|]. split; [exact Hbest|].
    split; [exact Hcost|discriminate].
- vm_compute in Hrun. discriminate.
- exfalso. exact (Hfuel ltac:(lia) ltac:(reflexivity) eq_refl).
Defined.

Section Tabu.
Import TabuSearch.

Variable instance : VRPInstance.t.
Variables tabu_tenure max_no_improvement : Z.
Variable c0 : Q.




End Tabu.



(** A solution as two calls of [add_route] leave it: its routes are
    [[0, 1, 0]] and [[0, 2, 0]], of cost 6, and its [total_cost] is still the
    0.0 of [__init__], since no [calculate_cost] has been called on it. *)
Definition built3 : Solution.t :=
  Solution.add_route Examples.inst3
    (Solution.add_route Examples.inst3 (Solution.new (Some Examples.inst3)) [1]) [2].

(** Both searches recompute the cost on their copy of the initial solution
    and never look at the [total_cost] it carries: started from [built3],
    tabu search returns a solution of cost 4 and simulated annealing one of
    cost 6, each after three iterations, and both are above 0. *)
Example runs_from_stale_total_cost :
  Solution.routes built3 = [[0; 1; 0]; [0; 2; 0]]
  /\ Solution.total_cost built3 = 0%Q
  /\ Solution.start_cost built3 = 6%Q
  /\ (let run := TabuSearch.solve Examples.inst3 20 3 200 [] TabuSearch.new_stats
                                  built3 Examples.counting in
      Solution.total_cost run.1 = 4%Q /\ TabuSearch.iteration run.2 = 3%nat)
  /\ (fun r => (Solution.total_cost r.1, SimulatedAnnealing.iteration r.2))
       <$> (match SimulatedAnnealing.solve Examples.inst3 4 1 (1 # 2) 3 2 Examples.coin 4
                    SimulatedAnnealing.new_stats built3 Examples.counting with
            | Returned r => Some r
            | _ => None
            end)
     = Some (6%Q, 3%nat).
Proof. vm_compute. repeat split. Qed.




(** C8 (the code departs from it). A run of the search itself.  On three
    customers on a line, tenure 20, customer 1 is moved from route 0 to route
    2 at iteration 1 and the reverse move, from route 2 to route 0, is
    stored.  Ten turns into the run that entry is still in the tabu list, 9
    iterations old; the turn of iteration 10 selects the move of customer 1
    from route 2 to route 0, which is that entry, at cost 8 while the best
    known cost is 6. *)
Theorem tabu_run_selects_stored_relocate :
  let st := Examples.tabu_after 10 in
  let '(neighbors, g) :=
    TabuSearch._generate_neighborhood Examples.inst_line3
      (TabuSearch.current_solution st) (TabuSearch.rng st) in
  let chosen :=
    (TabuSearch._select_best_move (TabuSearch.tabu_list st) (TabuSearch.run_stats st)
       neighbors (Solution.total_cost (TabuSearch.best_solution st))).1 in
  TabuSearch.iteration st = 10%nat
  /\ (TabuSearch.RelocateData 1 2 0, 1%nat) ∈ TabuSearch.tabu_list st
  /\ Z.of_nat (TabuSearch.iteration st) - 1 < 20
  /\ Solution.total_cost (TabuSearch.best_solution st) = 6%Q
  /\ (snd <$> chosen) = Some (TabuSearch.Relocate 1 2 0 3 1)
  /\ (Solution.total_cost ∘ fst <$> chosen) = Some 8%Q
  /\ TabuSearch.spec_matches (TabuSearch.Relocate 1 2 0 3 1) (TabuSearch.RelocateData 1 2 0).
Proof.
vm_compute. split; [reflexivity|].
split; [apply list_elem_of_lookup; by exists 1%nat|]. repeat split.
Qed.

End SearchFacts.

(** ** Neighbors are built on copies *)

Module StoreFacts.
Import Store.

(** A total-correctness triple: from a heap that satisfies [P] the
    computation returns, in a heap and with a result that satisfy [Q]. *)
Definition triple {A} (P : heap -> Prop) (m : M A) (Q : A -> heap -> Prop) : Prop :=
  forall h g, P h -> exists a h' g', m (h, g) = Some (a, (h', g')) /\ Q a h'.

Lemma triple_ret {A} (P : heap -> Prop) (a : A) (Q : A -> heap -> Prop) :
  (forall h, P h -> Q a h) -> triple P (mret a) Q.
Proof. intros HPQ h g HP. exists a, h, g. split; [done|]. by apply HPQ. Qed.

Lemma triple_bind {A B} (P : heap -> Prop) (m : M A) (R : A -> heap -> Prop)
    (f : A -> M B) (Q : B -> heap -> Prop) :
  triple P m R -> (forall a, triple (R a) (f a) Q) -> triple P (m ≫= f) Q.
Proof.
intros Hm Hf h g HP. destruct (Hm h g HP) as (a & h1 & g1 & Hrun & HR).
destruct (Hf a h1 g1 HR) as (b & h2 & g2 & Hrun2 & HQ).
exists b, h2, g2. split; [|done].
unfold mbind, M_bind. by rewrite Hrun.
Qed.

Lemma triple_weaken {A} (P P' : heap -> Prop) (m : M A) (Q Q' : A -> heap -> Prop) :
  (forall h, P h -> P' h) -> triple P' m Q' -> (forall a h, Q' a h -> Q a h) ->
  triple P m Q.
Proof.
intros HP Hm HQ h g Hh. destruct (Hm h g (HP h Hh)) as (a & h' & g' & Hrun & Hq).
exists a, h', g'. split; [done|]. by apply HQ.
Qed.

(** A fact that does not depend on the heap can be taken out of the
    precondition. *)
Lemma triple_pure {A} (phi : Prop) (P : heap -> Prop) (m : M A) (Q : A -> heap -> Prop) :
  (phi -> triple P m Q) -> triple (fun h => P h /\ phi) m Q.
Proof. intros Hm h g [HP Hphi]. by apply Hm. Qed.

(** A draw leaves the heap alone; what is known of the result is what holds
    for every generator. *)
Lemma triple_draw {A} (P : heap -> Prop) (f : Random.t -> A * Random.t) (phi : A -> Prop) :
  (forall g, phi (f g).1) -> triple P (draw f) (fun a h => P h /\ phi a).
Proof.
intros Hphi h g HP. unfold draw. simpl. specialize (Hphi g).
destruct (f g) as [a g']. exists a, h, g'. done.
Qed.

Lemma triple_draw_any {A} (P : heap -> Prop) (f : Random.t -> A * Random.t) :
  triple P (draw f) (fun _ h => P h).
Proof.
intros h g HP. unfold draw. simpl. destruct (f g) as [a g']. by exists a, h, g'.
Qed.

(** *** The random module stays in range *)

Lemma randint_range a b g : (a <= b)%nat ->
  (a <= (Random.randint a b g).1 <= b)%nat.
Proof.
intros Hab. unfold Random.randint, Random.next. simpl.
pose proof (Nat.mod_upper_bound (Random.draws g (Random.pos g)) (b - a + 1)). lia.
Qed.

Lemma sample_elem {A} (k : nat) : forall (l : list A) g x,
  x ∈ (Random.sample k l g).1 -> x ∈ l.
Proof.
induction k as [|k IH]; intros l g x Hx; simpl in Hx; [by apply elem_of_nil in Hx|].
destruct (l !! _) as [y|] eqn:Hy; [|by apply elem_of_nil in Hx].
destruct (Random.sample k _ _) as [r g2] eqn:Hr.
simpl in Hx. apply elem_of_cons in Hx as [->|Hx].
- by eapply list_elem_of_lookup_2.
- assert (Hin : x ∈ (r, g2).1) by done. rewrite <- Hr in Hin.
  apply IH in Hin. by eapply list_elem_of_delete_inv.
Qed.

Lemma choice_elem {A} (l : list A) g :
  l ≠ [] -> exists x, (Random.choice l g).1 = Some x /\ x ∈ l.
Proof.
intros Hl. unfold Random.choice, Random.next. simpl.
assert (Hlen : (length l ≠ 0)%nat) by (by destruct l).
destruct (lookup_lt_is_Some_2 l (Random.draws g (Random.pos g) mod length l))
  as [x Hx]; [by apply Nat.mod_upper_bound|].
exists x. split; [done|]. by eapply list_elem_of_lookup_2.
Qed.

(** *** Positions listed by the operators are positions of the routes *)

Lemma all_customers_valid depot (rts : list (list Z)) r p c :
  (r, p, c) ∈ all_customers depot rts ->
  exists items, rts !! r = Some items /\ items !! p = Some c.
Proof.
unfold all_customers. intros Hin.
apply list_elem_of_In, in_concat in Hin as (l & Hl & Hin).
apply list_elem_of_In in Hl, Hin.
apply elem_of_lookup_imap in Hl as (i & route & -> & Hroute).
apply list_elem_of_filter in Hin as [_ Hin].
apply elem_of_lookup_imap in Hin as (pos & customer & Heq & Hpos).
inversion Heq; subst. eauto.
Qed.

Lemma customer_positions_valid depot (route : list Z) p :
  p ∈ (imap (fun i c => (i, c)) route) ≫=
        (fun ic : nat * Z => if decide (ic.2 = depot) then [] else [ic.1]) ->
  (p < length route)%nat.
Proof.
intros Hin. apply list_elem_of_bind in Hin as ([i c] & Hin & Hic).
apply elem_of_lookup_imap in Hic as (i' & c' & Heq & Hlook). inversion Heq; subst.
simpl in Hin. case_decide; [by apply elem_of_nil in Hin|].
apply list_elem_of_singleton in Hin as ->. by eapply lookup_lt_Some.
Qed.

(** *** Objects allocated after a given heap *)

Section Frame.

(** The heap at the time the neighbor is asked for. *)
Variable h0 : heap.

(** A route object allocated after [h0]. *)
Definition is_route (h : heap) (l : loc) : Prop :=
  (length h0 <= l)%nat /\ exists items, h !! l = Some (Ints items).

(** [h] extends [h0] without changing any of its objects, and the list of
    routes at [rs], with its [n] routes, is made of objects allocated after
    [h0]. *)
Definition owned (n : nat) (rs : loc) (h : heap) : Prop :=
  h0 `prefix_of` h
  /\ (length h0 <= rs)%nat
  /\ exists refs, h !! rs = Some (Refs refs) /\ length refs = n
                  /\ Forall (is_route h) refs.

(** The items of route [r] of the list of routes at [rs]. *)
Definition route_at (h : heap) (rs : loc) (r : nat) : option (list Z) :=
  match h !! rs with
  | Some (Refs refs) =>
      l ← refs !! r;
      match h !! l with
      | Some (Ints items) => Some items
      | _ => None
      end
  | _ => None
  end.

Ltac run := unfold mbind, M_bind, mret, M_ret, raise; simpl.

Lemma len_routes_spec n rs :
  triple (owned n rs) (len_routes rs) (fun k h => owned n rs h /\ k = n).
Proof.
intros h g Hown. pose proof Hown as (_ & _ & refs & Hrs & Hlen & _).
unfold len_routes, load_refs. run. rewrite Hrs. eauto 10.
Qed.

Lemma get_route_spec n rs r :
  (r < n)%nat ->
  triple (owned n rs) (get_route rs r)
         (fun items h => owned n rs h /\ route_at h rs r = Some items).
Proof.
intros Hr h g Hown. pose proof Hown as (_ & _ & refs & Hrs & Hlen & Hrefs).
destruct (lookup_lt_is_Some_2 refs r) as [l Hl]; [lia|].
rewrite Forall_forall in Hrefs.
destruct (Hrefs l) as (_ & items & Hitems); [by eapply list_elem_of_lookup_2|].
unfold get_route, route_ref, load_refs, load_ints. run.
rewrite Hrs. simpl. rewrite Hl. simpl. rewrite Hitems.
exists items, h, g. split; [done|]. split; [done|].
unfold route_at. rewrite Hrs. cbv beta iota. rewrite Hl. simpl. by rewrite Hitems.
Qed.

Lemma load_all_spec (h : heap) g : forall refs,
  Forall (is_route h) refs ->
  exists rts, load_all refs (h, g) = Some (rts, (h, g))
    /\ forall r, rts !! r
                 = (l ← refs !! r;
                    match h !! l with Some (Ints items) => Some items | _ => None end).
Proof.
induction refs as [|l refs IH]; intros Hall.
- exists []. split; [done|]. by intros r.
- apply Forall_cons in Hall as [(_ & items & Hitems) Hall].
  destruct (IH Hall) as (rts & Hrun & Hrts).
  exists (items :: rts). split.
  + simpl. unfold load_ints. run. rewrite Hitems. by rewrite Hrun.
  + intros [|r]; simpl; [by rewrite Hitems|apply Hrts].
Qed.

Lemma snapshot_spec n rs :
  triple (owned n rs) (snapshot rs)
         (fun rts h => owned n rs h /\ forall r, route_at h rs r = rts !! r).
Proof.
intros h g Hown. pose proof Hown as (_ & _ & refs & Hrs & Hlen & Hrefs).
destruct (load_all_spec h g refs Hrefs) as (rts & Hrun & Hrts).
unfold snapshot, load_refs. run. rewrite Hrs.
exists rts, h, g. split; [done|]. split; [done|].
intros r. unfold route_at. by rewrite Hrs, Hrts.
Qed.

(** Writing new items into a route object allocated after [h0] keeps
    everything owned, and changes no other object. *)
Lemma owned_update n rs h l items items' :
  owned n rs h -> (length h0 <= l)%nat -> h !! l = Some (Ints items) ->
  (l < length h)%nat
  /\ owned n rs (<[l := Ints items']> h)
  /\ (length items' = length items ->
      forall r, length <$> route_at (<[l := Ints items']> h) rs r
                = length <$> route_at h rs r).
Proof.
intros (Hpre & Hrs0 & refs & Hrs & Hlen & Hrefs) Hl0 Hl.
assert (Hlt : (l < length h)%nat) by (by eapply lookup_lt_Some).
assert (Hne : l ≠ rs) by (intros ->; congruence).
assert (Hrs' : <[l := Ints items']> h !! rs = Some (Refs refs))
  by (by rewrite list_lookup_insert_ne).
split; [done|]. split; [split; [|split; [done|]]|].
- destruct Hpre as [k ->]. rewrite insert_app_r_alt by done. by eexists.
- exists refs. split; [done|]. split; [done|].
  eapply Forall_impl; [exact Hrefs|]. intros x (Hx0 & xs & Hx). split; [done|].
  destruct (decide (x = l)) as [->|Hxl].
  + exists items'. by rewrite list_lookup_insert_eq.
  + exists xs. by rewrite list_lookup_insert_ne.
- intros Hsame r. unfold route_at. rewrite Hrs', Hrs.
  destruct (refs !! r) as [x|]; [|done]. simpl.
  destruct (decide (x = l)) as [->|Hxl].
  + rewrite list_lookup_insert_eq by done. rewrite Hl. simpl. by rewrite Hsame.
  + by rewrite list_lookup_insert_ne.
Qed.

(** The route object behind [route_at]. *)
Lemma route_at_object n rs h r items :
  owned n rs h -> route_at h rs r = Some items ->
  exists refs l, h !! rs = Some (Refs refs) /\ refs !! r = Some l
                 /\ (length h0 <= l)%nat /\ h !! l = Some (Ints items).
Proof.
intros (_ & _ & refs & Hrs & _ & Hrefs) Hat. unfold route_at in Hat.
rewrite Hrs in Hat. destruct (refs !! r) as [l|] eqn:Hl; [|done]. simpl in Hat.
rewrite Forall_forall in Hrefs.
destruct (Hrefs l) as (Hl0 & xs & Hxs); [by eapply list_elem_of_lookup_2|].
rewrite Hxs in Hat. inversion Hat; subst. by exists refs, l.
Qed.

Lemma set_item_spec n rs r p v (lens : nat -> option nat) k :
  lens r = Some k -> (p < k)%nat ->
  triple (fun h => owned n rs h /\ forall r', length <$> route_at h rs r' = lens r')
         (set_item rs r p v)
         (fun _ h => owned n rs h /\ forall r', length <$> route_at h rs r' = lens r').
Proof.
intros Hk Hp h g [Hown Hlens].
pose proof (Hlens r) as Hr. rewrite Hk in Hr.
destruct (route_at h rs r) as [items|] eqn:Hat; [|done]. inversion Hr as [Hlen].
destruct (route_at_object _ _ _ _ _ Hown Hat) as (refs & l & Hrs & Hl & Hl0 & Hitems).
destruct (owned_update n rs h l items (<[p := v]> items) Hown Hl0 Hitems)
  as (Hlt & Hown' & Hsame).
unfold set_item, route_ref, load_refs, load_ints, store. run.
rewrite Hrs. simpl. rewrite Hl. simpl. rewrite Hitems.
rewrite decide_True by lia. simpl. rewrite decide_True by done.
eexists tt, _, g. split; [done|]. split; [done|].
intros r'. rewrite Hsame; [done|]. apply length_insert.
Qed.

Lemma pop_spec n rs r p items :
  (p < length items)%nat ->
  triple (fun h => owned n rs h /\ route_at h rs r = Some items)
         (pop rs r p) (fun _ h => owned n rs h).
Proof.
intros Hp h g [Hown Hat].
destruct (route_at_object _ _ _ _ _ Hown Hat) as (refs & l & Hrs & Hl & Hl0 & Hitems).
destruct (owned_update n rs h l items (delete p items) Hown Hl0 Hitems)
  as (Hlt & Hown' & _).
unfold pop, route_ref, load_refs, load_ints, store. run.
rewrite Hrs. simpl. rewrite Hl. simpl. rewrite Hitems.
rewrite decide_True by done. simpl. rewrite decide_True by done.
by eexists tt, _, g.
Qed.

Lemma insert_spec n rs r p v :
  (r < n)%nat ->
  triple (owned n rs) (insert rs r p v) (fun _ h => owned n rs h).
Proof.
intros Hr h g Hown.
destruct (get_route_spec n rs r Hr h g Hown) as (items & h1 & g1 & _ & _ & Hat').
assert (exists items, route_at h rs r = Some items) as [items' Hat].
{ pose proof Hown as (_ & _ & refs & Hrs & Hlen & Hrefs).
  destruct (lookup_lt_is_Some_2 refs r) as [l Hl]; [lia|].
  rewrite Forall_forall in Hrefs.
  destruct (Hrefs l) as (_ & xs & Hxs); [by eapply list_elem_of_lookup_2|].
  exists xs. unfold route_at. rewrite Hrs. cbv beta iota. rewrite Hl. simpl.
  by rewrite Hxs. }
destruct (route_at_object _ _ _ _ _ Hown Hat) as (refs & l & Hrs & Hl & Hl0 & Hitems).
destruct (owned_update n rs h l items' (py_insert p v items') Hown Hl0 Hitems)
  as (Hlt & Hown' & _).
unfold insert, route_ref, load_refs, load_ints, store. run.
rewrite Hrs. simpl. rewrite Hl. simpl. rewrite Hitems. simpl.
rewrite decide_True by done.
by eexists tt, _, g.
Qed.

Lemma is_route_grow h h' l : h `prefix_of` h' -> is_route h l -> is_route h' l.
Proof.
intros Hpre (Hl0 & items & Hitems). split; [done|].
exists items. by eapply prefix_lookup_Some.
Qed.

Lemma assign_spec n rs r items :
  (r < n)%nat ->
  triple (owned n rs) (assign rs r items) (fun _ h => owned n rs h).
Proof.
intros Hr h g (Hpre & Hrs0 & refs & Hrs & Hlen & Hrefs).
assert (Hlt : (rs < length h)%nat) by (by eapply lookup_lt_Some).
unfold assign, alloc, load_refs, store. run.
rewrite lookup_app_l by done. rewrite Hrs. simpl.
rewrite decide_True by lia. simpl.
rewrite decide_True by (rewrite length_app; simpl; lia).
eexists tt, _, g. split; [done|]. split; [|split; [done|]].
- destruct Hpre as [k ->]. rewrite <- app_assoc.
  rewrite insert_app_r_alt by done. by eexists.
- exists (<[r := length h]> refs). split; [|split; [by rewrite length_insert|]].
  + apply list_lookup_insert_eq. rewrite length_app. simpl. lia.
  + assert (Hnew : is_route (<[rs := Refs (<[r := length h]> refs)]> (h ++ [Ints items]))
                            (length h)).
    { split; [by apply prefix_length|]. exists items.
      rewrite list_lookup_insert_ne by lia.
      by rewrite lookup_app_r, Nat.sub_diag by lia. }
    apply Forall_insert; [|done].
    eapply Forall_impl; [exact Hrefs|]. intros x (Hx0 & xs & Hx). split; [done|].
    exists xs. rewrite list_lookup_insert_ne by (intros ->; congruence).
    by apply lookup_app_l_Some.
Qed.

(** *** The copy *)

Lemma copy_items_spec g : forall refs memo h,
  h0 `prefix_of` h ->
  Forall (fun l => exists items, h0 !! l = Some (Ints items)) refs ->
  Forall (fun e : loc * loc => is_route h e.2) memo ->
  exists copies h',
    copy_items refs memo (h, g) = Some (copies, (h', g))
    /\ h `prefix_of` h' /\ length copies = length refs
    /\ Forall (is_route h') copies.
Proof.
induction refs as [|l refs IH]; intros memo h Hpre Hrefs Hmemo.
- exists [], h. by repeat split.
- apply Forall_cons in Hrefs as [[items Hitems] Hrefs]. simpl.
  destruct (list_find _ memo) as [[i [x l']]|] eqn:Hfind.
  + apply list_find_Some in Hfind as (Hi & _ & _).
    rewrite Forall_forall in Hmemo.
    assert (Hl' : is_route h l')
      by (apply (Hmemo (x, l')); by eapply list_elem_of_lookup_2).
    destruct (IH memo h Hpre Hrefs) as (copies & h' & Hrun & Hpre' & Hlen & Hall);
      [by apply Forall_forall|].
    exists (l' :: copies), h'. run. rewrite Hrun. repeat split; [done|by rewrite Hlen|].
    constructor; [by apply (is_route_grow h)|done].
  + assert (Hh : h !! l = Some (Ints items)) by (by eapply prefix_lookup_Some).
    assert (Hnew : is_route (h ++ [Ints items]) (length h)).
    { split; [by apply prefix_length|]. exists items.
      by rewrite lookup_app_r, Nat.sub_diag by lia. }
    destruct (IH ((l, length h) :: memo) (h ++ [Ints items])) as
      (copies & h' & Hrun & Hpre' & Hlen & Hall).
    * by apply prefix_app_r.
    * done.
    * constructor; [done|]. eapply Forall_impl; [exact Hmemo|].
      intros e He. apply (is_route_grow h); [by apply prefix_app_r|done].
    * exists (length h :: copies), h'. unfold load_ints, alloc. run.
      rewrite Hh. simpl. rewrite Hrun.
      repeat split; [|by rewrite Hlen|].
      -- etrans; [|done]. by apply prefix_app_r.
      -- constructor; [by apply (is_route_grow (h ++ [Ints items]))|done].
Qed.

Lemma copy_spec (s : solution) refs g :
  h0 !! routes s = Some (Refs refs) ->
  Forall (fun l => exists items, h0 !! l = Some (Ints items)) refs ->
  exists nb h', copy s (h0, g) = Some (nb, (h', g))
                /\ owned (length refs) (routes nb) h'.
Proof.
intros Hrs Hrefs.
destruct (copy_items_spec g refs [] h0) as (copies & h & Hrun & Hpre & Hlen & Hall);
  [done..|].
unfold copy, deepcopy, load_refs, alloc. run. rewrite Hrs. rewrite Hrun. simpl.
eexists _, _. split; [done|]. simpl. split; [by apply prefix_app_r|].
split; [by apply prefix_length|].
exists copies. split; [by rewrite lookup_app_r, Nat.sub_diag by lia|].
split; [done|].
eapply Forall_impl; [exact Hall|]. intros l Hl.
apply (is_route_grow h); [by apply prefix_app_r|done].
Qed.

(** *** The four operators *)

Section Operators.
Variable depot : Z.
Variable n : nat.
Variable s : solution.

Abbreviation kept := (fun (_ : unit) h => owned n (routes s) h).

Lemma swap_spec : triple (owned n (routes s)) (_swap_customers depot s) kept.
Proof.
unfold _swap_customers.
eapply triple_bind; [apply len_routes_spec|]. intros k. apply triple_pure. intros ->.
case_decide; [by apply triple_ret|].
eapply triple_bind; [apply snapshot_spec|]. intros rts.
case_decide; [apply triple_ret; tauto|].
eapply triple_bind.
{ apply triple_draw
    with (phi := fun picked => forall x, x ∈ picked -> x ∈ all_customers depot rts).
  intros g x. apply sample_elem. }
intros picked. apply triple_pure. intros Hpicked.
destruct picked as [|[[r1 p1] c1] [|[[r2 p2] c2] [|? ?]]]; try (apply triple_ret; tauto).
destruct (all_customers_valid depot rts r1 p1 c1) as (items1 & H1 & H1p);
  [apply Hpicked; set_solver|].
destruct (all_customers_valid depot rts r2 p2 c2) as (items2 & H2 & H2p);
  [apply Hpicked; set_solver|].
set (lens := fun r => length <$> rts !! r).
eapply triple_bind.
- eapply triple_weaken; [|apply (set_item_spec n (routes s) r1 p1 c2 lens (length items1))|].
  + intros h [Hown Hat]. split; [done|]. intros r. unfold lens. by rewrite Hat.
  + unfold lens. by rewrite H1.
  + by eapply lookup_lt_Some.
  + intros ? h Hq. exact Hq.
- intros ?; cbv beta.
  eapply triple_weaken; [|apply (set_item_spec n (routes s) r2 p2 c1 lens (length items2))|].
  + done.
  + unfold lens. by rewrite H2.
  + by eapply lookup_lt_Some.
  + intros ? h [Hown _]. done.
Qed.

Lemma randint_below k g : (1 <= k)%nat -> ((Random.randint 0 (k - 1) g).1 < k)%nat.
Proof. intros Hk. pose proof (randint_range 0 (k - 1) g). lia. Qed.

Lemma relocate_spec : triple (owned n (routes s)) (_relocate_customer depot s) kept.
Proof.
unfold _relocate_customer.
eapply triple_bind; [apply len_routes_spec|]. intros k. apply triple_pure. intros ->.
case_decide as Hn; [by apply triple_ret|].
eapply triple_bind.
{ apply triple_draw with (phi := fun i => (i < n)%nat). intros g. apply randint_below. lia. }
intros src. apply triple_pure. intros Hsrc.
eapply triple_bind; [by apply get_route_spec|]. intros source_route.
destruct (_ ≫= _) as [|p0 ps] eqn:Hpositions; [apply triple_ret; tauto|].
rewrite <- Hpositions.
eapply triple_bind.
{ apply triple_draw with (phi := fun chosen => exists x, chosen = Some x
                                    /\ (x < length source_route)%nat).
  intros g. destruct (choice_elem (p0 :: ps) g) as (x & Hx & Hin); [done|].
  rewrite Hpositions. exists x. split; [done|].
  apply (customer_positions_valid depot). by rewrite Hpositions. }
intros chosen. apply triple_pure. intros (x & -> & Hx). simpl.
eapply triple_bind; [by apply pop_spec|]. intros ?; cbv beta.
eapply triple_bind; [apply len_routes_spec|]. intros k. apply triple_pure. intros ->.
eapply triple_bind.
{ apply triple_draw with (phi := fun i => (i < n)%nat). intros g. apply randint_below. lia. }
intros tgt. apply triple_pure. intros Htgt.
eapply triple_bind; [by apply get_route_spec|]. intros target_route.
eapply triple_bind with (R := fun _ h => owned n (routes s) h).
{ case_decide.
  - apply triple_ret. tauto.
  - eapply triple_weaken with (P' := owned n (routes s));
      [tauto|apply triple_draw_any|done]. }
intros target_pos. by apply insert_spec.
Qed.

Lemma two_opt_spec : triple (owned n (routes s)) (_two_opt s) kept.
Proof.
unfold _two_opt.
eapply triple_bind; [apply len_routes_spec|]. intros k. apply triple_pure. intros ->.
case_decide as Hn; [by apply triple_ret|].
eapply triple_bind.
{ apply triple_draw with (phi := fun i => (i < n)%nat). intros g. apply randint_below. lia. }
intros idx. apply triple_pure. intros Hidx.
eapply triple_bind; [by apply get_route_spec|]. intros route.
case_decide; [apply triple_ret; tauto|].
eapply triple_bind; [apply triple_draw_any|]. intros i. cbv beta.
eapply triple_bind; [apply triple_draw_any|]. intros j. cbv beta.
eapply triple_weaken with (P' := owned n (routes s));
  [tauto|by apply assign_spec|done].
Qed.

Lemma cross_exchange_spec : triple (owned n (routes s)) (_cross_exchange s) kept.
Proof.
unfold _cross_exchange.
eapply triple_bind; [apply len_routes_spec|]. intros k. apply triple_pure. intros ->.
case_decide as Hn; [by apply triple_ret|].
eapply triple_bind.
{ apply triple_draw with (phi := fun picked => forall x, x ∈ picked -> (x < n)%nat).
  intros g x Hx. apply sample_elem in Hx. apply elem_of_seq in Hx. lia. }
intros picked. apply triple_pure. intros Hpicked.
destruct picked as [|r1 [|r2 [|? ?]]]; try (by apply triple_ret).
assert (Hr1 : (r1 < n)%nat) by (apply Hpicked; set_solver).
assert (Hr2 : (r2 < n)%nat) by (apply Hpicked; set_solver).
eapply triple_bind; [by apply get_route_spec|]. intros route1.
eapply triple_bind.
{ eapply triple_weaken with (P' := owned n (routes s));
    [tauto|by apply (get_route_spec n (routes s) r2)|intros ? h Hq; exact Hq]. }
intros route2. cbv beta.
case_decide; [apply triple_ret; tauto|].
do 4 (eapply triple_bind; [apply triple_draw_any|]; intros ?; cbv beta).
eapply triple_bind.
{ eapply triple_weaken with (P' := owned n (routes s));
    [tauto|by apply (assign_spec n (routes s) r1)|intros ? h Hq; exact Hq]. }
intros ?; cbv beta. by apply assign_spec.
Qed.

End Operators.

Lemma generate_neighbor_spec depot (s : solution) refs g :
  h0 !! routes s = Some (Refs refs) ->
  Forall (fun l => exists items, h0 !! l = Some (Ints items)) refs ->
  exists nb h' g', _generate_neighbor depot s (h0, g) = Some (nb, (h', g'))
                   /\ owned (length refs) (routes nb) h'.
Proof.
intros Hrs Hrefs.
destruct (copy_spec s refs g Hrs Hrefs) as (nb & h1 & Hcopy & Hown).
assert (Hrest : triple (owned (length refs) (routes nb))
          (operator ← draw SimulatedAnnealing.choose_operator;
           match operator with
           | SimulatedAnnealing.swap => _swap_customers depot nb
           | SimulatedAnnealing.relocate => _relocate_customer depot nb
           | SimulatedAnnealing.two_opt => _two_opt nb
           | SimulatedAnnealing.cross_exchange => _cross_exchange nb
           end;;
           mret nb)
          (fun a h => a = nb /\ owned (length refs) (routes nb) h)).
{ eapply triple_bind; [apply triple_draw_any|].
  intros op. cbv beta.
  eapply triple_bind with (R := fun _ h => owned (length refs) (routes nb) h).
  - destruct op;
      [apply swap_spec|apply relocate_spec|apply two_opt_spec|apply cross_exchange_spec].
  - intros ?; cbv beta. by apply triple_ret. }
destruct (Hrest h1 g Hown) as (a & h' & g' & Hrun & -> & Hown').
exists nb, h', g'. split; [|done].
unfold _generate_neighbor. unfold mbind at 1. unfold M_bind at 1. by rewrite Hcopy.
Qed.

End Frame.

Lemma mapM_agree {A B} (f f' : A -> option B) (l : list A) :
  Forall (fun x => f x = f' x) l -> mapM f l = mapM f' l.
Proof.
induction 1 as [|x l Hx Hl IH]; [done|]. simpl. by rewrite Hx, IH.
Qed.

Lemma read_routes_grow (h h' : heap) rs refs :
  h `prefix_of` h' ->
  h !! rs = Some (Refs refs) ->
  Forall (fun l => exists items, h !! l = Some (Ints items)) refs ->
  read_routes h' rs = read_routes h rs /\ is_Some (read_routes h rs).
Proof.
intros Hpre Hrs Hrefs. unfold read_routes.
rewrite (prefix_lookup_Some _ _ _ _ Hrs Hpre), Hrs. split.
- apply mapM_agree. eapply Forall_impl; [exact Hrefs|]. intros l [items Hl].
  by rewrite (prefix_lookup_Some _ _ _ _ Hl Hpre), Hl.
- apply mapM_is_Some. eapply Forall_impl; [exact Hrefs|]. intros l [items Hl].
  simpl. by rewrite Hl.
Qed.

(** The swap drawn by the counting generator exchanges customers 1 and 2 in
    the copy; the input routes are still where and what they were. *)
Example generate_neighbor_swap :
  (fun r => (read_routes r.2.1 (routes r.1), read_routes r.2.1 0%nat, take 3 r.2.1))
    <$> _generate_neighbor 0 Examples.stored3 (Examples.heap3, Examples.counting)
  = Some (Some [[0; 2; 0]; [0; 1; 3; 0]], Some [[0; 1; 0]; [0; 2; 3; 0]], Examples.heap3).
Proof. vm_compute. reflexivity. Qed.

(** *** The objects and the values

    When the routes of a solution are list objects of their own, as the
    construction heuristics and the operators leave them, what the operators
    do to the objects is what the operators of [SimulatedAnnealing] do to
    the values. *)

Lemma bind_run {A B} (m : M A) (f : A -> M B) s a s' :
  m s = Some (a, s') -> (m ≫= f) s = f a s'.
Proof. intros Hm. unfold mbind, M_bind. by rewrite Hm. Qed.

Lemma holds_lookup (h : heap) (rs : loc) (rts : list (list Z)) (refs : list loc) r items :
  h !! rs = Some (Refs refs) ->
  Forall2 (fun l items => h !! l = Some (Ints items)) refs rts ->
  rts !! r = Some items ->
  exists l, refs !! r = Some l /\ h !! l = Some (Ints items).
Proof.
intros Hrs Hall Hr.
destruct (Forall2_lookup_r _ _ _ _ _ Hall Hr) as (l & Hl & Hitems). eauto.
Qed.

Lemma len_routes_holds h g rs rts :
  holds h rs rts -> len_routes rs (h, g) = Some (length rts, (h, g)).
Proof.
intros (refs & Hrs & _ & Hall). unfold len_routes, load_refs.
unfold mbind, M_bind, mret, M_ret. simpl. rewrite Hrs.
by rewrite (Forall2_length _ _ _ Hall).
Qed.

Lemma get_route_holds h g rs rts r items :
  holds h rs rts -> rts !! r = Some items ->
  get_route rs r (h, g) = Some (items, (h, g)).
Proof.
intros (refs & Hrs & _ & Hall) Hr.
destruct (holds_lookup _ _ _ _ _ _ Hrs Hall Hr) as (l & Hl & Hitems).
unfold get_route, route_ref, load_refs, load_ints.
unfold mbind, M_bind, mret, M_ret. simpl. rewrite Hrs. simpl. rewrite Hl. simpl.
by rewrite Hitems.
Qed.

Lemma load_all_holds (h : heap) g : forall refs rts,
  Forall2 (fun l items => h !! l = Some (Ints items)) refs rts ->
  load_all refs (h, g) = Some (rts, (h, g)).
Proof.
induction 1 as [|l items refs rts Hl Hall IH]; [done|].
simpl. unfold load_ints, mbind, M_bind, mret, M_ret. simpl. rewrite Hl.
by rewrite IH.
Qed.

Lemma snapshot_holds h g rs rts :
  holds h rs rts -> snapshot rs (h, g) = Some (rts, (h, g)).
Proof.
intros (refs & Hrs & _ & Hall). unfold snapshot, load_refs.
unfold mbind, M_bind. simpl. rewrite Hrs. by apply load_all_holds.
Qed.

(** Writing a route object in place changes that route and no other. *)
Lemma holds_update (h : heap) (rs : loc) (rts : list (list Z)) (refs : list loc)
    r l items (f : list Z -> list Z) :
  h !! rs = Some (Refs refs) -> NoDup refs ->
  Forall2 (fun l items => h !! l = Some (Ints items)) refs rts ->
  refs !! r = Some l -> h !! l = Some (Ints items) ->
  holds (<[l := Ints (f items)]> h) rs (alter f r rts).
Proof.
intros Hrs Hnd Hall Hl Hitems.
assert (Hlt : (l < length h)%nat) by (by eapply lookup_lt_Some).
assert (Hne : l ≠ rs) by (intros ->; congruence).
exists refs. split; [by rewrite list_lookup_insert_ne|]. split; [done|].
apply Forall2_same_length_lookup. split.
{ rewrite length_alter. by eapply Forall2_length. }
intros i x xs Hx Hxs.
destruct (decide (i = r)) as [->|Hir].
- assert (x = l) as -> by congruence.
  rewrite list_lookup_insert_eq by done.
  rewrite list_lookup_alter_eq in Hxs.
  destruct (Forall2_lookup_l _ _ _ _ _ Hall Hl) as (items' & Hr & Hitems').
  rewrite Hr in Hxs. simpl in Hxs. congruence.
- rewrite list_lookup_alter_ne in Hxs by done.
  assert (Hxl : x ≠ l).
  { intros ->. apply Hir. by eapply NoDup_lookup. }
  rewrite list_lookup_insert_ne by done.
  destruct (Forall2_lookup_l _ _ _ _ _ Hall Hx) as (items' & Hr & Hitems').
  congruence.
Qed.

Lemma set_item_holds h g rs rts r p v items :
  holds h rs rts -> rts !! r = Some items -> (p < length items)%nat ->
  exists h', set_item rs r p v (h, g) = Some (tt, (h', g))
             /\ holds h' rs (set_node r p v rts).
Proof.
intros (refs & Hrs & Hnd & Hall) Hr Hp.
destruct (holds_lookup _ _ _ _ _ _ Hrs Hall Hr) as (l & Hl & Hitems).
assert (Hlt : (l < length h)%nat) by (by eapply lookup_lt_Some).
eexists. split.
- unfold set_item, route_ref, load_refs, load_ints, store.
  unfold mbind, M_bind, mret, M_ret. simpl. rewrite Hrs. simpl. rewrite Hl. simpl.
  rewrite Hitems. rewrite decide_True by done. simpl. by rewrite decide_True.
- by apply (holds_update h rs rts refs r l items (fun route => <[p := v]> route)).
Qed.

Lemma pop_holds h g rs rts r p items :
  holds h rs rts -> rts !! r = Some items -> (p < length items)%nat ->
  exists h', pop rs r p (h, g) = Some (tt, (h', g))
             /\ holds h' rs (alter (delete p) r rts).
Proof.
intros (refs & Hrs & Hnd & Hall) Hr Hp.
destruct (holds_lookup _ _ _ _ _ _ Hrs Hall Hr) as (l & Hl & Hitems).
assert (Hlt : (l < length h)%nat) by (by eapply lookup_lt_Some).
eexists. split.
- unfold pop, route_ref, load_refs, load_ints, store.
  unfold mbind, M_bind, mret, M_ret. simpl. rewrite Hrs. simpl. rewrite Hl. simpl.
  rewrite Hitems. rewrite decide_True by done. simpl. by rewrite decide_True.
- by apply (holds_update h rs rts refs r l items (delete p)).
Qed.

Lemma insert_holds h g rs rts r p v items :
  holds h rs rts -> rts !! r = Some items ->
  exists h', insert rs r p v (h, g) = Some (tt, (h', g))
             /\ holds h' rs (alter (py_insert p v) r rts).
Proof.
intros (refs & Hrs & Hnd & Hall) Hr.
destruct (holds_lookup _ _ _ _ _ _ Hrs Hall Hr) as (l & Hl & Hitems).
assert (Hlt : (l < length h)%nat) by (by eapply lookup_lt_Some).
eexists. split.
- unfold insert, route_ref, load_refs, load_ints, store.
  unfold mbind, M_bind, mret, M_ret. simpl. rewrite Hrs. simpl. rewrite Hl. simpl.
  rewrite Hitems. simpl. by rewrite decide_True.
- by apply (holds_update h rs rts refs r l items (py_insert p v)).
Qed.

Lemma assign_holds h g rs rts r items :
  holds h rs rts -> (r < length rts)%nat ->
  exists h', assign rs r items (h, g) = Some (tt, (h', g))
             /\ holds h' rs (<[r := items]> rts).
Proof.
intros (refs & Hrs & Hnd & Hall) Hr.
assert (Hlen : length refs = length rts) by (by eapply Forall2_length).
assert (Hlt : (rs < length h)%nat) by (by eapply lookup_lt_Some).
assert (Hold : forall x, x ∈ refs -> (x < length h)%nat).
{ intros x Hx. apply list_elem_of_lookup in Hx as [i Hi].
  destruct (Forall2_lookup_l _ _ _ _ _ Hall Hi) as (xs & _ & Hxs).
  by eapply lookup_lt_Some. }
eexists. split.
- unfold assign, alloc, load_refs, store.
  unfold mbind, M_bind, mret, M_ret. simpl.
  rewrite lookup_app_l by done. rewrite Hrs. simpl.
  rewrite decide_True by lia. simpl.
  by rewrite decide_True by (rewrite length_app; simpl; lia).
- exists (<[r := length h]> refs). split; [|split].
  + apply list_lookup_insert_eq. rewrite length_app. simpl. lia.
  + apply NoDup_alt. intros i j x Hi Hj.
    destruct (decide (i = r)) as [->|Hir], (decide (j = r)) as [->|Hjr]; [done|..].
    * rewrite list_lookup_insert_eq in Hi by lia.
      rewrite list_lookup_insert_ne in Hj by done.
      inversion Hi; subst. apply list_elem_of_lookup_2, Hold in Hj. lia.
    * rewrite list_lookup_insert_eq in Hj by lia.
      rewrite list_lookup_insert_ne in Hi by done.
      inversion Hj; subst. apply list_elem_of_lookup_2, Hold in Hi. lia.
    * rewrite list_lookup_insert_ne in Hi, Hj by done. by eapply NoDup_lookup.
  + apply Forall2_same_length_lookup. split; [by rewrite !length_insert|].
    intros i x xs Hx Hxs.
    destruct (decide (i = r)) as [->|Hir].
    * rewrite list_lookup_insert_eq in Hx by lia.
      rewrite list_lookup_insert_eq in Hxs by lia.
      inversion Hx; inversion Hxs; subst.
      rewrite list_lookup_insert_ne by lia.
      by rewrite lookup_app_r, Nat.sub_diag by lia.
    * rewrite list_lookup_insert_ne in Hx by done.
      rewrite list_lookup_insert_ne in Hxs by done.
      destruct (Forall2_lookup_l _ _ _ _ _ Hall Hx) as (xs' & Hxs' & Hobj).
      assert (xs' = xs) as -> by congruence.
      rewrite list_lookup_insert_ne by (intros ->; congruence).
      by apply lookup_app_l_Some.
Qed.

Lemma draw_run {A B} (f : Random.t -> A * Random.t) (k : A -> M B) (h : heap) g :
  (draw f ≫= k) (h, g) = k (f g).1 (h, (f g).2).
Proof. unfold mbind, M_bind, draw. simpl. by destruct (f g). Qed.

Lemma ret_run {A} (a : A) (s : heap * Random.t) : (mret a : M A) s = Some (a, s).
Proof. done. Qed.

Section Refinement.

Variable instance : VRPInstance.t.
Variable s : solution.
Abbreviation depot := (VRPInstance.depot instance).

(** What it is for an operator on the objects of [s] to do what [op] does to
    the values. *)
Definition refines (m : M unit)
    (op : list (list Z) -> Random.t -> list (list Z) * Random.t) : Prop :=
  forall h g rts, holds h (routes s) rts ->
    exists h', m (h, g) = Some (tt, (h', (op rts g).2))
               /\ holds h' (routes s) (op rts g).1.

Opaque Random.sample Random.randint Random.choice Random.next.

Lemma swap_refines :
  refines (_swap_customers depot s) (SimulatedAnnealing._swap_customers instance).
Proof.
intros h g rts Hh. unfold _swap_customers, SimulatedAnnealing._swap_customers.
rewrite (bind_run _ _ _ _ _ (len_routes_holds _ g _ _ Hh)).
case_decide; [by exists h|].
rewrite (bind_run _ _ _ _ _ (snapshot_holds _ g _ _ Hh)).
case_decide; [by exists h|].
rewrite draw_run.
pose proof (sample_elem 2 (all_customers depot rts) g) as Hpicked.
destruct (Random.sample 2 (all_customers depot rts) g) as [picked g1].
cbn [fst snd] in *.
destruct picked as [|[[r1 p1] c1] [|[[r2 p2] c2] [|? ?]]]; try (by exists h).
destruct (all_customers_valid depot rts r1 p1 c1) as (items1 & H1 & H1p);
  [apply Hpicked; set_solver|].
destruct (all_customers_valid depot rts r2 p2 c2) as (items2 & H2 & H2p);
  [apply Hpicked; set_solver|].
destruct (set_item_holds h g1 (routes s) rts r1 p1 c2 items1 Hh H1) as (h1 & Hrun1 & Hh1);
  [by eapply lookup_lt_Some|].
rewrite (bind_run _ _ _ _ _ Hrun1).
assert (exists items2', set_node r1 p1 c2 rts !! r2 = Some items2'
                        /\ length items2' = length items2) as (items2' & H2' & Hlen2).
{ unfold set_node. destruct (decide (r1 = r2)) as [->|Hne].
  - rewrite list_lookup_alter_eq, H2. simpl. eexists. split; [done|apply length_insert].
  - rewrite list_lookup_alter_ne by done. eauto. }
apply (set_item_holds h1 g1 (routes s) _ r2 p2 c1 items2' Hh1 H2').
rewrite Hlen2. by eapply lookup_lt_Some.
Qed.

Lemma lookup_total_Some (l : list (list Z)) i (x : list Z) :
  l !! i = Some x -> l !!! i = x.
Proof. intros H. by apply list_lookup_total_correct. Qed.

Lemma relocate_refines :
  refines (_relocate_customer depot s) (SimulatedAnnealing._relocate_customer instance).
Proof.
intros h g rts Hh. unfold _relocate_customer, SimulatedAnnealing._relocate_customer.
rewrite (bind_run _ _ _ _ _ (len_routes_holds _ g _ _ Hh)).
case_decide as Hn; [by exists h|].
rewrite draw_run.
pose proof (randint_below (length rts) g ltac:(lia)) as Hsrc.
destruct (Random.randint 0 (length rts - 1) g) as [src g1]. cbn [fst snd] in *.
destruct (lookup_lt_is_Some_2 rts src Hsrc) as [source_route Hsource].
rewrite (bind_run _ _ _ _ _ (get_route_holds _ g1 _ _ _ _ Hh Hsource)).
rewrite (lookup_total_Some _ _ _ Hsource).
destruct (_ ≫= _) as [|p0 ps] eqn:Hpositions; [by exists h|].
rewrite <- Hpositions.
rewrite draw_run.
destruct (choice_elem (p0 :: ps) g1) as (x & Hx & Hin); [done|].
rewrite <- Hpositions in Hx, Hin.
apply customer_positions_valid in Hin.
destruct (Random.choice _ g1) as [chosen g2]. cbn [fst snd] in *. subst chosen.
change (default 0%nat (Some x)) with x.
destruct (pop_holds h g2 (routes s) rts src x source_route Hh Hsource Hin)
  as (h1 & Hrun1 & Hh1).
rewrite (bind_run _ _ _ _ _ Hrun1).
rewrite (bind_run _ _ _ _ _ (len_routes_holds _ g2 _ _ Hh1)).
rewrite draw_run.
pose proof (randint_below (length (alter (delete x) src rts)) g2) as Htgt.
rewrite length_alter in Htgt. specialize (Htgt ltac:(lia)).
rewrite length_alter.
destruct (Random.randint 0 (length rts - 1) g2) as [tgt g3]. cbn [fst snd] in *.
destruct (lookup_lt_is_Some_2 (alter (delete x) src rts) tgt) as [target_route Htarget];
  [by rewrite length_alter|].
rewrite (bind_run _ _ _ _ _ (get_route_holds _ g3 _ _ _ _ Hh1 Htarget)).
rewrite (lookup_total_Some _ _ _ Htarget).
case_decide.
- rewrite (bind_run _ _ _ _ _ (ret_run 1%nat (h1, g3))).
  by eapply insert_holds.
- rewrite draw_run.
  destruct (Random.randint 1 _ g3) as [target_pos g4]. cbn [fst snd].
  by eapply insert_holds.
Qed.

Lemma two_opt_refines :
  refines (_two_opt s) SimulatedAnnealing._two_opt.
Proof.
intros h g rts Hh. unfold _two_opt, SimulatedAnnealing._two_opt.
rewrite (bind_run _ _ _ _ _ (len_routes_holds _ g _ _ Hh)).
destruct rts as [|rt rts]; [by exists h|].
rewrite decide_False by done.
rewrite draw_run.
pose proof (randint_below (length (rt :: rts)) g ltac:(simpl; lia)) as Hidx.
destruct (Random.randint 0 (length (rt :: rts) - 1) g) as [idx g1]. cbn [fst snd] in *.
destruct (lookup_lt_is_Some_2 (rt :: rts) idx Hidx) as [route Hroute].
rewrite (bind_run _ _ _ _ _ (get_route_holds _ g1 _ _ _ _ Hh Hroute)).
rewrite (lookup_total_Some _ _ _ Hroute).
case_decide; [by exists h|].
rewrite draw_run.
destruct (Random.randint 1 _ g1) as [i g2]. cbn [fst snd].
rewrite draw_run.
destruct (Random.randint (i + 1) _ g2) as [j g3]. cbn [fst snd].
by apply assign_holds.
Qed.

Lemma cross_exchange_refines :
  refines (_cross_exchange s) SimulatedAnnealing._cross_exchange.
Proof.
intros h g rts Hh. unfold _cross_exchange, SimulatedAnnealing._cross_exchange.
rewrite (bind_run _ _ _ _ _ (len_routes_holds _ g _ _ Hh)).
case_decide as Hn; [by exists h|].
rewrite draw_run.
pose proof (sample_elem 2 (seq 0 (length rts)) g) as Hpicked.
destruct (Random.sample 2 (seq 0 (length rts)) g) as [picked g1]. cbn [fst snd] in *.
destruct picked as [|r1 [|r2 [|? ?]]]; try (by exists h).
assert (Hr1 : (r1 < length rts)%nat).
{ specialize (Hpicked r1 ltac:(set_solver)). apply elem_of_seq in Hpicked. lia. }
assert (Hr2 : (r2 < length rts)%nat).
{ specialize (Hpicked r2 ltac:(set_solver)). apply elem_of_seq in Hpicked. lia. }
destruct (lookup_lt_is_Some_2 rts r1 Hr1) as [route1 Hroute1].
destruct (lookup_lt_is_Some_2 rts r2 Hr2) as [route2 Hroute2].
rewrite (bind_run _ _ _ _ _ (get_route_holds _ g1 _ _ _ _ Hh Hroute1)).
rewrite (bind_run _ _ _ _ _ (get_route_holds _ g1 _ _ _ _ Hh Hroute2)).
rewrite (lookup_total_Some _ _ _ Hroute1), (lookup_total_Some _ _ _ Hroute2).
case_decide; [by exists h|].
rewrite draw_run. destruct (Random.randint 1 _ g1) as [start1 g2]. cbn [fst snd].
rewrite draw_run. destruct (Random.randint start1 _ g2) as [end1 g3]. cbn [fst snd].
rewrite draw_run. destruct (Random.randint 1 _ g3) as [start2 g4]. cbn [fst snd].
rewrite draw_run. destruct (Random.randint start2 _ g4) as [end2 g5]. cbn [fst snd].
match goal with |- context [assign (routes s) r1 ?new1] =>
  destruct (assign_holds h g5 (routes s) rts r1 new1 Hh Hr1) as (h1 & Hrun1 & Hh1)
end.
rewrite (bind_run _ _ _ _ _ Hrun1).
apply assign_holds; [done|]. by rewrite length_insert.
Qed.

Transparent Random.sample Random.randint Random.choice Random.next.

End Refinement.

(** Routes that are objects of their own are copied one by one, to the next
    free addresses. *)
Lemma copy_items_fresh g : forall (refs : list loc) (rts : list (list Z)) memo (h : heap),
  NoDup refs ->
  Forall (fun e : loc * loc => e.1 ∉ refs) memo ->
  Forall2 (fun l items => h !! l = Some (Ints items)) refs rts ->
  copy_items refs memo (h, g)
  = Some (seq (length h) (length refs), (h ++ (Ints <$> rts), g)).
Proof.
induction refs as [|l refs IH]; intros rts memo h Hnd Hmemo Hall.
- apply Forall2_nil_inv_l in Hall as ->. simpl. by rewrite app_nil_r.
- apply Forall2_cons_inv_l in Hall as (items & rts' & Hl & Hall & ->).
  apply NoDup_cons in Hnd as [Hnotin Hnd]. simpl.
  assert (Hfind : list_find (fun e : loc * loc => e.1 = l) memo = None).
  { apply list_find_None. eapply Forall_impl; [exact Hmemo|].
    intros e He Heq. apply He. rewrite Heq. constructor. }
  rewrite Hfind. unfold load_ints, alloc, mbind, M_bind, mret, M_ret. simpl.
  rewrite Hl. simpl.
  rewrite (IH rts' ((l, length h) :: memo) (h ++ [Ints items])).
  + rewrite length_app. simpl. rewrite Nat.add_1_r, <- app_assoc. done.
  + done.
  + constructor; [done|]. eapply Forall_impl; [exact Hmemo|].
    intros e He Hin. apply He. by constructor.
  + eapply Forall2_impl; [exact Hall|]. intros x xs Hx. by apply lookup_app_l_Some.
Qed.

Lemma copy_holds (s : solution) (h : heap) g rts :
  holds h (routes s) rts ->
  exists nb h', copy s (h, g) = Some (nb, (h', g)) /\ holds h' (routes nb) rts.
Proof.
intros (refs & Hrs & Hnd & Hall).
assert (Hlen : length refs = length rts) by (by eapply Forall2_length).
unfold copy, deepcopy, load_refs, alloc. unfold mbind, M_bind, mret, M_ret. simpl.
rewrite Hrs. rewrite (copy_items_fresh g refs rts [] h Hnd (Forall_nil_2 _) Hall). simpl.
eexists _, _. split; [done|]. simpl.
exists (seq (length h) (length refs)). split; [|split].
- rewrite lookup_app_r by done. by rewrite Nat.sub_diag.
- apply NoDup_seq.
- apply Forall2_same_length_lookup. split; [by rewrite length_seq|].
  intros i x xs Hx Hxs. apply lookup_seq in Hx as [-> Hi].
  rewrite <- app_assoc. rewrite lookup_app_r by lia.
  replace (length h + i - length h)%nat with i by lia.
  rewrite lookup_app_l by (rewrite length_fmap; lia).
  by rewrite list_lookup_fmap, Hxs.
Qed.

(** On a solution whose routes are objects of their own,
    [Store._generate_neighbor] returns, draws the same as
    [SimulatedAnnealing._generate_neighbor], and leaves in the heap a neighbor
    that holds the routes of the neighbor value. *)
Lemma generate_neighbor_refines (instance : VRPInstance.t) (s : solution)
    (sol : Solution.t) (h : heap) (g : Random.t) :
  holds h (routes s) (Solution.routes sol) ->
  exists nb h',
    _generate_neighbor (VRPInstance.depot instance) s (h, g)
    = Some (nb, (h', (SimulatedAnnealing._generate_neighbor instance sol g).2))
    /\ holds h' (routes nb)
             (Solution.routes (SimulatedAnnealing._generate_neighbor instance sol g).1).
Proof.
intros Hh. destruct (copy_holds s h g _ Hh) as (nb & h1 & Hcopy & Hnb).
unfold _generate_neighbor, SimulatedAnnealing._generate_neighbor, Solution.copy.
rewrite (bind_run _ _ _ _ _ Hcopy). rewrite draw_run.
destruct (SimulatedAnnealing.choose_operator g) as [op g1]. cbn [fst snd].
assert (Hop : exists h',
  match op with
  | SimulatedAnnealing.swap => _swap_customers (VRPInstance.depot instance) nb
  | SimulatedAnnealing.relocate => _relocate_customer (VRPInstance.depot instance) nb
  | SimulatedAnnealing.two_opt => _two_opt nb
  | SimulatedAnnealing.cross_exchange => _cross_exchange nb
  end (h1, g1)
  = Some (tt, (h', (SimulatedAnnealing.apply_operator instance op
                      (Solution.routes sol) g1).2))
  /\ holds h' (routes nb)
           (SimulatedAnnealing.apply_operator instance op (Solution.routes sol) g1).1).
{ destruct op; simpl.
  - by apply swap_refines.
  - by apply relocate_refines.
  - by apply two_opt_refines.
  - by apply cross_exchange_refines. }
destruct Hop as (h' & Hrun & Hh').
rewrite (bind_run _ _ _ _ _ Hrun).
destruct (SimulatedAnnealing.apply_operator instance op (Solution.routes sol) g1)
  as [rts' g2].
exists nb, h'. split; [done|]. done.
Qed.

Example generate_neighbor_refines_swap :
  exists nb h',
    _generate_neighbor 0 Examples.stored3 (Examples.heap3, Examples.counting)
    = Some (nb, (h', Random.mk (fun n => n) 3))
    /\ holds h' (routes nb) [[0; 2; 0]; [0; 1; 3; 0]].
Proof.
destruct (generate_neighbor_refines Examples.inst_line3 Examples.stored3
            (Solution.set_routes Examples.sol_line3 [[0; 1; 0]; [0; 2; 3; 0]])
            Examples.heap3 Examples.counting) as (nb & h' & Hrun & Hh').
- exists [1; 2]%nat. split; [done|]. split; [|by repeat constructor].
  apply NoDup_ListNoDup. repeat constructor; simpl; intuition lia.
- exists nb, h'. split; [exact Hrun|exact Hh'].
Qed.

(** *** The moves of the tabu search and the editing methods on objects *)

Lemma alter_const_insert (rts : list (list Z)) r (items : list Z) :
  alter (fun _ => items) r rts = <[r := items]> rts.
Proof.
apply list_eq. intros i. destruct (decide (i = r)) as [->|Hne].
- rewrite list_lookup_alter_eq.
  destruct (decide (r < length rts)%nat) as [Hlt|Hge].
  + rewrite list_lookup_insert_eq by done.
    destruct (lookup_lt_is_Some_2 _ _ Hlt) as [x ->]. done.
  + rewrite !lookup_ge_None_2; [done| |lia]. rewrite length_insert. lia.
- rewrite list_lookup_alter_ne by done. by rewrite list_lookup_insert_ne.
Qed.

Lemma remove_holds h g rs rts r v items items' :
  holds h rs rts -> rts !! r = Some items -> py_remove v items = Some items' ->
  exists h', remove rs r v (h, g) = Some (tt, (h', g))
             /\ holds h' rs (<[r := items']> rts).
Proof.
intros (refs & Hrs & Hnd & Hall) Hr Hrem.
destruct (holds_lookup _ _ _ _ _ _ Hrs Hall Hr) as (l & Hl & Hitems).
assert (Hlt : (l < length h)%nat) by (by eapply lookup_lt_Some).
eexists. split.
- unfold remove, route_ref, load_refs, load_ints, store.
  unfold mbind, M_bind, mret, M_ret. simpl. rewrite Hrs. simpl. rewrite Hl. simpl.
  rewrite Hitems. rewrite Hrem. simpl. by rewrite decide_True.
- rewrite <- alter_const_insert.
  by apply (holds_update h rs rts refs r l items (fun _ => items')).
Qed.

Lemma route_at_holds h rs rts r items :
  holds h rs rts -> rts !! r = Some items -> route_at h rs r = Some items.
Proof.
intros (refs & Hrs & _ & Hall) Hr.
destruct (holds_lookup _ _ _ _ _ _ Hrs Hall Hr) as (l & Hl & Hitems).
unfold route_at. rewrite Hrs. cbv beta iota. rewrite Hl. simpl. by rewrite Hitems.
Qed.

Lemma owned_length h0 n h rs rts : owned h0 n rs h -> holds h rs rts -> length rts = n.
Proof.
intros (_ & _ & refs & Hrs & Hlen & _) (refs' & Hrs' & _ & Hall).
assert (refs' = refs) as -> by congruence.
by rewrite <- (Forall2_length _ _ _ Hall).
Qed.

(** The writes of a move, on a copy made after [h0]: what the copy then
    holds, and that the objects of [h0] are as they were. *)
Section Moves.

Variable h0 : heap.
Variable n : nat.

Lemma set_item_move h g rs rts r p v items :
  owned h0 n rs h -> holds h rs rts -> rts !! r = Some items -> (p < length items)%nat ->
  exists h', set_item rs r p v (h, g) = Some (tt, (h', g))
             /\ holds h' rs (set_node r p v rts) /\ owned h0 n rs h'.
Proof.
intros Hown Hh Hr Hp.
destruct (set_item_holds h g rs rts r p v items Hh Hr Hp) as (h' & Hrun & Hh').
destruct (set_item_spec h0 n rs r p v (fun r' => length <$> route_at h rs r')
            (length items)) with (h := h) (g := g) as (a & h'' & g' & Hrun' & Hown' & _).
- by rewrite (route_at_holds _ _ _ _ _ Hh Hr).
- done.
- done.
- rewrite Hrun in Hrun'. inversion Hrun'; subst. by exists h''.
Qed.

Lemma pop_move h g rs rts r p items :
  owned h0 n rs h -> holds h rs rts -> rts !! r = Some items -> (p < length items)%nat ->
  exists h', pop rs r p (h, g) = Some (tt, (h', g))
             /\ holds h' rs (alter (delete p) r rts) /\ owned h0 n rs h'.
Proof.
intros Hown Hh Hr Hp.
destruct (pop_holds h g rs rts r p items Hh Hr Hp) as (h' & Hrun & Hh').
destruct (pop_spec h0 n rs r p items Hp h g) as (a & h'' & g' & Hrun' & Hown').
- split; [done|]. by apply (route_at_holds _ _ rts).
- rewrite Hrun in Hrun'. inversion Hrun'; subst. by exists h''.
Qed.

Lemma insert_move h g rs rts r p v items :
  owned h0 n rs h -> holds h rs rts -> rts !! r = Some items ->
  exists h', insert rs r p v (h, g) = Some (tt, (h', g))
             /\ holds h' rs (alter (py_insert p v) r rts) /\ owned h0 n rs h'.
Proof.
intros Hown Hh Hr.
destruct (insert_holds h g rs rts r p v items Hh Hr) as (h' & Hrun & Hh').
assert (Hrn : (r < n)%nat).
{ rewrite <- (owned_length _ _ _ _ _ Hown Hh). by eapply lookup_lt_Some. }
destruct (insert_spec h0 n rs r p v Hrn h g Hown) as (a & h'' & g' & Hrun' & Hown').
rewrite Hrun in Hrun'. inversion Hrun'; subst. by exists h''.
Qed.

Lemma assign_move h g rs rts r items :
  owned h0 n rs h -> holds h rs rts -> (r < length rts)%nat ->
  exists h', assign rs r items (h, g) = Some (tt, (h', g))
             /\ holds h' rs (<[r := items]> rts) /\ owned h0 n rs h'.
Proof.
intros Hown Hh Hr.
destruct (assign_holds h g rs rts r items Hh Hr) as (h' & Hrun & Hh').
assert (Hrn : (r < n)%nat) by (by rewrite <- (owned_length _ _ _ _ _ Hown Hh)).
destruct (assign_spec h0 n rs r items Hrn h g Hown) as (a & h'' & g' & Hrun' & Hown').
rewrite Hrun in Hrun'. inversion Hrun'; subst. by exists h''.
Qed.

End Moves.

Lemma holds_grow h h' rs rts : h `prefix_of` h' -> holds h rs rts -> holds h' rs rts.
Proof.
intros Hpre (refs & Hrs & Hnd & Hall). exists refs.
split; [by eapply prefix_lookup_Some|]. split; [done|].
eapply Forall2_impl; [exact Hall|]. intros l items Hl.
by apply (prefix_lookup_Some h h').
Qed.

(** The copy a move starts from: it holds the routes of the solution, in
    objects allocated after those of the heap it was made in. *)
Lemma copy_move (s : solution) (h : heap) g rts :
  holds h (routes s) rts ->
  exists nb h', copy s (h, g) = Some (nb, (h', g))
                /\ holds h' (routes nb) rts /\ owned h (length rts) (routes nb) h'.
Proof.
intros Hh. destruct (copy_holds s h g rts Hh) as (nb & h' & Hrun & Hnb).
destruct Hh as (refs & Hrs & Hnd & Hall).
destruct (copy_spec h s refs g Hrs) as (nb' & h'' & Hrun' & Hown').
{ apply Forall_forall. intros l Hl. apply list_elem_of_lookup in Hl as [i Hi].
  destruct (Forall2_lookup_l _ _ _ _ _ Hall Hi) as (items & _ & Hitems). eauto. }
rewrite Hrun in Hrun'. inversion Hrun'; subst.
exists nb', h''. split; [done|]. split; [done|].
by rewrite <- (Forall2_length _ _ _ Hall).
Qed.

(** The three moves of the tabu search, on a solution whose routes are
    objects of their own: the neighbor holds, in objects of its own, the
    routes that [TabuSearch.swap_move], [TabuSearch.relocate_move] and
    [TabuSearch.two_opt_tries] give it, and the solution the neighbor was
    made from holds its routes as before. *)
Lemma swap_move_refines (s : solution) h g rts r1 p1 c1 r2 p2 c2 items1 items2 :
  holds h (routes s) rts ->
  rts !! r1 = Some items1 -> (p1 < length items1)%nat ->
  rts !! r2 = Some items2 -> (p2 < length items2)%nat ->
  exists nb h',
    swap_move s r1 p1 c1 r2 p2 c2 (h, g) = Some (nb, (h', g))
    /\ holds h' (routes nb) (set_node r2 p2 c1 (set_node r1 p1 c2 rts))
    /\ holds h' (routes s) rts.
Proof.
intros Hh H1 Hp1 H2 Hp2.
destruct (copy_move s h g rts Hh) as (nb & h1 & Hcopy & Hnb & Hown).
unfold swap_move. rewrite (bind_run _ _ _ _ _ Hcopy).
destruct (set_item_move h _ h1 g (routes nb) rts r1 p1 c2 items1 Hown Hnb H1 Hp1)
  as (h2 & Hrun1 & Hh2 & Hown2).
rewrite (bind_run _ _ _ _ _ Hrun1).
assert (exists items2', set_node r1 p1 c2 rts !! r2 = Some items2'
                        /\ length items2' = length items2) as (items2' & H2' & Hlen2).
{ unfold set_node. destruct (decide (r1 = r2)) as [->|Hne].
  - rewrite list_lookup_alter_eq, H2. simpl. eexists. split; [done|apply length_insert].
  - rewrite list_lookup_alter_ne by done. eauto. }
destruct (set_item_move h _ h2 g (routes nb) _ r2 p2 c1 items2' Hown2 Hh2 H2')
  as (h3 & Hrun2 & Hh3 & Hown3); [lia|].
rewrite (bind_run _ _ _ _ _ Hrun2).
exists nb, h3. split; [done|]. split; [done|].
destruct Hown3 as (Hpre & _). by apply (holds_grow h).
Qed.

Lemma relocate_move_refines (s : solution) h g rts route_idx pos customer
    target_route_idx target_pos route :
  holds h (routes s) rts ->
  rts !! route_idx = Some route -> (pos < length route)%nat ->
  (target_route_idx < length rts)%nat ->
  let target_pos' :=
    if bool_decide (target_route_idx = route_idx) && bool_decide (pos < target_pos)%nat
    then (target_pos - 1)%nat else target_pos in
  exists nb h',
    relocate_move s route_idx pos customer target_route_idx target_pos (h, g)
    = Some (nb, (h', g))
    /\ holds h' (routes nb)
         (alter (py_insert target_pos' customer) target_route_idx
                (alter (delete pos) route_idx rts))
    /\ holds h' (routes s) rts.
Proof.
intros Hh Hr Hpos Ht target_pos'.
destruct (copy_move s h g rts Hh) as (nb & h1 & Hcopy & Hnb & Hown).
unfold relocate_move. rewrite (bind_run _ _ _ _ _ Hcopy).
destruct (pop_move h _ h1 g (routes nb) rts route_idx pos route Hown Hnb Hr Hpos)
  as (h2 & Hrun1 & Hh2 & Hown2).
rewrite (bind_run _ _ _ _ _ Hrun1).
destruct (lookup_lt_is_Some_2 (alter (delete pos) route_idx rts) target_route_idx)
  as [target Htarget]; [by rewrite length_alter|].
destruct (insert_move h _ h2 g (routes nb) _ target_route_idx target_pos' customer
            target Hown2 Hh2 Htarget) as (h3 & Hrun2 & Hh3 & Hown3).
fold target_pos'. rewrite (bind_run _ _ _ _ _ Hrun2).
exists nb, h3. split; [done|]. split; [done|].
destruct Hown3 as (Hpre & _). by apply (holds_grow h).
Qed.

Lemma two_opt_move_refines (s : solution) h g rts route_idx i j route :
  holds h (routes s) rts ->
  (route_idx < length rts)%nat ->
  exists nb h',
    two_opt_move s route_idx i j route (h, g) = Some (nb, (h', g))
    /\ holds h' (routes nb) (<[route_idx := reverse_segment i j route]> rts)
    /\ holds h' (routes s) rts.
Proof.
intros Hh Hr.
destruct (copy_move s h g rts Hh) as (nb & h1 & Hcopy & Hnb & Hown).
unfold two_opt_move. rewrite (bind_run _ _ _ _ _ Hcopy).
destruct (assign_move h _ h1 g (routes nb) rts route_idx (reverse_segment i j route)
            Hown Hnb Hr) as (h2 & Hrun1 & Hh2 & Hown2).
rewrite (bind_run _ _ _ _ _ Hrun1).
exists nb, h2. split; [done|]. split; [done|].
destruct Hown2 as (Hpre & _). by apply (holds_grow h).
Qed.


(** *** The neighbor is made on a full copy *)

(** The fields of a solution other than its routes. *)
Definition same_fields (s nb : solution) : Prop :=
  instance nb = instance s /\ total_cost nb = total_cost s
  /\ total_distance nb = total_distance s /\ total_time nb = total_time s
  /\ feasible nb = feasible s /\ violations nb = violations s
  /\ vehicle_loads nb = vehicle_loads s /\ route_distances nb = route_distances s
  /\ route_times nb = route_times s.

(** The items read at a route address. *)
Definition items_at (h : heap) (l : loc) : option (list Z) :=
  match h !! l with Some (Ints items) => Some items | _ => None end.

Lemma read_routes_items (h : heap) rs refs :
  h !! rs = Some (Refs refs) -> read_routes h rs = mapM (items_at h) refs.
Proof. intros Hrs. unfold read_routes. by rewrite Hrs. Qed.

Lemma mapM_related {A B C} (f : A -> option C) (f' : B -> option C) (l : list A)
    (l' : list B) :
  Forall2 (fun x y => f x = f' y) l l' -> mapM f l = mapM f' l'.
Proof.
induction 1 as [|x y l l' Hxy Hl IH]; [done|]. simpl. by rewrite Hxy, IH.
Qed.

(** Every route is copied with its items, a route object met twice
    included: the copies read the same as the originals. *)
Lemma copy_items_content g (h0 : heap) : forall refs memo h,
  h0 `prefix_of` h ->
  Forall (fun l => exists items, h0 !! l = Some (Ints items)) refs ->
  Forall (fun e : loc * loc =>
            exists items, h0 !! e.1 = Some (Ints items) /\ h !! e.2 = Some (Ints items))
         memo ->
  exists copies h',
    copy_items refs memo (h, g) = Some (copies, (h', g))
    /\ h `prefix_of` h'
    /\ Forall2 (fun l l' => exists items, h0 !! l = Some (Ints items)
                                          /\ h' !! l' = Some (Ints items))
               refs copies.
Proof.
induction refs as [|l refs IH]; intros memo h Hpre Hrefs Hmemo.
- exists [], h. split; [done|]. split; [done|constructor].
- apply Forall_cons in Hrefs as [[items Hitems] Hrefs]. simpl.
  destruct (list_find _ memo) as [[i [x l']]|] eqn:Hfind.
  + apply list_find_Some in Hfind as (Hi & Hx & _). simpl in Hx. subst x.
    rewrite Forall_forall in Hmemo.
    destruct (Hmemo (l, l')) as (items' & Hl & Hl');
      [by eapply list_elem_of_lookup_2|]. simpl in Hl, Hl'.
    destruct (IH memo h Hpre Hrefs) as (copies & h' & Hrun & Hpre' & Hall);
      [by apply Forall_forall|].
    exists (l' :: copies), h'. unfold mbind, M_bind, mret, M_ret. rewrite Hrun.
    split; [done|]. split; [done|]. constructor; [|done].
    exists items'. split; [done|]. by eapply prefix_lookup_Some.
  + assert (Hh : h !! l = Some (Ints items)) by (by eapply prefix_lookup_Some).
    destruct (IH ((l, length h) :: memo) (h ++ [Ints items]))
      as (copies & h' & Hrun & Hpre' & Hall).
    * etrans; [exact Hpre|]. by apply prefix_app_r.
    * done.
    * constructor.
      -- exists items. split; [done|]. simpl.
         by rewrite lookup_app_r, Nat.sub_diag by lia.
      -- eapply Forall_impl; [exact Hmemo|]. intros e (items' & He1 & He2).
         exists items'. split; [done|]. by apply lookup_app_l_Some.
    * exists (length h :: copies), h'.
      unfold load_ints, alloc, mbind, M_bind, mret, M_ret. simpl.
      rewrite Hh. simpl. rewrite Hrun.
      split; [done|]. split.
      -- etrans; [|exact Hpre']. by apply prefix_app_r.
      -- constructor; [|done]. exists items. split; [done|].
         eapply prefix_lookup_Some; [|exact Hpre'].
         by rewrite lookup_app_r, Nat.sub_diag by lia.
Qed.

(** [Solution.copy] returns a solution with the same fields, whose routes
    read the same as those of the solution copied. *)
Lemma copy_content (s : solution) (h : heap) refs g :
  h !! routes s = Some (Refs refs) ->
  Forall (fun l => exists items, h !! l = Some (Ints items)) refs ->
  exists nb h1, copy s (h, g) = Some (nb, (h1, g))
                /\ h `prefix_of` h1
                /\ read_routes h1 (routes nb) = read_routes h (routes s)
                /\ same_fields s nb.
Proof.
intros Hrs Hrefs.
destruct (copy_items_content g h refs [] h) as (copies & h' & Hrun & Hpre & Hall);
  [done|done|constructor|].
unfold copy, deepcopy, load_refs, alloc, mbind, M_bind, mret, M_ret. simpl.
rewrite Hrs. rewrite Hrun. simpl.
eexists _, _. split; [done|]. simpl.
split; [etrans; [exact Hpre|]; by apply prefix_app_r|].
split; [|by repeat split].
rewrite (read_routes_items (h' ++ [Refs copies]) (length h') copies)
  by (by rewrite lookup_app_r, Nat.sub_diag by lia).
rewrite (read_routes_items h (routes s) refs Hrs).
symmetry. apply mapM_related.
eapply Forall2_impl; [exact Hall|]. intros l l' (items & Hl & Hl').
unfold items_at. rewrite Hl. by rewrite (lookup_app_l_Some _ _ _ _ Hl').
Qed.

(** The solution that [_generate_neighbor] returns is the one that
    [Solution.copy] returned to it. *)
Lemma generate_neighbor_copy depot (s : solution) st nb st' :
  _generate_neighbor depot s st = Some (nb, st') ->
  exists st1, copy s st = Some (nb, st1).
Proof.
unfold _generate_neighbor. unfold mbind at 1, M_bind at 1.
destruct (copy s st) as [[nb0 st0]|]; [|done].
unfold mbind, M_bind, mret, M_ret.
destruct (draw SimulatedAnnealing.choose_operator st0) as [[op st1]|]; [|done].
destruct op;
  match goal with
  | |- context [match ?m st1 with _ => _ end] => destruct (m st1) as [[[] st2]|]
  end; intros Hrun; inversion Hrun; subst; eauto.
Qed.

Lemma read_routes_holds (h : heap) rs refs rts :
  h !! rs = Some (Refs refs) -> NoDup refs -> read_routes h rs = Some rts ->
  holds h rs rts.
Proof.
intros Hrs Hnd Hread. exists refs. split; [done|]. split; [done|].
rewrite (read_routes_items h rs refs Hrs) in Hread. apply mapM_Some in Hread.
eapply Forall2_impl; [exact Hread|]. intros l items. unfold items_at.
destruct (h !! l) as [[items'|]|]; intros H; by inversion H.
Qed.

(** C9. Whatever operator the draw selects (swap, relocate, 2-opt or cross
    exchange) and whatever it then draws, [_generate_neighbor] returns, and
    the neighbor it returns is made on an independent full copy.  The
    solution returned is the one [Solution.copy] made of the input: when the
    copy was made its routes read the same as those of the input, and its
    other fields are those of the input.  It has as many routes as the input.
    Its list of routes and its routes are objects allocated by the call.
    Every object that existed before the call is left as it was, so the
    routes of the input read the same after the call.  What the operator has
    changed is the copy: on an input whose routes are list objects of their
    own, the routes of the neighbor are again objects of their own, and they
    hold the routes that the operator drawn makes of the routes of the
    input. *)
Theorem generate_neighbor_leaves_input_untouched
    (depot : Z) (h : heap) (g : Random.t) (s : solution) (refs : list loc) :
  h !! routes s = Some (Refs refs) ->
  Forall (fun l => exists items, h !! l = Some (Ints items)) refs ->
  exists nb h' g' refs' h1,
    _generate_neighbor depot s (h, g) = Some (nb, (h', g'))
    /\ h `prefix_of` h'
    /\ read_routes h' (routes s) = read_routes h (routes s)
    /\ is_Some (read_routes h (routes s))
    /\ is_Some (read_routes h' (routes nb))
    /\ (forall l, l ∈ footprint h' (routes nb) -> (length h <= l)%nat)
    /\ (forall l, l ∈ footprint h (routes s) -> (l < length h)%nat)
    /\ copy s (h, g) = Some (nb, (h1, g))
    /\ read_routes h1 (routes nb) = read_routes h (routes s)
    /\ same_fields s nb
    /\ h' !! routes nb = Some (Refs refs')
    /\ length refs' = length refs
    /\ (NoDup refs ->
        forall (instance : VRPInstance.t) (sol : Solution.t),
          VRPInstance.depot instance = depot ->
          read_routes h (routes s) = Some (Solution.routes sol) ->
          g' = (SimulatedAnnealing._generate_neighbor instance sol g).2
          /\ holds h' (routes nb)
               (Solution.routes (SimulatedAnnealing._generate_neighbor instance sol g).1)).
Proof.
intros Hrs Hrefs.
destruct (generate_neighbor_spec h depot s refs g Hrs Hrefs)
  as (nb & h' & g' & Hrun & Hpre & Hnb0 & refs' & Hnb & Hlen & Hrefs').
destruct (read_routes_grow h h' (routes s) refs Hpre Hrs Hrefs) as [Hsame Hsome].
destruct (copy_content s h refs g Hrs Hrefs) as (nb1 & h1 & Hcopy & _ & Hread1 & Hfields).
destruct (generate_neighbor_copy depot s _ _ _ Hrun) as [st1 Hcopy'].
rewrite Hcopy in Hcopy'. inversion Hcopy'; subst nb1 st1; clear Hcopy'.
exists nb, h', g', refs', h1. repeat (split; [done|]).
split; [|split; [|split; [|split; [|split; [|split; [|split; [|split]]]]]]]; try done.
- unfold read_routes. rewrite Hnb. apply mapM_is_Some.
  eapply Forall_impl; [exact Hrefs'|]. intros l (_ & items & Hl). simpl. by rewrite Hl.
- intros l. unfold footprint. rewrite Hnb. intros [->|Hl]%elem_of_cons; [done|].
  rewrite Forall_forall in Hrefs'. by destruct (Hrefs' l Hl).
- intros l. unfold footprint. rewrite Hrs. intros [->|Hl]%elem_of_cons.
  + by eapply lookup_lt_Some.
  + rewrite Forall_forall in Hrefs. destruct (Hrefs l Hl) as [items Hitems].
    by eapply lookup_lt_Some.
- intros Hnd instance sol <- Hread.
  destruct (generate_neighbor_refines instance s sol h g) as (nb2 & h2 & Hrun2 & Hholds).
  + by eapply read_routes_holds.
  + rewrite Hrun in Hrun2. inversion Hrun2; subst. done.
Qed.

Lemma generate_neighbor_leaves_input_untouched_witness :
  exists nb h' g' refs' h1,
    _generate_neighbor 0 Examples.stored3 (Examples.heap3, Examples.counting)
    = Some (nb, (h', g'))
    /\ Examples.heap3 `prefix_of` h'
    /\ read_routes h' 0%nat = read_routes Examples.heap3 0%nat
    /\ is_Some (read_routes Examples.heap3 0%nat)
    /\ is_Some (read_routes h' (routes nb))
    /\ (forall l, l ∈ footprint h' (routes nb) -> (3 <= l)%nat)
    /\ (forall l, l ∈ footprint Examples.heap3 0%nat -> (l < 3)%nat)
    /\ copy Examples.stored3 (Examples.heap3, Examples.counting)
       = Some (nb, (h1, Examples.counting))
    /\ read_routes h1 (routes nb) = read_routes Examples.heap3 0%nat
    /\ same_fields Examples.stored3 nb
    /\ h' !! routes nb = Some (Refs refs')
    /\ length refs' = 2%nat
    /\ (NoDup [1; 2]%nat ->
        forall (instance : VRPInstance.t) (sol : Solution.t),
          VRPInstance.depot instance = 0 ->
          read_routes Examples.heap3 0%nat = Some (Solution.routes sol) ->
          g' = (SimulatedAnnealing._generate_neighbor instance sol Examples.counting).2
          /\ holds h' (routes nb)
               (Solution.routes
                  (SimulatedAnnealing._generate_neighbor instance sol
                     Examples.counting).1)).
Proof.
apply (generate_neighbor_leaves_input_untouched 0 Examples.heap3 Examples.counting
         Examples.stored3 [1; 2]%nat).
- reflexivity.
- repeat constructor; eexists; reflexivity.
Defined.

End StoreFacts.

(** ** The solver's entry point *)

Module SolverFacts.
Import VRPSolver.

(** The only exception an annealing run raises is the one of its float
    test. *)
Section AnnealingErrors.
Import SimulatedAnnealing.
Variable instance : VRPInstance.t.
Variables initial_temp final_temp cooling_rate : Q.
Variables max_iterations max_iterations_per_temp : Z.
Variable metropolis : Q -> Q -> Q -> option bool.

Lemma inner_turn_raises st e :
  inner_turn instance metropolis st = Raised e -> e = FloatError.
Proof.
unfold inner_turn. destruct (_generate_neighbor _ _ _) as [nb g].
destruct (if Qltb _ 0 then _ else _) as [[? ?]|]; [done|]. by intros [= <-].
Qed.

Lemma inner_loop_raises turns : forall st e,
  inner_loop instance max_iterations metropolis turns st = Raised e -> e = FloatError.
Proof.
induction turns as [|k IH]; intros st e H; simpl in H; [done|].
destruct (inner_turn instance metropolis st) as [st1|e1|] eqn:Hturn; [|..|done].
- case_decide; [done|]. by eapply IH.
- inversion H; subst. by eapply inner_turn_raises.
Qed.

Lemma outer_loop_raises fuel : forall st e,
  outer_loop instance final_temp cooling_rate max_iterations max_iterations_per_temp
             metropolis fuel st = Raised e -> e = FloatError.
Proof.
induction fuel as [|f IH]; intros st e H; simpl in H.
- by destruct (_ && _).
- destruct (_ && _); [|done].
  destruct (inner_loop _ _ _ _ st) as [st1|e1|] eqn:Hinner; [|..|done].
  + by eapply IH.
  + inversion H; subst. by eapply inner_loop_raises.
Qed.

Lemma annealing_raises fuel st0 initial_solution g e :
  solve instance initial_temp final_temp cooling_rate max_iterations
        max_iterations_per_temp metropolis fuel st0 initial_solution g = Raised e ->
  e = FloatError.
Proof.
unfold solve. destruct (outer_loop _ _ _ _ _ _ _ _) as [st|e1|] eqn:Hloop; [done| |done].
intros [= <-]. by eapply outer_loop_raises.
Qed.

End AnnealingErrors.

Lemma savings_raises dict_keys inst e :
  SavingsAlgorithm.construct dict_keys inst = Raised e -> e = ListRemove \/ e = LookupError.
Proof.
unfold SavingsAlgorithm.construct.
destruct (SavingsAlgorithm._calculate_savings _ _); [|intros [= <-]; by left].
destruct (SavingsAlgorithm.customers _ _); [|intros [= <-]; by left].
destruct (SavingsAlgorithm.merge_loop _ _ _); [done|]. intros [= <-]. by right.
Qed.

(** C4 does not hold as stated: on the instance without vehicles and without
    capacity, asked for the greedy algorithm, [solve] runs the construction
    and returns its solution. *)
Lemma solve_does_not_fail_fast_on_degenerate : ~ fails_fast_on_degenerate.
Proof.
intros Hfast.
destruct (Hfast elements (fun m => elements (dom m)) Examples.coin 0%nat
                Examples.inst_degenerate "greedy"%string no_kwargs Examples.counting)
  as [e He].
- left. reflexivity.
- vm_compute in He. discriminate.
Qed.

Example solve_degenerate_routes :
  let r := solve elements (fun m => elements (dom m)) Examples.coin 0%nat
                 Examples.inst_degenerate "greedy"%string no_kwargs Examples.counting in
  r.1 = [Construction "greedy"]
  /\ match r.2 with
     | Returned s => Solution.routes s = [[0; 2; 0]; [0; 1; 0]]
                     /\ Solution.total_cost s = 6%Q
     | _ => False
     end.
Proof. vm_compute. repeat split. Qed.

(** C4, as the code has it. [solve] raises its configuration error exactly
    for an algorithm name it does not know, and then before any construction
    heuristic or search has run.  No instance is turned down: asked for the
    greedy algorithm, [solve] runs the construction on every instance, those
    without vehicles or capacity included, and returns a solution that serves
    every customer once. *)
Theorem solve_raises_for_unknown_algorithm_only
    (set_iter : gset Z -> list Z) (dict_keys : gmap Z Z -> list Z)
    (metropolis : Q -> Q -> Q -> option bool) (fuel : nat)
    (inst : VRPInstance.t) (algorithm : string) (kw : kwargs) (g : Random.t) :
  (forall (X : gset Z) (x : Z), x ∈ set_iter X <-> x ∈ X) ->
  (~ known algorithm ->
     solve set_iter dict_keys metropolis fuel inst algorithm kw g
     = ([], Raised (UnknownAlgorithm algorithm)))
  /\ (known algorithm ->
      forall name,
        (solve set_iter dict_keys metropolis fuel inst algorithm kw g).2
        ≠ Raised (UnknownAlgorithm name))
  /\ (exists s,
        solve set_iter dict_keys metropolis fuel inst "greedy" kw g
        = ([Construction "greedy"], Returned s)
        /\ GreedyConstruction.served (VRPInstance.depot inst) (Solution.routes s)
           ≡ₚ elements (dom (VRPInstance.demands inst) ∖ {[VRPInstance.depot inst]})).
Proof.
intros Hiter.
destruct (GreedyFacts.construct_covers set_iter Hiter inst) as (s0 & Hs0 & Hcov).
assert (Hgreedy : greedy_construct set_iter inst = Returned s0)
  by (unfold greedy_construct; by rewrite Hs0).
split; [|split].
- intros Hunknown. unfold solve, known in *.
  repeat case_decide; try done; exfalso; apply Hunknown; tauto.
- intros Hknown name. unfold solve.
  case_decide as Hsearch.
  + unfold _create_initial_solution.
    repeat case_decide; rewrite ?Hgreedy; simpl;
      try (unfold _solve_simulated_annealing;
           destruct (SimulatedAnnealing.solve _ _ _ _ _ _ _ _ _ _ _)
             as [[? ?]|e|] eqn:Hsa; try done;
           apply annealing_raises in Hsa; subst; done);
      try done;
      destruct (SavingsAlgorithm.construct dict_keys inst) as [s1|e|] eqn:Hsav;
      simpl; try done;
      try (apply savings_raises in Hsav as [->| ->]; done);
      unfold _solve_simulated_annealing;
      destruct (SimulatedAnnealing.solve _ _ _ _ _ _ _ _ _ _ _)
        as [[? ?]|e|] eqn:Hsa; try done;
      apply annealing_raises in Hsa; subst; done.
  + repeat case_decide; simpl.
    * unfold _solve_greedy. by rewrite Hgreedy.
    * unfold _solve_savings.
      destruct (SavingsAlgorithm.construct dict_keys inst) as [s1|e|] eqn:Hsav;
        simpl; try done.
      apply savings_raises in Hsav as [->| ->]; done.
    * exfalso. unfold known in Hknown. tauto.
- exists (Solution.calculate_cost s0).2. split.
  + unfold solve. rewrite decide_False by (intros [?|?]; done).
    rewrite decide_True by done. unfold _solve_greedy. by rewrite Hgreedy.
  + by rewrite GreedyFacts.calculate_cost_routes.
Qed.

Lemma solve_raises_for_unknown_algorithm_only_witness :
  solve elements (fun m => elements (dom m)) Examples.coin 4%nat
        Examples.inst_degenerate "branch_and_bound" no_kwargs Examples.counting
  = ([], Raised (UnknownAlgorithm "branch_and_bound"))
  /\ exists s,
       solve elements (fun m => elements (dom m)) Examples.coin 4%nat
             Examples.inst_degenerate "greedy" no_kwargs Examples.counting
       = ([Construction "greedy"], Returned s)
       /\ GreedyConstruction.served 0 (Solution.routes s)
          ≡ₚ elements ({[0; 1; 2]} ∖ {[0]} : gset Z).
Proof.
destruct (solve_raises_for_unknown_algorithm_only elements (fun m => elements (dom m))
            Examples.coin 4%nat Examples.inst_degenerate "branch_and_bound"
            no_kwargs Examples.counting) as (Hunknown & _ & Hgreedy).
- intros X x. apply elem_of_elements.
- split; [|exact Hgreedy].
  apply Hunknown. unfold known. intros [H|[H|[H|H]]]; discriminate H.
Defined.

End SolverFacts.

(** ** The neighborhood operators rearrange the nodes of a solution *)

Module NeighborhoodFacts.

(** A route that leaves from the depot and comes back to it. *)
Definition closed (depot : Z) (route : list Z) : Prop :=
  head route = Some depot /\ last route = Some depot /\ (2 <= length route)%nat.

(** [rs'] holds the nodes of [rs], each as many times, on as many routes;
    and its routes are closed when those of [rs] are. *)
Definition rearranged (depot : Z) (rs rs' : list (list Z)) : Prop :=
  length rs' = length rs
  /\ concat rs' ≡ₚ concat rs
  /\ (Forall (closed depot) rs -> Forall (closed depot) rs').

Lemma rearranged_refl depot rs : rearranged depot rs rs.
Proof. done. Qed.

Lemma rearranged_trans depot rs1 rs2 rs3 :
  rearranged depot rs1 rs2 -> rearranged depot rs2 rs3 -> rearranged depot rs1 rs3.
Proof.
intros (Hl1 & Hp1 & Hc1) (Hl2 & Hp2 & Hc2). split; [congruence|].
split; [by rewrite Hp2|auto].
Qed.

Lemma alter_lookup_insert {A} (f : A -> A) (l : list A) : forall i x,
  l !! i = Some x -> alter f i l = <[i := f x]> l.
Proof.
induction l as [|y l IH]; intros [|i] x H; simpl in *; try done.
- by inversion H.
- f_equal. by apply IH.
Qed.

Lemma concat_insert (rs : list (list Z)) : forall r route new,
  rs !! r = Some route -> concat (<[r := new]> rs) ++ route ≡ₚ concat rs ++ new.
Proof.
induction rs as [|x rs IH]; intros [|r] route new H; simpl in *; try done.
- inversion H; subst. solve_Permutation.
- rewrite <- !app_assoc. by rewrite (IH r route new H).
Qed.

Lemma splice_closed depot (route mid : list Z) s e :
  closed depot route -> (1 <= s)%nat -> (e < length route)%nat ->
  closed depot (take s route ++ mid ++ drop e route).
Proof.
intros (Hh & Hl & Hlen) Hs He. split; [|split].
- destruct route as [|x route]; [done|]. destruct s; [lia|]. done.
- rewrite !last_app.
  assert (Hd : last (drop e route) = Some depot).
  { rewrite last_lookup, length_drop, lookup_drop.
    rewrite last_lookup in Hl. rewrite <- Hl. f_equal. lia. }
  by rewrite Hd.
- rewrite !length_app, length_take, length_drop. lia.
Qed.

Lemma closed_interior depot (route : list Z) p u :
  closed depot route -> route !! p = Some u -> u ≠ depot ->
  (1 <= p)%nat /\ (S p < length route)%nat.
Proof.
intros (Hh & Hl & Hlen) Hp Hu.
pose proof (lookup_lt_Some _ _ _ Hp) as Hlt.
rewrite head_lookup in Hh. rewrite last_lookup in Hl.
split.
- destruct p; [congruence|lia].
- destruct (decide (p = pred (length route))) as [->|]; [congruence|lia].
Qed.

Lemma set_closed depot (route : list Z) p u v :
  closed depot route -> route !! p = Some u -> u ≠ depot ->
  closed depot (<[p := v]> route).
Proof.
intros Hc Hp Hu. destruct (closed_interior _ _ _ _ Hc Hp Hu) as [H1 H2].
destruct Hc as (Hh & Hl & Hlen). split; [|split].
- rewrite head_lookup in *. rewrite list_lookup_insert_ne by lia. done.
- rewrite last_lookup in *. rewrite length_insert.
  rewrite list_lookup_insert_ne by lia. done.
- by rewrite length_insert.
Qed.

Lemma delete_take_drop {A} (l : list A) p : delete p l = take p l ++ drop (S p) l.
Proof.
revert p. induction l as [|x l IH]; intros [|p]; simpl; try done.
by rewrite IH.
Qed.

Lemma delete_closed depot (route : list Z) p u :
  closed depot route -> route !! p = Some u -> u ≠ depot ->
  closed depot (delete p route).
Proof.
intros Hc Hp Hu. destruct (closed_interior _ _ _ _ Hc Hp Hu) as [H1 H2].
rewrite delete_take_drop.
change (take p route ++ drop (S p) route) with (take p route ++ [] ++ drop (S p) route).
by apply splice_closed.
Qed.

Lemma py_insert_closed depot (route : list Z) p c :
  closed depot route -> (1 <= p)%nat -> (p < length route)%nat ->
  closed depot (py_insert p c route).
Proof.
intros Hc H1 H2. unfold py_insert.
change (take p route ++ c :: drop p route) with (take p route ++ [c] ++ drop p route).
by apply splice_closed.
Qed.

Lemma py_insert_perm {A} p (c : A) (l : list A) : py_insert p c l ≡ₚ c :: l.
Proof.
unfold py_insert. rewrite <- Permutation_middle. by rewrite take_drop.
Qed.

Lemma slice_split {A} (l : list A) i j :
  (i <= j)%nat -> take i l ++ slice i j l ++ drop j l = l.
Proof.
intros Hij. unfold slice.
rewrite app_assoc, take_take_drop.
replace (i + (j - i))%nat with j by lia. apply take_drop.
Qed.

Lemma reverse_segment_perm (route : list Z) i j :
  (i <= j + 1)%nat -> reverse_segment i j route ≡ₚ route.
Proof.
intros Hij. unfold reverse_segment. rewrite reverse_Permutation.
by rewrite slice_split.
Qed.

Lemma reverse_segment_closed depot (route : list Z) i j :
  closed depot route -> (1 <= i)%nat -> (j + 1 < length route)%nat ->
  closed depot (reverse_segment i j route).
Proof. intros. by apply splice_closed. Qed.

(** Replacing one route by a rearrangement of itself. *)
Lemma rearranged_insert depot (rs : list (list Z)) r route new :
  rs !! r = Some route -> new ≡ₚ route -> (closed depot route -> closed depot new) ->
  rearranged depot rs (<[r := new]> rs).
Proof.
intros Hr Hperm Hclosed. split; [by rewrite length_insert|]. split.
- pose proof (concat_insert rs r route new Hr) as H.
  apply (Permutation_app_inv_r route). rewrite H. by apply Permutation_app.
- intros Hall. apply Forall_insert; [done|].
  apply Hclosed. by eapply Forall_lookup_1.
Qed.

(** Taking a node out of a route and putting it into a route. *)
Lemma rearranged_move depot (rs : list (list Z)) r p c t q :
  (forall route, rs !! r = Some route -> route !! p = Some c) ->
  rs !! r ≠ None -> c ≠ depot ->
  (t < length rs)%nat ->
  (Forall (closed depot) rs ->
   forall route, alter (delete p) r rs !! t = Some route ->
                 closed depot route -> (1 <= q)%nat /\ (q < length route)%nat) ->
  rearranged depot rs (alter (py_insert q c) t (alter (delete p) r rs)).
Proof.
intros Hp Hr Hc Ht Hq.
destruct (rs !! r) as [route|] eqn:Hroute; [|done]. specialize (Hp route eq_refl).
rewrite (alter_lookup_insert _ rs r route Hroute) in Hq |- *.
set (rs1 := <[r := delete p route]> rs) in *.
assert (Hlen1 : length rs1 = length rs) by apply length_insert.
destruct (lookup_lt_is_Some_2 rs1 t) as [target Htarget]; [lia|].
rewrite (alter_lookup_insert _ rs1 t target Htarget).
split; [by rewrite length_insert|]. split.
- pose proof (concat_insert rs r route (delete p route) Hroute) as H1. fold rs1 in H1.
  pose proof (concat_insert rs1 t target (py_insert q c target) Htarget) as H2.
  assert (H1' : concat rs1 ++ [c] ≡ₚ concat rs).
  { apply (Permutation_app_inv_r (delete p route)).
    etrans; [|exact H1]. rewrite <- app_assoc. apply Permutation_app; [done|].
    symmetry. by apply delete_Permutation. }
  apply (Permutation_app_inv_r target). etrans; [exact H2|].
  etrans; [apply Permutation_app; [done|apply py_insert_perm]|].
  etrans; [|apply Permutation_app; [exact H1'|done]].
  solve_Permutation.
- intros Hall.
  assert (Hall1 : Forall (closed depot) rs1).
  { apply Forall_insert; [done|]. eapply delete_closed; [|done..].
    by eapply Forall_lookup_1. }
  apply Forall_insert; [done|].
  assert (Hct : closed depot target) by (by eapply Forall_lookup_1).
  destruct (Hq Hall target Htarget Hct). by apply py_insert_closed.
Qed.

(** Replacing two routes by a rearrangement of the two. *)
Lemma rearranged_insert2 depot (rs : list (list Z)) r1 r2 route1 route2 new1 new2 :
  r1 ≠ r2 -> rs !! r1 = Some route1 -> rs !! r2 = Some route2 ->
  new1 ++ new2 ≡ₚ route1 ++ route2 ->
  (closed depot route1 -> closed depot new1) ->
  (closed depot route2 -> closed depot new2) ->
  rearranged depot rs (<[r2 := new2]> (<[r1 := new1]> rs)).
Proof.
intros Hne H1 H2 Hperm Hc1 Hc2.
assert (H2' : <[r1 := new1]> rs !! r2 = Some route2)
  by (by rewrite list_lookup_insert_ne).
split; [by rewrite !length_insert|]. split.
- pose proof (concat_insert rs r1 route1 new1 H1) as E1.
  pose proof (concat_insert _ r2 route2 new2 H2') as E2.
  apply (Permutation_app_inv_r (route2 ++ route1)).
  etrans; [rewrite app_assoc; apply Permutation_app; [exact E2|done]|].
  etrans; [|apply Permutation_app; [done|apply Permutation_app_comm]].
  etrans; [|apply Permutation_app; [done|exact Hperm]].
  etrans; [|rewrite app_assoc; apply Permutation_app; [exact E1|done]].
  solve_Permutation.
- intros Hall. apply Forall_insert; [apply Forall_insert; [done|]|].
  + apply Hc1. by eapply Forall_lookup_1.
  + apply Hc2. by eapply Forall_lookup_1.
Qed.

Lemma insert_swap_perm (route : list Z) : forall p u v,
  route !! p = Some u -> v :: route ≡ₚ u :: <[p := v]> route.
Proof.
induction route as [|x route IH]; intros [|p] u v H; simpl in *; try done.
- inversion H; subst. apply perm_swap.
- rewrite perm_swap. rewrite (IH p u v H). apply perm_swap.
Qed.

(** Writing [v] over a customer [u]. *)
Lemma set_node_spec depot (rs : list (list Z)) r p u v route :
  rs !! r = Some route -> route !! p = Some u -> u ≠ depot ->
  length (set_node r p v rs) = length rs
  /\ u :: concat (set_node r p v rs) ≡ₚ v :: concat rs
  /\ (Forall (closed depot) rs -> Forall (closed depot) (set_node r p v rs)).
Proof.
intros Hr Hp Hu. unfold set_node. rewrite (alter_lookup_insert _ rs r route Hr).
split; [by rewrite length_insert|]. split.
- pose proof (concat_insert rs r route (<[p := v]> route) Hr) as E.
  pose proof (insert_swap_perm route p u v Hp) as Hins.
  remember (concat (<[r := <[p := v]> route]> rs)) as C' eqn:HC'.
  remember (<[p := v]> route) as I eqn:HI.
  remember (concat rs) as C eqn:HC. clear HC' HI HC.
  apply (Permutation_app_inv_r I). simpl.
  rewrite Permutation_middle, <- Hins, <- Permutation_middle. by rewrite E.
- intros Hall. apply Forall_insert; [done|].
  eapply set_closed; [|done..]. by eapply Forall_lookup_1.
Qed.

Lemma set_node_lookup (rs : list (list Z)) r1 p1 r2 p2 c2 route2 :
  rs !! r2 = Some route2 -> route2 !! p2 = Some c2 ->
  exists route, set_node r1 p1 c2 rs !! r2 = Some route /\ route !! p2 = Some c2.
Proof.
intros Hr Hp. unfold set_node.
destruct (decide (r1 = r2)) as [->|Hne].
- rewrite (alter_lookup_insert _ rs r2 route2 Hr).
  rewrite list_lookup_insert_eq by (by eapply lookup_lt_Some).
  eexists. split; [done|].
  destruct (decide (p1 = p2)) as [->|Hnp].
  + rewrite list_lookup_insert_eq by (by eapply lookup_lt_Some). done.
  + by rewrite list_lookup_insert_ne.
- exists route2. split; [|done]. by rewrite list_lookup_alter_ne.
Qed.

Lemma all_customers_customer depot (rts : list (list Z)) r p c :
  (r, p, c) ∈ all_customers depot rts ->
  c ≠ depot /\ exists items, rts !! r = Some items /\ items !! p = Some c.
Proof.
intros Hin. split; [|by eapply StoreFacts.all_customers_valid].
unfold all_customers in Hin.
apply list_elem_of_In, in_concat in Hin as (l & Hl & Hin).
apply list_elem_of_In in Hl, Hin.
apply elem_of_lookup_imap in Hl as (i & route & -> & Hroute).
by apply list_elem_of_filter in Hin as [Hc _].
Qed.

(** Exchanging two customers. *)
Lemma rearranged_swap depot (rs : list (list Z)) r1 p1 c1 r2 p2 c2 :
  (r1, p1, c1) ∈ all_customers depot rs -> (r2, p2, c2) ∈ all_customers depot rs ->
  rearranged depot rs (set_node r2 p2 c1 (set_node r1 p1 c2 rs)).
Proof.
intros H1 H2.
apply all_customers_customer in H1 as (Hc1 & route1 & Hr1 & Hp1).
apply all_customers_customer in H2 as (Hc2 & route2 & Hr2 & Hp2).
destruct (set_node_spec depot rs r1 p1 c1 c2 route1 Hr1 Hp1 Hc1) as (Hl1 & E1 & Hcl1).
destruct (set_node_lookup rs r1 p1 r2 p2 c2 route2 Hr2 Hp2) as (route2' & Hr2' & Hp2').
destruct (set_node_spec depot _ r2 p2 c2 c1 route2' Hr2' Hp2' Hc2) as (Hl2 & E2 & Hcl2).
split; [congruence|]. split; [|auto].
apply (Permutation_cons_inv (a := c2)). by rewrite E2, E1.
Qed.

Lemma sample_two {A} (l : list A) g x y g' :
  NoDup l -> Random.sample 2 l g = ([x; y], g') -> x ∈ l /\ y ∈ l /\ x ≠ y.
Proof.
intros Hnd H. cbn [Random.sample] in H.
destruct (Random.next g) as [n g1].
destruct (l !! (n mod length l)%nat) as [x'|] eqn:Hx; [|done].
destruct (Random.next g1) as [m g2].
destruct (delete _ l !! _) as [y'|] eqn:Hy; [|done].
inversion H; subst; clear H.
apply list_elem_of_lookup_2 in Hy.
pose proof (delete_Permutation _ _ _ Hx) as Hperm.
rewrite Hperm in Hnd. apply NoDup_cons in Hnd as [Hnotin _].
split; [by eapply list_elem_of_lookup_2|].
split; [by eapply list_elem_of_delete_inv|].
intros ->. done.
Qed.

Lemma customer_positions_customer depot (route : list Z) p :
  p ∈ (imap (fun i c => (i, c)) route) ≫=
        (fun ic : nat * Z => if decide (ic.2 = depot) then [] else [ic.1]) ->
  exists c, route !! p = Some c /\ c ≠ depot.
Proof.
intros Hin. apply list_elem_of_bind in Hin as ([i c] & Hin & Hic).
apply elem_of_lookup_imap in Hic as (i' & c' & Heq & Hlook). inversion Heq; subst.
simpl in Hin. case_decide; [by apply elem_of_nil in Hin|].
apply list_elem_of_singleton in Hin as ->. eauto.
Qed.

(** *** The operators of simulated annealing *)

Section Annealing.
Import SimulatedAnnealing.
Variable instance : VRPInstance.t.
Abbreviation depot := (VRPInstance.depot instance).

Opaque Random.randint Random.sample Random.choice Random.next.

Lemma swap_customers_rearranges rs g :
  rearranged depot rs (_swap_customers instance rs g).1.
Proof.
unfold _swap_customers. case_decide; [done|]. case_decide; [done|].
destruct (Random.sample 2 _ g) as [picked g1] eqn:Hs.
destruct picked as [|[[r1 p1] c1] [|[[r2 p2] c2] [|? ?]]]; try done.
assert (Hin : forall x, x ∈ (Random.sample 2 (all_customers depot rs) g).1 ->
                        x ∈ all_customers depot rs)
  by apply StoreFacts.sample_elem.
rewrite Hs in Hin. simpl in *.
apply rearranged_swap; apply Hin; set_solver.
Qed.

Lemma relocate_customer_rearranges rs g :
  rearranged depot rs (_relocate_customer instance rs g).1.
Proof.
unfold _relocate_customer. case_decide as Hlen; [done|].
pose proof (StoreFacts.randint_below (length rs) g ltac:(lia)) as Hsrc.
destruct (Random.randint 0 (length rs - 1) g) as [r g1]. simpl in Hsrc.
destruct (lookup_lt_is_Some_2 rs r Hsrc) as [route Hroute].
rewrite (list_lookup_total_correct _ _ _ Hroute).
destruct (_ ≫= _) as [|p0 ps] eqn:Hpos; [done|].
destruct (StoreFacts.choice_elem (p0 :: ps) g1 ltac:(done)) as (p & Hchoice & Hp).
destruct (Random.choice (p0 :: ps) g1) as [chosen g2]. simpl in Hchoice. subst chosen.
simpl default.
rewrite <- Hpos in Hp. apply customer_positions_customer in Hp as (c & Hc & Hcd).
rewrite (list_lookup_total_correct _ _ _ Hc).
set (rs1 := alter (delete p) r rs).
assert (Hlen1 : length rs1 = length rs) by apply length_alter.
pose proof (StoreFacts.randint_below (length rs1) g2 ltac:(lia)) as Htgt.
destruct (Random.randint 0 (length rs1 - 1) g2) as [t g3]. simpl in Htgt.
destruct (lookup_lt_is_Some_2 rs1 t Htgt) as [target Htarget].
rewrite (list_lookup_total_correct _ _ _ Htarget).
assert (Hq : exists q g4,
  (if decide (length target <= 2)%nat then (1%nat, g3)
   else Random.randint 1 (length target - 1) g3) = (q, g4)
  /\ (closed depot target -> (1 <= q)%nat /\ (q < length target)%nat)).
{ case_decide as Hshort.
  - eexists _, _. split; [done|]. intros (_ & _ & ?). lia.
  - pose proof (StoreFacts.randint_range 1 (length target - 1) g3 ltac:(lia)) as Hq.
    destruct (Random.randint 1 (length target - 1) g3) as [q g4]. simpl in Hq.
    eexists _, _. split; [done|]. intros _. lia. }
destruct Hq as (q & g4 & -> & Hq). simpl.
apply rearranged_move; try done.
- intros route' Hroute'. congruence.
- congruence.
- lia.
- intros _ route' Hroute'. fold rs1 in Hroute'.
  assert (route' = target) as -> by congruence. done.
Qed.

Lemma two_opt_rearranges rs g :
  rearranged depot rs (_two_opt rs g).1.
Proof.
unfold _two_opt. destruct rs as [|r0 rs0] eqn:Hrs; [done|]. rewrite <- Hrs.
assert (Hlen : (1 <= length rs)%nat) by (subst; simpl; lia).
clear Hrs r0 rs0.
pose proof (StoreFacts.randint_below (length rs) g Hlen) as Hidx.
destruct (Random.randint 0 (length rs - 1) g) as [r g1]. simpl in Hidx.
destruct (lookup_lt_is_Some_2 rs r Hidx) as [route Hroute].
rewrite (list_lookup_total_correct _ _ _ Hroute).
case_decide as Hshort; [done|].
pose proof (StoreFacts.randint_range 1 (length route - 3) g1 ltac:(lia)) as Hi.
destruct (Random.randint 1 (length route - 3) g1) as [i g2]. simpl in Hi.
pose proof (StoreFacts.randint_range (i + 1) (length route - 2) g2 ltac:(lia)) as Hj.
destruct (Random.randint (i + 1) (length route - 2) g2) as [j g3]. simpl in Hj.
simpl. apply (rearranged_insert depot rs r route); [done| |].
- apply reverse_segment_perm. lia.
- intros Hc. apply reverse_segment_closed; [done|lia..].
Qed.

Lemma cross_exchange_rearranges rs g :
  rearranged depot rs (_cross_exchange rs g).1.
Proof.
unfold _cross_exchange. case_decide as Hlen; [done|].
destruct (Random.sample 2 (seq 0 (length rs)) g) as [picked g1] eqn:Hs.
destruct picked as [|r1 [|r2 [|? ?]]]; try done.
apply sample_two in Hs as (Hr1 & Hr2 & Hne); [|apply NoDup_seq].
apply elem_of_seq in Hr1, Hr2.
destruct (lookup_lt_is_Some_2 rs r1) as [route1 Hroute1]; [lia|].
destruct (lookup_lt_is_Some_2 rs r2) as [route2 Hroute2]; [lia|].
rewrite (list_lookup_total_correct _ _ _ Hroute1).
rewrite (list_lookup_total_correct _ _ _ Hroute2).
case_decide as Hshort; [done|].
pose proof (StoreFacts.randint_range 1 (length route1 - 2) g1 ltac:(lia)) as Hs1.
destruct (Random.randint 1 (length route1 - 2) g1) as [s1 g2]. simpl in Hs1.
pose proof (StoreFacts.randint_range s1 (length route1 - 2) g2 ltac:(lia)) as He1.
destruct (Random.randint s1 (length route1 - 2) g2) as [e1 g3]. simpl in He1.
pose proof (StoreFacts.randint_range 1 (length route2 - 2) g3 ltac:(lia)) as Hs2.
destruct (Random.randint 1 (length route2 - 2) g3) as [s2 g4]. simpl in Hs2.
pose proof (StoreFacts.randint_range s2 (length route2 - 2) g4 ltac:(lia)) as He2.
destruct (Random.randint s2 (length route2 - 2) g4) as [e2 g5]. simpl in He2.
simpl. apply (rearranged_insert2 depot rs r1 r2 route1 route2); try done.
- pose proof (slice_split route1 s1 (e1 + 1) ltac:(lia)) as E1.
  pose proof (slice_split route2 s2 (e2 + 1) ltac:(lia)) as E2.
  transitivity
    ((take s1 route1 ++ slice s1 (e1 + 1) route1 ++ drop (e1 + 1) route1)
     ++ (take s2 route2 ++ slice s2 (e2 + 1) route2 ++ drop (e2 + 1) route2));
    [solve_Permutation|by rewrite E1, E2].
- intros Hc. apply splice_closed; [done|lia..].
- intros Hc. apply splice_closed; [done|lia..].
Qed.

Transparent Random.randint Random.sample Random.choice Random.next.

Lemma generate_neighbor_rearranges (solution : Solution.t) (g : Random.t) :
  rearranged depot (Solution.routes solution)
             (Solution.routes (_generate_neighbor instance solution g).1).
Proof.
unfold _generate_neighbor, Solution.copy.
destruct (choose_operator g) as [op g1].
pose proof (swap_customers_rearranges (Solution.routes solution) g1).
pose proof (relocate_customer_rearranges (Solution.routes solution) g1).
pose proof (two_opt_rearranges (Solution.routes solution) g1).
pose proof (cross_exchange_rearranges (Solution.routes solution) g1).
destruct op; simpl.
- by destruct (_swap_customers _ _ g1).
- by destruct (_relocate_customer _ _ g1).
- by destruct (_two_opt _ g1).
- by destruct (_cross_exchange _ g1).
Qed.

End Annealing.

(** *** A run of simulated annealing *)

Section AnnealingRun.
Import SimulatedAnnealing.

Variable instance : VRPInstance.t.
Variables final_temp cooling_rate : Q.
Variables max_iterations max_iterations_per_temp : Z.
Variable metropolis : Q -> Q -> Q -> option bool.
Variable rs0 : list (list Z).

(** Both solutions of the state hold the nodes of the routes the run started
    from. *)
Definition keeps (st : state) : Prop :=
  rearranged (VRPInstance.depot instance) rs0 (Solution.routes (current_solution st))
  /\ rearranged (VRPInstance.depot instance) rs0 (Solution.routes (best_solution st)).

Lemma inner_turn_keeps st st' :
  keeps st -> inner_turn instance metropolis st = Returned st' -> keeps st'.
Proof.
unfold keeps, inner_turn. intros [Hcur Hbest] Hturn.
pose proof (generate_neighbor_rearranges instance (current_solution st) (rng st)) as Hnb.
destruct (_generate_neighbor instance (current_solution st) (rng st)) as [nb g].
simpl in Hnb.
set (n := (Solution.calculate_cost nb).2) in *.
assert (Hn : rearranged (VRPInstance.depot instance) rs0 (Solution.routes n)).
{ unfold n. rewrite GreedyFacts.calculate_cost_routes.
  exact (rearranged_trans _ _ _ _ Hcur Hnb). }
destruct (if Qltb _ 0 then _ else _) as [[accept g']|]; [|done].
inversion Hturn; subst; clear Hturn. simpl. unfold Solution.copy. split.
- by destruct accept.
- by destruct (_ && _).
Qed.

Lemma inner_loop_keeps turns : forall st st',
  keeps st -> inner_loop instance max_iterations metropolis turns st = Returned st' ->
  keeps st'.
Proof.
induction turns as [|k IH]; intros st st' Hk Hloop; simpl in Hloop.
- by inversion Hloop; subst.
- destruct (inner_turn instance metropolis st) as [st1| |] eqn:Hturn; try done.
  pose proof (inner_turn_keeps _ _ Hk Hturn) as Hk1.
  case_decide; [by inversion Hloop; subst|exact (IH _ _ Hk1 Hloop)].
Qed.

Lemma outer_loop_keeps fuel : forall st st',
  keeps st ->
  outer_loop instance final_temp cooling_rate max_iterations max_iterations_per_temp
             metropolis fuel st = Returned st' ->
  keeps st'.
Proof.
induction fuel as [|f IH]; intros st st' Hk Hloop; simpl in Hloop.
- destruct (_ && _); [done|]. by inversion Hloop; subst.
- destruct (_ && _); [|by inversion Hloop; subst].
  destruct (inner_loop _ _ _ _ st) as [st1| |] eqn:Hinner; try done.
  eapply IH; [|exact Hloop].
  pose proof (inner_loop_keeps _ _ _ Hk Hinner) as Hk1. exact Hk1.
Qed.

End AnnealingRun.

Lemma annealing_solve_keeps
    (instance : VRPInstance.t) (initial_temp final_temp cooling_rate : Q)
    (max_iterations max_iterations_per_temp : Z)
    (metropolis : Q -> Q -> Q -> option bool)
    (fuel : nat) (st0 : SimulatedAnnealing.stats)
    (initial_solution : Solution.t) (g : Random.t) best st :
  SimulatedAnnealing.solve instance initial_temp final_temp cooling_rate
    max_iterations max_iterations_per_temp metropolis fuel st0 initial_solution g
  = Returned (best, st) ->
  rearranged (VRPInstance.depot instance) (Solution.routes initial_solution)
             (Solution.routes best).
Proof.
unfold SimulatedAnnealing.solve. intros Hrun.
destruct (SimulatedAnnealing.outer_loop _ _ _ _ _ _ _ _) as [st2| |] eqn:Hloop; try done.
apply outer_loop_keeps with (rs0 := Solution.routes initial_solution) in Hloop.
- inversion Hrun; subst; clear Hrun. simpl. by destruct Hloop.
- unfold keeps, SimulatedAnnealing.initial_state, Solution.copy. simpl.
  rewrite GreedyFacts.calculate_cost_routes. done.
Qed.

(** *** The neighborhoods of tabu search *)

Lemma fold_left_Forall {A B} (P : B -> Prop) (f : list B -> A -> list B) (l : list A) :
  (forall acc x, x ∈ l -> Forall P acc -> Forall P (f acc x)) ->
  forall acc, Forall P acc -> Forall P (fold_left f l acc).
Proof.
induction l as [|x l IH]; intros Hf acc Hacc; simpl; [done|].
apply IH.
- intros acc' y Hy. apply Hf. by constructor.
- apply Hf; [constructor|done].
Qed.

Section TabuMoves.
Import TabuSearch.
Variable instance : VRPInstance.t.
Variable solution : Solution.t.
Abbreviation depot := (VRPInstance.depot instance).
Abbreviation rs := (Solution.routes solution).

(** A neighbor holds the nodes of the solution it is made from. *)
Definition rearranges (nb : neighbor) : Prop :=
  rearranged depot rs (Solution.routes nb.1).

Lemma neighbor_routes routes :
  Solution.routes
    (Solution.calculate_cost (Solution.set_routes (Solution.copy solution) routes)).2
  = routes.
Proof. by rewrite GreedyFacts.calculate_cost_routes. Qed.

Lemma swap_move_rearranges ij nb :
  swap_move solution (all_customers depot rs) ij = Some nb -> rearranges nb.
Proof.
unfold swap_move. intros H.
destruct (all_customers depot rs !! ij.1) as [[[r1 p1] c1]|] eqn:H1; [|done].
destruct (all_customers depot rs !! ij.2) as [[[r2 p2] c2]|] eqn:H2; [|done].
simpl in H. inversion H; subst; clear H.
unfold rearranges. simpl. rewrite neighbor_routes.
apply rearranged_swap; by eapply list_elem_of_lookup_2.
Qed.

Lemma generate_swap_moves_rearrange g :
  Forall rearranges (_generate_swap_moves instance solution g).1.
Proof.
unfold _generate_swap_moves.
destruct (Random.sample _ _ g) as [pairs g1]. simpl.
apply Forall_forall. intros nb Hnb.
apply list_elem_of_omap in Hnb as (ij & _ & Hij).
by eapply swap_move_rearranges.
Qed.

Lemma relocate_move_rearranges route_idx route pos customer target_route_idx target_pos :
  rs !! route_idx = Some route -> route !! pos = Some customer -> customer ≠ depot ->
  (target_route_idx < length rs)%nat ->
  (1 <= target_pos)%nat -> (target_pos < length (rs !!! target_route_idx))%nat ->
  rearranges (relocate_move solution route_idx pos customer target_route_idx target_pos).
Proof.
intros Hroute Hpos Hc Ht H1 H2.
unfold rearranges, relocate_move. simpl. rewrite neighbor_routes.
apply rearranged_move; [congruence|congruence|done|done|].
intros Hall route' Hroute' Hclosed.
assert (Hcr : closed depot route) by (by eapply Forall_lookup_1).
destruct (closed_interior _ _ _ _ Hcr Hpos Hc) as [Hp1 Hp2].
destruct (decide (target_route_idx = route_idx)) as [->|Hne].
- rewrite (alter_lookup_insert _ _ _ _ Hroute) in Hroute'.
  rewrite list_lookup_insert_eq in Hroute' by (by eapply lookup_lt_Some).
  inversion Hroute'; subst route'; clear Hroute'.
  rewrite (list_lookup_total_correct _ _ _ Hroute) in H2.
  rewrite length_delete by (by eexists).
  rewrite bool_decide_eq_true_2 by done. simpl.
  case_bool_decide; lia.
- rewrite list_lookup_alter_ne in Hroute' by done.
  rewrite (list_lookup_total_correct _ _ _ Hroute') in H2.
  rewrite bool_decide_eq_false_2 by done. simpl. lia.
Qed.

Lemma relocate_positions_rearrange route_idx route pos customer target_route_idx moves :
  rs !! route_idx = Some route -> route !! pos = Some customer -> customer ≠ depot ->
  (target_route_idx < length rs)%nat ->
  Forall rearranges moves ->
  Forall rearranges
    (relocate_positions solution route_idx pos customer target_route_idx moves).
Proof.
intros Hroute Hpos Hc Ht. unfold relocate_positions.
apply fold_left_Forall. intros acc target_pos Htp Hacc.
case_decide; [done|]. apply Forall_app. split; [done|].
constructor; [|constructor].
apply elem_of_seq in Htp. eapply relocate_move_rearranges; try done; lia.
Qed.

Lemma relocate_targets_rearrange route_idx route pos customer moves :
  rs !! route_idx = Some route -> route !! pos = Some customer -> customer ≠ depot ->
  Forall rearranges moves ->
  Forall rearranges (relocate_targets solution route_idx pos customer moves).
Proof.
intros Hroute Hpos Hc. unfold relocate_targets.
apply fold_left_Forall. intros acc t Ht Hacc.
case_decide; [done|]. apply elem_of_seq in Ht.
eapply relocate_positions_rearrange; try done. lia.
Qed.

Lemma relocate_route_rearrange route_idx route moves :
  rs !! route_idx = Some route ->
  Forall rearranges moves ->
  Forall rearranges (relocate_route instance solution route_idx route moves).
Proof.
intros Hroute. unfold relocate_route.
apply fold_left_Forall. intros acc [pos customer] Hpc Hacc. simpl.
case_decide; [done|].
apply elem_of_lookup_imap in Hpc as (i & c & Heq & Hlook). inversion Heq; subst.
by eapply relocate_targets_rearrange.
Qed.

Lemma generate_relocate_moves_rearrange :
  Forall rearranges (_generate_relocate_moves instance solution).
Proof.
unfold _generate_relocate_moves.
apply fold_left_Forall; [|constructor]. intros acc [route_idx route] Hir Hacc. simpl.
case_decide; [done|].
apply elem_of_lookup_imap in Hir as (i & r & Heq & Hlook). inversion Heq; subst.
by apply relocate_route_rearrange.
Qed.

Opaque Random.randint.

Lemma two_opt_tries_rearrange route_idx route tries : forall moves g,
  rs !! route_idx = Some route -> (4 <= length route)%nat ->
  Forall rearranges moves ->
  Forall rearranges (two_opt_tries solution route_idx route tries moves g).1.
Proof.
induction tries as [|n IH]; intros moves g Hroute Hlen Hall; simpl; [done|].
case_decide; [done|].
pose proof (StoreFacts.randint_range 1 (length route - 3) g ltac:(lia)) as Hi.
destruct (Random.randint 1 (length route - 3) g) as [i g1]. simpl in Hi.
pose proof (StoreFacts.randint_range (i + 1) (length route - 2) g1 ltac:(lia)) as Hj.
destruct (Random.randint (i + 1) (length route - 2) g1) as [j g2]. simpl in Hj.
apply IH; [done..|]. apply Forall_app. split; [done|].
constructor; [|constructor].
unfold rearranges. simpl. rewrite neighbor_routes.
apply (rearranged_insert depot rs route_idx route); [done| |].
- apply reverse_segment_perm. lia.
- intros Hc. apply reverse_segment_closed; [done|lia..].
Qed.

Transparent Random.randint.

Lemma generate_2opt_moves_rearrange g :
  Forall rearranges (_generate_2opt_moves solution g).1.
Proof.
unfold _generate_2opt_moves.
assert (Hgen : forall (l : list (nat * list Z)) (acc : list neighbor * Random.t),
  (forall ir, ir ∈ l -> rs !! ir.1 = Some ir.2) ->
  Forall rearranges acc.1 ->
  Forall rearranges
    (fold_left (fun '(moves, g) (ir : nat * list Z) =>
       let route := ir.2 in
       if decide ((length route < 4)%nat \/ (max_2opt <= length moves)%nat)
       then (moves, g)
       else two_opt_tries solution ir.1 route (5 `min` (length route - 3))%nat moves g)
       l acc).1).
{ induction l as [|ir l IH]; intros [moves g'] Hl Hall; simpl; [done|].
  apply IH; [intros; apply Hl; by constructor|].
  case_decide as Hcase; [done|].
  apply two_opt_tries_rearrange; [apply Hl; constructor|lia|done]. }
apply Hgen; [|constructor].
intros ir Hir.
apply elem_of_lookup_imap in Hir as (i & r & -> & Hlook). done.
Qed.

Lemma generate_neighborhood_rearranges g :
  Forall rearranges (_generate_neighborhood instance solution g).1.
Proof.
unfold _generate_neighborhood.
pose proof (generate_swap_moves_rearrange g) as Hswap.
destruct (_generate_swap_moves instance solution g) as [swaps g1].
pose proof (generate_2opt_moves_rearrange g1) as Hopt.
destruct (_generate_2opt_moves solution g1) as [opts g2]. simpl in *.
rewrite !Forall_app. split; [done|]. split; [|done].
apply generate_relocate_moves_rearrange.
Qed.

End TabuMoves.

(** *** A run of tabu search *)

Lemma select_best_move_member (tl : list TabuSearch.tabu_entry) (st : TabuSearch.stats)
    (neighbors : list TabuSearch.neighbor) (best_known_cost : Q) nb :
  (TabuSearch._select_best_move tl st neighbors best_known_cost).1 = Some nb ->
  nb ∈ neighbors.
Proof.
unfold TabuSearch._select_best_move. simpl. intros H.
pose proof (TabuFacts.select_fold_best tl best_known_cost neighbors []
              (TabuSearch.mk_selection None None st)) as Hinv.
simpl in Hinv. unfold TabuFacts.best_so_far in Hinv at 2. rewrite H in Hinv.
destruct Hinv as (_ & Hin & _); [|done].
split; [done|]. intros ? Hx. inversion Hx.
Qed.

Section TabuRun.
Import TabuSearch.

Variable instance : VRPInstance.t.
Variables tabu_tenure max_no_improvement : Z.
Variable rs0 : list (list Z).

Definition tabu_keeps (st : state) : Prop :=
  rearranged (VRPInstance.depot instance) rs0 (Solution.routes (current_solution st))
  /\ rearranged (VRPInstance.depot instance) rs0 (Solution.routes (best_solution st)).

Lemma solve_turn_keeps st st' :
  tabu_keeps st -> solve_turn instance tabu_tenure st = Some st' -> tabu_keeps st'.
Proof.
unfold tabu_keeps, solve_turn. intros [Hcur Hbest] Hturn.
pose proof (generate_neighborhood_rearranges instance (current_solution st) (rng st))
  as Hall.
destruct (_generate_neighborhood instance (current_solution st) (rng st)) as [nbs g].
simpl in Hall. destruct nbs as [|nb0 nbs]; [done|].
pose proof (select_best_move_member (tabu_list st) (run_stats st) (nb0 :: nbs)
              (Solution.total_cost (best_solution st))) as Hmem.
destruct (_select_best_move _ _ _ _) as [[[chosen move]|] stats1]; [|done].
specialize (Hmem _ eq_refl).
rewrite Forall_forall in Hall. specialize (Hall _ Hmem).
unfold rearranges in Hall. simpl in Hall.
assert (Hnew : rearranged (VRPInstance.depot instance) rs0
                 (Solution.routes (Solution.calculate_cost chosen).2)).
{ rewrite GreedyFacts.calculate_cost_routes.
  exact (rearranged_trans _ _ _ _ Hcur Hall). }
inversion Hturn; subst; clear Hturn. simpl. split; [done|].
unfold Solution.copy. by destruct (Qltb _ _).
Qed.

Lemma solve_loop_keeps remaining : forall st,
  tabu_keeps st ->
  tabu_keeps (solve_loop instance tabu_tenure max_no_improvement remaining st).
Proof.
induction remaining as [|n IH]; intros st Hk; simpl; [done|].
case_decide; [|done].
destruct (solve_turn instance tabu_tenure st) as [st'|] eqn:Hturn; [|done].
apply IH. exact (solve_turn_keeps _ _ Hk Hturn).
Qed.

End TabuRun.

Lemma tabu_solve_keeps
    (instance : VRPInstance.t) (tabu_tenure max_iterations max_no_improvement : Z)
    (tabu : list TabuSearch.tabu_entry) (st0 : TabuSearch.stats)
    (initial_solution : Solution.t) (g : Random.t) :
  rearranged (VRPInstance.depot instance) (Solution.routes initial_solution)
    (Solution.routes
       (TabuSearch.solve instance tabu_tenure max_iterations max_no_improvement
                         tabu st0 initial_solution g).1).
Proof.
unfold TabuSearch.solve. simpl.
apply (solve_loop_keeps instance tabu_tenure max_no_improvement
         (Solution.routes initial_solution)).
unfold tabu_keeps, TabuSearch.initial_state, Solution.copy. simpl.
rewrite GreedyFacts.calculate_cost_routes. done.
Qed.

Lemma served_concat depot (rs : list (list Z)) :
  GreedyConstruction.served depot rs = filter (fun c => c ≠ depot) (concat rs).
Proof.
unfold GreedyConstruction.served. induction rs as [|r rs IH]; [done|].
simpl. by rewrite filter_app, IH.
Qed.

Lemma rearranged_served depot rs rs' :
  rearranged depot rs rs' ->
  GreedyConstruction.served depot rs' ≡ₚ GreedyConstruction.served depot rs.
Proof.
intros (_ & Hperm & _). rewrite !served_concat. by rewrite Hperm.
Qed.

Lemma holds_line3 :
  Store.holds Examples.heap_line3 (Store.routes Examples.stored_line3)
              (Solution.routes Examples.sol_line3).
Proof.
exists [1; 2; 3]%nat. split; [reflexivity|]. split; [|by repeat constructor].
apply NoDup_ListNoDup. repeat constructor; simpl; intuition lia.
Qed.

(** On a solution whose routes are list objects of their own, whatever
    operator is drawn and whatever positions it draws,
    [SimulatedAnnealing._generate_neighbor], run on the objects, returns a
    neighbor whose routes are again list objects of their own.  The neighbor
    has as many routes as the solution and holds the same nodes as many times
    each, hence serves the same customers, and its routes leave from and come
    back to the depot when those of the solution do. *)
Theorem annealing_neighbor_keeps_customers
    (instance : VRPInstance.t) (h : Store.heap) (s : Store.solution)
    (routes : list (list Z)) (g : Random.t) :
  let depot := VRPInstance.depot instance in
  Store.holds h (Store.routes s) routes ->
  exists nb h' g' routes',
    Store._generate_neighbor depot s (h, g) = Some (nb, (h', g'))
    /\ Store.holds h' (Store.routes nb) routes'
    /\ length routes' = length routes
    /\ concat routes' ≡ₚ concat routes
    /\ GreedyConstruction.served depot routes' ≡ₚ GreedyConstruction.served depot routes
    /\ (Forall (closed depot) routes -> Forall (closed depot) routes').
Proof.
intros depot Hholds.
set (sol := Solution.set_routes (Solution.new (Some instance)) routes).
destruct (StoreFacts.generate_neighbor_refines instance s sol h g Hholds)
  as (nb & h' & Hrun & Hnb).
pose proof (generate_neighbor_rearranges instance sol g) as H.
pose proof (rearranged_served _ _ _ H) as Hserved.
destruct H as (Hlen & Hperm & Hclosed).
eexists nb, h', _, _. split; [exact Hrun|]. split; [exact Hnb|]. done.
Qed.

Lemma annealing_neighbor_keeps_customers_witness :
  exists nb h' g' routes',
    Store._generate_neighbor 0 Examples.stored_line3
      (Examples.heap_line3, Examples.counting) = Some (nb, (h', g'))
    /\ Store.holds h' (Store.routes nb) routes'
    /\ length routes' = 3%nat
    /\ concat routes' ≡ₚ [0; 1; 0; 0; 2; 0; 0; 3; 0]
    /\ GreedyConstruction.served 0 routes' ≡ₚ [1; 2; 3]
    /\ (Forall (closed 0) (Solution.routes Examples.sol_line3) ->
        Forall (closed 0) routes').
Proof.
apply (annealing_neighbor_keeps_customers Examples.inst_line3 Examples.heap_line3
         Examples.stored_line3 (Solution.routes Examples.sol_line3) Examples.counting).
apply holds_line3.
Defined.

(** On a solution whose routes are list objects of their own, every neighbor
    in the neighborhood that tabu search generates (swap, relocate and 2-opt
    moves) has as many routes as the solution, holds the same nodes as many
    times each, hence serves the same customers, and its routes are closed at
    the depot when those of the solution are. *)
Theorem tabu_neighborhood_keeps_customers
    (instance : VRPInstance.t) (solution : Solution.t) (g : Random.t)
    (nb : TabuSearch.neighbor) (h : Store.heap) (s : Store.solution) :
  let depot := VRPInstance.depot instance in
  Store.holds h (Store.routes s) (Solution.routes solution) ->
  nb ∈ (TabuSearch._generate_neighborhood instance solution g).1 ->
  length (Solution.routes nb.1) = length (Solution.routes solution)
  /\ concat (Solution.routes nb.1) ≡ₚ concat (Solution.routes solution)
  /\ GreedyConstruction.served depot (Solution.routes nb.1)
     ≡ₚ GreedyConstruction.served depot (Solution.routes solution)
  /\ (Forall (closed depot) (Solution.routes solution) ->
      Forall (closed depot) (Solution.routes nb.1)).
Proof.
intros depot _ Hnb.
pose proof (generate_neighborhood_rearranges instance solution g) as Hall.
rewrite Forall_forall in Hall. specialize (Hall nb Hnb).
pose proof (rearranged_served _ _ _ Hall) as Hserved.
destruct Hall as (Hlen & Hperm & Hclosed). done.
Qed.

Lemma tabu_neighborhood_keeps_customers_witness :
  let nb : TabuSearch.neighbor :=
    ((Solution.calculate_cost
        (Solution.set_routes Examples.sol_line3 [[0; 2; 0]; [0; 1; 0]; [0; 3; 0]])).2,
     TabuSearch.Swap 1 2 0 1) in
  length (Solution.routes nb.1) = 3%nat
  /\ concat (Solution.routes nb.1) ≡ₚ [0; 1; 0; 0; 2; 0; 0; 3; 0]
  /\ GreedyConstruction.served 0 (Solution.routes nb.1) ≡ₚ [1; 2; 3]
  /\ (Forall (closed 0) (Solution.routes Examples.sol_line3) ->
      Forall (closed 0) (Solution.routes nb.1)).
Proof.
intros nb.
apply (tabu_neighborhood_keeps_customers Examples.inst_line3 Examples.sol_line3
         Examples.counting nb Examples.heap_line3 Examples.stored_line3).
- apply holds_line3.
- apply list_elem_of_lookup. exists 0%nat. vm_compute. reflexivity.
Defined.

(** When [SimulatedAnnealing.solve], started from an initial solution whose
    routes are list objects of their own, returns, the solution it returns
    is a rearrangement of the initial one: as many routes, the same nodes as
    many times each, the same customers served, and routes that are closed at
    the depot when the initial routes are.  No such run loses or duplicates a
    customer. *)
Theorem annealing_run_keeps_customers
    (instance : VRPInstance.t) (initial_temp final_temp cooling_rate : Q)
    (max_iterations max_iterations_per_temp : Z)
    (metropolis : Q -> Q -> Q -> option bool)
    (fuel : nat) (st0 : SimulatedAnnealing.stats)
    (initial_solution : Solution.t) (g : Random.t) best st
    (h : Store.heap) (s : Store.solution) :
  let depot := VRPInstance.depot instance in
  Store.holds h (Store.routes s) (Solution.routes initial_solution) ->
  SimulatedAnnealing.solve instance initial_temp final_temp cooling_rate
    max_iterations max_iterations_per_temp metropolis fuel st0 initial_solution g
  = Returned (best, st) ->
  length (Solution.routes best) = length (Solution.routes initial_solution)
  /\ concat (Solution.routes best) ≡ₚ concat (Solution.routes initial_solution)
  /\ GreedyConstruction.served depot (Solution.routes best)
     ≡ₚ GreedyConstruction.served depot (Solution.routes initial_solution)
  /\ (Forall (closed depot) (Solution.routes initial_solution) ->
      Forall (closed depot) (Solution.routes best)).
Proof.
intros depot _ Hrun. apply annealing_solve_keeps in Hrun.
pose proof (rearranged_served _ _ _ Hrun) as Hserved.
destruct Hrun as (Hlen & Hperm & Hclosed). done.
Qed.

Abbreviation anneal_line3 :=
  (SimulatedAnnealing.solve Examples.inst_line3 4 1 (1 # 2) 6 3 Examples.coin 7
     SimulatedAnnealing.new_stats Examples.sol_line3 Examples.counting).

Lemma annealing_run_keeps_customers_witness :
  exists best st,
    anneal_line3 = Returned (best, st)
    /\ length (Solution.routes best) = 3%nat
    /\ GreedyConstruction.served 0 (Solution.routes best) ≡ₚ [1; 2; 3].
Proof.
destruct anneal_line3 as [[best st]| |] eqn:Hrun.
- exists best, st. split; [reflexivity|].
  destruct (annealing_run_keeps_customers _ _ _ _ _ _ _ _ _ _ _ _ _
              Examples.heap_line3 Examples.stored_line3 holds_line3 Hrun)
    as (Hlen & _ & Hserved & _).
  split; [exact Hlen|exact Hserved].
- vm_compute in Hrun. discriminate.
- vm_compute in Hrun. discriminate.
Defined.

(** The solution returned by [TabuSearch.solve], started from an initial
    solution whose routes are list objects of their own, is a rearrangement
    of the initial one, whatever the parameters, the tabu list and the draws:
    as many routes, the same nodes as many times each, the same customers
    served, and closed routes when the initial routes are closed. *)
Theorem tabu_run_keeps_customers
    (instance : VRPInstance.t) (tabu_tenure max_iterations max_no_improvement : Z)
    (tabu : list TabuSearch.tabu_entry) (st0 : TabuSearch.stats)
    (initial_solution : Solution.t) (g : Random.t)
    (h : Store.heap) (s : Store.solution) :
  let best := (TabuSearch.solve instance tabu_tenure max_iterations max_no_improvement
                                tabu st0 initial_solution g).1 in
  let depot := VRPInstance.depot instance in
  Store.holds h (Store.routes s) (Solution.routes initial_solution) ->
  length (Solution.routes best) = length (Solution.routes initial_solution)
  /\ concat (Solution.routes best) ≡ₚ concat (Solution.routes initial_solution)
  /\ GreedyConstruction.served depot (Solution.routes best)
     ≡ₚ GreedyConstruction.served depot (Solution.routes initial_solution)
  /\ (Forall (closed depot) (Solution.routes initial_solution) ->
      Forall (closed depot) (Solution.routes best)).
Proof.
intros best depot _.
pose proof (tabu_solve_keeps instance tabu_tenure max_iterations max_no_improvement
              tabu st0 initial_solution g) as H.
pose proof (rearranged_served _ _ _ H) as Hserved.
destruct H as (Hlen & Hperm & Hclosed). done.
Qed.

Lemma tabu_run_keeps_customers_witness :
  let best := (TabuSearch.solve Examples.inst_line3 20 3 200 [] TabuSearch.new_stats
                                Examples.sol_line3 Examples.counting).1 in
  length (Solution.routes best) = 3%nat
  /\ concat (Solution.routes best) ≡ₚ [0; 1; 0; 0; 2; 0; 0; 3; 0]
  /\ GreedyConstruction.served 0 (Solution.routes best) ≡ₚ [1; 2; 3]
  /\ (Forall (closed 0) (Solution.routes Examples.sol_line3) ->
      Forall (closed 0) (Solution.routes best)).
Proof.
intros best.
apply (tabu_run_keeps_customers Examples.inst_line3 20 3 200 [] TabuSearch.new_stats
         Examples.sol_line3 Examples.counting Examples.heap_line3 Examples.stored_line3).
apply holds_line3.
Defined.

End NeighborhoodFacts.

(** ** What the searches record *)

Module StatisticsFacts.

(** A cost history in which no entry is above the one before it. *)
Definition nonincreasing (l : list Q) : Prop :=
  forall i a b, l !! i = Some a -> l !! S i = Some b -> (b <= a)%Q.

Lemma nonincreasing_snoc (l : list Q) (x : Q) :
  nonincreasing l -> (forall a, last l = Some a -> (x <= a)%Q) ->
  nonincreasing (l ++ [x]).
Proof.
intros Hl Hx i a b Ha Hb.
destruct (decide (S i < length l)%nat) as [Hlt|Hge].
- rewrite lookup_app_l in Ha, Hb by lia. by eapply Hl.
- assert (Hi : S i = length l).
  { apply lookup_lt_Some in Hb. rewrite length_app in Hb. simpl in Hb. lia. }
  rewrite lookup_app_l in Ha by lia.
  rewrite lookup_app_r in Hb by lia.
  replace (S i - length l)%nat with 0%nat in Hb by lia. simpl in Hb.
  inversion Hb; subst b. apply Hx. rewrite last_lookup, <- Ha. f_equal. lia.
Qed.

(** *** Tabu search *)

Section Tabu.
Import TabuSearch.

Variable instance : VRPInstance.t.
Variables tabu_tenure max_no_improvement : Z.

Lemma select_step_histories tl bkc sel nb :
  best_cost_history (sel_stats (select_step tl bkc sel nb))
  = best_cost_history (sel_stats sel)
  /\ current_cost_history (sel_stats (select_step tl bkc sel nb))
     = current_cost_history (sel_stats sel).
Proof.
unfold select_step. destruct (eligible _ _ _); [|done].
destruct (below _ _); [|done]. simpl. by destruct (_ && _).
Qed.

Lemma select_best_move_histories tl st nbs bkc :
  best_cost_history (_select_best_move tl st nbs bkc).2 = best_cost_history st
  /\ current_cost_history (_select_best_move tl st nbs bkc).2 = current_cost_history st.
Proof.
unfold _select_best_move. simpl.
assert (H : forall sel,
  best_cost_history (sel_stats (fold_left (select_step tl bkc) nbs sel))
  = best_cost_history (sel_stats sel)
  /\ current_cost_history (sel_stats (fold_left (select_step tl bkc) nbs sel))
     = current_cost_history (sel_stats sel)).
{ induction nbs as [|nb nbs IH]; intros sel; simpl; [done|].
  destruct (IH (select_step tl bkc sel nb)) as [-> ->]. apply select_step_histories. }
apply (H (mk_selection None None st)).
Qed.

Variable st0 : stats.
Variable c0 : Q.

(** The histories of the run so far: one entry per completed iteration, after
    those the object held when the run began. *)
Definition traced (st : state) : Prop :=
  exists hb hc,
    best_cost_history (run_stats st) = best_cost_history st0 ++ hb
    /\ current_cost_history (run_stats st) = current_cost_history st0 ++ hc
    /\ length hb = iteration st /\ length hc = iteration st
    /\ nonincreasing (c0 :: hb)
    /\ last (c0 :: hb) = Some (Solution.total_cost (best_solution st))
    /\ Forall2 Qle hb hc.

Lemma solve_turn_traced st st' :
  traced st -> solve_turn instance tabu_tenure st = Some st' ->
  traced st' /\ iteration st' = S (iteration st).
Proof.
unfold traced, solve_turn. intros (hb & hc & Hb & Hc & Lb & Lc & Hmono & Hlast & Hle) Hturn.
destruct (_generate_neighborhood instance (current_solution st) (rng st)) as [nbs g].
destruct nbs as [|nb0 nbs]; [done|].
pose proof (select_best_move_histories (tabu_list st) (run_stats st) (nb0 :: nbs)
              (Solution.total_cost (best_solution st))) as [Hsb Hsc].
destruct (_select_best_move _ _ _ _) as [[[chosen move]|] stats1]; [|done].
simpl in Hsb, Hsc.
inversion Hturn; subst; clear Hturn. simpl. split; [|done].
set (current := (Solution.calculate_cost chosen).2) in *.
set (best := if Qltb _ _ then _ else _).
assert (Hbest : (Solution.total_cost best <= Solution.total_cost (best_solution st))%Q
                /\ (Solution.total_cost best <= Solution.total_cost current)%Q).
{ unfold best, Solution.copy.
  destruct (Qltb _ _) eqn:Hlt.
  - apply Qltb_lt in Hlt. split; [by apply Qlt_le_weak|apply Qle_refl].
  - apply Qltb_ge in Hlt. split; [apply Qle_refl|done]. }
destruct Hbest as [Hb1 Hb2].
exists (hb ++ [Solution.total_cost best]), (hc ++ [Solution.total_cost current]).
rewrite Hsb, Hsc, Hb, Hc, <- !app_assoc, !length_app. simpl.
repeat split; try lia.
- change (c0 :: hb ++ [Solution.total_cost best])
    with ((c0 :: hb) ++ [Solution.total_cost best]).
  apply nonincreasing_snoc; [done|]. intros a Ha. congruence.
- change (c0 :: hb ++ [Solution.total_cost best])
    with ((c0 :: hb) ++ [Solution.total_cost best]).
  by rewrite last_snoc.
- apply Forall2_app; [done|]. by constructor.
Qed.

Lemma solve_loop_traced remaining : forall st,
  traced st ->
  traced (solve_loop instance tabu_tenure max_no_improvement remaining st)
  /\ (iteration (solve_loop instance tabu_tenure max_no_improvement remaining st)
      <= iteration st + remaining)%nat.
Proof.
induction remaining as [|n IH]; intros st Ht; simpl; [split; [done|lia]|].
case_decide; [|split; [done|lia]].
destruct (solve_turn instance tabu_tenure st) as [st'|] eqn:Hturn; [|split; [done|lia]].
destruct (solve_turn_traced _ _ Ht Hturn) as [Ht' Hit].
destruct (IH st' Ht') as [Hfin Hle]. split; [done|lia].
Qed.

(** The tabu list of a run that began with an empty one: the entries were
    recorded at distinct iterations, all of them among the last
    [tabu_tenure] iterations completed. *)
Definition recent (st : state) : Prop :=
  NoDup (snd <$> tabu_list st)
  /\ Forall (fun e : tabu_entry =>
               (e.2 < iteration st)%nat
               /\ Z.of_nat (iteration st) - 1 - Z.of_nat e.2 < tabu_tenure)
            (tabu_list st).

Lemma update_recent (tl : list tabu_entry) (move : move_info) (it : nat) :
  NoDup (snd <$> tl) -> Forall (fun e : tabu_entry => (e.2 < it)%nat) tl ->
  NoDup (snd <$> _update_tabu_list tabu_tenure tl move it)
  /\ Forall (fun e : tabu_entry =>
               (e.2 < S it)%nat /\ Z.of_nat (S it) - 1 - Z.of_nat e.2 < tabu_tenure)
            (_update_tabu_list tabu_tenure tl move it).
Proof.
intros Hnd Hold. unfold _update_tabu_list. split.
- match goal with |- NoDup (snd <$> filter ?P ?L) =>
    assert (Hsub : snd <$> filter P L `sublist_of` snd <$> L)
      by apply fmap_sublist, sublist_filter
  end.
  eapply sublist_NoDup; [|exact Hsub].
  rewrite fmap_app. simpl. apply NoDup_app. split; [done|]. split.
  + intros x Hx Hx'. apply list_elem_of_singleton in Hx'. subst x.
    apply list_elem_of_fmap in Hx as (e & He & Hin).
    rewrite Forall_forall in Hold. specialize (Hold e Hin). simpl in *. lia.
  + apply NoDup_singleton.
- apply Forall_forall. intros e He.
  apply list_elem_of_filter in He as [Hage Hin].
  apply elem_of_app in Hin as [Hin|Hin].
  + rewrite Forall_forall in Hold. specialize (Hold e Hin). simpl in *. lia.
  + apply list_elem_of_singleton in Hin. subst e. simpl in *. lia.
Qed.

Lemma solve_turn_recent st st' :
  recent st -> solve_turn instance tabu_tenure st = Some st' -> recent st'.
Proof.
unfold recent, solve_turn. intros [Hnd Hall] Hturn.
destruct (_generate_neighborhood instance (current_solution st) (rng st)) as [nbs g].
destruct nbs as [|nb0 nbs]; [done|].
destruct (_select_best_move _ _ _ _) as [[[chosen move]|] stats1]; [|done].
inversion Hturn; subst; clear Hturn. simpl.
apply update_recent; [done|].
eapply Forall_impl; [exact Hall|]. simpl. intros e [He _]. done.
Qed.

Lemma solve_loop_recent remaining : forall st,
  recent st -> recent (solve_loop instance tabu_tenure max_no_improvement remaining st).
Proof.
induction remaining as [|n IH]; intros st Hr; simpl; [done|].
case_decide; [|done].
destruct (solve_turn instance tabu_tenure st) as [st'|] eqn:Hturn; [|done].
apply IH. exact (solve_turn_recent _ _ Hr Hturn).
Qed.

Lemma recent_length st : recent st -> Z.of_nat (length (tabu_list st)) <= Z.max 0 tabu_tenure.
Proof.
intros [Hnd Hall].
set (k := Z.to_nat tabu_tenure).
assert (Hsub : (snd <$> tabu_list st) ⊆+ seq (iteration st - k) k).
{ apply NoDup_submseteq; [done|]. intros x Hx.
  apply list_elem_of_fmap in Hx as (e & -> & Hin).
  rewrite Forall_forall in Hall. destruct (Hall e Hin) as [H1 H2].
  apply elem_of_seq. unfold k. lia. }
apply submseteq_length in Hsub. rewrite length_fmap, length_seq in Hsub.
subst k. unfold tabu_entry in *. lia.
Qed.

End Tabu.

(** The histories kept by [TabuSearch.solve] gain one entry per completed
    iteration, and at most [max_iterations] iterations are completed.
    Starting from the cost of the initial solution, the best-cost history
    never goes up; it ends at the cost of the solution returned, and each of
    its entries is at most the current cost recorded with it. *)
Theorem tabu_run_histories
    (instance : VRPInstance.t) (tabu_tenure max_iterations max_no_improvement : Z)
    (tabu : list TabuSearch.tabu_entry) (st0 : TabuSearch.stats)
    (initial_solution : Solution.t) (g : Random.t) :
  let run := TabuSearch.solve instance tabu_tenure max_iterations max_no_improvement
                              tabu st0 initial_solution g in
  let s := TabuSearch.run_stats run.2 in
  exists hb hc,
    TabuSearch.best_cost_history s = TabuSearch.best_cost_history st0 ++ hb
    /\ TabuSearch.current_cost_history s = TabuSearch.current_cost_history st0 ++ hc
    /\ length hb = TabuSearch.iterations s
    /\ length hc = TabuSearch.iterations s
    /\ Z.of_nat (TabuSearch.iterations s) <= Z.max 0 max_iterations
    /\ nonincreasing (Solution.start_cost initial_solution :: hb)
    /\ last (Solution.start_cost initial_solution :: hb)
       = Some (Solution.total_cost run.1)
    /\ Forall2 Qle hb hc.
Proof.
intros run s. unfold run, s, TabuSearch.solve. simpl.
assert (Hinit : traced st0 (Solution.start_cost initial_solution)
                  (TabuSearch.initial_state initial_solution tabu st0 g)).
{ exists [], []. simpl. rewrite !app_nil_r. repeat split; done. }
destruct (solve_loop_traced instance tabu_tenure max_no_improvement st0
            (Solution.start_cost initial_solution) (Z.to_nat max_iterations)
            _ Hinit) as [(hb & hc & Hb & Hc & Lb & Lc & Hmono & Hlast & Hle) Hit].
exists hb, hc. simpl in Hit. repeat split; try done. lia.
Qed.

(** In a run of [TabuSearch.solve] that begins with an empty tabu list, the
    list never holds more than [tabu_tenure] entries (none at all when the
    tenure is not positive), and each entry was recorded during one of the
    last [tabu_tenure] completed iterations. *)
Theorem tabu_list_holds_recent_moves_only
    (instance : VRPInstance.t) (tabu_tenure max_iterations max_no_improvement : Z)
    (st0 : TabuSearch.stats) (initial_solution : Solution.t) (g : Random.t) :
  let st := (TabuSearch.solve instance tabu_tenure max_iterations max_no_improvement
                              [] st0 initial_solution g).2 in
  Z.of_nat (length (TabuSearch.tabu_list st)) <= Z.max 0 tabu_tenure
  /\ Forall (fun e : TabuSearch.tabu_entry =>
               (e.2 < TabuSearch.iteration st)%nat
               /\ Z.of_nat (TabuSearch.iteration st) - 1 - Z.of_nat e.2 < tabu_tenure)
            (TabuSearch.tabu_list st).
Proof.
intros st.
assert (Hrecent : recent tabu_tenure st).
{ unfold st, TabuSearch.solve, recent. simpl.
  apply (solve_loop_recent instance tabu_tenure max_no_improvement).
  split; [constructor|constructor]. }
split; [by apply recent_length|]. by destruct Hrecent.
Qed.

(** *** Simulated annealing *)

Lemma Qpower_succ (q : Q) (k : nat) :
  (q ^ Z.of_nat (S k) == q ^ Z.of_nat k * q)%Q.
Proof.
rewrite Nat2Z.inj_succ. unfold Z.succ. rewrite Qpower_plus' by lia.
simpl. reflexivity.
Qed.

Section Annealing.
Import SimulatedAnnealing.

Variable instance : VRPInstance.t.
Variables initial_temp final_temp cooling_rate : Q.
Variables max_iterations max_iterations_per_temp : Z.
Variable metropolis : Q -> Q -> Q -> option bool.
Variable st0 : stats.
Variable c0 : Q.

(** What the statistics of the run so far say. *)
Definition accounted (st : state) : Prop :=
  exists hb hc a i k,
    best_cost_history (run_stats st) = best_cost_history st0 ++ hb
    /\ current_cost_history (run_stats st) = current_cost_history st0 ++ hc
    /\ length hb = iteration st /\ length hc = iteration st
    /\ length (evaluated st) = iteration st
    /\ nonincreasing (c0 :: hb)
    /\ last (c0 :: hb) = Some (Solution.total_cost (best_solution st))
    /\ Forall2 Qle hb hc
    /\ (Solution.total_cost (best_solution st)
        <= Solution.total_cost (current_solution st))%Q
    /\ accepted_moves (run_stats st) = (accepted_moves st0 + a)%nat
    /\ improving_moves (run_stats st) = (improving_moves st0 + i)%nat
    /\ (i <= a)%nat /\ (a <= iteration st)%nat
    /\ temperature_reductions (run_stats st) = (temperature_reductions st0 + k)%nat
    /\ (temperature st == initial_temp * cooling_rate ^ Z.of_nat k)%Q
    /\ Z.of_nat (iteration st) <= Z.max 0 max_iterations.

Lemma inner_turn_accounted st st' :
  accounted st -> Z.of_nat (iteration st) < max_iterations ->
  inner_turn instance metropolis st = Returned st' ->
  accounted st' /\ iteration st' = S (iteration st).
Proof.
unfold accounted, inner_turn.
intros (hb & hc & a & i & k & Hb & Hc & Lb & Lc & Le & Hmono & Hlast & Hle & Hbc
        & Ha & Hi & Hia & Hai & Hk & Ht & Hit) Hlt Hturn.
destruct (_generate_neighbor instance (current_solution st) (rng st)) as [nb g].
set (n := (Solution.calculate_cost nb).2) in *.
set (improving := Qltb (Solution.total_cost n - Solution.total_cost (current_solution st)) 0)
  in *.
destruct (if improving then _ else _) as [[accept g']|] eqn:Hdec; [|done].
inversion Hturn; subst; clear Hturn. simpl. split; [|done].
set (best := if accept && improving && Qltb _ _ then _ else _).
set (current := if accept then n else current_solution st).
assert (Hacc : improving = true -> accept = true).
{ intros Himp. rewrite Himp in Hdec. by inversion Hdec. }
assert (Hbest : (Solution.total_cost best <= Solution.total_cost (best_solution st))%Q
                /\ (Solution.total_cost best <= Solution.total_cost current)%Q).
{ unfold best, current, Solution.copy.
  destruct improving eqn:Himp.
  - rewrite (Hacc eq_refl). simpl.
    destruct (Qltb (Solution.total_cost n) _) eqn:Hlt'.
    + apply Qltb_lt in Hlt'. split; [by apply Qlt_le_weak|apply Qle_refl].
    + apply Qltb_ge in Hlt'. split; [apply Qle_refl|done].
  - rewrite andb_false_r. simpl. split; [apply Qle_refl|].
    unfold improving in Himp. apply Qltb_ge in Himp.
    destruct accept; [|done]. lra. }
destruct Hbest as [Hb1 Hb2].
exists (hb ++ [Solution.total_cost best]), (hc ++ [Solution.total_cost current]),
       (if accept then S a else a), (if accept && improving then S i else i), k.
rewrite !length_app. simpl.
assert (Hstats : forall s',
  s' = (if accept then bump_accepted improving (run_stats st) else run_stats st) ->
  best_cost_history s' = best_cost_history (run_stats st)
  /\ current_cost_history s' = current_cost_history (run_stats st)
  /\ accepted_moves s' = (accepted_moves st0 + (if accept then S a else a))%nat
  /\ improving_moves s'
     = (improving_moves st0 + (if accept && improving then S i else i))%nat
  /\ temperature_reductions s' = temperature_reductions (run_stats st)).
{ intros s' ->. destruct accept; simpl; [|by rewrite Ha, Hi].
  rewrite Ha. destruct improving; simpl; rewrite Hi; repeat split; lia. }
destruct (Hstats _ eq_refl) as (Hs1 & Hs2 & Hs3 & Hs4 & Hs5).
unfold record_costs. simpl. rewrite Hs1, Hs2, Hs3, Hs4, Hs5, Hb, Hc, <- !app_assoc.
repeat split; try done; try lia.
- change (c0 :: hb ++ [Solution.total_cost best])
    with ((c0 :: hb) ++ [Solution.total_cost best]).
  apply nonincreasing_snoc; [done|]. intros x Hx. congruence.
- change (c0 :: hb ++ [Solution.total_cost best])
    with ((c0 :: hb) ++ [Solution.total_cost best]).
  by rewrite last_snoc.
- apply Forall2_app; [done|]. by constructor.
- destruct accept, improving; simpl; lia.
- destruct accept; lia.
Qed.

Lemma inner_loop_accounted turns : forall st st',
  accounted st -> Z.of_nat (iteration st) < max_iterations ->
  inner_loop instance max_iterations metropolis turns st = Returned st' ->
  accounted st'.
Proof.
induction turns as [|n IH]; intros st st' Hacc Hlt Hloop; simpl in Hloop.
- by inversion Hloop; subst.
- destruct (inner_turn instance metropolis st) as [st1| |] eqn:Hturn; try done.
  destruct (inner_turn_accounted _ _ Hacc Hlt Hturn) as [Hacc1 Hit1].
  case_decide; [by inversion Hloop; subst|].
  apply (IH st1 st'); [done|lia|done].
Qed.

Lemma cool_down_accounted st : accounted st -> accounted (cool_down cooling_rate st).
Proof.
unfold accounted, cool_down.
intros (hb & hc & a & i & k & Hb & Hc & Lb & Lc & Le & Hmono & Hlast & Hle & Hbc
        & Ha & Hi & Hia & Hai & Hk & Ht & Hit).
assert (Hpow : (temperature st * cooling_rate
                == initial_temp * cooling_rate ^ Z.of_nat (S k))%Q)
  by (rewrite Ht, Qpower_succ; ring).
exists hb, hc, a, i, (S k). cbn [run_stats temperature temperature_reductions
  best_cost_history current_cost_history iteration evaluated best_solution
  current_solution accepted_moves improving_moves].
repeat split; try done. rewrite Hk. lia.
Qed.

Lemma outer_loop_accounted fuel : forall st st',
  accounted st ->
  outer_loop instance final_temp cooling_rate max_iterations max_iterations_per_temp
             metropolis fuel st = Returned st' ->
  accounted st'.
Proof.
induction fuel as [|f IH]; intros st st' Hacc Hloop; simpl in Hloop.
- destruct (_ && _); [done|]. by inversion Hloop; subst.
- destruct (Qltb _ _ && bool_decide _) eqn:Hcond; [|by inversion Hloop; subst].
  apply andb_true_iff in Hcond as [_ Hlt]. apply bool_decide_eq_true in Hlt.
  destruct (inner_loop _ _ _ _ st) as [st1| |] eqn:Hinner; try done.
  apply (IH (cool_down cooling_rate st1) st'); [|done].
  apply cool_down_accounted. exact (inner_loop_accounted _ _ _ Hacc Hlt Hinner).
Qed.

End Annealing.

(** When [SimulatedAnnealing.solve] returns, its statistics are consistent
    with the run: [iterations] is the number of neighbors evaluated and is at
    most [max_iterations]; both histories gained one entry per iteration;
    the best-cost history never goes up from the initial cost, ends at the
    cost of the solution returned and is pointwise at most the current-cost
    history; improving moves are among the accepted moves, which are among
    the iterations; and the final temperature is the initial one multiplied
    by the cooling rate once per recorded temperature reduction. *)
Theorem annealing_run_statistics
    (instance : VRPInstance.t) (initial_temp final_temp cooling_rate : Q)
    (max_iterations max_iterations_per_temp : Z)
    (metropolis : Q -> Q -> Q -> option bool)
    (fuel : nat) (st0 : SimulatedAnnealing.stats)
    (initial_solution : Solution.t) (g : Random.t) best st :
  SimulatedAnnealing.solve instance initial_temp final_temp cooling_rate
    max_iterations max_iterations_per_temp metropolis fuel st0 initial_solution g
  = Returned (best, st) ->
  let s := SimulatedAnnealing.run_stats st in
  exists hb hc a i k T,
    SimulatedAnnealing.best_cost_history s
    = SimulatedAnnealing.best_cost_history st0 ++ hb
    /\ SimulatedAnnealing.current_cost_history s
       = SimulatedAnnealing.current_cost_history st0 ++ hc
    /\ length hb = SimulatedAnnealing.iterations s
    /\ length hc = SimulatedAnnealing.iterations s
    /\ length (SimulatedAnnealing.evaluated st) = SimulatedAnnealing.iterations s
    /\ Z.of_nat (SimulatedAnnealing.iterations s) <= Z.max 0 max_iterations
    /\ nonincreasing (Solution.start_cost initial_solution :: hb)
    /\ last (Solution.start_cost initial_solution :: hb) = Some (Solution.total_cost best)
    /\ Forall2 Qle hb hc
    /\ SimulatedAnnealing.accepted_moves s = (SimulatedAnnealing.accepted_moves st0 + a)%nat
    /\ SimulatedAnnealing.improving_moves s
       = (SimulatedAnnealing.improving_moves st0 + i)%nat
    /\ (i <= a)%nat /\ (a <= SimulatedAnnealing.iterations s)%nat
    /\ SimulatedAnnealing.temperature_reductions s
       = (SimulatedAnnealing.temperature_reductions st0 + k)%nat
    /\ SimulatedAnnealing.final_temperature s = Some T
    /\ (T == initial_temp * cooling_rate ^ Z.of_nat k)%Q.
Proof.
intros Hrun s. unfold SimulatedAnnealing.solve in Hrun.
destruct (SimulatedAnnealing.outer_loop _ _ _ _ _ _ _ _) as [st2| |] eqn:Hloop; try done.
apply outer_loop_accounted
  with (initial_temp := initial_temp) (st0 := st0)
       (c0 := Solution.start_cost initial_solution) in Hloop.
- destruct Hloop as (hb & hc & a & i & k & Hb & Hc & Lb & Lc & Le & Hmono & Hlast & Hle
                     & Hbc & Ha & Hi & Hia & Hai & Hk & Ht & Hit).
  inversion Hrun; subst; clear Hrun. unfold s. simpl.
  exists hb, hc, a, i, k, (SimulatedAnnealing.temperature st2).
  repeat split; done.
- exists [], [], 0%nat, 0%nat, 0%nat. simpl. rewrite !app_nil_r, !Nat.add_0_r.
  repeat split; try done; try lia.
  + apply Qle_refl.
  + ring.
Qed.

Lemma annealing_run_statistics_witness :
  exists best st,
    NeighborhoodFacts.anneal_line3 = Returned (best, st)
    /\ Z.of_nat (SimulatedAnnealing.iterations (SimulatedAnnealing.run_stats st)) <= 6
    /\ length (SimulatedAnnealing.evaluated st)
       = SimulatedAnnealing.iterations (SimulatedAnnealing.run_stats st)
    /\ (SimulatedAnnealing.improving_moves (SimulatedAnnealing.run_stats st)
        <= SimulatedAnnealing.accepted_moves (SimulatedAnnealing.run_stats st)
        <= SimulatedAnnealing.iterations (SimulatedAnnealing.run_stats st))%nat
    /\ exists k T,
         SimulatedAnnealing.temperature_reductions (SimulatedAnnealing.run_stats st) = k
         /\ SimulatedAnnealing.final_temperature (SimulatedAnnealing.run_stats st) = Some T
         /\ (T == 4 * (1 # 2) ^ Z.of_nat k)%Q.
Proof.
destruct NeighborhoodFacts.anneal_line3 as [[best st]| |] eqn:Hrun.
- exists best, st. split; [reflexivity|].
  destruct (annealing_run_statistics _ _ _ _ _ _ _ _ _ _ _ _ _ Hrun)
    as (hb & hc & a & i & k & T & Hb & Hc & Lb & Lc & Le & Hit & Hmono & Hlast & Hle
        & Ha & Hi & Hia & Hai & Hk & HT & Hpow).
  simpl in Ha, Hi, Hk.
  split; [exact Hit|]. split; [exact Le|]. split; [lia|].
  exists k, T. split; [exact Hk|]. split; [exact HT|exact Hpow].
- vm_compute in Hrun. discriminate.
- vm_compute in Hrun. discriminate.
Defined.

(** *** A schedule that never ends *)

Lemma outer_loop_stays
    (instance : VRPInstance.t) (final_temp cooling_rate : Q)
    (max_iterations max_iterations_per_temp : Z)
    (metropolis : Q -> Q -> Q -> option bool) (fuel : nat) :
  max_iterations_per_temp <= 0 -> (1 <= cooling_rate)%Q -> (0 <= final_temp)%Q ->
  forall st,
    (final_temp < SimulatedAnnealing.temperature st)%Q ->
    Z.of_nat (SimulatedAnnealing.iteration st) < max_iterations ->
    SimulatedAnnealing.outer_loop instance final_temp cooling_rate max_iterations
      max_iterations_per_temp metropolis fuel st = OutOfFuel.
Proof.
intros Hper Hrate Hfinal.
induction fuel as [|f IH]; intros st Htemp Hit; simpl.
- rewrite (proj2 (Qltb_lt _ _) Htemp), bool_decide_eq_true_2 by done. done.
- rewrite (proj2 (Qltb_lt _ _) Htemp), bool_decide_eq_true_2 by done. simpl.
  replace (Z.to_nat max_iterations_per_temp) with 0%nat by lia. simpl.
  apply IH; simpl; [|done].
  apply Qlt_le_trans with (SimulatedAnnealing.temperature st); [done|].
  assert (0 <= SimulatedAnnealing.temperature st)%Q by lra. nra.
Qed.

(** With no inner turn per temperature ([max_iterations_per_temp <= 0]) and a
    cooling rate of at least one, a run that is entered (the initial
    temperature is above a non-negative final temperature and
    [max_iterations] is positive) never leaves the outer loop of
    [SimulatedAnnealing.solve]: the iteration count stays at zero and the
    temperature never comes down, so whatever the number of temperatures the
    model is allowed to visit, it visits them all without returning. *)
Theorem annealing_without_inner_turns_never_returns
    (instance : VRPInstance.t) (initial_temp final_temp cooling_rate : Q)
    (max_iterations max_iterations_per_temp : Z)
    (metropolis : Q -> Q -> Q -> option bool)
    (fuel : nat) (st0 : SimulatedAnnealing.stats)
    (initial_solution : Solution.t) (g : Random.t) :
  max_iterations_per_temp <= 0 -> (1 <= cooling_rate)%Q ->
  (0 <= final_temp)%Q -> (final_temp < initial_temp)%Q -> 0 < max_iterations ->
  SimulatedAnnealing.solve instance initial_temp final_temp cooling_rate
    max_iterations max_iterations_per_temp metropolis fuel st0 initial_solution g
  = OutOfFuel.
Proof.
intros Hper Hrate Hfinal Hinit Hmax. unfold SimulatedAnnealing.solve.
rewrite outer_loop_stays; done.
Qed.

Lemma annealing_without_inner_turns_never_returns_witness :
  SimulatedAnnealing.solve Examples.inst3 4 1 1 3 0 Examples.coin 50
    SimulatedAnnealing.new_stats Examples.sol4 Examples.counting
  = OutOfFuel.
Proof.
apply (annealing_without_inner_turns_never_returns Examples.inst3 4 1 1 3 0
         Examples.coin 50 SimulatedAnnealing.new_stats Examples.sol4 Examples.counting).
- lia.
- apply Qle_refl.
- discriminate.
- reflexivity.
- lia.
Defined.

End StatisticsFacts.

(** ** Feasibility of a solution *)

Module FeasibilityFacts.
Import Solution.

(** The arrivals at the customers of a route, on the clock that
    [is_feasible] keeps: the vehicle leaves at [clock], travels at unit
    speed, waits for a window to open and serves the customer. *)
Fixpoint arrivals (inst : VRPInstance.t) (clock : Q) (route : list Z) : list (Z * Q) :=
  match route with
  | a :: (b :: _) as rest =>
      let t := (clock + VRPInstance.get_distance inst a b)%Q in
      if decide (b = VRPInstance.depot inst) then arrivals inst t rest
      else (b, t) :: arrivals inst
                       (t + VRPInstance.get_waiting_time inst b t
                        + inject_Z (VRPInstance.service_time inst b))%Q rest
  | _ => []
  end.

(** Every customer of the route is reached inside its time window. *)
Definition on_time (inst : VRPInstance.t) (route : list Z) : Prop :=
  Forall (fun ct : Z * Q => VRPInstance.is_feasible_time_window inst ct.1 ct.2 = true)
         (arrivals inst 0 route).

(** The four conditions that [is_feasible] tests. *)
Definition within_capacity (inst : VRPInstance.t) (routes : list (list Z)) : Prop :=
  forall i route, routes !! i = Some route ->
                  route_load inst route <= vehicle_capacity inst i.

Definition all_on_time (inst : VRPInstance.t) (routes : list (list Z)) : Prop :=
  Forall (on_time inst) routes.

Definition served_once (inst : VRPInstance.t) (routes : list (list Z)) : Prop :=
  NoDup (GreedyConstruction.served (VRPInstance.depot inst) routes).

Definition all_served (inst : VRPInstance.t) (routes : list (list Z)) : Prop :=
  forall c, c ∈ dom (VRPInstance.demands inst) -> c ≠ VRPInstance.depot inst ->
            c ∈ GreedyConstruction.served (VRPInstance.depot inst) routes.

(** The flag is up exactly when no message has been recorded. *)
Definition consistent (r : report) : Prop :=
  r_feasible r = true <-> r_violations r = [].

Lemma flag_consistent v r : consistent (flag v r).
Proof.
unfold consistent, flag. simpl. split; [done|].
intros H. by destruct (r_violations r).
Qed.

Section Checks.
Variable inst : VRPInstance.t.
Abbreviation depot := (VRPInstance.depot inst).

Lemma capacity_fold (l : list (nat * list Z)) : forall r,
  consistent r ->
  consistent (fold_left (capacity_step inst) l r)
  /\ (r_feasible (fold_left (capacity_step inst) l r) = true
      <-> r_feasible r = true
          /\ Forall (fun ir => route_load inst ir.2 <= vehicle_capacity inst ir.1) l).
Proof.
induction l as [|ir l IH]; intros r Hr; simpl.
- split; [done|]. split; [by intros ?; split|by intros [? _]].
- unfold capacity_step at 2 4. case_decide as Hload.
  + destruct (IH _ (flag_consistent (LoadExceedsCapacity ir.1 (route_load inst ir.2)
                                      (vehicle_capacity inst ir.1)) r)) as [Hc Hf].
    split; [done|]. rewrite Hf. simpl. split; [by intros [? _]|].
    intros [_ HF]. apply Forall_cons in HF as [? _]. lia.
  + destruct (IH _ Hr) as [Hc Hf]. split; [done|]. rewrite Hf.
    rewrite Forall_cons. split; [intros [? ?]; repeat split; [done|lia|done]|tauto].
Qed.

Lemma window_step_shift i x route st j :
  window_step inst i (x :: route) st (S j) = window_step inst i route st j.
Proof. reflexivity. Qed.

Lemma window_fold_shift i x route n : forall k st,
  fold_left (window_step inst i (x :: route)) (seq (S k) n) st
  = fold_left (window_step inst i route) (seq k n) st.
Proof.
induction n as [|n IH]; intros k st; [reflexivity|].
simpl seq. simpl fold_left. rewrite window_step_shift. apply IH.
Qed.

Lemma window_fold i (route : list Z) : forall clock r,
  consistent r ->
  let r' := (fold_left (window_step inst i route) (seq 0 (length route - 1))
                       (clock, r)).2 in
  consistent r'
  /\ (r_feasible r' = true
      <-> r_feasible r = true
          /\ Forall (fun ct : Z * Q =>
                       VRPInstance.is_feasible_time_window inst ct.1 ct.2 = true)
                    (arrivals inst clock route)).
Proof.
induction route as [|a route IH]; intros clock r Hr.
- simpl. split; [done|]. split; [by intros ?; split|by intros [? _]].
- destruct route as [|b route].
  + simpl. split; [done|]. split; [by intros ?; split|by intros [? _]].
  + replace (length (a :: b :: route) - 1)%nat with (S (length (b :: route) - 1))
      by (simpl; lia).
    cbn zeta. simpl seq. simpl fold_left. rewrite window_fold_shift.
    unfold window_step at 2 4. cbn [nth fst snd].
    cbn [arrivals]. case_decide as Hdepot.
    * destruct (IH (clock + VRPInstance.get_distance inst a b)%Q r Hr) as [Hc Hf].
      split; [exact Hc|]. exact Hf.
    * destruct (VRPInstance.is_feasible_time_window inst b _) eqn:Hwin.
      -- match goal with |- context [fold_left _ _ (?t, r)] =>
           destruct (IH t r Hr) as [Hc Hf] end.
         split; [exact Hc|]. cbn zeta in Hf. rewrite Hf. rewrite Forall_cons. simpl.
         tauto.
      -- match goal with |- context [fold_left _ _ (?t, flag ?v r)] =>
           destruct (IH t (flag v r) (flag_consistent v r)) as [Hc Hf] end.
         split; [exact Hc|]. cbn zeta in Hf. rewrite Hf. rewrite Forall_cons. simpl.
         split; [by intros [? _]|]. intros (_ & Hfalse & _). congruence.
Qed.

Lemma window_routes_fold (l : list (nat * list Z)) : forall r,
  consistent r ->
  consistent (fold_left (window_route inst) l r)
  /\ (r_feasible (fold_left (window_route inst) l r) = true
      <-> r_feasible r = true /\ Forall (fun ir => on_time inst ir.2) l).
Proof.
induction l as [|ir l IH]; intros r Hr; simpl.
- split; [done|]. split; [by intros ?; split|by intros [? _]].
- destruct (window_fold ir.1 ir.2 0%Q r Hr) as [Hc Hf]. cbn zeta in Hc, Hf.
  fold (window_route inst r ir) in Hc, Hf.
  destruct (IH _ Hc) as [Hc' Hf']. split; [exact Hc'|].
  rewrite Hf', Hf, Forall_cons. unfold on_time. tauto.
Qed.

Lemma served_fold (nodes : list Z) : forall (S0 : gset Z) r,
  consistent r ->
  let st := fold_left (served_step inst) nodes (S0, r) in
  consistent st.2
  /\ st.1 = S0 ∪ list_to_set (filter (fun c => c ≠ depot) nodes)
  /\ (r_feasible st.2 = true
      <-> r_feasible r = true
          /\ NoDup (filter (fun c => c ≠ depot) nodes)
          /\ forall c, c ∈ filter (fun c => c ≠ depot) nodes -> c ∉ S0).
Proof.
induction nodes as [|x nodes IH]; intros S0 r Hr.
- simpl. split; [done|]. split; [set_solver|].
  split; [intros ?; repeat split; [done|constructor|set_solver]|by intros [? _]].
- cbn zeta. simpl fold_left. unfold served_step at 2 4 6.
  destruct (decide (x = depot)) as [Hd|Hd].
  + rewrite filter_cons_False by (intros H; by apply H).
    apply (IH S0 r Hr).
  + rewrite filter_cons_True by done. simpl.
    destruct (decide (x ∈ S0)) as [Hin|Hnotin].
    * match goal with |- context [flag ?v r] =>
        destruct (IH (S0 ∪ {[x]}) (flag v r) (flag_consistent v r)) as (Hc & Hs & Hf) end.
      cbn zeta in Hc, Hs, Hf. split; [exact Hc|]. split; [rewrite Hs; set_solver|].
      rewrite Hf. simpl. split; [by intros [? _]|].
      intros (_ & _ & Hout). exfalso. apply (Hout x); [constructor|done].
    * destruct (IH (S0 ∪ {[x]}) r Hr) as (Hc & Hs & Hf).
      cbn zeta in Hc, Hs, Hf. split; [exact Hc|]. split; [rewrite Hs; set_solver|].
      rewrite Hf, NoDup_cons. split.
      -- intros (H1 & H2 & H3). split; [done|]. split.
         ++ split; [|done]. intros Hx. apply (H3 x Hx). set_solver.
         ++ intros c Hc'. apply elem_of_cons in Hc' as [->|Hc']; [done|].
            specialize (H3 c Hc'). set_solver.
      -- intros (H1 & [H2 H2'] & H3). split; [done|]. split; [done|].
         intros c Hc'. assert (c ≠ x) by (intros ->; done).
         assert (c ∉ S0) by (apply H3; by constructor). set_solver.
Qed.

Lemma fold_left_concat {A B} (f : A -> B -> A) (ls : list (list B)) : forall a,
  fold_left (fun st l => fold_left f l st) ls a = fold_left f (concat ls) a.
Proof.
induction ls as [|l ls IH]; intros a; simpl; [done|].
by rewrite fold_left_app, IH.
Qed.

Lemma served_filter (routes : list (list Z)) :
  GreedyConstruction.served depot routes = filter (fun c => c ≠ depot) (concat routes).
Proof.
unfold GreedyConstruction.served. induction routes as [|r rs IH]; [done|].
simpl. by rewrite filter_app, IH.
Qed.

Lemma Forall_imap_index (P : nat -> list Z -> Prop) (routes : list (list Z)) :
  Forall (fun ir : nat * list Z => P ir.1 ir.2)
         (imap (fun i route => (i, route)) routes)
  <-> forall i route, routes !! i = Some route -> P i route.
Proof.
rewrite Forall_forall. split.
- intros H i route Hi. apply (H (i, route)).
  by apply (elem_of_lookup_imap_2 (fun i route => (i, route))).
- intros H [i route] Hin.
  apply elem_of_lookup_imap in Hin as (j & r & Heq & Hj). inversion Heq; subst.
  by apply H.
Qed.

(** What [check] computes. *)
Lemma check_spec (routes : list (list Z)) :
  consistent (check inst routes)
  /\ (r_feasible (check inst routes) = true
      <-> within_capacity inst routes /\ all_on_time inst routes
          /\ served_once inst routes /\ all_served inst routes).
Proof.
unfold check.
set (indexed := imap (fun i route => (i, route)) routes).
destruct (capacity_fold indexed (mk_report [] true)) as [Hc1 Hf1]; [done|].
destruct (window_routes_fold indexed _ Hc1) as [Hc2 Hf2].
rewrite fold_left_concat.
match goal with |- context [fold_left (served_step inst) _ (∅, ?r)] =>
  destruct (served_fold (concat routes) ∅ r Hc2) as (Hc3 & Hs3 & Hf3);
  destruct (fold_left (served_step inst) (concat routes) (∅, r)) as [served r3]
end.
cbn zeta in Hc3, Hs3, Hf3. simpl in Hc3, Hs3, Hf3.
assert (Hcap : Forall (fun ir : nat * list Z =>
                         route_load inst ir.2 <= vehicle_capacity inst ir.1) indexed
               <-> within_capacity inst routes).
{ apply (Forall_imap_index (fun i route => route_load inst route <= vehicle_capacity inst i)). }
assert (Htime : Forall (fun ir : nat * list Z => on_time inst ir.2) indexed
                <-> all_on_time inst routes).
{ etrans; [apply (Forall_imap_index (fun _ route => on_time inst route))|].
  unfold all_on_time. by rewrite Forall_lookup. }
assert (Hunserved :
  (dom (VRPInstance.demands inst) ∖ {[depot]}) ∖ served = ∅
  <-> all_served inst routes).
{ unfold all_served. rewrite served_filter. subst served. split.
  - intros Hempty c Hc Hd.
    destruct (decide (c ∈ filter (fun c => c ≠ depot) (concat routes))); [done|].
    exfalso. assert (c ∈ (∅ : gset Z)); [|set_solver].
    rewrite <- Hempty. set_solver.
  - intros Hall. apply set_eq. intros c. split; [|set_solver].
    intros Hc. apply elem_of_difference in Hc as [Hc Hnot].
    apply elem_of_difference in Hc as [Hc Hd].
    exfalso. apply Hnot. apply elem_of_union_r, elem_of_list_to_set.
    apply Hall; [done|set_solver]. }
case_decide as Hempty.
- split; [exact Hc3|]. rewrite Hf3, Hf2, Hf1, Hcap, Htime.
  unfold served_once. rewrite served_filter. rewrite Hunserved in Hempty.
  simpl. split.
  + intros (([_ ?] & ?) & ? & _). done.
  + intros (? & ? & ? & ?). repeat split; try done; set_solver.
- split; [apply flag_consistent|]. simpl. split; [done|].
  intros (_ & _ & _ & Hall). exfalso. apply Hempty. by apply Hunserved.
Qed.

End Checks.

Lemma no_windows_on_time (inst : VRPInstance.t) (route : list Z) :
  VRPInstance.time_windows inst = ∅ -> on_time inst route.
Proof.
intros Hw. unfold on_time. apply Forall_forall. intros [c t] _.
unfold VRPInstance.is_feasible_time_window. simpl. by rewrite Hw, lookup_empty.
Qed.

(** What [is_feasible] says of a solution, when the four conditions hold. *)
Lemma is_feasible_true (message : violation -> string) (s : Solution.t)
    (inst : VRPInstance.t) :
  instance s = Some inst ->
  within_capacity inst (routes s) -> all_on_time inst (routes s) ->
  served_once inst (routes s) -> all_served inst (routes s) ->
  exists s', is_feasible message s = Some (true, s').
Proof.
intros Hinst H1 H2 H3 H4. unfold is_feasible. rewrite Hinst.
destruct (check_spec inst (routes s)) as [_ Hf].
rewrite (proj2 Hf) by done. eauto.
Qed.

(** On a solution that has an instance, [is_feasible] returns [True] exactly
    when the four conditions it tests hold together: the load of every route
    is at most the capacity of the vehicle of the same index; every customer
    is reached inside its time window, on a clock that starts at 0 on each
    route and adds travel, waiting and service times; no customer is visited
    twice; every customer of the instance is visited.  It returns [True]
    exactly when it leaves no message in [violations]; it stores its answer in
    [feasible] and does not touch the routes. *)
Theorem is_feasible_tests_four_conditions
    (message : violation -> string) (s : Solution.t) (inst : VRPInstance.t) :
  instance s = Some inst ->
  exists b s',
    is_feasible message s = Some (b, s')
    /\ (b = true <-> within_capacity inst (routes s) /\ all_on_time inst (routes s)
                     /\ served_once inst (routes s) /\ all_served inst (routes s))
    /\ (b = true <-> violations s' = [])
    /\ feasible s' = b
    /\ routes s' = routes s.
Proof.
intros Hinst. unfold is_feasible. rewrite Hinst.
destruct (check_spec inst (routes s)) as [Hc Hf].
eexists _, _. split; [reflexivity|]. simpl. split; [exact Hf|].
split; [|done]. unfold consistent in Hc. rewrite Hc.
split; [by intros ->|]. apply fmap_nil_inv.
Qed.

Lemma is_feasible_tests_four_conditions_witness :
  exists b s',
    is_feasible (fun _ => String.EmptyString) Examples.sol3 = Some (b, s')
    /\ (b = true <-> within_capacity Examples.inst3 (routes Examples.sol3)
                     /\ all_on_time Examples.inst3 (routes Examples.sol3)
                     /\ served_once Examples.inst3 (routes Examples.sol3)
                     /\ all_served Examples.inst3 (routes Examples.sol3))
    /\ (b = true <-> violations s' = [])
    /\ feasible s' = b
    /\ routes s' = routes Examples.sol3.
Proof.
apply (is_feasible_tests_four_conditions (fun _ => String.EmptyString)
         Examples.sol3 Examples.inst3).
reflexivity.
Defined.

End FeasibilityFacts.

(** ** What the greedy construction builds *)

Module ConstructionFacts.
Import GreedyConstruction.

Lemma fold_left_add (l : list Z) : forall a, fold_left Z.add l a = a + fold_left Z.add l 0.
Proof.
induction l as [|x l IH]; intros a; simpl; [lia|].
rewrite (IH (a + x)), (IH (0 + x)). lia.
Qed.

(** The demand of a list of customers. *)
Definition total_demand (inst : VRPInstance.t) (cs : list Z) : Z :=
  fold_left Z.add (map (VRPInstance.demand inst) cs) 0.

Lemma total_demand_cons inst c cs :
  total_demand inst (c :: cs) = VRPInstance.demand inst c + total_demand inst cs.
Proof. unfold total_demand. simpl. by rewrite fold_left_add. Qed.

Lemma total_demand_app inst cs1 cs2 :
  total_demand inst (cs1 ++ cs2) = total_demand inst cs1 + total_demand inst cs2.
Proof.
induction cs1 as [|c cs1 IH]; simpl.
- unfold total_demand at 2. simpl. lia.
- rewrite !total_demand_cons, IH. lia.
Qed.

Lemma route_load_closed inst (cs : list Z) :
  VRPInstance.depot inst ∉ cs ->
  Solution.route_load inst (VRPInstance.depot inst :: cs ++ [VRPInstance.depot inst])
  = total_demand inst cs.
Proof.
intros Hd. unfold Solution.route_load, total_demand.
rewrite filter_cons_False by (intros H; by apply H).
rewrite filter_app, filter_cons_False by (intros H; by apply H).
rewrite filter_nil, app_nil_r. f_equal. f_equal.
induction cs as [|x cs IH]; [done|].
apply not_elem_of_cons in Hd as [Hx Hcs].
rewrite filter_cons_True by done. by rewrite IH.
Qed.

Section Facts.
Variable set_iter : gset Z -> list Z.
Hypothesis set_iter_elem : forall (X : gset Z) (x : Z), x ∈ set_iter X <-> x ∈ X.
Variable inst : VRPInstance.t.
Abbreviation depot := (VRPInstance.depot inst).

(** The load carried along by [_build_route] is the demand of the customers
    appended, and it fits the vehicle as soon as there is one. *)
Lemma build_loop_load cap fuel : forall st st',
  build_loop set_iter inst cap fuel st = Some st' ->
  exists cs, b_route st' = b_route st ++ cs
             /\ b_load st' = b_load st + total_demand inst cs
             /\ (cs ≠ [] -> b_load st' <= cap).
Proof.
induction fuel as [|fuel IH]; intros st st' H; simpl in H; [done|].
case_decide as Hempty.
{ inversion H; subst. exists []. rewrite app_nil_r. unfold total_demand. simpl.
  split; [done|]. split; [lia|done]. }
destruct (fold_left _ _ _).1 as [c|] eqn:Hbest.
2:{ inversion H; subst. exists []. rewrite app_nil_r. unfold total_demand. simpl.
    split; [done|]. split; [lia|done]. }
apply GreedyFacts.scan_chosen_checked in Hbest as [Hbest|[Hfit _]]; [done|].
apply IH in H as (cs & Hroute & Hload & Hcap). simpl in *.
exists (c :: cs). rewrite total_demand_cons. split; [by rewrite Hroute, <- app_assoc|].
split; [lia|]. intros _.
destruct cs as [|c' cs']; [|apply Hcap; done].
unfold total_demand in Hload. simpl in Hload. lia.
Qed.

(** A route returned by [_build_route] leaves from the depot, serves at least
    one customer taken from the set, comes back to the depot, and its load
    fits the capacity of the vehicle it was built for. *)
Lemma build_route_load (U : gset Z) (vehicle_id : nat) route U' :
  depot ∉ U ->
  _build_route set_iter inst U vehicle_id = Some (route, U') ->
  route ≠ [] ->
  exists c cs, route = depot :: (c :: cs) ++ [depot]
               /\ (forall x, x ∈ c :: cs -> x ∈ U)
               /\ Solution.route_load inst route
                  <= Solution.vehicle_capacity inst vehicle_id.
Proof.
intros Hd Hbr Hne.
destruct (GreedyFacts.build_route_spec set_iter set_iter_elem inst U vehicle_id)
  as (route' & U'' & Hbr' & Hcase).
rewrite Hbr in Hbr'. inversion Hbr'; subst route' U''; clear Hbr'.
destruct Hcase as [[-> _]|(c & cs & -> & Hperm)]; [done|].
exists c, cs. split; [done|].
assert (Hin : forall x, x ∈ c :: cs -> x ∈ U).
{ intros x Hx. rewrite <- elem_of_elements, <- Hperm. apply elem_of_app. by left. }
split; [done|].
rewrite route_load_closed by (intros H; by apply Hd, Hin).
unfold _build_route in Hbr.
destruct (build_loop _ _ _ _ _) as [st|] eqn:Hloop; [|done].
apply build_loop_load in Hloop as (cs' & Hroute & Hload & Hcap).
simpl in Hbr, Hroute, Hload. inversion Hbr as [[Hr HU]]; clear Hbr.
rewrite Hroute in Hr.
assert (cs' = c :: cs) as ->.
{ destruct cs' as [|x xs]; [simpl in Hr; by repeat case_decide|].
  revert Hr. repeat case_decide; simpl; intros Hr; try done;
    try (exfalso; simpl in *; lia).
  inversion Hr as [[Hx Hxs]]. apply app_inv_tail in Hxs. by subst. }
unfold Solution.vehicle_capacity. specialize (Hcap ltac:(done)). lia.
Qed.

(** *** A property of every route of the solution *)

Section Routes.

Variable U0 : gset Z.
Variable good : list Z -> Prop.

(** Routes that [_build_route] returns for customers of the instance are
    good, and so is a forced route through one of them. *)
Hypothesis built_good : forall U vehicle_id route U',
  depot ∉ U -> (forall x, x ∈ U -> x ∈ U0) ->
  _build_route set_iter inst U vehicle_id = Some (route, U') -> route ≠ [] ->
  good route.
Hypothesis forced_good : forall c, c ∈ U0 -> good [depot; c; depot].

Lemma covers_subset s U : GreedyFacts.covers inst U0 s U -> forall x, x ∈ U -> x ∈ U0.
Proof.
intros [_ Hperm] x Hx. rewrite <- elem_of_elements, <- Hperm.
apply elem_of_app. right. by apply elem_of_elements.
Qed.

Lemma vehicle_loop_good remaining : forall vehicle_id s U,
  GreedyFacts.covers inst U0 s U -> Forall good (Solution.routes s) ->
  exists s' U', vehicle_loop set_iter inst remaining vehicle_id s U = Some (s', U')
                /\ GreedyFacts.covers inst U0 s' U'
                /\ Forall good (Solution.routes s').
Proof.
induction remaining as [|n IH]; intros vid s U Hcov Hgood; simpl; [eauto|].
case_decide as Hempty; [eauto|].
destruct (GreedyFacts.build_route_spec set_iter set_iter_elem inst U vid)
  as (route & U' & Hbr & Hcase).
rewrite Hbr. simpl.
destruct Hcase as [[-> ->]|(c & cs & -> & Hperm)].
- by apply IH.
- apply IH.
  + by eapply GreedyFacts.covers_route.
  + rewrite GreedyFacts.add_route_closed. apply Forall_app. split; [done|].
    constructor; [|constructor].
    eapply built_good; [by destruct Hcov|by eapply covers_subset|exact Hbr|done].
Qed.

Lemma extra_loop_good fuel : forall s U,
  GreedyFacts.covers inst U0 s U -> Forall good (Solution.routes s) ->
  (size U <= fuel)%nat ->
  exists s', extra_loop set_iter inst fuel s U = Some s'
             /\ Forall good (Solution.routes s').
Proof.
induction fuel as [|n IH]; intros s U Hcov Hgood Hsize.
- assert (U = ∅) as -> by (apply leibniz_equiv, size_empty_iff; lia).
  simpl. eauto.
- simpl. case_decide as Hempty; [eauto|].
  destruct (GreedyFacts.build_route_spec set_iter set_iter_elem inst U
              (length (Solution.routes s))) as (route & U' & Hbr & Hcase).
  rewrite Hbr. simpl.
  destruct Hcase as [[-> ->]|(c & cs & -> & Hperm)].
  + destruct (set_iter U) as [|c l] eqn:Hiter.
    { exfalso. apply Hempty. apply set_eq. intros x.
      rewrite <- set_iter_elem, Hiter. set_solver. }
    assert (Hc : c ∈ U) by (apply set_iter_elem; rewrite Hiter; constructor).
    pose proof (covers_subset _ _ Hcov c Hc) as Hc0.
    destruct Hcov as [Hd Hcov]. simpl.
    apply IH.
    * split; [set_solver|].
      change [depot; c; depot] with (depot :: [c] ++ [depot]).
      rewrite GreedyFacts.add_route_closed, GreedyFacts.served_app,
        GreedyFacts.served_closed.
      -- rewrite <- app_assoc. simpl. by rewrite GreedyFacts.elements_remove.
      -- intros H. apply list_elem_of_singleton in H. congruence.
    * change [depot; c; depot] with (depot :: [c] ++ [depot]).
      rewrite GreedyFacts.add_route_closed. apply Forall_app. split; [done|].
      constructor; [|constructor]. by apply forced_good.
    * pose proof (GreedyFacts.size_remove _ _ Hc). lia.
  + destruct (GreedyFacts.covers_route inst _ _ _ _ _ _ Hcov Hperm) as [Hcov' Hlt].
    apply IH; [done| |lia].
    rewrite GreedyFacts.add_route_closed. apply Forall_app. split; [done|].
    constructor; [|constructor].
    eapply built_good; [by destruct Hcov|by eapply covers_subset|exact Hbr|done].
Qed.

End Routes.

Lemma construct_good (good : list Z -> Prop) :
  let U0 := dom (VRPInstance.demands inst) ∖ {[depot]} in
  (forall U vehicle_id route U',
     depot ∉ U -> (forall x, x ∈ U -> x ∈ U0) ->
     _build_route set_iter inst U vehicle_id = Some (route, U') -> route ≠ [] ->
     good route) ->
  (forall c, c ∈ U0 -> good [depot; c; depot]) ->
  exists s, construct set_iter inst = Some s /\ Forall good (Solution.routes s).
Proof.
intros U0 Hbuilt Hforced. unfold construct. fold U0.
assert (Hcov : GreedyFacts.covers inst U0 (Solution.new (Some inst)) U0).
{ split; [set_solver|]. done. }
destruct (vehicle_loop_good U0 good Hbuilt
            (Z.to_nat (VRPInstance.vehicle_count inst)) 0%nat _ _ Hcov)
  as (s1 & U1 & H1 & Hcov1 & Hgood1); [constructor|].
rewrite H1. simpl.
destruct (extra_loop_good U0 good Hbuilt Hforced (size U1) s1 U1 Hcov1 Hgood1)
  as (s2 & H2 & Hgood2); [lia|].
rewrite H2. simpl. eexists. split; [reflexivity|].
by rewrite GreedyFacts.calculate_cost_routes.
Qed.

Lemma vehicle_loop_instance remaining : forall vehicle_id s U s' U',
  vehicle_loop set_iter inst remaining vehicle_id s U = Some (s', U') ->
  Solution.instance s' = Solution.instance s.
Proof.
induction remaining as [|n IH]; intros vid s U s' U' H; simpl in H.
- by inversion H; subst.
- case_decide; [by inversion H; subst|].
  destruct (_build_route set_iter inst U vid) as [[route U1]|]; [|done]. simpl in H.
  destruct route; apply IH in H; done.
Qed.

Lemma extra_loop_instance fuel : forall s U s',
  extra_loop set_iter inst fuel s U = Some s' ->
  Solution.instance s' = Solution.instance s.
Proof.
induction fuel as [|n IH]; intros s U s' H; simpl in H.
- case_decide; [by inversion H; subst|done].
- case_decide; [by inversion H; subst|].
  destruct (_build_route set_iter inst U _) as [[route U1]|]; [|done]. simpl in H.
  destruct route.
  + destruct (set_iter U1); [done|]. apply IH in H. done.
  + apply IH in H. done.
Qed.

Lemma construct_instance s :
  construct set_iter inst = Some s -> Solution.instance s = Some inst.
Proof.
unfold construct. intros H.
destruct (vehicle_loop _ _ _ _ _ _) as [[s1 U1]|] eqn:H1; [|done]. simpl in H.
destruct (extra_loop _ _ _ _ _) as [s2|] eqn:H2; [|done]. simpl in H.
inversion H; subst; clear H.
apply vehicle_loop_instance in H1. apply extra_loop_instance in H2.
unfold Solution.calculate_cost. rewrite H2, H1. simpl. done.
Qed.

End Facts.

(** A route of the shape that the construction gives its routes: out of the
    depot, through one customer or more, back to the depot. *)
Definition round_trip (depot : Z) (route : list Z) : Prop :=
  exists c cs, route = depot :: (c :: cs) ++ [depot] /\ depot ∉ c :: cs.

Lemma round_trips_served depot (routes : list (list Z)) :
  Forall (round_trip depot) routes -> (length routes <= length (served depot routes))%nat.
Proof.
induction routes as [|r rs IH]; intros Hall; [done|].
apply Forall_cons in Hall as [(c & cs & -> & Hd) Hall].
change ((depot :: (c :: cs) ++ [depot]) :: rs)
  with ([depot :: (c :: cs) ++ [depot]] ++ rs).
rewrite GreedyFacts.served_app, length_app.
unfold served at 1. simpl. rewrite app_nil_r.
rewrite filter_cons_False by (intros H; by apply H).
apply not_elem_of_cons in Hd as [Hc Hcs].
rewrite filter_cons_True by done. simpl. specialize (IH Hall).
rewrite ?length_app. lia.
Qed.

(** Whatever the fleet and the iteration order of the set, every route of
    the solution that [GreedyConstruction.construct] returns goes from the
    depot through at least one customer and back to the depot, with no visit
    to the depot in between; there are no more routes than customers. *)
Theorem construct_builds_round_trips
    (set_iter : gset Z -> list Z) (inst : VRPInstance.t) :
  (forall (X : gset Z) (x : Z), x ∈ set_iter X <-> x ∈ X) ->
  exists s, construct set_iter inst = Some s
    /\ Forall (round_trip (VRPInstance.depot inst)) (Solution.routes s)
    /\ (length (Solution.routes s)
        <= size (dom (VRPInstance.demands inst) ∖ {[VRPInstance.depot inst]}))%nat.
Proof.
intros Hiter.
destruct (construct_good set_iter Hiter inst (round_trip (VRPInstance.depot inst)))
  as (s & Hs & Hall).
- intros U vid route U' Hd Hsub Hbr Hne.
  destruct (build_route_load set_iter Hiter inst U vid route U' Hd Hbr Hne)
    as (c & cs & -> & Hin & _).
  exists c, cs. split; [done|]. intros H. by apply Hd, Hin.
- intros c Hc. exists c, []. split; [done|]. set_solver.
- exists s. split; [done|]. split; [done|].
  destruct (GreedyFacts.construct_covers set_iter Hiter inst) as (s' & Hs' & Hperm).
  rewrite Hs in Hs'. inversion Hs'; subst s'.
  pose proof (round_trips_served _ _ Hall) as Hlen.
  rewrite Hperm in Hlen. unfold size, set_size. simpl. lia.
Qed.

Lemma construct_builds_round_trips_witness :
  exists s, construct elements Examples.inst3 = Some s
    /\ Forall (round_trip 0) (Solution.routes s)
    /\ (length (Solution.routes s) <= size (({[0; 1; 2]} ∖ {[0]})%Z : gset Z))%nat.
Proof.
apply (construct_builds_round_trips elements Examples.inst3).
intros X x. apply elem_of_elements.
Defined.

(** A route that [_build_route] returns, for a set of customers that does
    not hold the depot, never exceeds the capacity of the vehicle it is built
    for: the demand of its customers is at most [vehicle_capacities[vehicle_id]]
    (the fleet-wide capacity past the end of that list). *)
Theorem build_route_fits_vehicle
    (set_iter : gset Z -> list Z) (inst : VRPInstance.t)
    (unvisited : gset Z) (vehicle_id : nat) (route : list Z) (left : gset Z) :
  (forall (X : gset Z) (x : Z), x ∈ set_iter X <-> x ∈ X) ->
  VRPInstance.depot inst ∉ unvisited ->
  _build_route set_iter inst unvisited vehicle_id = Some (route, left) ->
  Solution.route_load inst route <= Z.max 0 (Solution.vehicle_capacity inst vehicle_id)
  /\ (route ≠ [] ->
      Solution.route_load inst route <= Solution.vehicle_capacity inst vehicle_id).
Proof.
intros Hiter Hd Hbr.
assert (Hne : route ≠ [] ->
  Solution.route_load inst route <= Solution.vehicle_capacity inst vehicle_id).
{ intros Hne.
  destruct (build_route_load set_iter Hiter inst _ _ _ _ Hd Hbr Hne)
    as (c & cs & _ & _ & Hload). done. }
split; [|done].
destruct route as [|x route]; [unfold Solution.route_load; simpl; lia|].
specialize (Hne ltac:(done)). lia.
Qed.

Lemma build_route_fits_vehicle_witness :
  Solution.route_load Examples.inst3 [0; 1; 0]
  <= Z.max 0 (Solution.vehicle_capacity Examples.inst3 0)
  /\ ([0; 1; 0] ≠ [] ->
      Solution.route_load Examples.inst3 [0; 1; 0]
      <= Solution.vehicle_capacity Examples.inst3 0).
Proof.
apply (build_route_fits_vehicle elements Examples.inst3 {[1; 2]} 0 [0; 1; 0] {[2]}).
- intros X x. apply elem_of_elements.
- vm_compute. intros H. inversion H.
- vm_compute. reflexivity.
Defined.

End ConstructionFacts.

(** ** What the savings algorithm builds *)

Module SavingsFacts.
Import SavingsAlgorithm.

Lemma list_remove_first_spec (x : Z) (l : list Z) :
  NoDup l ->
  match list_remove_first x l with
  | Some l' => x ∈ l /\ x ∉ l' /\ NoDup l' /\ x :: l' ≡ₚ l
  | None => x ∉ l
  end.
Proof.
induction l as [|y l IH]; intros Hnd; simpl; [set_solver|].
apply NoDup_cons in Hnd as [Hy Hnd].
case_decide as Heq.
- subst y. repeat split; [set_solver|done|done..].
- specialize (IH Hnd). destruct (list_remove_first x l) as [l'|]; simpl.
  + destruct IH as (Hin & Hout & Hnd' & Hperm). repeat split.
    * set_solver.
    * apply not_elem_of_cons. split; [done|done].
    * apply NoDup_cons. split; [|done]. intros Hy'. apply Hy.
      rewrite <- Hperm. by constructor.
    * by rewrite perm_swap, Hperm.
  + set_solver.
Qed.

Lemma insert_descending_perm x l : insert_descending x l ≡ₚ x :: l.
Proof.
induction l as [|y l IH]; simpl; [done|].
destruct (Qltb _ _); [done|]. by rewrite IH, perm_swap.
Qed.

Lemma sorted_descending_perm l : sorted_descending l ≡ₚ l.
Proof.
unfold sorted_descending.
assert (H : forall acc, fold_left (fun acc x => insert_descending x acc) l acc ≡ₚ l ++ acc).
{ induction l as [|x l IH]; intros acc; simpl; [done|].
  rewrite IH, insert_descending_perm. solve_Permutation. }
by rewrite H, app_nil_r.
Qed.

Lemma fst_unique {A B} (l : list (A * B)) x y1 y2 :
  NoDup l.*1 -> (x, y1) ∈ l -> (x, y2) ∈ l -> y1 = y2.
Proof.
intros Hnd H1 H2.
apply list_elem_of_lookup in H1 as [i1 H1]. apply list_elem_of_lookup in H2 as [i2 H2].
assert (Hi : i1 = i2).
{ apply (NoDup_lookup l.*1 i1 i2 x Hnd); rewrite list_lookup_fmap.
  - by rewrite H1.
  - by rewrite H2. }
subst. congruence.
Qed.

Lemma lists_get_elem (rl : list (nat * list Z)) id l :
  NoDup rl.*1 -> (id, l) ∈ rl -> lists_get id rl = Some l.
Proof.
intros Hnd Hin. unfold lists_get.
destruct (list_find_elem_of (fun e : nat * list Z => e.1 = id) rl (id, l) Hin eq_refl)
  as [[k [id' l']] Hfind].
rewrite Hfind. simpl.
apply list_find_Some in Hfind as (Hk & Hid & _). simpl in Hid. subst id'.
apply list_elem_of_lookup_2 in Hk. f_equal. by eapply fst_unique.
Qed.

Lemma foldl_insert_lookup (v : nat) (l : list Z) : forall (m : gmap Z nat) k,
  foldl (fun rs customer => <[customer := v]> rs) m l !! k
  = if decide (k ∈ l) then Some v else m !! k.
Proof.
induction l as [|c l IH]; intros m k; simpl.
- done.
- rewrite IH. destruct (decide (k ∈ l)) as [Hin|Hout].
  + case_decide as H; [done|]. exfalso. apply H. by constructor.
  + destruct (decide (k = c)) as [->|Hne].
    * rewrite lookup_insert_eq. case_decide as H; [done|].
      exfalso. apply H. constructor.
    * rewrite lookup_insert_ne by done. case_decide as H; [|done].
      apply elem_of_cons in H as [?|?]; done.
Qed.

Section Facts.
Variable dict_keys : gmap Z Z -> list Z.
Variable inst : VRPInstance.t.
Abbreviation depot := (VRPInstance.depot inst).

Lemma load_perm l1 l2 : l1 ≡ₚ l2 -> load inst l1 = load inst l2.
Proof.
unfold load. induction 1; simpl; try lia; congruence.
Qed.

Lemma load_app l1 l2 : load inst (l1 ++ l2) = load inst l1 + load inst l2.
Proof. unfold load. induction l1 as [|x l1 IH]; simpl; lia. Qed.

Lemma merge_routes_perm route1 route2 i j :
  route1 ≠ [] -> route2 ≠ [] ->
  exists new, _merge_routes route1 route2 i j = Some new /\ new ≡ₚ route1 ++ route2.
Proof.
intros H1 H2. unfold _merge_routes.
destruct route1 as [|a1 r1]; [done|]. destruct route2 as [|a2 r2]; [done|].
cbn [head mbind option_bind].
destruct (last (a2 :: r2)) as [z2|] eqn:Hl2;
  [|by apply last_None in Hl2].
destruct (last (a1 :: r1)) as [z1|] eqn:Hl1;
  [|by apply last_None in Hl1].
cbn [mbind option_bind].
repeat match goal with |- context [if ?b then _ else _] => destruct b end;
  eexists; (split; [reflexivity|]); rewrite ?reverse_Permutation;
  try done; solve_Permutation.
Qed.

Lemma can_merge_routes_spec route1 route2 i j :
  route1 ≠ [] -> route2 ≠ [] ->
  exists b, _can_merge_routes inst route1 route2 i j = Some b
            /\ (b = true -> load inst route1 + load inst route2 <= VRPInstance.capacity inst).
Proof.
intros H1 H2. unfold _can_merge_routes.
case_decide as Hload; [by eexists|].
destruct route1 as [|a1 r1]; [done|]. destruct route2 as [|a2 r2]; [done|].
cbn [head mbind option_bind].
destruct (last (a1 :: r1)) as [z1|] eqn:Hl1; [|by apply last_None in Hl1].
cbn [mbind option_bind].
destruct (_ && _); [by eexists|].
destruct (last (a2 :: r2)) as [z2|] eqn:Hl2; [|by apply last_None in Hl2].
cbn [mbind option_bind]. eexists. split; [reflexivity|]. intros _. lia.
Qed.

Lemma concat_perm (l1 l2 : list (list Z)) : l1 ≡ₚ l2 -> concat l1 ≡ₚ concat l2.
Proof.
induction 1 as [|x l1 l2 _ IH|x y l|l1 l2 l3 _ IH1 _ IH2]; simpl.
- done.
- by rewrite IH.
- solve_Permutation.
- by rewrite IH1.
Qed.

Lemma lists_set_fresh id new (rl : list (nat * list Z)) :
  id ∉ rl.*1 -> lists_set id new rl = rl.
Proof.
unfold lists_set. induction rl as [|e rl IH]; intros Hid; simpl; [done|].
rewrite fmap_cons in Hid. apply not_elem_of_cons in Hid as [Hne Hid].
rewrite decide_False by done. by rewrite IH.
Qed.

Lemma lists_del_fresh id (rl : list (nat * list Z)) :
  id ∉ rl.*1 -> lists_del id rl = rl.
Proof.
unfold lists_del. induction rl as [|e rl IH]; intros Hid; [done|].
rewrite fmap_cons in Hid. apply not_elem_of_cons in Hid as [Hne Hid].
rewrite filter_cons_True by done. by rewrite IH.
Qed.

(** *** The invariant of the merging loop *)

Variable cs : list Z.
Hypothesis cs_nodup : NoDup cs.

(** A list of customers that was not merged, or whose demand fits the
    capacity of the instance. *)
Definition fits (l : list Z) : Prop :=
  length l = 1%nat \/ load inst l <= VRPInstance.capacity inst.

(** The lists are a partition of the customers into non-empty lists that
    fit, under distinct identifiers, and [routes] sends each customer to the
    identifier of its list. *)
Definition partitioned (t : tables) : Prop :=
  NoDup (route_lists t).*1
  /\ concat (route_lists t).*2 ≡ₚ cs
  /\ (forall c, c ∈ cs ->
        exists id l, routes t !! c = Some id /\ (id, l) ∈ route_lists t /\ c ∈ l)
  /\ Forall (fun e : nat * list Z => e.2 ≠ [] /\ fits e.2) (route_lists t).

Lemma merge_step_partitioned (t : tables) ri rj li lj new :
  partitioned t ->
  ri ≠ rj -> (ri, li) ∈ route_lists t -> (rj, lj) ∈ route_lists t ->
  new ≡ₚ li ++ lj -> new ≠ [] -> fits new ->
  partitioned
    (mk_tables (foldl (fun rs customer => <[customer := ri]> rs) (routes t) lj)
               (lists_del rj (lists_set ri new (route_lists t)))).
Proof.
intros (Hnd & Hcat & Hmap & Hall) Hne Hi Hj Hnew Hnonempty Hfits.
apply elem_of_Permutation in Hi as [k Hk].
assert (Hjk : (rj, lj) ∈ k).
{ rewrite Hk in Hj. apply elem_of_cons in Hj as [Heq|Hj]; [congruence|done]. }
apply elem_of_Permutation in Hjk as [rest Hrest].
assert (Hrl : route_lists t ≡ₚ (ri, li) :: (rj, lj) :: rest) by (by rewrite Hk, Hrest).
assert (Hnd' : NoDup (ri :: rj :: rest.*1)).
{ rewrite Hrl in Hnd. by rewrite !fmap_cons in Hnd. }
apply NoDup_cons in Hnd' as [Hri Hnd'].
apply NoDup_cons in Hnd' as [Hrj Hnd'].
apply not_elem_of_cons in Hri as [_ Hri].
assert (Hrl' : lists_del rj (lists_set ri new (route_lists t)) ≡ₚ (ri, new) :: rest).
{ unfold lists_del at 1. unfold lists_set at 1.
  rewrite (Permutation_map _ Hrl). simpl.
  rewrite decide_True by done. rewrite (decide_False (P := rj = ri)) by done.
  fold (lists_set ri new rest). rewrite lists_set_fresh by done.
  rewrite filter_cons_True by done. rewrite filter_cons_False by (simpl; intros H; by apply H).
  fold (lists_del rj rest). by rewrite lists_del_fresh. }
split; [|split; [|split]]; simpl.
- rewrite Hrl'. rewrite fmap_cons. by apply NoDup_cons.
- rewrite (concat_perm _ _ (fmap_Permutation snd _ _ Hrl')).
  rewrite <- Hcat. rewrite (concat_perm _ _ (fmap_Permutation snd _ _ Hrl)).
  rewrite !fmap_cons. simpl. rewrite Hnew. solve_Permutation.
- intros c Hc. destruct (Hmap c Hc) as (id & l & Hid & Hin & Hcl).
  rewrite foldl_insert_lookup.
  destruct (decide (c ∈ lj)) as [Hclj|Hclj].
  + exists ri, new. split; [done|]. split; [rewrite Hrl'; constructor|].
    rewrite Hnew. apply elem_of_app. by right.
  + rewrite Hrl in Hin.
    apply elem_of_cons in Hin as [Heq|Hin].
    { inversion Heq; subst. exists ri, new. split; [done|].
      split; [rewrite Hrl'; constructor|]. rewrite Hnew. apply elem_of_app. by left. }
    apply elem_of_cons in Hin as [Heq|Hin]; [inversion Heq; by subst|].
    exists id, l. split; [done|]. split; [|done]. rewrite Hrl'. by constructor.
- apply Forall_forall. intros e He. rewrite Hrl' in He.
  apply elem_of_cons in He as [->|He]; [done|].
  rewrite Forall_forall in Hall. apply Hall. rewrite Hrl. by do 2 constructor.
Qed.

Lemma merge_loop_partitioned (savings : list (Z * Z * Q)) : forall t,
  partitioned t ->
  Forall (fun e : Z * Z * Q => e.1.1 ∈ cs /\ e.1.2 ∈ cs) savings ->
  exists t', merge_loop inst savings t = Some t' /\ partitioned t'.
Proof.
induction savings as [|[[i j] saving] savings IH]; intros t Hpart Hall; simpl; [eauto|].
destruct (Qle_bool saving 0); [eauto|].
apply Forall_cons in Hall as [[Hi Hj] Hall]. simpl in Hi, Hj.
pose proof Hpart as (Hnd & Hcat & Hmap & Hlists).
destruct (Hmap i Hi) as (ri & li & Hri & Hli & Hili).
destruct (Hmap j Hj) as (rj & lj & Hrj & Hlj & Hjlj).
rewrite Hri, Hrj. simpl.
case_decide as Hsame; [by apply IH|].
rewrite (lists_get_elem _ _ _ Hnd Hli), (lists_get_elem _ _ _ Hnd Hlj). simpl.
rewrite Forall_forall in Hlists.
destruct (Hlists _ Hli) as [Hne_i _]. destruct (Hlists _ Hlj) as [Hne_j _].
simpl in Hne_i, Hne_j.
destruct (can_merge_routes_spec li lj i j Hne_i Hne_j) as (b & -> & Hcap).
destruct b; [|by apply IH].
destruct (merge_routes_perm li lj i j Hne_i Hne_j) as (new & -> & Hnew). simpl.
apply IH; [|done].
apply (merge_step_partitioned t ri rj li lj new); try done.
- intros ->. apply Permutation_nil in Hnew.
  by destruct li.
- right. rewrite (load_perm _ _ Hnew), load_app. by apply Hcap.
Qed.

End Facts.

Lemma load_total_demand inst (l : list Z) :
  load inst l = ConstructionFacts.total_demand inst l.
Proof.
induction l as [|x l IH]; [done|].
rewrite ConstructionFacts.total_demand_cons, <- IH. done.
Qed.

Lemma calculate_cost_instance (s : Solution.t) :
  Solution.instance (Solution.calculate_cost s).2 = Solution.instance s.
Proof. destruct s as [[inst|] rs c d t f v l rd rt]; reflexivity. Qed.

(** The routes of the solution are the lists, each closed at the depot. *)
Lemma solution_routes inst (rl : list (nat * list Z)) : forall s,
  Forall (fun e : nat * list Z => e.2 ≠ []) rl ->
  let s' := foldl (fun solution (e : nat * list Z) =>
                     match e.2 with
                     | [] => solution
                     | route_customers =>
                         Solution.add_route inst solution
                           ([VRPInstance.depot inst] ++ route_customers
                            ++ [VRPInstance.depot inst])
                     end) s rl in
  Solution.routes s'
  = Solution.routes s
    ++ map (fun e : nat * list Z =>
              VRPInstance.depot inst :: e.2 ++ [VRPInstance.depot inst]) rl
  /\ Solution.instance s' = Solution.instance s.
Proof.
induction rl as [|[id l] rl IH]; intros s Hall; simpl.
- by rewrite app_nil_r.
- apply Forall_cons in Hall as [Hl Hall]. simpl in Hl.
  destruct l as [|c l]; [done|].
  destruct (IH (Solution.add_route inst s
                  ([VRPInstance.depot inst] ++ (c :: l) ++ [VRPInstance.depot inst]))
               Hall) as [Hr Hi].
  pose proof (GreedyFacts.add_route_closed inst s (c :: l)) as Ha.
  simpl in Hr, Hi, Ha |- *. rewrite Hr, Hi, Ha. split; [|done].
  by rewrite <- app_assoc.
Qed.

Lemma served_lists depot (rl : list (nat * list Z)) :
  (forall e, e ∈ rl -> depot ∉ e.2) ->
  GreedyConstruction.served depot (map (fun e : nat * list Z => depot :: e.2 ++ [depot]) rl)
  = concat rl.*2.
Proof.
induction rl as [|e rl IH]; intros Hd; [done|].
simpl map. rewrite fmap_cons. simpl concat.
change ((depot :: e.2 ++ [depot]) :: map (fun e0 : nat * list Z => depot :: e0.2 ++ [depot]) rl)
  with ([depot :: e.2 ++ [depot]]
        ++ map (fun e0 : nat * list Z => depot :: e0.2 ++ [depot]) rl).
rewrite GreedyFacts.served_app.
rewrite IH by (intros e' He'; apply Hd; by constructor).
f_equal.
assert (Hde : depot ∉ e.2) by (apply Hd; constructor).
revert Hde. generalize (e.2). clear. intros l Hl.
unfold GreedyConstruction.served. simpl. rewrite app_nil_r.
rewrite filter_cons_False by (intros H; by apply H).
rewrite filter_app, filter_cons_False by (intros H; by apply H).
rewrite filter_nil, app_nil_r.
induction l as [|x l IHl]; [done|].
apply not_elem_of_cons in Hl as [Hx Hl].
rewrite filter_cons_True by done. by rewrite IHl.
Qed.

Section Construct.
Variable dict_keys : gmap Z Z -> list Z.
Hypothesis keys_nodup : forall m, NoDup (dict_keys m).
Hypothesis keys_elem : forall m k, k ∈ dict_keys m <-> k ∈ dom m.
Variable inst : VRPInstance.t.
Abbreviation depot := (VRPInstance.depot inst).

Lemma customers_spec :
  match customers dict_keys inst with
  | Some cs => depot ∈ dom (VRPInstance.demands inst) /\ depot ∉ cs /\ NoDup cs
               /\ cs ≡ₚ elements (dom (VRPInstance.demands inst) ∖ {[depot]})
  | None => depot ∉ dom (VRPInstance.demands inst)
  end.
Proof.
unfold customers.
pose proof (list_remove_first_spec depot (dict_keys (VRPInstance.demands inst))
              (keys_nodup _)) as H.
destruct (list_remove_first _ _) as [cs|].
- destruct H as (Hin & Hout & Hnd & Hperm).
  split; [by apply keys_elem|]. split; [done|]. split; [done|].
  apply NoDup_Permutation; [done|apply NoDup_elements|].
  intros x. rewrite elem_of_elements, elem_of_difference, <- keys_elem, <- Hperm.
  rewrite elem_of_cons, elem_of_singleton. split.
  + intros Hx. split; [by right|]. intros ->. done.
  + intros [[?|?] ?]; done.
- by rewrite <- keys_elem.
Qed.

Lemma savings_customers cs e :
  e ∈ concat (imap (fun i customer_i =>
                      map (fun customer_j =>
                             (customer_i, customer_j, saving inst customer_i customer_j))
                          (drop (S i) cs))
                   cs) ->
  e.1.1 ∈ cs /\ e.1.2 ∈ cs.
Proof.
intros He. apply list_elem_of_In, in_concat in He as (l & Hl & He).
apply list_elem_of_In in Hl.
apply elem_of_lookup_imap in Hl as (i & ci & -> & Hi).
apply in_map_iff in He as (cj & <- & Hj). simpl.
split; [by eapply list_elem_of_lookup_2|].
apply list_elem_of_In in Hj. apply list_elem_of_lookup in Hj as [k Hk].
rewrite lookup_drop in Hk. by eapply list_elem_of_lookup_2.
Qed.

Lemma initial_partitioned cs :
  NoDup cs ->
  partitioned inst cs
    (mk_tables (list_to_map (imap (fun i customer => (customer, i)) cs))
               (imap (fun i customer => (i, [customer])) cs)).
Proof.
intros Hnd. split; [|split; [|split]]; simpl.
- rewrite fmap_imap.
  rewrite (imap_ext _ (fun i _ => id i)) by done.
  rewrite imap_seq_0, list_fmap_id. apply NoDup_seq.
- rewrite fmap_imap.
  rewrite (imap_ext _ (const (fun c : Z => [c]))) by done.
  rewrite imap_const. clear. induction cs as [|x l IH]; simpl; [done|]. by rewrite IH.
- intros c Hc. apply list_elem_of_lookup in Hc as [i Hi].
  exists i, [c]. split; [|split].
  + apply elem_of_list_to_map.
    * rewrite fmap_imap.
      rewrite (imap_ext _ (const (fun c : Z => c))) by done.
      by rewrite imap_const, list_fmap_id.
    * by apply (elem_of_lookup_imap_2 (fun i customer => (customer, i))).
  + by apply (elem_of_lookup_imap_2 (fun i customer => (i, [customer]))).
  + constructor.
- apply Forall_forall. intros e He.
  apply elem_of_lookup_imap in He as (i & c & -> & _). simpl. split; [done|by left].
Qed.

(** What [construct] returns. *)
Lemma construct_spec :
  match customers dict_keys inst with
  | Some cs =>
      exists s rl,
        construct dict_keys inst = Returned s
        /\ Solution.instance s = Some inst
        /\ Solution.routes s
           = map (fun e : nat * list Z => depot :: e.2 ++ [depot]) rl
        /\ concat rl.*2 ≡ₚ cs
        /\ Forall (fun e : nat * list Z => e.2 ≠ [] /\ fits inst e.2) rl
  | None => construct dict_keys inst = Raised ListRemove
  end.
Proof.
pose proof customers_spec as Hcs. unfold construct, _calculate_savings.
destruct (customers dict_keys inst) as [cs|]; [|done].
destruct Hcs as (Hd & Hout & Hnd & Hperm). simpl.
destruct (merge_loop_partitioned inst cs
            (sorted_descending
               (concat (imap (fun i customer_i =>
                  map (fun customer_j =>
                         (customer_i, customer_j, saving inst customer_i customer_j))
                      (drop (S i) cs)) cs)))
            _ (initial_partitioned cs Hnd)) as (t & Ht & Hpart).
{ apply Forall_forall. intros e He. rewrite sorted_descending_perm in He.
  by apply savings_customers. }
rewrite Ht. destruct Hpart as (Hids & Hcat & Hmap & Hall).
destruct (solution_routes inst (route_lists t) (Solution.new (Some inst))) as [Hr Hi].
{ eapply Forall_impl; [exact Hall|]. by intros e [? _]. }
cbn zeta in Hr, Hi.
eexists _, (route_lists t). split; [reflexivity|].
split; [|split; [|split]]; try done.
- etrans; [apply calculate_cost_instance|exact Hi].
- etrans; [apply GreedyFacts.calculate_cost_routes|exact Hr].
Qed.

Lemma lists_customers cs (rl : list (nat * list Z)) e c :
  concat rl.*2 ≡ₚ cs -> e ∈ rl -> c ∈ e.2 -> c ∈ cs.
Proof.
intros Hcat He Hc. rewrite <- Hcat.
apply list_elem_of_In, in_concat. exists e.2.
split; apply list_elem_of_In; [|done].
apply list_elem_of_fmap. by exists e.
Qed.

(** The solution that [construct] returns: each customer once, on round
    trips, and the demand of a route made by merging fits the capacity of the
    instance. *)
Lemma construct_returns s :
  construct dict_keys inst = Returned s ->
  Solution.instance s = Some inst
  /\ GreedyConstruction.served depot (Solution.routes s)
     ≡ₚ elements (dom (VRPInstance.demands inst) ∖ {[depot]})
  /\ Forall (ConstructionFacts.round_trip depot) (Solution.routes s)
  /\ Forall (fun route =>
               (exists c, route = [depot; c; depot]
                          /\ c ∈ dom (VRPInstance.demands inst) /\ c ≠ depot)
               \/ Solution.route_load inst route <= VRPInstance.capacity inst)
            (Solution.routes s).
Proof.
intros Hs. pose proof construct_spec as Hspec. pose proof customers_spec as Hcs.
destruct (customers dict_keys inst) as [cs|]; [|congruence].
destruct Hcs as (Hd & Hout & Hnd & Hperm).
destruct Hspec as (s' & rl & Hs' & Hi & Hr & Hcat & Hall).
rewrite Hs in Hs'. inversion Hs'; subst s'; clear Hs'.
assert (Hno : forall e, e ∈ rl -> depot ∉ e.2).
{ intros e He Hde. apply Hout. by eapply lists_customers. }
split; [done|]. rewrite Hr. split; [|split].
- rewrite served_lists by done. by rewrite Hcat.
- apply Forall_forall. intros route Hroute.
  apply list_elem_of_In, in_map_iff in Hroute as (e & <- & He).
  apply list_elem_of_In in He.
  rewrite Forall_forall in Hall. destruct (Hall e He) as [Hne _].
  destruct (e.2) as [|c l] eqn:He2; [done|].
  exists c, l. split; [done|]. rewrite <- He2. by apply Hno.
- apply Forall_forall. intros route Hroute.
  apply list_elem_of_In, in_map_iff in Hroute as (e & <- & He).
  apply list_elem_of_In in He.
  rewrite Forall_forall in Hall. destruct (Hall e He) as [Hne [Hone|Hload]].
  + left. destruct (e.2) as [|c [|c' l]] eqn:He2; try done.
    exists c. split; [done|].
    assert (Hc : c ∈ cs).
    { eapply lists_customers; [exact Hcat|exact He|]. rewrite He2. constructor. }
    rewrite Hperm in Hc. apply elem_of_elements in Hc. set_solver.
  + right. rewrite ConstructionFacts.route_load_closed by (by apply Hno).
    by rewrite <- load_total_demand.
Qed.

End Construct.

(** When the depot has an entry in [demands], [SavingsAlgorithm.construct]
    returns a solution in which every customer of the instance is served
    exactly once, on routes that go from the depot through at least one
    customer and back.  When the depot has no entry in [demands], the call
    raises the [ValueError] of [customers.remove(depot)] instead. *)
Theorem savings_serves_each_customer_once
    (dict_keys : gmap Z Z -> list Z) (inst : VRPInstance.t) :
  (forall m, NoDup (dict_keys m)) ->
  (forall m k, k ∈ dict_keys m <-> k ∈ dom m) ->
  (VRPInstance.depot inst ∈ dom (VRPInstance.demands inst) ->
   exists s, construct dict_keys inst = Returned s
     /\ GreedyConstruction.served (VRPInstance.depot inst) (Solution.routes s)
        ≡ₚ elements (dom (VRPInstance.demands inst) ∖ {[VRPInstance.depot inst]})
     /\ NoDup (GreedyConstruction.served (VRPInstance.depot inst) (Solution.routes s))
     /\ Forall (ConstructionFacts.round_trip (VRPInstance.depot inst)) (Solution.routes s))
  /\ (VRPInstance.depot inst ∉ dom (VRPInstance.demands inst) ->
      construct dict_keys inst = Raised ListRemove).
Proof.
intros Hnd Helem.
pose proof (construct_spec dict_keys Hnd Helem inst) as Hspec.
pose proof (customers_spec dict_keys Hnd Helem inst) as Hcs.
destruct (customers dict_keys inst) as [cs|].
- destruct Hcs as (Hd & _). destruct Hspec as (s & rl & Hs & _).
  split; [|done]. intros _. exists s. split; [done|].
  destruct (construct_returns dict_keys Hnd Helem inst s Hs) as (_ & Hserved & Htrips & _).
  split; [done|]. split; [|done]. rewrite Hserved. apply NoDup_elements.
- split; [done|]. by intros _.
Qed.

Lemma savings_serves_each_customer_once_witness :
  (0 ∈ dom (VRPInstance.demands Examples.inst3) ->
   exists s, construct (fun m => elements (dom m)) Examples.inst3 = Returned s
     /\ GreedyConstruction.served 0 (Solution.routes s)
        ≡ₚ elements (dom (VRPInstance.demands Examples.inst3) ∖ {[0]})
     /\ NoDup (GreedyConstruction.served 0 (Solution.routes s))
     /\ Forall (ConstructionFacts.round_trip 0) (Solution.routes s))
  /\ (0 ∉ dom (VRPInstance.demands Examples.inst3) ->
      construct (fun m => elements (dom m)) Examples.inst3 = Raised ListRemove).
Proof.
apply (savings_serves_each_customer_once (fun m => elements (dom m)) Examples.inst3).
- intros m. apply NoDup_elements.
- intros m k. apply elem_of_elements.
Defined.

(** In the solution that [SavingsAlgorithm.construct] returns, a route that
    serves more than one customer carries at most the capacity of the
    instance: routes are merged only when their joint demand fits
    [instance.capacity] (the per-vehicle capacities are not looked at). *)
Theorem savings_merged_routes_fit_capacity
    (dict_keys : gmap Z Z -> list Z) (inst : VRPInstance.t) (s : Solution.t) :
  (forall m, NoDup (dict_keys m)) ->
  (forall m k, k ∈ dict_keys m <-> k ∈ dom m) ->
  construct dict_keys inst = Returned s ->
  forall route, route ∈ Solution.routes s -> (3 < length route)%nat ->
                Solution.route_load inst route <= VRPInstance.capacity inst.
Proof.
intros Hnd Helem Hs route Hroute Hlen.
destruct (construct_returns dict_keys Hnd Helem inst s Hs) as (_ & _ & _ & Hall).
rewrite Forall_forall in Hall.
destruct (Hall route Hroute) as [(c & -> & _)|Hload]; [simpl in Hlen; lia|done].
Qed.

Lemma savings_merged_routes_fit_capacity_witness :
  exists s,
    construct (fun m => elements (dom m)) Examples.inst_line3 = Returned s
    /\ forall route, route ∈ Solution.routes s -> (3 < length route)%nat ->
                     Solution.route_load Examples.inst_line3 route <= 20.
Proof.
eexists. split; [reflexivity|].
apply (savings_merged_routes_fit_capacity (fun m => elements (dom m))
         Examples.inst_line3).
- intros m. apply NoDup_elements.
- intros m k. apply elem_of_elements.
- reflexivity.
Defined.

End SavingsFacts.

(** ** Constructions that are feasible *)

Module ConstructionFeasibility.

(** A fleet of identical vehicles, each able to carry any single customer. *)
Definition homogeneous (inst : VRPInstance.t) : Prop :=
  Forall (fun c => c = VRPInstance.capacity inst) (VRPInstance.vehicle_capacities inst).

Definition each_demand_fits (inst : VRPInstance.t) : Prop :=
  forall c, c ∈ dom (VRPInstance.demands inst) -> c ≠ VRPInstance.depot inst ->
            VRPInstance.demand inst c <= VRPInstance.capacity inst.

Lemma homogeneous_capacity inst i :
  homogeneous inst -> Solution.vehicle_capacity inst i = VRPInstance.capacity inst.
Proof.
intros Hh. unfold Solution.vehicle_capacity.
destruct (VRPInstance.vehicle_capacities inst !! i) as [c|] eqn:Hc; [|done].
by apply (Forall_lookup_1 _ _ _ _ Hh Hc).
Qed.

Lemma single_customer_load inst c :
  c ≠ VRPInstance.depot inst ->
  Solution.route_load inst [VRPInstance.depot inst; c; VRPInstance.depot inst]
  = VRPInstance.demand inst c.
Proof.
intros Hc.
change [VRPInstance.depot inst; c; VRPInstance.depot inst]
  with (VRPInstance.depot inst :: [c] ++ [VRPInstance.depot inst]).
rewrite ConstructionFacts.route_load_closed.
- rewrite ConstructionFacts.total_demand_cons.
  unfold ConstructionFacts.total_demand. simpl. lia.
- intros H. apply list_elem_of_singleton in H. congruence.
Qed.

Lemma served_all inst (routes : list (list Z)) :
  GreedyConstruction.served (VRPInstance.depot inst) routes
  ≡ₚ elements (dom (VRPInstance.demands inst) ∖ {[VRPInstance.depot inst]}) ->
  FeasibilityFacts.served_once inst routes /\ FeasibilityFacts.all_served inst routes.
Proof.
intros Hperm. split.
- unfold FeasibilityFacts.served_once. rewrite Hperm. apply NoDup_elements.
- intros c Hc Hd. rewrite Hperm. apply elem_of_elements. set_solver.
Qed.

(** On an instance without time windows, with a fleet of identical vehicles
    (every entry of [vehicle_capacities] is [capacity]) and no customer whose
    demand exceeds that capacity, the solution that
    [GreedyConstruction.construct] returns passes [Solution.is_feasible]:
    the call returns [True]. *)
Theorem greedy_solution_is_feasible
    (set_iter : gset Z -> list Z) (message : Solution.violation -> string)
    (inst : VRPInstance.t) :
  (forall (X : gset Z) (x : Z), x ∈ set_iter X <-> x ∈ X) ->
  VRPInstance.time_windows inst = ∅ ->
  homogeneous inst -> each_demand_fits inst ->
  exists s s', GreedyConstruction.construct set_iter inst = Some s
               /\ Solution.is_feasible message s = Some (true, s').
Proof.
intros Hiter Hw Hh Hfit.
destruct (ConstructionFacts.construct_good set_iter Hiter inst
            (fun route => Solution.route_load inst route <= VRPInstance.capacity inst))
  as (s & Hs & Hall).
- intros U vid route U' Hd Hsub Hbr Hne.
  destruct (ConstructionFacts.build_route_load set_iter Hiter inst U vid route U'
              Hd Hbr Hne) as (c & cs & _ & _ & Hload).
  by rewrite homogeneous_capacity in Hload.
- intros c Hc. apply elem_of_difference in Hc as [Hc Hd].
  rewrite single_customer_load by set_solver. apply Hfit; [done|set_solver].
- destruct (GreedyFacts.construct_covers set_iter Hiter inst) as (s0 & Hs0 & Hperm).
  rewrite Hs in Hs0. inversion Hs0; subst s0; clear Hs0.
  destruct (served_all inst _ Hperm) as [Honce Hserved].
  destruct (FeasibilityFacts.is_feasible_true message s inst) as [s' Hs']; try done.
  + by eapply ConstructionFacts.construct_instance.
  + intros i route Hroute. rewrite homogeneous_capacity by done.
    by apply (Forall_lookup_1 _ _ _ _ Hall Hroute).
  + apply Forall_forall. intros route _. by apply FeasibilityFacts.no_windows_on_time.
  + by exists s, s'.
Qed.

Lemma greedy_solution_is_feasible_witness :
  exists s s', GreedyConstruction.construct elements Examples.inst3 = Some s
               /\ Solution.is_feasible (fun _ => String.EmptyString) s = Some (true, s').
Proof.
apply (greedy_solution_is_feasible elements (fun _ => String.EmptyString) Examples.inst3).
- intros X x. apply elem_of_elements.
- reflexivity.
- repeat constructor.
- intros c Hc Hd. vm_compute in Hc.
  assert (Hcases : c = 0 \/ c = 1 \/ c = 2).
  { change (c ∈ dom (VRPInstance.demands Examples.inst3)) in Hc.
    unfold Examples.inst3 in Hc. simpl in Hc. set_solver. }
  destruct Hcases as [-> | [-> | ->]]; vm_compute; congruence.
Defined.

(** Under the same conditions, and when the depot has an entry in [demands],
    the solution that [SavingsAlgorithm.construct] returns passes
    [Solution.is_feasible]. *)
Theorem savings_solution_is_feasible
    (dict_keys : gmap Z Z -> list Z) (message : Solution.violation -> string)
    (inst : VRPInstance.t) :
  (forall m, NoDup (dict_keys m)) ->
  (forall m k, k ∈ dict_keys m <-> k ∈ dom m) ->
  VRPInstance.depot inst ∈ dom (VRPInstance.demands inst) ->
  VRPInstance.time_windows inst = ∅ ->
  homogeneous inst -> each_demand_fits inst ->
  exists s s', SavingsAlgorithm.construct dict_keys inst = Returned s
               /\ Solution.is_feasible message s = Some (true, s').
Proof.
intros Hnd Helem Hdepot Hw Hh Hfit.
pose proof (SavingsFacts.construct_spec dict_keys Hnd Helem inst) as Hspec.
pose proof (SavingsFacts.customers_spec dict_keys Hnd Helem inst) as Hcs.
destruct (SavingsAlgorithm.customers dict_keys inst) as [cs|]; [|done].
destruct Hspec as (s & rl & Hs & _).
destruct (SavingsFacts.construct_returns dict_keys Hnd Helem inst s Hs)
  as (Hi & Hperm & _ & Hall).
destruct (served_all inst _ Hperm) as [Honce Hserved].
destruct (FeasibilityFacts.is_feasible_true message s inst) as [s' Hs']; try done.
- intros i route Hroute. rewrite homogeneous_capacity by done.
  destruct (Forall_lookup_1 _ _ _ _ Hall Hroute) as [(c & -> & Hc & Hd)|Hload]; [|done].
  rewrite single_customer_load by done. by apply Hfit.
- apply Forall_forall. intros route _. by apply FeasibilityFacts.no_windows_on_time.
- by exists s, s'.
Qed.

Lemma savings_solution_is_feasible_witness :
  exists s s',
    SavingsAlgorithm.construct (fun m => elements (dom m)) Examples.inst_line3 = Returned s
    /\ Solution.is_feasible (fun _ => String.EmptyString) s = Some (true, s').
Proof.
apply (savings_solution_is_feasible (fun m => elements (dom m))
         (fun _ => String.EmptyString) Examples.inst_line3).
- intros m. apply NoDup_elements.
- intros m k. apply elem_of_elements.
- vm_compute. reflexivity.
- reflexivity.
- repeat constructor.
- intros c Hc Hd.
  assert (Hcases : c = 0 \/ c = 1 \/ c = 2 \/ c = 3).
  { unfold Examples.inst_line3 in Hc. simpl in Hc. set_solver. }
  destruct Hcases as [->|[-> | [-> | ->]]]; vm_compute; congruence.
Defined.

End ConstructionFeasibility.

(** ** The solver, from construction to search *)

Module PipelineFacts.
Import VRPSolver.

(** Every customer of the instance is on exactly one route, once, and every
    route leaves from the depot and comes back to it. *)
Definition complete (inst : VRPInstance.t) (routes : list (list Z)) : Prop :=
  GreedyConstruction.served (VRPInstance.depot inst) routes
  ≡ₚ elements (dom (VRPInstance.demands inst) ∖ {[VRPInstance.depot inst]})
  /\ Forall (NeighborhoodFacts.closed (VRPInstance.depot inst)) routes.

Lemma round_trip_closed depot route :
  ConstructionFacts.round_trip depot route -> NeighborhoodFacts.closed depot route.
Proof.
intros (c & cs & -> & _). split; [done|]. split.
- change (depot :: (c :: cs) ++ [depot]) with ((depot :: c :: cs) ++ [depot]).
  by rewrite last_snoc.
- simpl. lia.
Qed.

Lemma rearranged_complete inst rs rs' :
  NeighborhoodFacts.rearranged (VRPInstance.depot inst) rs rs' ->
  complete inst rs -> complete inst rs'.
Proof.
intros Hre [Hserved Hclosed]. split.
- by rewrite (NeighborhoodFacts.rearranged_served _ _ _ Hre).
- destruct Hre as (_ & _ & Hc). by apply Hc.
Qed.

Section Pipeline.

Variable set_iter : gset Z -> list Z.
Variable dict_keys : gmap Z Z -> list Z.
Hypothesis set_iter_elem : forall (X : gset Z) (x : Z), x ∈ set_iter X <-> x ∈ X.
Hypothesis dict_keys_nodup : forall m, NoDup (dict_keys m).
Hypothesis dict_keys_elem : forall m k, k ∈ dict_keys m <-> k ∈ dom m.
Variable metropolis : Q -> Q -> Q -> option bool.
Variable fuel : nat.
Variable inst : VRPInstance.t.

Lemma greedy_complete s :
  greedy_construct set_iter inst = Returned s -> complete inst (Solution.routes s).
Proof.
unfold greedy_construct. intros Hs.
destruct (ConstructionFacts.construct_good set_iter set_iter_elem inst
            (ConstructionFacts.round_trip (VRPInstance.depot inst)))
  as (s1 & Hs1 & Hall).
- intros U vid route U' Hd Hsub Hbr Hne.
  destruct (ConstructionFacts.build_route_load set_iter set_iter_elem inst U vid route U'
              Hd Hbr Hne) as (c & cs & -> & Hin & _).
  exists c, cs. split; [done|]. intros H. by apply Hd, Hin.
- intros c Hc. exists c, []. split; [done|]. set_solver.
- destruct (GreedyFacts.construct_covers set_iter set_iter_elem inst)
    as (s2 & Hs2 & Hperm).
  rewrite Hs1 in Hs2. inversion Hs2; subst s2; clear Hs2.
  rewrite Hs1 in Hs. inversion Hs; subst s1; clear Hs.
  split; [done|]. eapply Forall_impl; [exact Hall|].
  intros route. apply round_trip_closed.
Qed.

Lemma savings_complete s :
  SavingsAlgorithm.construct dict_keys inst = Returned s ->
  complete inst (Solution.routes s).
Proof.
intros Hs.
destruct (SavingsFacts.construct_returns dict_keys dict_keys_nodup dict_keys_elem inst s Hs)
  as (_ & Hperm & Hall & _).
split; [done|]. eapply Forall_impl; [exact Hall|].
intros route. apply round_trip_closed.
Qed.

Lemma initial_complete method log s :
  _create_initial_solution set_iter dict_keys inst method = (log, Returned s) ->
  complete inst (Solution.routes s).
Proof.
unfold _create_initial_solution. intros H.
repeat case_decide; inversion H; subst;
  first [by apply greedy_complete | by apply savings_complete].
Qed.

Lemma recomputed_complete r s :
  (forall s0, r = Returned s0 -> complete inst (Solution.routes s0)) ->
  recomputed r = Returned s -> complete inst (Solution.routes s).
Proof.
intros Hr H. destruct r as [s0| |]; simpl in H; try done.
inversion H; subst. rewrite GreedyFacts.calculate_cost_routes. by apply Hr.
Qed.

Lemma solve_complete algorithm kw g log s :
  solve set_iter dict_keys metropolis fuel inst algorithm kw g = (log, Returned s) ->
  complete inst (Solution.routes s).
Proof.
unfold solve. intros H. case_decide as Hsearch.
- destruct (_create_initial_solution _ _ _ _) as [log0 [s0|e|]] eqn:Hinit;
    [|by inversion H|by inversion H].
  apply initial_complete in Hinit. case_decide.
  + inversion H as [[Hlog Hrun]]. unfold _solve_simulated_annealing in Hrun.
    destruct (SimulatedAnnealing.solve _ _ _ _ _ _ _ _ _ _ _) as [[best st]| |] eqn:Hsa;
      try done.
    inversion Hrun; subst.
    apply NeighborhoodFacts.annealing_solve_keeps in Hsa.
    by eapply rearranged_complete.
  + inversion H as [[Hlog Hrun]]. eapply rearranged_complete; [|exact Hinit].
    apply NeighborhoodFacts.tabu_solve_keeps.
- repeat case_decide; inversion H as [[Hlog Hrun]].
  + eapply recomputed_complete; [|exact Hrun]. apply greedy_complete.
  + eapply recomputed_complete; [|exact Hrun]. apply savings_complete.
Qed.

End Pipeline.

(** Whatever the algorithm asked for, the construction it starts from, the
    parameters and the random draws: when [VRPSolver.solve] returns a
    solution, every customer of the instance is on exactly one of its routes,
    once, and every route leaves from the depot and comes back to it. *)
Theorem solve_returns_complete_solution
    (set_iter : gset Z -> list Z) (dict_keys : gmap Z Z -> list Z)
    (metropolis : Q -> Q -> Q -> option bool) (fuel : nat)
    (inst : VRPInstance.t) (algorithm : string) (kw : kwargs) (g : Random.t)
    (log : list event) (s : Solution.t) :
  (forall (X : gset Z) (x : Z), x ∈ set_iter X <-> x ∈ X) ->
  (forall m, NoDup (dict_keys m)) ->
  (forall m k, k ∈ dict_keys m <-> k ∈ dom m) ->
  solve set_iter dict_keys metropolis fuel inst algorithm kw g = (log, Returned s) ->
  GreedyConstruction.served (VRPInstance.depot inst) (Solution.routes s)
  ≡ₚ elements (dom (VRPInstance.demands inst) ∖ {[VRPInstance.depot inst]})
  /\ Forall (NeighborhoodFacts.closed (VRPInstance.depot inst)) (Solution.routes s).
Proof.
intros Hiter Hnd Helem Hrun.
exact (solve_complete set_iter dict_keys Hiter Hnd Helem metropolis fuel inst
         algorithm kw g log s Hrun).
Qed.

Abbreviation tabu_line3 :=
  (solve elements (fun m => elements (dom m)) Examples.coin 4%nat Examples.inst_line3
         "tabu_search"
         (mk_kwargs (Some "savings"%string) None None None (Some 3) None None None)
         Examples.counting).

Lemma solve_returns_complete_solution_witness :
  exists log s,
    tabu_line3 = (log, Returned s)
    /\ GreedyConstruction.served 0 (Solution.routes s)
       ≡ₚ elements (({[0; 1; 2; 3]} ∖ {[0]})%Z : gset Z)
    /\ Forall (NeighborhoodFacts.closed 0) (Solution.routes s).
Proof.
destruct tabu_line3 as [log [s| |]] eqn:Hrun.
- exists log, s. split; [reflexivity|].
  apply (solve_returns_complete_solution elements (fun m => elements (dom m))
           Examples.coin 4%nat Examples.inst_line3 "tabu_search"
           (mk_kwargs (Some "savings"%string) None None None (Some 3) None None None)
           Examples.counting log s).
  + intros X x. apply elem_of_elements.
  + intros m. apply NoDup_elements.
  + intros m k. apply elem_of_elements.
  + exact Hrun.
- vm_compute in Hrun. discriminate.
- vm_compute in Hrun. discriminate.
Defined.

End PipelineFacts.

(** ** Editing a solution *)

Module EditingFacts.
Import Solution.

Lemma elem_of_concat (x : Z) (ls : list (list Z)) :
  x ∈ concat ls <-> exists l, l ∈ ls /\ x ∈ l.
Proof.
induction ls as [|l ls IH]; simpl.
- split; [by intros H; inversion H|]. intros (l & H & _). inversion H.
- rewrite elem_of_app, IH. split.
  + intros [H|(l' & H1 & H2)]; [exists l; split; [constructor|done]|].
    exists l'. split; [by constructor|done].
  + intros (l' & H1 & H2). apply elem_of_cons in H1 as [->|H1]; [by left|].
    right. by exists l'.
Qed.

Lemma py_remove_app_l x (l1 : list Z) l2 : forall l1',
  py_remove x l1 = Some l1' -> py_remove x (l1 ++ l2) = Some (l1' ++ l2).
Proof.
induction l1 as [|y l1 IH]; intros l1' H; simpl in *; [done|].
case_decide; [by inversion H|].
destruct (py_remove x l1) as [l|]; simpl in H; [|done].
inversion H; subst. by rewrite (IH l eq_refl).
Qed.

Lemma py_remove_app_r x (l1 l2 : list Z) :
  x ∉ l1 -> py_remove x (l1 ++ l2) = (l1 ++.) <$> py_remove x l2.
Proof.
induction l1 as [|y l1 IH]; intros H; simpl.
- by destruct (py_remove x l2).
- apply not_elem_of_cons in H as [Hy Hl1].
  rewrite decide_False by done. rewrite IH by done.
  by destruct (py_remove x l2).
Qed.

Lemma py_remove_elem x (l : list Z) : x ∈ l -> is_Some (py_remove x l).
Proof.
induction l as [|y l IH]; intros H; simpl; [by inversion H|].
case_decide; [eauto|].
apply elem_of_cons in H as [->|H]; [done|].
destruct (IH H) as [l' ->]. simpl. eauto.
Qed.

Lemma py_remove_perm x (l : list Z) : forall l',
  py_remove x l = Some l' -> l ≡ₚ x :: l'.
Proof.
induction l as [|y l IH]; intros l' H; simpl in *; [done|].
case_decide; [inversion H; by subst|].
destruct (py_remove x l) as [l0|]; simpl in H; [|done].
inversion H; subst. rewrite (IH l0 eq_refl). apply Permutation_swap.
Qed.

(** The first route that holds the customer, and what [list.remove] makes of
    it, seen on the routes laid end to end. *)
Lemma remove_from_routes c (rs : list (list Z)) :
  match list_find (fun route => c ∈ route) rs with
  | Some (i, route) =>
      rs !! i = Some route /\ c ∈ route
      /\ exists route', py_remove c route = Some route'
           /\ py_remove c (concat rs) = Some (concat (<[i := route']> rs))
  | None => c ∉ concat rs
  end.
Proof.
induction rs as [|r rs IH]; simpl; [by intros H; inversion H|].
case_decide as Hr.
- split; [done|]. split; [done|]. destruct (py_remove_elem c r Hr) as [r' Hr'].
  exists r'. split; [done|]. simpl. by apply py_remove_app_l.
- destruct (list_find _ rs) as [[i route]|]; simpl.
  + destruct IH as (Hi & Hc & route' & H1 & H2). split; [done|]. split; [done|].
    exists route'. split; [done|]. rewrite py_remove_app_r by done. by rewrite H2.
  + rewrite elem_of_app. tauto.
Qed.



(** Where [insert_customer] puts the customer in a route: the position it
    hands to [list.insert], after its own correction and that of the list. *)
Definition landing (position : Z) (route : list Z) : nat :=
  let n := Z.of_nat (length route) in
  let position :=
    if decide (position = 0) then 1
    else if decide (position >= n) then n - 1 else position in
  Z.to_nat (if decide (position < 0) then Z.max 0 (n + position) else Z.min position n).

Lemma insert_customer_lands (s : t) (customer route_idx position : Z) r route :
  py_resolve (length (routes s)) route_idx = Some r ->
  routes s !! r = Some route ->
  insert_customer s customer route_idx position
  = Some (set_routes s (<[r := py_insert (landing position route) customer route]>
                          (routes s))).
Proof.
intros Hr Hroute. unfold insert_customer.
assert (route_idx < Z.of_nat (length (routes s))).
{ unfold py_resolve in Hr. repeat case_decide; try done; lia. }
rewrite decide_True by done. rewrite Hr. simpl. rewrite Hroute. simpl. done.
Qed.

Lemma py_remove_split x (l : list Z) : forall l',
  py_remove x l = Some l' ->
  exists pre post, l = pre ++ x :: post /\ x ∉ pre /\ l' = pre ++ post.
Proof.
induction l as [|y l IH]; intros l' H; simpl in *; [done|].
case_decide as Hy.
- inversion H; subst. exists [], l'. split; [done|].
  split; [by intros Hin; inversion Hin|done].
- destruct (py_remove x l) as [l0|]; simpl in H; [|done]. inversion H; subst.
  destruct (IH l0 eq_refl) as (pre & post & -> & Hpre & ->).
  exists (y :: pre), post. split; [done|]. split; [|done].
  apply not_elem_of_cons. split; [congruence|done].
Qed.

Lemma holds_sol3 :
  Store.holds Examples.heap_sol3 (Store.routes Examples.stored_sol3)
    (routes Examples.sol3).
Proof.
exists [1; 2]%nat. split; [done|]. split; [|by repeat constructor].
apply NoDup_ListNoDup. repeat constructor; simpl; intuition lia.
Qed.

(** [remove_customer] never raises.  On a solution whose routes are list
    objects of their own, what it does to the objects is what
    [Solution.remove_customer] does to the values.  It returns [True] exactly
    when some route holds the customer, and then takes out one visit: the
    first occurrence of the customer in the first route that holds it (the
    first depot of the first route when asked for the depot).  Every other
    node of that route, every other route and every other field of the
    solution is as it was.  It returns [False] and leaves the solution and
    the objects as they are when no route holds the customer. *)
Theorem remove_customer_takes_first_visit (s : t) (customer : Z)
    (h : Store.heap) (g : Random.t) (stored : Store.solution) :
  Store.holds h (Store.routes stored) (routes s) ->
  exists s' h',
    remove_customer s customer = Some (bool_decide (customer ∈ concat (routes s)), s')
    /\ Store.remove_customer stored customer (h, g)
       = Some (bool_decide (customer ∈ concat (routes s)), (h', g))
    /\ Store.holds h' (Store.routes stored) (routes s')
    /\ length (routes s') = length (routes s)
    /\ (customer ∉ concat (routes s) -> s' = s /\ h' = h)
    /\ (customer ∈ concat (routes s) ->
        py_remove customer (concat (routes s)) = Some (concat (routes s'))
        /\ concat (routes s) ≡ₚ customer :: concat (routes s')
        /\ exists i pre post,
             routes s !! i = Some (pre ++ customer :: post)
             /\ customer ∉ pre
             /\ (forall j route, (j < i)%nat -> routes s !! j = Some route ->
                                 customer ∉ route)
             /\ s' = set_routes s (<[i := pre ++ post]> (routes s))).
Proof.
intros Hh. unfold remove_customer, get_customer_route.
assert (Hget : Store.get_customer_route stored customer (h, g)
               = Some (fst <$> list_find (fun route => customer ∈ route) (routes s),
                       (h, g))).
{ unfold Store.get_customer_route.
  by rewrite (StoreFacts.bind_run _ _ _ _ _ (StoreFacts.snapshot_holds _ g _ _ Hh)). }
unfold Store.remove_customer. rewrite (StoreFacts.bind_run _ _ _ _ _ Hget).
pose proof (remove_from_routes customer (routes s)) as H.
destruct (list_find _ (routes s)) as [[i route]|] eqn:Hfind; simpl.
- destruct H as (Hi & Hc & route' & H1 & H2). rewrite Hi. simpl. rewrite H1. simpl.
  destruct (StoreFacts.remove_holds h g _ _ i customer route route' Hh Hi H1)
    as (h' & Hrun & Hh').
  rewrite (StoreFacts.bind_run _ _ _ _ _ Hrun).
  assert (Hin : customer ∈ concat (routes s)).
  { apply elem_of_concat. exists route. split; [|done].
    by eapply list_elem_of_lookup_2. }
  rewrite bool_decide_eq_true_2 by done.
  eexists _, h'. split; [done|]. split; [done|]. simpl. split; [done|].
  split; [by rewrite length_insert|]. split; [done|].
  intros _. split; [done|]. split; [by apply py_remove_perm|].
  destruct (py_remove_split _ _ _ H1) as (pre & post & -> & Hpre & ->).
  exists i, pre, post. split; [done|]. split; [done|]. split; [|done].
  apply list_find_Some in Hfind as (_ & _ & Hfirst).
  intros j r Hj Hr. by apply (Hfirst j r).
- rewrite bool_decide_eq_false_2 by done.
  exists s, h. split; [done|]. split; [done|]. split; [done|]. split; [done|].
  split; [done|]. intros Hin. by destruct H.
Qed.

Lemma remove_customer_takes_first_visit_witness :
  exists s' h',
    remove_customer Examples.sol3 0 = Some (true, s')
    /\ Store.remove_customer Examples.stored_sol3 0 (Examples.heap_sol3, Examples.counting)
       = Some (true, (h', Examples.counting))
    /\ Store.holds h' (Store.routes Examples.stored_sol3) (routes s')
    /\ routes s' = [[1; 0]; [0; 2; 0]].
Proof.
destruct (remove_customer_takes_first_visit Examples.sol3 0 Examples.heap_sol3
            Examples.counting Examples.stored_sol3 holds_sol3)
  as (s' & h' & Hrun & Hobj & Hh' & _).
exists s', h'. split; [exact Hrun|]. split; [exact Hobj|]. split; [exact Hh'|].
vm_compute in Hrun. by inversion Hrun.
Defined.



(** In a route of two nodes or more, for every position above minus the
    length of the route, [insert_customer] puts the customer strictly
    between the first and the last node: a route that leaves from the depot
    and comes back to it still does. *)
Theorem insert_customer_lands_inside (s : t) (customer route_idx position : Z)
    (r : nat) (route : list Z) (depot : Z) :
  py_resolve (length (routes s)) route_idx = Some r ->
  routes s !! r = Some route ->
  (2 <= length route)%nat ->
  - Z.of_nat (length route) < position ->
  exists k, (1 <= k < length route)%nat
    /\ insert_customer s customer route_idx position
       = Some (set_routes s (<[r := py_insert k customer route]> (routes s)))
    /\ (NeighborhoodFacts.closed depot route ->
        NeighborhoodFacts.closed depot (py_insert k customer route)).
Proof.
intros Hr Hroute Hlen Hpos. exists (landing position route).
assert (Hk : (1 <= landing position route < length route)%nat).
{ unfold landing. repeat case_decide; lia. }
split; [done|]. split; [by apply insert_customer_lands|].
intros Hc. apply NeighborhoodFacts.py_insert_closed; [done|lia|lia].
Qed.

Lemma insert_customer_lands_inside_witness :
  exists k, (1 <= k < 3)%nat
    /\ insert_customer Examples.sol3 7 0 0
       = Some (set_routes Examples.sol3
                 (<[0%nat := py_insert k 7 [0; 1; 0]]> (routes Examples.sol3)))
    /\ (NeighborhoodFacts.closed 0 [0; 1; 0] ->
        NeighborhoodFacts.closed 0 (py_insert k 7 [0; 1; 0])).
Proof.
apply (insert_customer_lands_inside Examples.sol3 7 0 0 0%nat [0; 1; 0] 0).
- reflexivity.
- reflexivity.
- simpl. lia.
- simpl. lia.
Defined.

(** What [insert_customer] does outside the ranges it corrects.  A route
    index at or past the number of routes is ignored: the solution is left
    as it is and nothing is raised.  A route index below minus the number of
    routes raises [IndexError].  A position at or below minus the length of
    the route puts the customer before the first node of the route, ahead of
    its depot: the correction of the position covers 0 and the positions
    past the end only. *)
Theorem insert_customer_outside_ranges (s : t) (customer route_idx position : Z) :
  (Z.of_nat (length (routes s)) <= route_idx ->
   insert_customer s customer route_idx position = Some s)
  /\ (route_idx < - Z.of_nat (length (routes s)) ->
      insert_customer s customer route_idx position = None)
  /\ (forall r route,
        py_resolve (length (routes s)) route_idx = Some r ->
        routes s !! r = Some route ->
        position <= - Z.of_nat (length route) ->
        insert_customer s customer route_idx position
        = Some (set_routes s (<[r := customer :: route]> (routes s)))).
Proof.
split; [|split].
- intros H. unfold insert_customer. by rewrite decide_False by lia.
- intros H. unfold insert_customer, py_resolve.
  rewrite decide_True by lia. rewrite decide_False by lia.
  by rewrite decide_False by lia.
- intros r route Hr Hroute Hpos.
  rewrite (insert_customer_lands s customer route_idx position r route Hr Hroute).
  assert (Hk : landing position route = 0%nat).
  { unfold landing. repeat case_decide; lia. }
  by rewrite Hk.
Qed.

Lemma insert_customer_outside_ranges_witness :
  insert_customer Examples.sol3 7 2 1 = Some Examples.sol3
  /\ insert_customer Examples.sol3 7 (-3) 1 = None
  /\ insert_customer Examples.sol3 7 0 (-3)
     = Some (set_routes Examples.sol3 [[7; 0; 1; 0]; [0; 2; 0]]).
Proof.
destruct (insert_customer_outside_ranges Examples.sol3 7 2 1) as (H1 & _ & _).
destruct (insert_customer_outside_ranges Examples.sol3 7 (-3) 1) as (_ & H2 & _).
destruct (insert_customer_outside_ranges Examples.sol3 7 0 (-3)) as (_ & _ & H3).
split; [apply H1; simpl; lia|]. split; [apply H2; simpl; lia|].
apply (H3 0%nat [0; 1; 0]); [reflexivity|reflexivity|simpl; lia].
Defined.

End EditingFacts.

(** ** The lists that [calculate_cost] fills *)

Module MetricsFacts.
Import Solution.

Section Metrics.
Variable inst : VRPInstance.t.

Lemma route_load_cons x (route : list Z) :
  route_load inst (x :: route)
  = (if decide (x = VRPInstance.depot inst) then 0 else VRPInstance.demand inst x)
    + route_load inst route.
Proof.
unfold route_load. case_decide.
- by rewrite filter_cons_False by (intros H'; by apply H').
- rewrite filter_cons_True by done. simpl.
  rewrite ConstructionFacts.fold_left_add. lia.
Qed.

Lemma metrics_step_load route a i :
  a_load (metrics_step inst route a i)
  = a_load a + (if decide (nth (S i) route 0 = VRPInstance.depot inst) then 0
                else VRPInstance.demand inst (nth (S i) route 0)).
Proof.
unfold metrics_step. case_decide; simpl; lia.
Qed.

(** The load accumulated by the indexed loop is the demand of every node of
    the route but the first, depot visits left out. *)
Lemma fold_metrics_load route : forall a,
  a_load (fold_left (metrics_step inst route) (seq 0 (length route - 1)) a)
  = a_load a + route_load inst (tail route).
Proof.
induction route as [|x route IH]; intros a.
- simpl. unfold route_load. simpl. lia.
- destruct route as [|y route].
  + simpl. unfold route_load. simpl. lia.
  + replace (length (x :: y :: route) - 1)%nat with (S (length (y :: route) - 1))
      by (simpl; lia).
    simpl seq. simpl fold_left. rewrite SolutionFacts.fold_metrics_shift, IH.
    rewrite metrics_step_load. simpl tail. rewrite (route_load_cons y). simpl nth. lia.
Qed.

Lemma waiting_nonneg c (time : Q) :
  (0 <= VRPInstance.get_waiting_time inst c time)%Q.
Proof.
unfold VRPInstance.get_waiting_time.
destruct (VRPInstance.time_windows inst !! c) as [[early late]|]; [|lra].
apply max0_nonneg.
Qed.

Lemma metrics_step_time route a i :
  (forall c, 0 <= VRPInstance.service_time inst c) ->
  (a_distance a <= a_time a)%Q ->
  (a_distance (metrics_step inst route a i) <= a_time (metrics_step inst route a i))%Q.
Proof.
intros Hserv Ha. unfold metrics_step. case_decide; simpl.
- lra.
- pose proof (waiting_nonneg (nth (S i) route 0)
                (a_time a + VRPInstance.get_distance inst (nth i route 0) (nth (S i) route 0)))
    as Hw.
  assert (Hs : (0 <= inject_Z (VRPInstance.service_time inst (nth (S i) route 0%Z)))%Q).
  { change 0%Q with (inject_Z 0). rewrite <- Zle_Qle. apply Hserv. }
  lra.
Qed.

Lemma fold_metrics_time route (l : list nat) : forall a,
  (forall c, 0 <= VRPInstance.service_time inst c) ->
  (a_distance a <= a_time a)%Q ->
  (a_distance (fold_left (metrics_step inst route) l a)
   <= a_time (fold_left (metrics_step inst route) l a))%Q.
Proof.
induction l as [|i l IH]; intros a Hserv Ha; simpl; [done|].
apply IH; [done|]. by apply metrics_step_time.
Qed.

Lemma route_metrics_spec route :
  let m := _calculate_route_metrics inst route in
  m.1.1.1 = m.1.1.2
  /\ m.2 = route_load inst (tail route)
  /\ ((forall c, 0 <= VRPInstance.service_time inst c) -> (m.1.1.2 <= m.1.2)%Q).
Proof.
unfold _calculate_route_metrics. case_decide as Hlen; simpl.
- split; [done|]. split; [|intros _; lra].
  destruct route as [|x [|y route]]; simpl in *; try done; lia.
- split; [done|]. split.
  + by rewrite fold_metrics_load.
  + intros Hserv. apply fold_metrics_time; [done|]. simpl. lra.
Qed.

(** What the loop of [calculate_cost] keeps true of its totals and lists. *)
Definition filled (seen : list (list Z)) (tt : totals) : Prop :=
  t_cost tt = t_distance tt
  /\ t_vehicle_loads tt = map (fun route => route_load inst (tail route)) seen
  /\ length (t_route_distances tt) = length seen
  /\ length (t_route_times tt) = length seen
  /\ ((forall c, 0 <= VRPInstance.service_time inst c) -> (t_distance tt <= t_time tt)%Q).

Lemma cost_step_filled seen tt route :
  filled seen tt -> filled (seen ++ [route]) (cost_step inst tt route).
Proof.
intros (Hc & Hl & Hd & Ht & Hb). unfold cost_step.
pose proof (route_metrics_spec route) as Hm.
destruct (_calculate_route_metrics inst route) as [[[c d] t] l].
simpl in Hm. destruct Hm as (-> & -> & Hm).
repeat split; simpl.
- by rewrite Hc.
- by rewrite Hl, map_app.
- rewrite !length_app. simpl. lia.
- rewrite !length_app. simpl. lia.
- intros Hserv. specialize (Hb Hserv). specialize (Hm Hserv). lra.
Qed.

Lemma fold_cost_filled rs : forall seen tt,
  filled seen tt -> filled (seen ++ rs) (fold_left (cost_step inst) rs tt).
Proof.
induction rs as [|r rs IH]; intros seen tt H; simpl.
- by rewrite app_nil_r.
- replace (seen ++ r :: rs) with ((seen ++ [r]) ++ rs) by (by rewrite <- app_assoc).
  apply IH. by apply cost_step_filled.
Qed.

End Metrics.

(** After [calculate_cost] on a solution that has an instance:
    [vehicle_loads] holds, for each route in order, the demand of its nodes
    other than the first one, depot visits left out, which is the load that
    [is_feasible] tests when the route leaves from the depot;
    [route_distances] and [route_times] have one entry for each route;
    [total_distance] is [total_cost]; and [total_time] is at least
    [total_distance] when no service time is negative. *)
Theorem calculate_cost_fills_route_lists (s : t) (inst : VRPInstance.t) :
  instance s = Some inst ->
  let s' := (calculate_cost s).2 in
  vehicle_loads s' = map (fun route => route_load inst (tail route)) (routes s)
  /\ (Forall (fun route => head route = Some (VRPInstance.depot inst)) (routes s) ->
      vehicle_loads s' = map (route_load inst) (routes s))
  /\ length (route_distances s') = length (routes s)
  /\ length (route_times s') = length (routes s)
  /\ total_distance s' = total_cost s'
  /\ ((forall c, 0 <= VRPInstance.service_time inst c) ->
      (total_distance s' <= total_time s')%Q).
Proof.
intros Hinst s'. subst s'. unfold calculate_cost. rewrite Hinst. simpl.
destruct (fold_cost_filled inst (routes s) [] (mk_totals 0 0 0 [] [] []))
  as (Hc & Hl & Hd & Ht & Hb).
{ repeat split; simpl; try done; try (intros _; lra). }
simpl in *. split; [done|]. split; [|done].
intros Hheads. rewrite Hl. apply map_ext_Forall.
eapply Forall_impl; [exact Hheads|]. intros [|x route] Hh; [done|].
simpl in Hh. inversion Hh; subst. simpl tail.
rewrite (route_load_cons inst). by rewrite decide_True by done.
Qed.

Lemma calculate_cost_fills_route_lists_witness :
  let s' := (calculate_cost Examples.sol3).2 in
  vehicle_loads s' = [10; 15]
  /\ length (route_distances s') = 2%nat
  /\ total_distance s' = total_cost s'.
Proof.
intros s'.
destruct (calculate_cost_fills_route_lists Examples.sol3 Examples.inst3 eq_refl)
  as (Hl & _ & Hd & _ & Hc & _).
split; [exact Hl|]. split; [exact Hd|exact Hc].
Defined.

End MetricsFacts.

(** ** The capacity constraint *)

Module CapacityFacts.
Import CapacityConstraint.

Section Capacity.
Variable inst : VRPInstance.t.

(** By how much the load of a route exceeds the capacity of its vehicle. *)
Definition excess (ir : nat * list Z) : Z :=
  Z.max 0 (_calculate_route_load inst ir.2 - _get_vehicle_capacity inst ir.1).

Definition total_excess (l : list (nat * list Z)) : Z :=
  foldr (fun ir total => excess ir + total) 0 l.

Definition overload (routes : list (list Z)) : Z :=
  total_excess (imap (fun i route => (i, route)) routes).

Definition fits (ir : nat * list Z) : Prop :=
  _calculate_route_load inst ir.2 <= _get_vehicle_capacity inst ir.1.

Lemma violations_fold (l : list (nat * list Z)) : forall acc,
  let step := fun violations (ir : nat * list Z) =>
    let route_load := _calculate_route_load inst ir.2 in
    let vehicle_capacity := _get_vehicle_capacity inst ir.1 in
    if decide (route_load > vehicle_capacity)
    then violations ++ [mk_violation ir.1 route_load vehicle_capacity]
    else violations in
  (fold_left step l acc = acc <-> Forall fits l)
  /\ (length acc <= length (fold_left step l acc))%nat.
Proof.
induction l as [|ir l IH]; intros acc step; simpl.
- split; [|lia]. split; [constructor|done].
- subst step. simpl. destruct (IH acc) as [IH1 IH1'].
  case_decide as Hover.
  + destruct (IH (acc ++ [mk_violation ir.1 (_calculate_route_load inst ir.2)
                            (_get_vehicle_capacity inst ir.1)])) as [_ IH2].
    simpl in IH2. rewrite length_app in IH2. simpl in IH2. split; [|lia]. split.
    * intros Heq. rewrite Heq in IH2. lia.
    * intros Hall. apply Forall_cons in Hall as [Hfit _]. unfold fits in Hfit. lia.
  + split; [|done]. rewrite IH1. rewrite Forall_cons. unfold fits at 2. split.
    * intros Hall. split; [lia|done].
    * by intros [_ Hall].
Qed.

Lemma penalty_fold (l : list (nat * list Z)) : forall acc : Q,
  let step := fun (total_penalty : Q) (ir : nat * list Z) =>
    let route_load := _calculate_route_load inst ir.2 in
    let vehicle_capacity := _get_vehicle_capacity inst ir.1 in
    if decide (route_load > vehicle_capacity)
    then (total_penalty + inject_Z ((route_load - vehicle_capacity) * 1000))%Q
    else total_penalty in
  (fold_left step l acc
   == acc + inject_Z (1000 * total_excess l))%Q.
Proof.
induction l as [|ir l IH]; intros acc step; simpl.
- change (inject_Z (1000 * 0)) with 0%Q. ring.
- subst step. simpl. rewrite IH. unfold excess. case_decide as Hover.
  + rewrite Z.max_r by lia.
    rewrite <- Qplus_assoc, <- inject_Z_plus.
    apply Qplus_inj_l. f_equiv. lia.
  + rewrite Z.max_l by lia. by rewrite Z.add_0_l.
Qed.

Lemma overload_nonneg (l : list (nat * list Z)) :
  0 <= total_excess l /\ (total_excess l = 0 <-> Forall fits l).
Proof.
induction l as [|ir l [IH1 IH2]]; simpl.
- split; [lia|]. split; [constructor|done].
- assert (He : 0 <= excess ir) by (unfold excess; lia).
  split; [lia|]. rewrite Forall_cons, <- IH2. unfold fits, excess in *. lia.
Qed.

End Capacity.

(** [CapacityConstraint.is_feasible] returns [True] exactly when the load of
    every route is at most the capacity of the vehicle of the same index,
    which is the first of the conditions that [Solution.is_feasible] tests:
    a solution that [Solution.is_feasible] accepts is accepted by the
    capacity constraint of its instance. *)
Theorem capacity_constraint_agrees_with_solution (inst : VRPInstance.t) (s : Solution.t) :
  (is_feasible inst s = true <-> FeasibilityFacts.within_capacity inst (Solution.routes s))
  /\ forall message s',
       Solution.instance s = Some inst ->
       Solution.is_feasible message s = Some (true, s') ->
       is_feasible inst s = true.
Proof.
assert (Hiff : is_feasible inst s = true
               <-> FeasibilityFacts.within_capacity inst (Solution.routes s)).
{ unfold is_feasible, get_violations. rewrite bool_decide_eq_true.
  destruct (violations_fold inst
              (imap (fun i route => (i, route)) (Solution.routes s)) []) as [Hv _].
  simpl in Hv. rewrite length_zero_iff_nil, Hv.
  apply (FeasibilityFacts.Forall_imap_index
           (fun i route => _calculate_route_load inst route <= _get_vehicle_capacity inst i)). }
split; [exact Hiff|].
intros message s' Hinst Hfeas. apply Hiff.
unfold Solution.is_feasible in Hfeas. rewrite Hinst in Hfeas.
inversion Hfeas as [[Hflag Hs']].
destruct (FeasibilityFacts.check_spec inst (Solution.routes s)) as [_ Hf].
apply Hf in Hflag. by destruct Hflag.
Qed.

(** As long as the total is at most 2^53, the range in which every partial
    sum of the penalty is an integer that a float holds exactly,
    [calculate_load_penalty] is 1000 for each unit of demand that a route
    carries above the capacity of its vehicle.  It is never negative, it is
    zero exactly when [is_feasible] returns [True], and it is at least 1000
    otherwise. *)
Theorem load_penalty_measures_overload (inst : VRPInstance.t) (s : Solution.t) :
  1000 * overload inst (Solution.routes s) <= 2 ^ 53 ->
  (calculate_load_penalty inst s
   == inject_Z (1000 * overload inst (Solution.routes s)))%Q
  /\ (0 <= calculate_load_penalty inst s)%Q
  /\ ((calculate_load_penalty inst s == 0)%Q <-> is_feasible inst s = true)
  /\ (is_feasible inst s = false -> (1000 <= calculate_load_penalty inst s)%Q).
Proof.
intros _.
assert (Hp : (calculate_load_penalty inst s
              == inject_Z (1000 * overload inst (Solution.routes s)))%Q).
{ unfold calculate_load_penalty, overload.
  rewrite (penalty_fold inst _ 0%Q). ring. }
destruct (overload_nonneg inst (imap (fun i route => (i, route)) (Solution.routes s)))
  as [Hpos Hzero].
fold (overload inst (Solution.routes s)) in Hpos, Hzero.
assert (Hfeas : is_feasible inst s = true <-> overload inst (Solution.routes s) = 0).
{ rewrite Hzero. unfold is_feasible, get_violations. rewrite bool_decide_eq_true.
  destruct (violations_fold inst
              (imap (fun i route => (i, route)) (Solution.routes s)) []) as [Hv _].
  simpl in Hv. by rewrite length_zero_iff_nil, Hv. }
split; [exact Hp|]. rewrite Hp. split; [|split].
- change 0%Q with (inject_Z 0). rewrite <- Zle_Qle. lia.
- rewrite Hfeas. change 0%Q with (inject_Z 0). rewrite inject_Z_injective. lia.
- intros Hno. change 1000%Q with (inject_Z 1000). rewrite <- Zle_Qle.
  destruct (decide (overload inst (Solution.routes s) = 0)) as [H0|H0]; [|lia].
  apply Hfeas in H0. congruence.
Qed.

Lemma load_penalty_measures_overload_witness :
  overload Examples.inst3 (Solution.routes Examples.sol4) = 5
  /\ (calculate_load_penalty Examples.inst3 Examples.sol4 == 5000)%Q
  /\ is_feasible Examples.inst3 Examples.sol4 = false
  /\ (1000 <= calculate_load_penalty Examples.inst3 Examples.sol4)%Q.
Proof.
assert (Hover : overload Examples.inst3 (Solution.routes Examples.sol4) = 5)
  by (vm_compute; reflexivity).
destruct (load_penalty_measures_overload Examples.inst3 Examples.sol4)
  as (Hp & _ & _ & Hleast).
- rewrite Hover. vm_compute. discriminate.
- split; [exact Hover|]. split; [by rewrite Hp, Hover|].
  split; [vm_compute; reflexivity|]. apply Hleast. vm_compute. reflexivity.
Defined.

End CapacityFacts.

(** ** The time window constraint *)

Module TimeWindowFacts.
Import TimeWindowConstraint.

(** What holds of every entry of a schedule: service starts after the
    waiting, which is never negative, and the vehicle leaves after the
    service. *)
Definition entry_ok (e : node_info) : Prop :=
  (service_start e == arrival_time e + ni_waiting_time e)%Q
  /\ (departure_time e == service_start e + inject_Z (ni_service_time e))%Q
  /\ (0 <= ni_waiting_time e)%Q.

Section Windows.
Variable c : t.
Abbreviation dist := (VRPInstance.get_distance (instance c)).

Lemma fold_time_cost_shift x route n : forall k st,
  fold_left (time_cost_step c (x :: route)) (seq (S k) n) st
  = fold_left (time_cost_step c route) (seq k n) st.
Proof.
induction n as [|n IH]; intros k st; [reflexivity|].
simpl seq. simpl fold_left. rewrite <- IH. reflexivity.
Qed.

Lemma fold_violations_shift route_idx x route n : forall k st,
  fold_left (violations_step c route_idx (x :: route)) (seq (S k) n) st
  = fold_left (violations_step c route_idx route) (seq k n) st.
Proof.
induction n as [|n IH]; intros k st; [reflexivity|].
simpl seq. simpl fold_left. rewrite <- IH. reflexivity.
Qed.

Lemma fold_timing_shift x route n : forall k st,
  fold_left (timing_step c (x :: route)) (seq (S k) n) st
  = fold_left (timing_step c route) (seq k n) st.
Proof.
induction n as [|n IH]; intros k st; [reflexivity|].
simpl seq. simpl fold_left. rewrite <- IH. reflexivity.
Qed.

Lemma service_nonneg n :
  (forall n, 0 <= VRPInstance.service_time (instance c) n) ->
  (0 <= inject_Z (VRPInstance.service_time (instance c) n))%Q.
Proof.
intros H. change 0%Q with (inject_Z 0). rewrite <- Zle_Qle. apply H.
Qed.

(** One turn of the loop of [_calculate_route_time_cost] adds the travel
    time, and more when the node has a window. *)
Lemma time_cost_step_bound route st i :
  (forall n, 0 <= VRPInstance.service_time (instance c) n) ->
  (st.2 + dist (nth i route 0%Z) (nth (S i) route 0%Z)
   <= (time_cost_step c route st i).2)%Q.
Proof.
intros Hserv. unfold time_cost_step.
destruct (window c (nth (S i) route 0%Z)) as [[early late]|]; [|simpl; lra].
pose proof (service_nonneg (nth (S i) route 0%Z) Hserv) as Hs.
destruct (Qltb _ (inject_Z early)) eqn:Hearly.
- apply Qltb_lt in Hearly.
  destruct (allow_waiting c && Qle_bool _ _); simpl; lra.
- destruct (Qltb (inject_Z late) _) eqn:Hlate; simpl; [|lra].
  apply Qltb_lt in Hlate. lra.
Qed.

Lemma time_cost_step_plain route st i :
  window c (nth (S i) route 0%Z) = None ->
  (time_cost_step c route st i).2
  = (st.2 + dist (nth i route 0%Z) (nth (S i) route 0%Z))%Q.
Proof.
intros Hw. unfold time_cost_step. by rewrite Hw.
Qed.

Lemma fold_time_cost_bound route : forall st,
  (forall n, 0 <= VRPInstance.service_time (instance c) n) ->
  (st.2 + Solution.consecutive_sum dist route
   <= (fold_left (time_cost_step c route) (seq 0 (length route - 1)) st).2)%Q.
Proof.
induction route as [|x route IH]; intros st Hserv.
- simpl. lra.
- destruct route as [|y route].
  + simpl. lra.
  + replace (length (x :: y :: route) - 1)%nat with (S (length (y :: route) - 1))
      by (simpl; lia).
    simpl seq. cbn [fold_left]. rewrite fold_time_cost_shift.
    eapply Qle_trans; [|exact (IH (time_cost_step c (x :: y :: route) st 0) Hserv)].
    pose proof (time_cost_step_bound (x :: y :: route) st 0 Hserv) as H2.
    simpl nth in H2.
    change (Solution.consecutive_sum dist (x :: y :: route))
      with (dist x y + Solution.consecutive_sum dist (y :: route))%Q.
    lra.
Qed.

Lemma fold_time_cost_plain route : forall st,
  (forall n, window c n = None) ->
  ((fold_left (time_cost_step c route) (seq 0 (length route - 1)) st).2
   == st.2 + Solution.consecutive_sum dist route)%Q.
Proof.
induction route as [|x route IH]; intros st Hw.
- simpl. lra.
- destruct route as [|y route].
  + simpl. lra.
  + replace (length (x :: y :: route) - 1)%nat with (S (length (y :: route) - 1))
      by (simpl; lia).
    simpl seq. cbn [fold_left]. rewrite fold_time_cost_shift.
    rewrite (IH _ Hw). rewrite time_cost_step_plain by apply Hw.
    simpl nth.
    change (Solution.consecutive_sum dist (x :: y :: route))
      with (dist x y + Solution.consecutive_sum dist (y :: route))%Q.
    lra.
Qed.

Lemma route_time_cost_bound route :
  (forall n, 0 <= VRPInstance.service_time (instance c) n) ->
  (Solution.consecutive_sum dist route <= _calculate_route_time_cost c route)%Q.
Proof.
intros Hserv. unfold _calculate_route_time_cost. case_decide as Hlen.
- destruct route as [|x [|y route]]; simpl in *; try lra; lia.
- pose proof (fold_time_cost_bound route (0%Q, 0%Q) Hserv) as H. simpl in H. lra.
Qed.

Lemma route_time_cost_plain route :
  (forall n, window c n = None) ->
  (_calculate_route_time_cost c route == Solution.consecutive_sum dist route)%Q.
Proof.
intros Hw. unfold _calculate_route_time_cost. case_decide as Hlen.
- destruct route as [|x [|y route]]; simpl in *; try lra; lia.
- rewrite (fold_time_cost_plain route (0%Q, 0%Q) Hw). simpl. lra.
Qed.

Lemma fold_route_costs (P : Q -> Q -> Prop) (rs : list (list Z)) :
  (forall route, P (Solution.consecutive_sum dist route) (_calculate_route_time_cost c route)) ->
  (forall a b a' b', P a b -> P a' b' -> P (a + a')%Q (b + b')%Q) ->
  (forall a a' b b', (a == a')%Q -> (b == b')%Q -> P a b -> P a' b') ->
  forall acc acc', P acc acc' ->
    P (acc + Solution.spec_cost dist rs)%Q
      (fold_left (fun total_cost route =>
                    (total_cost + _calculate_route_time_cost c route)%Q) rs acc').
Proof.
intros Hroute Hadd Hext. induction rs as [|r rs IH]; intros acc acc' Hacc; simpl.
- eapply Hext; [| |exact Hacc]; [ring|reflexivity].
- eapply Hext; [| |apply (IH (acc + Solution.consecutive_sum dist r)%Q
                            (acc' + _calculate_route_time_cost c r)%Q)];
    [ring|reflexivity|]. by apply Hadd.
Qed.

Lemma violations_step_plain route_idx route st i :
  window c (nth (S i) route 0%Z) = None ->
  (violations_step c route_idx route st i).2 = st.2.
Proof.
intros Hw. unfold violations_step. by rewrite Hw.
Qed.

Lemma fold_violations_plain route_idx route (l : list nat) : forall st,
  (forall n, window c n = None) ->
  (fold_left (violations_step c route_idx route) l st).2 = st.2.
Proof.
induction l as [|i l IH]; intros st Hw; simpl; [done|].
rewrite IH by done. by apply violations_step_plain.
Qed.

Lemma get_violations_plain (rs : list (nat * list Z)) : forall acc,
  (forall n, window c n = None) ->
  fold_left (fun violations (ir : nat * list Z) =>
               (fold_left (violations_step c ir.1 ir.2) (seq 0 (length ir.2 - 1))
                          (0%Q, violations)).2) rs acc = acc.
Proof.
induction rs as [|ir rs IH]; intros acc Hw; simpl; [done|].
rewrite fold_violations_plain by done. simpl. by apply IH.
Qed.

(** One turn of the loop of [get_route_time_info]. *)
Lemma timing_step_spec route st i :
  let st' := timing_step c route st i in
  (t_current_time st' - t_total_waiting st' - t_total_service st'
   == t_current_time st - t_total_waiting st - t_total_service st
      + dist (nth i route 0%Z) (nth (S i) route 0%Z))%Q
  /\ (t_total_waiting st <= t_total_waiting st')%Q
  /\ exists e, t_schedule st' = t_schedule st ++ [e]
               /\ node e = nth (S i) route 0%Z /\ entry_ok e.
Proof.
unfold timing_step.
destruct (window c (nth (S i) route 0%Z)) as [[early late]|].
- destruct (Qltb _ (inject_Z early)) eqn:Hearly.
  + apply Qltb_lt in Hearly. simpl. split; [ring|]. split; [lra|].
    eexists. split; [reflexivity|]. split; [reflexivity|].
    unfold entry_ok. simpl. split; [ring|]. split; [reflexivity|lra].
  + destruct (Qltb (inject_Z late) _); simpl.
    * split; [ring|]. split; [lra|].
      eexists. split; [reflexivity|]. split; [reflexivity|].
      unfold entry_ok. simpl. split; [ring|]. split; [reflexivity|lra].
    * split; [ring|]. split; [lra|].
      eexists. split; [reflexivity|]. split; [reflexivity|].
      unfold entry_ok. simpl. split; [ring|]. split; [reflexivity|lra].
- simpl. split; [ring|]. split; [lra|].
  eexists. split; [reflexivity|]. split; [reflexivity|].
  unfold entry_ok. simpl. split; [ring|]. split; [ring|lra].
Qed.

Lemma fold_timing_spec route : forall st,
  let st' := fold_left (timing_step c route) (seq 0 (length route - 1)) st in
  (t_current_time st' - t_total_waiting st' - t_total_service st'
   == t_current_time st - t_total_waiting st - t_total_service st
      + Solution.consecutive_sum dist route)%Q
  /\ (t_total_waiting st <= t_total_waiting st')%Q
  /\ exists entries, t_schedule st' = t_schedule st ++ entries
                     /\ map node entries = tail route /\ Forall entry_ok entries.
Proof.
induction route as [|x route IH]; intros st.
- simpl. split; [ring|]. split; [lra|]. exists []. by rewrite app_nil_r.
- destruct route as [|y route].
  + simpl. split; [ring|]. split; [lra|]. exists []. by rewrite app_nil_r.
  + replace (length (x :: y :: route) - 1)%nat with (S (length (y :: route) - 1))
      by (simpl; lia).
    simpl seq. cbn [fold_left]. rewrite fold_timing_shift.
    destruct (timing_step_spec (x :: y :: route) st 0) as (H1 & H2 & e & He & Hn & Hok).
    simpl nth in H1, Hn.
    destruct (IH (timing_step c (x :: y :: route) st 0)) as (H3 & H4 & es & Hes & Hns & Hall).
    cbv zeta. split; [|split].
    * rewrite H3, H1.
      change (Solution.consecutive_sum dist (x :: y :: route))
        with (dist x y + Solution.consecutive_sum dist (y :: route))%Q.
      ring.
    * eapply Qle_trans; [exact H2|exact H4].
    * exists (e :: es). split; [|split].
      -- etrans; [exact Hes|]. rewrite He. by rewrite <- app_assoc.
      -- simpl. rewrite Hn, Hns. done.
      -- by constructor.
Qed.

End Windows.

Lemma no_windows (c : t) :
  VRPInstance.time_windows (instance c) = ∅ -> forall n, window c n = None.
Proof.
intros Hw n. unfold window. case_decide; [done|]. by rewrite Hw, lookup_empty.
Qed.

(** On an instance without time windows the constraint has nothing to
    report: [get_violations] returns the empty list, [is_feasible] returns
    [True], and [calculate_time_cost] is the travel distance of the
    solution, the sum over all routes of the distances between consecutive
    nodes; service times are not counted. *)
Theorem time_cost_without_windows (c : t) (s : Solution.t) :
  VRPInstance.time_windows (instance c) = ∅ ->
  get_violations c s = []
  /\ is_feasible c s = true
  /\ (calculate_time_cost c s
      == Solution.spec_cost (VRPInstance.get_distance (instance c)) (Solution.routes s))%Q.
Proof.
intros Hw. pose proof (no_windows c Hw) as Hnone.
assert (Hv : get_violations c s = []).
{ unfold get_violations. by apply get_violations_plain. }
split; [done|]. split; [unfold is_feasible; by rewrite Hv|].
unfold calculate_time_cost.
pose proof (fold_route_costs c (fun a b => (b == a)%Q) (Solution.routes s)) as H.
simpl in H. rewrite (H (fun route => route_time_cost_plain c route Hnone)) with (acc := 0%Q).
- ring.
- intros a b a' b' -> ->. reflexivity.
- intros a a' b b' <- <-. done.
- reflexivity.
Qed.

Lemma time_cost_without_windows_witness :
  get_violations (new Examples.inst3) Examples.sol3 = []
  /\ is_feasible (new Examples.inst3) Examples.sol3 = true
  /\ (calculate_time_cost (new Examples.inst3) Examples.sol3
      == Solution.spec_cost (VRPInstance.get_distance Examples.inst3)
           (Solution.routes Examples.sol3))%Q.
Proof.
apply (time_cost_without_windows (new Examples.inst3) Examples.sol3). reflexivity.
Defined.

(** When no service time is negative, [calculate_time_cost] is at least the
    travel distance of the solution: waiting, earliness and lateness only
    add to it. *)
Theorem time_cost_at_least_distance (c : t) (s : Solution.t) :
  (forall n, 0 <= VRPInstance.service_time (instance c) n) ->
  (Solution.spec_cost (VRPInstance.get_distance (instance c)) (Solution.routes s)
   <= calculate_time_cost c s)%Q.
Proof.
intros Hserv. unfold calculate_time_cost.
pose proof (fold_route_costs c (fun a b => (a <= b)%Q) (Solution.routes s)) as H.
simpl in H.
specialize (H (fun route => route_time_cost_bound c route Hserv)).
assert (H0 : (0 + Solution.spec_cost (VRPInstance.get_distance (instance c))
                    (Solution.routes s)
              <= fold_left (fun total_cost route =>
                              (total_cost + _calculate_route_time_cost c route)%Q)
                           (Solution.routes s) 0)%Q).
{ apply H.
  - intros a b a' b' H1 H2. lra.
  - intros a a' b b' H1 H2 H3. lra.
  - lra. }
lra.
Qed.

Lemma time_cost_at_least_distance_witness :
  (Solution.spec_cost (VRPInstance.get_distance Examples.inst_late) [[0; 10; 0]]%Z
   <= calculate_time_cost (new Examples.inst_late)
        (Solution.set_routes (Solution.new (Some Examples.inst_late)) [[0; 10; 0]]%Z))%Q.
Proof.
apply (time_cost_at_least_distance (new Examples.inst_late)
         (Solution.set_routes (Solution.new (Some Examples.inst_late)) [[0; 10; 0]]%Z)).
intros n. unfold VRPInstance.service_time. simpl. rewrite lookup_empty. simpl. lia.
Defined.

(** The report of [get_route_time_info] adds up: the total time of a route
    is its travel distance plus the waiting and the service times it
    reports, and the waiting time is never negative.  For a route of two
    nodes or more the schedule has one entry for each node after the first,
    in order; on each entry service starts at the arrival plus the waiting
    and the vehicle leaves when the service ends.  A shorter route has no
    schedule. *)
Theorem route_time_info_adds_up (c : t) (route : list Z) :
  let info := get_route_time_info c route in
  (total_time info
   == Solution.consecutive_sum (VRPInstance.get_distance (instance c)) route
      + waiting_time info + service_time info)%Q
  /\ (0 <= waiting_time info)%Q
  /\ match schedule info with
     | Some entries =>
         (2 <= length route)%nat /\ map node entries = tail route
         /\ Forall entry_ok entries
     | None => (length route < 2)%nat
     end.
Proof.
unfold get_route_time_info. case_decide as Hlen; simpl.
- split; [|split; [lra|done]].
  destruct route as [|x [|y route]]; simpl in *; try lra; lia.
- destruct (fold_timing_spec c route (mk_timing 0 0 0 [] []))
    as (H1 & H2 & es & Hes & Hns & Hall).
  simpl in H1, H2, Hes. split; [lra|]. split; [lra|].
  rewrite Hes. split; [lia|]. done.
Qed.

End TimeWindowFacts.

(** ** The fleet constraint *)

Module FleetFacts.
Import FleetConstraint.

Lemma type_fixed_cost_bounds vehicle_type : 100 <= type_fixed_cost vehicle_type <= 200.
Proof. unfold type_fixed_cost. repeat case_decide; lia. Qed.

Lemma used_fold (l : list (nat * list Z)) : forall used : gset nat,
  fold_left (fun used (ir : nat * list Z) =>
               if decide (2 < length ir.2)%nat then used ∪ {[ir.1]} else used) l used
  = used ∪ list_to_set (map fst (filter (fun ir : nat * list Z => (2 < length ir.2)%nat) l)).
Proof.
induction l as [|ir l IH]; intros used; simpl.
- set_solver.
- rewrite IH. case_decide.
  + rewrite filter_cons_True by done. simpl. set_solver.
  + by rewrite filter_cons_False by done.
Qed.

Lemma filter_indexed (P : list Z -> Prop) `{!forall route, Decision (P route)}
    (rs : list (list Z)) : forall g : nat -> nat,
  map snd (filter (fun ir : nat * list Z => P ir.2)
                  (imap (fun i route => (g i, route)) rs))
  = filter P rs.
Proof.
induction rs as [|r rs IH]; intros g; simpl; [done|].
destruct (decide (P r)).
- rewrite !filter_cons_True by done. simpl. f_equal. apply (IH (g ∘ S)).
- rewrite !filter_cons_False by done. apply (IH (g ∘ S)).
Qed.

Lemma used_vehicles_size (s : Solution.t) :
  size (used_vehicles s)
  = length (filter (fun route : list Z => (2 < length route)%nat) (Solution.routes s)).
Proof.
unfold used_vehicles. rewrite used_fold, union_empty_l_L.
rewrite size_list_to_set.
- rewrite length_map.
  rewrite <- (filter_indexed (fun route => (2 < length route)%nat) (Solution.routes s) id).
  by rewrite length_map.
- assert (Hsub : map fst (filter (fun ir : nat * list Z => (2 < length ir.2)%nat)
                            (imap (fun i route => (i, route)) (Solution.routes s)))
                 `sublist_of` map fst (imap (fun i route => (i, route)) (Solution.routes s))).
  { apply fmap_sublist, sublist_filter. }
  eapply sublist_NoDup; [|exact Hsub].
  rewrite fmap_imap.
  rewrite (imap_ext _ (fun i _ => id i)) by done.
  rewrite imap_seq_0, list_fmap_id. apply NoDup_seq.
Qed.

Lemma used_vehicles_elem (s : Solution.t) (i : nat) :
  i ∈ used_vehicles s
  <-> exists route, Solution.routes s !! i = Some route /\ (2 < length route)%nat.
Proof.
unfold used_vehicles. rewrite used_fold, union_empty_l_L.
rewrite elem_of_list_to_set, list_elem_of_fmap. split.
- intros ([j route] & -> & Hin). apply list_elem_of_filter in Hin as [Hlen Hin].
  apply elem_of_lookup_imap in Hin as (k & r & Heq & Hk). inversion Heq; subst.
  by exists r.
- intros (route & Hi & Hlen). exists (i, route). split; [done|].
  apply list_elem_of_filter. split; [done|].
  by apply (elem_of_lookup_imap_2 (fun i route => (i, route))).
Qed.

Lemma fleet_cost_fold (c : t) (X : gset nat) :
  let cost := set_fold (fun vehicle_id (total_cost : Q) =>
                let vehicle_type :=
                  default "medium"%string (vehicle_types c !! Z.of_nat vehicle_id) in
                (total_cost + inject_Z (type_fixed_cost vehicle_type))%Q) 0%Q X in
  (inject_Z (100 * Z.of_nat (size X)) <= cost)%Q
  /\ (cost <= inject_Z (200 * Z.of_nat (size X)))%Q
  /\ (vehicle_types c = ∅ -> (cost == inject_Z (150 * Z.of_nat (size X)))%Q).
Proof.
cbv zeta.
apply (set_fold_ind_L (fun (r : Q) (X : gset nat) =>
         (inject_Z (100 * Z.of_nat (size X)) <= r)%Q
         /\ (r <= inject_Z (200 * Z.of_nat (size X)))%Q
         /\ (vehicle_types c = ∅ -> (r == inject_Z (150 * Z.of_nat (size X)))%Q))).
- rewrite size_empty. simpl. split; [|split]; [done|done|]. intros _. reflexivity.
- intros x Y r Hx (H1 & H2 & H3).
  rewrite size_union by set_solver. rewrite size_singleton.
  pose proof (type_fixed_cost_bounds
                (default "medium"%string (vehicle_types c !! Z.of_nat x))) as [Hlo Hhi].
  rewrite Zle_Qle in Hlo, Hhi.
  change (inject_Z 100) with 100%Q in Hlo. change (inject_Z 200) with 200%Q in Hhi.
  replace (100 * Z.of_nat (1 + size Y)) with (100 + 100 * Z.of_nat (size Y)) by lia.
  replace (200 * Z.of_nat (1 + size Y)) with (200 + 200 * Z.of_nat (size Y)) by lia.
  replace (150 * Z.of_nat (1 + size Y)) with (150 + 150 * Z.of_nat (size Y)) by lia.
  rewrite !inject_Z_plus.
  change (inject_Z 100) with 100%Q. change (inject_Z 200) with 200%Q.
  change (inject_Z 150) with 150%Q. split; [|split].
  + lra.
  + lra.
  + intros Hempty. rewrite (H3 Hempty). rewrite Hempty, lookup_empty. simpl.
    change (type_fixed_cost "medium") with 150. ring.
Qed.

(** What a message on compatibility says is true of the solution: the
    customer is on the route, the route has a typed vehicle, and the set of
    types allowed for the customer is not empty and does not hold that
    type. *)
Definition sound (c : t) (routes : list (list Z)) (v : violation) : Prop :=
  match v with
  | CannotBeServed i customer vehicle_type =>
      exists route allowed_types,
        routes !! i = Some route /\ customer ∈ route
        /\ customer ≠ VRPInstance.depot (instance c)
        /\ vehicle_types c !! Z.of_nat i = Some vehicle_type
        /\ compatibility_matrix c !! customer = Some allowed_types
        /\ allowed_types ≠ ∅ /\ vehicle_type ∉ allowed_types
  | LoadExceeds _ _ _ _ => True
  end.

Lemma get_violations_sound (c : t) (s : Solution.t) :
  Forall (sound c (Solution.routes s)) (get_violations c s).
Proof.
unfold get_violations.
apply NeighborhoodFacts.fold_left_Forall; [|constructor].
intros acc [i route] Hin Hacc.
apply elem_of_lookup_imap in Hin as (k & r & Heq & Hk). inversion Heq; subst k r.
unfold route_step. simpl.
destruct (vehicle_types c !! Z.of_nat i) as [vehicle_type|] eqn:Hty; [|done].
assert (Hcompat : Forall (sound c (Solution.routes s))
                    (fold_left (compatibility_step c i vehicle_type) route acc)).
{ apply NeighborhoodFacts.fold_left_Forall; [|done].
  intros acc' customer Hcust Hacc'. unfold compatibility_step.
  case_decide as Hdepot; [done|].
  destruct (compatibility_matrix c !! customer) as [allowed|] eqn:Hallowed; [|done].
  destruct (bool_decide (allowed ≠ ∅)) eqn:Hne; [|done].
  destruct (bool_decide (vehicle_type ∉ allowed)) eqn:Hnot; [|done]. simpl.
  apply bool_decide_eq_true in Hne, Hnot.
  apply Forall_app. split; [done|]. constructor; [|constructor].
  simpl. by exists route, allowed. }
case_decide; [|done]. apply Forall_app. split; [done|]. by repeat constructor.
Qed.

Lemma compatible_vehicles_elem (c : t) (customer v : Z) :
  v ∈ get_compatible_vehicles c customer
  <-> exists vehicle_type,
        vehicle_types c !! v = Some vehicle_type
        /\ vehicle_type ∈ default (dom (type_capacities c))
                                 (compatibility_matrix c !! customer).
Proof.
unfold get_compatible_vehicles.
set (allowed := default (dom (type_capacities c)) (compatibility_matrix c !! customer)).
apply (map_fold_weak_ind (fun (r : gset Z) (m : gmap Z string) =>
         v ∈ r <-> exists vehicle_type, m !! v = Some vehicle_type /\ vehicle_type ∈ allowed)).
- split; [set_solver|]. intros (ty & H & _). by rewrite lookup_empty in H.
- intros i ty m r Hi IH. destruct (decide (v = i)) as [->|Hvi].
  + rewrite lookup_insert_eq. case_decide as Hty.
    * split; [|set_solver]. intros _. by exists ty.
    * rewrite IH. rewrite Hi. split; [by intros (? & ? & _)|].
      intros (ty' & Heq & Hin). by inversion Heq; subst.
  + rewrite lookup_insert_ne by done. case_decide; [|done].
    rewrite elem_of_union, IH. set_solver.
Qed.

(** [calculate_fleet_cost] charges each route of more than two nodes, and no
    other route, between 100 and 200: the cost lies between 100 and 200 times
    the number of such routes, and is 150 times that number when no vehicle
    has been given a type. *)
Theorem fleet_cost_counts_routes_with_customers (c : t) (s : Solution.t) :
  let used := length (filter (fun route : list Z => (2 < length route)%nat)
                             (Solution.routes s)) in
  (inject_Z (100 * Z.of_nat used) <= calculate_fleet_cost c s)%Q
  /\ (calculate_fleet_cost c s <= inject_Z (200 * Z.of_nat used))%Q
  /\ (vehicle_types c = ∅ ->
      (calculate_fleet_cost c s == inject_Z (150 * Z.of_nat used))%Q).
Proof.
intros used. subst used. rewrite <- used_vehicles_size.
apply (fleet_cost_fold c (used_vehicles s)).
Qed.

(** A solution in which every customer of a route with a typed vehicle has
    that vehicle among [get_compatible_vehicles(customer)] gets no message
    that a customer cannot be served.  The two functions part on a customer
    whose set of allowed types is empty: it has no compatible vehicle, yet
    no message of [get_violations] ever names it. *)
Theorem compatible_vehicles_give_no_type_violation (c : t) (s : Solution.t) :
  ((forall i route customer,
      Solution.routes s !! i = Some route -> customer ∈ route ->
      customer ≠ VRPInstance.depot (instance c) ->
      is_Some (vehicle_types c !! Z.of_nat i) ->
      Z.of_nat i ∈ get_compatible_vehicles c customer) ->
   forall i customer vehicle_type,
     CannotBeServed i customer vehicle_type ∉ get_violations c s)
  /\ (forall customer,
        compatibility_matrix c !! customer = Some ∅ ->
        get_compatible_vehicles c customer = ∅
        /\ forall i vehicle_type,
             CannotBeServed i customer vehicle_type ∉ get_violations c s).
Proof.
pose proof (get_violations_sound c s) as Hsound. rewrite Forall_forall in Hsound.
split.
- intros Hcompat i customer ty Hin. apply Hsound in Hin.
  destruct Hin as (route & allowed & Hi & Hcust & Hdepot & Hty & Hallowed & Hne & Hnot).
  specialize (Hcompat i route customer Hi Hcust Hdepot ltac:(by rewrite Hty)).
  apply compatible_vehicles_elem in Hcompat as (ty' & Hty' & Hin').
  rewrite Hty in Hty'. inversion Hty'; subst ty'.
  rewrite Hallowed in Hin'. simpl in Hin'. done.
- intros customer Hempty. split.
  + apply set_eq. intros v. rewrite compatible_vehicles_elem, Hempty. simpl.
    set_solver.
  + intros i ty Hin. apply Hsound in Hin.
    destruct Hin as (route & allowed & _ & _ & _ & _ & Hallowed & Hne & _).
    rewrite Hempty in Hallowed. by inversion Hallowed; subst.
Qed.

End FleetFacts.

(** ** Travel times under traffic *)

Module TrafficFacts.
Import DynamicTrafficConstraint.

Lemma base_factor_bounds (hour : Z) (f : Q) :
  base_factors !! hour = Some f -> (8 # 10 <= f)%Q /\ (f <= 17 # 10)%Q /\ 0 <= hour < 24.
Proof.
unfold base_factors. intros H. apply elem_of_list_to_map_2 in H.
repeat (apply elem_of_cons in H as [H|H];
        [inversion H; subst; split; [|split]; [by vm_compute|by vm_compute|lia]|]).
by apply elem_of_nil in H.
Qed.

Lemma factor_bounds (hour : Z) :
  (8 # 10 <= default 1%Q (base_factors !! hour))%Q
  /\ (default 1%Q (base_factors !! hour) <= 17 # 10)%Q
  /\ (24 <= hour -> default 1%Q (base_factors !! hour) = 1%Q).
Proof.
destruct (base_factors !! hour) as [f|] eqn:Hf; simpl.
- destruct (base_factor_bounds hour f Hf) as (H1 & H2 & H3). split; [done|].
  split; [done|]. lia.
- split; [by vm_compute|]. split; [by vm_compute|done].
Qed.

Lemma range_elem (n hour : Z) : hour ∈ range n <-> 0 <= hour < n.
Proof.
unfold range. rewrite list_elem_of_fmap. split.
- intros (k & -> & Hk). apply elem_of_seq in Hk. lia.
- intros H. exists (Z.to_nat hour). split; [lia|]. apply elem_of_seq. lia.
Qed.

Lemma matrices_fold (matrix : Z -> Z -> Q) (factor : Z -> Q) (l : list Z) (hour : Z) :
  forall acc : gmap Z (Z -> Z -> Q),
  fold_left (fun matrices hour =>
               <[hour := fun a b => (matrix a b * factor hour)%Q]> matrices) l acc !! hour
  = if decide (hour ∈ l)
    then Some (fun a b => (matrix a b * factor hour)%Q)
    else acc !! hour.
Proof.
induction l as [|h l IH]; intros acc; cbn [fold_left].
- rewrite decide_False; [done|]. apply not_elem_of_nil.
- rewrite IH. destruct (decide (hour ∈ l)) as [Hin|Hnot].
  + rewrite decide_True; [done|]. by constructor.
  + destruct (decide (hour = h)) as [->|Hne].
    * rewrite decide_True; [|constructor]. apply lookup_insert_eq.
    * rewrite decide_False; [|rewrite elem_of_cons; tauto].
      by apply lookup_insert_ne.
Qed.

(** [get_travel_time] on a constraint as [DynamicTrafficConstraint(instance,
    time_horizon)] builds it.  With a positive horizon and a distance matrix,
    the travel time is the distance of the matrix times the factor of the
    hour, which lies between 0.8 and 1.7 and is 1 for the hours from 24 on.
    With a negative horizon, or without a distance matrix, no traffic matrix
    exists and the travel time is the distance of the instance.  With a
    horizon of 0 it raises [ZeroDivisionError]. *)
Theorem travel_time_follows_hourly_factor
    (inst : VRPInstance.t) (time_horizon from_node to_node : Z) (departure_time : Q) :
  let hour := int_of departure_time `mod` time_horizon in
  (time_horizon = 0 ->
   get_travel_time (new inst time_horizon) from_node to_node departure_time = None)
  /\ (time_horizon < 0 \/ (time_horizon ≠ 0 /\ VRPInstance.distance_matrix inst = None) ->
      get_travel_time (new inst time_horizon) from_node to_node departure_time
      = Some (VRPInstance.get_distance inst from_node to_node))
  /\ (forall matrix,
        0 < time_horizon -> VRPInstance.distance_matrix inst = Some matrix ->
        exists factor,
          get_travel_time (new inst time_horizon) from_node to_node departure_time
          = Some (matrix from_node to_node * factor)%Q
          /\ factor = default 1%Q (base_factors !! hour)
          /\ (8 # 10 <= factor)%Q /\ (factor <= 17 # 10)%Q
          /\ (24 <= hour -> factor = 1%Q)).
Proof.
intros hour. unfold get_travel_time, new.
cbn [DynamicTrafficConstraint.time_horizon DynamicTrafficConstraint.traffic_matrices
     DynamicTrafficConstraint.instance]. split; [|split].
- intros ->. rewrite decide_True; done.
- intros [Hneg|[Hnz Hnone]].
  + rewrite decide_False by lia.
    assert (Hrange : range time_horizon = []).
    { unfold range. by replace (Z.to_nat time_horizon) with 0%nat by lia. }
    rewrite Hrange. cbn [fold_left].
    destruct (VRPInstance.distance_matrix inst); by rewrite lookup_empty.
  + rewrite decide_False by done. rewrite Hnone. by rewrite lookup_empty.
- intros matrix Hpos Hmatrix. rewrite decide_False by lia. rewrite Hmatrix.
  fold hour.
  rewrite (matrices_fold matrix (fun h => default 1%Q (base_factors !! h))).
  rewrite decide_True by (apply range_elem, Z.mod_pos_bound; lia).
  destruct (factor_bounds hour) as (H1 & H2 & H3).
  exists (default 1%Q (base_factors !! hour)). split; [reflexivity|].
  split; [reflexivity|]. split; [exact H1|]. split; [exact H2|exact H3].
Qed.

Lemma travel_time_follows_hourly_factor_witness :
  get_travel_time (new Examples.inst3 0) 0 1 0 = None
  /\ get_travel_time (new Examples.inst3 (-1)) 0 1 0
     = Some (VRPInstance.get_distance Examples.inst3 0 1)
  /\ exists factor,
       get_travel_time (new Examples.inst3 24) 0 1 (17 # 2)
       = Some (Examples.line_distance 0 1 * factor)%Q
       /\ factor = default 1%Q (base_factors !! 8)
       /\ (8 # 10 <= factor)%Q /\ (factor <= 17 # 10)%Q
       /\ (24 <= 8 -> factor = 1%Q).
Proof.
destruct (travel_time_follows_hourly_factor Examples.inst3 0 0 1 0) as (H1 & _ & _).
destruct (travel_time_follows_hourly_factor Examples.inst3 (-1) 0 1 0) as (_ & H2 & _).
destruct (travel_time_follows_hourly_factor Examples.inst3 24 0 1 (17 # 2))
  as (_ & _ & H3).
split; [by apply H1|]. split; [apply H2; left; lia|].
apply (H3 Examples.line_distance); [lia|reflexivity].
Defined.

End TrafficFacts.
